(** * HDF4 chunked-element storage engine (hdf/src/hchunks.c) and the
      SZIP codec adapter (hdf/src/cszip.c): a shallow embedding.

    The development follows the C sources function by function.  C [int32]
    values are integers of [Z] with the two's-complement wrap-around of
    additions and multiplications written out; C arrays are lists updated by
    index; the chunk directory index (a TBBT tree keyed by chunk number) is
    a finite map; stateful routines thread an explicit world through a small
    state-and-error monad. *)

From Stdlib Require Import ZArith List Lia.
From stdpp Require Import base numbers option list gmap.

Local Open Scope Z_scope.

(* [set_solver] clears hypotheses it has consumed already. *)
Set Warnings "-clear-no-such-hyp".

(** ** C integer arithmetic *)

Module Int32.

Definition min_signed : Z := - 2 ^ 31.
Definition max_signed : Z := 2 ^ 31 - 1.

(** Two's-complement reduction of an integer to the [int32] range. *)
Definition wrap (z : Z) : Z := (z + 2 ^ 31) mod 2 ^ 32 - 2 ^ 31.

Definition in_range (z : Z) : Prop := min_signed <= z <= max_signed.

Definition add (a b : Z) : Z := wrap (a + b).
Definition sub (a b : Z) : Z := wrap (a - b).
Definition mul (a b : Z) : Z := wrap (a * b).
(** C99 [/] and [%] truncate towards zero. *)
Definition div (a b : Z) : Z := wrap (Z.quot a b).
Definition rem (a b : Z) : Z := Z.rem a b.

End Int32.

Notation "a +i b" := (Int32.add a b) (at level 50, left associativity).
Notation "a -i b" := (Int32.sub a b) (at level 50, left associativity).
Notation "a *i b" := (Int32.mul a b) (at level 40, left associativity).
Notation "a /i b" := (Int32.div a b) (at level 40, left associativity).
Notation "a %i b" := (Int32.rem a b) (at level 40, left associativity).

(** ** Chunk geometry (hchunks.c, [DIM_REC] and [HCHUNK_DEF]) *)

(** Structure for each data array dimension. *)
Record DIM_REC := mkDIM_REC {
  dim_flag : Z;          (* flag *)
  dim_length : Z;        (* length of this dimension *)
  chunk_length : Z;      (* chunk length along this dimension *)
  distrib_type : Z;      (* data distribution along this dimension *)
  unlimited : Z;         (* regular(0) or unlimited dimension(1) *)
  last_chunk_length : Z; (* last chunk length along this dimension *)
  num_chunks : Z         (* i.e. "dim_length / chunk_length" *)
}.

(** The record [create_dim_recs] initialises every dimension with. *)
Definition DIM_REC_zero : DIM_REC := mkDIM_REC 0 0 0 0 0 0 0.

Global Instance DIM_REC_inhabited : Inhabited DIM_REC := populate DIM_REC_zero.

(** One entry of [chk_array->pdims] as the caller of [HMCcreate] passes it. *)
Record DIM_DEF := mkDIM_DEF {
  pdim_distrib_type : Z;
  pdim_dim_length : Z;
  pdim_chunk_length : Z
}.

(** Body of the loop "Copy info from input to dimension arrays" of
    [HMCcreate] (hchunks.c:1525-1552) for one dimension.  The record starts
    as [create_dim_recs] left it, so [unlimited] is 0 unless set here. *)
Definition HMCcreate_dim (p : DIM_DEF) : DIM_REC :=
  let unlim := if pdim_dim_length p =? 0 then 1 else 0 in
  let dlen := if pdim_dim_length p =? 0 then pdim_chunk_length p
              else pdim_dim_length p in
  let flag := Z.land 65535 (Z.lor (Z.shiftl unlim 8) (pdim_distrib_type p)) in
  let clen := pdim_chunk_length p in
  let nchunks := dlen /i clen in
  let odd_size := dlen %i clen in
  if odd_size =? 0
  then mkDIM_REC flag dlen clen (pdim_distrib_type p) unlim clen nchunks
  else mkDIM_REC flag dlen clen (pdim_distrib_type p) unlim odd_size (nchunks +i 1).

(** The derived geometry of [HMCcreate]: the dimension records, the number
    of pages [npages] and the logical element length [data_len]. *)
Definition HMCcreate_ddims (pdims : list DIM_DEF) : list DIM_REC :=
  HMCcreate_dim <$> pdims.

Definition HMCcreate_npages (ddims : list DIM_REC) : Z :=
  fold_left (fun npages d => npages *i num_chunks d) ddims 1.

Definition HMCcreate_data_len (ddims : list DIM_REC) : Z :=
  fold_left (fun data_len d => data_len *i dim_length d) ddims 1.

(** The same derivation as [HMCIstaccess] performs when it decodes a
    dimension from the stored header (hchunks.c:1005-1024). *)
Definition HMCIstaccess_dim (flag dlen clen : Z) : DIM_REC :=
  let dtype := Z.land 255 flag in
  let unlim := Z.land 255 (Z.shiftr flag 8) in
  let nchunks := dlen /i clen in
  let odd_size := dlen %i clen in
  if odd_size =? 0
  then mkDIM_REC flag dlen clen dtype unlim clen nchunks
  else mkDIM_REC flag dlen clen dtype unlim odd_size (nchunks +i 1).

(** ** Coordinate arithmetic (hchunks.c:483-714) *)

(** Arrays of [int32] are lists; a read outside the list yields 0. *)
Definition aget (l : list Z) (i : nat) : Z := l !!! i.
Definition dget (l : list DIM_REC) (i : nat) : DIM_REC := l !!! i.

(** [for (i = ndims - 1; i >= 0; i--)] of [update_chunk_indices_seek]; the
    counter [i] of the model is one more than the index the body uses. *)
Fixpoint update_chunk_indices_seek_loop
    (i : nat) (stmp : Z) (sbi spb : list Z) (ddims : list DIM_REC)
  : list Z * list Z :=
  match i with
  | O => (sbi, spb)
  | S i' =>
      let d := dget ddims i' in
      let sbi' := <[i' := (stmp %i dim_length d) /i chunk_length d]> sbi in
      let spb' := <[i' := (stmp %i dim_length d) %i chunk_length d]> spb in
      update_chunk_indices_seek_loop i' (stmp /i dim_length d) sbi' spb' ddims
  end.

(** [update_chunk_indices_seek]: translate a seek position into chunk
    indices [sbi] and positions inside the chunk [spb]. *)
Definition update_chunk_indices_seek
    (sloc ndims nt_size : Z) (sbi spb : list Z) (ddims : list DIM_REC)
  : list Z * list Z :=
  let stmp := sloc /i nt_size in
  update_chunk_indices_seek_loop (Z.to_nat ndims) stmp sbi spb ddims.

(** Body of the loop of [compute_chunk_to_array] at index [j]. *)
Definition compute_chunk_to_array_at
    (chunk_indices chunk_array_ind : list Z) (ddims : list DIM_REC) (j : nat) : Z :=
  let d := dget ddims j in
  let base := aget chunk_indices j *i chunk_length d in
  if aget chunk_indices j =? num_chunks d -i 1
  then base +i (if aget chunk_array_ind j >? last_chunk_length d
                then last_chunk_length d else aget chunk_array_ind j)
  else base +i aget chunk_array_ind j.

(** [compute_chunk_to_array]: [for (j = 0; j < ndims; j++)]. *)
Definition compute_chunk_to_array
    (chunk_indices chunk_array_ind array_indices : list Z)
    (ndims : Z) (ddims : list DIM_REC) : list Z :=
  fold_left
    (fun arr j => <[j := compute_chunk_to_array_at chunk_indices chunk_array_ind ddims j]> arr)
    (seq 0 (Z.to_nat ndims)) array_indices.

(** The loop shared by [compute_array_to_seek], [calculate_seek_in_chunk]
    and [calculate_chunk_num]:
    [for (j = ndims - 2; j >= 0; j--) { cnum *= ddims[j + 1].radix;
       acc += idx[j] * cnum; }]
    The counter [k] of the model is [j + 1]. *)
Fixpoint row_major_loop
    (radix : DIM_REC -> Z) (k : nat) (cnum acc : Z)
    (idx : list Z) (ddims : list DIM_REC) : Z :=
  match k with
  | O => acc
  | S j =>
      let cnum' := cnum *i radix (dget ddims (S j)) in
      row_major_loop radix j cnum' (acc +i aget idx j *i cnum') idx ddims
  end.

Definition row_major
    (radix : DIM_REC -> Z) (ndims : Z) (idx : list Z) (ddims : list DIM_REC) : Z :=
  let n := Z.to_nat ndims in
  let acc := aget idx (n - 1) in
  if ndims >? 1 then row_major_loop radix (n - 1) 1 acc idx ddims else acc.

(** [compute_array_to_seek]: user array indices to the user seek position. *)
Definition compute_array_to_seek
    (array_indices : list Z) (nt_size ndims : Z) (ddims : list DIM_REC) : Z :=
  row_major dim_length ndims array_indices ddims *i nt_size.

(** [calculate_seek_in_chunk]: position in the chunk to a seek position in
    the chunk. *)
Definition calculate_seek_in_chunk
    (ndims nt_size : Z) (spb : list Z) (ddims : list DIM_REC) : Z :=
  row_major chunk_length ndims spb ddims *i nt_size.

(** [calculate_chunk_num]: chunk coordinates to a chunk number. *)
Definition calculate_chunk_num
    (ndims : Z) (sbi : list Z) (ddims : list DIM_REC) : Z :=
  row_major num_chunks ndims sbi ddims.

(** [update_seek_pos_chunk]: [for (i = ndims - 1; i >= 0; i--)]. *)
Fixpoint update_seek_pos_chunk_loop
    (i : nat) (stmp : Z) (spb : list Z) (ddims : list DIM_REC) : list Z :=
  match i with
  | O => spb
  | S i' =>
      let d := dget ddims i' in
      update_seek_pos_chunk_loop i' (stmp /i chunk_length d)
        (<[i' := stmp %i chunk_length d]> spb) ddims
  end.

Definition update_seek_pos_chunk
    (chunk_seek ndims nt_size : Z) (spb : list Z) (ddims : list DIM_REC) : list Z :=
  update_seek_pos_chunk_loop (Z.to_nat ndims) (chunk_seek /i nt_size) spb ddims.

(** [calculate_chunk_for_chunk]: number of bytes that can be moved in the
    current chunk along the fastest-varying dimension. *)
Definition calculate_chunk_for_chunk
    (ndims nt_size len bytes_finished : Z) (sbi spb : list Z)
    (ddims : list DIM_REC) : Z :=
  let n1 := (Z.to_nat ndims - 1)%nat in
  let d := dget ddims n1 in
  if aget sbi n1 =? num_chunks d -i 1
  then
    if (last_chunk_length d -i aget spb n1) *i nt_size >? len -i bytes_finished
    then len -i bytes_finished
    else (last_chunk_length d -i aget spb n1) *i nt_size
  else
    if (chunk_length d -i aget spb n1) *i nt_size >? len -i bytes_finished
    then len -i bytes_finished
    else (chunk_length d -i aget spb n1) *i nt_size.

(** ** Mixed-radix numbers, least significant digit first

    The reference against which the index loops above are compared. *)

Module MixedRadix.

Fixpoint span (ds : list Z) : Z :=
  match ds with
  | [] => 1
  | d :: ds' => d * span ds'
  end.

(** Value of the digits [xs] against the radices [ds]. *)
Fixpoint val (xs ds : list Z) : Z :=
  match xs, ds with
  | x :: xs', d :: ds' => x + d * val xs' ds'
  | _, _ => 0
  end.

(** Digits of [s] against the radices [ds]. *)
Fixpoint digits (ds : list Z) (s : Z) : list Z :=
  match ds with
  | [] => []
  | d :: ds' => s mod d :: digits ds' (s / d)
  end.

Definition in_radix (x d : Z) : Prop := 0 <= x < d.

End MixedRadix.

(** ** Well-formed geometry *)

(** A dimension record with positive lengths whose computed fields are the
    ones [HMCcreate] and [HMCIstaccess] derive from them. *)
Definition dim_ok (d : DIM_REC) : Prop :=
  0 < chunk_length d <= Int32.max_signed /\
  0 < dim_length d <= Int32.max_signed /\
  num_chunks d =
    num_chunks (HMCIstaccess_dim (dim_flag d) (dim_length d) (chunk_length d)) /\
  last_chunk_length d =
    last_chunk_length (HMCIstaccess_dim (dim_flag d) (dim_length d) (chunk_length d)).

(** User array indices of the element number [s], first axis first. *)
Definition coords (ddims : list DIM_REC) (s : Z) : list Z :=
  reverse (MixedRadix.digits (reverse (dim_length <$> ddims)) s).

(** The round trip of claim C1: a byte offset is split into chunk indices
    and positions in the chunk, translated to user array indices and back
    to a seek position. *)
Definition seek_roundtrip
    (x ndims nt_size : Z) (sbi0 spb0 arr0 : list Z) (ddims : list DIM_REC) : Z :=
  let '(sbi, spb) := update_chunk_indices_seek x ndims nt_size sbi0 spb0 ddims in
  let arr := compute_chunk_to_array sbi spb arr0 ndims ddims in
  compute_array_to_seek arr nt_size ndims ddims.

(** A chunk coordinate of the chunk grid: one component per axis, each in
    [0, num_chunks). *)
Definition in_grid (ddims : list DIM_REC) (c : list Z) : Prop :=
  Forall2 MixedRadix.in_radix c (num_chunks <$> ddims).

(** ** Constants

    The values of [hdf.h], [htags.h] and [hlimits.h], which are not part of
    the sources at hand, and of [mcache.h]. *)

Definition DF_START : Z := 0.
Definition DF_CURRENT : Z := 1.
Definition DF_END : Z := 2.

Definition DFACC_READ : Z := 1.
Definition DFACC_WRITE : Z := 2.

Definition SPECIAL_COMP : Z := 3.
Definition SPECIAL_CHUNKED : Z := 5.

Definition DFTAG_NULL : Z := 1.
Definition DFTAG_CHUNK : Z := 61.

Definition MCACHE_DIRTY : Z := 1.
Definition MCACHE_PINNED : Z := 2.

(** [BASETAG] (hfile.h:527): a (potentially) special tag to a normal tag. *)
Definition BASETAG (t : Z) : Z :=
  if Z.land (Z.lnot t) 32768 =? 0 then t else Z.land t (Z.lnot 16384) mod 65536.

(** ** Bytes and buffers *)

Abbreviation bytes := (list Byte.byte).

Definition zero_bytes (n : Z) : bytes := replicate (Z.to_nat n) Byte.x00.

(** [memcpy(dst + off, src, n)] on a buffer of fixed size: the bytes of
    [dst] from [off] on are overwritten by the first [n] bytes of [src]. *)
Definition memcpy_at (dst : bytes) (off : Z) (src : bytes) (n : Z) : bytes :=
  let piece := take (Z.to_nat n) src in
  take (Z.to_nat off) dst ++ piece ++ drop (Z.to_nat off + length piece) dst.

(** [memcpy(dst, src + off, n)] into a fresh destination. *)
Definition memcpy_from (src : bytes) (off n : Z) : bytes :=
  take (Z.to_nat n) (drop (Z.to_nat off) src).

(** Modelled from the spec: [HDmemfill] is missing from the sources; the
    spec (section 4.5, read) has the fill value "tiled ...: fill_value bytes
    repeated page_size / fill_value_len times".  [HDmemfill dest src
    item_size num_items] writes [num_items] copies of the [item_size] bytes
    of [src] at the start of [dest] and leaves the rest of [dest] alone. *)
Definition HDmemfill (dest src : bytes) (item_size num_items : Z) : bytes :=
  let tiled := mjoin (replicate (Z.to_nat num_items) (take (Z.to_nat item_size) src)) in
  tiled ++ drop (length tiled) dest.

(** ** Records of the engine (hchunks.c:296-346, hfile.h, mcache.h) *)

(** Structure for each chunk. *)
Record CHUNK_REC := mkCHUNK_REC {
  chunk_number : Z;   (* chunk number from coordinates i.e. origin *)
  chk_vnum : Z;       (* chunk vdata record number i.e. position in table *)
  origin : list Z;    (* origin -> position of chunk *)
  chk_tag : Z;        (* DFTAG_CHUNK or another Chunked element? *)
  chk_ref : Z         (* reference number of this chunk *)
}.

(** A record of the chunk table (Vdata): origin, chk_tag, chk_ref. *)
Record CHK_TBL_REC := mkCHK_TBL_REC {
  tbl_origin : list Z;
  tbl_tag : Z;
  tbl_ref : Z
}.

(** The [BKT] of mcache.h: one page of the cache. *)
Record BKT := mkBKT {
  pgno : Z;        (* page number *)
  page : bytes;    (* page *)
  bflags : Z       (* MCACHE_DIRTY, MCACHE_PINNED *)
}.

(** The [MCACHE] of mcache.h; [lqh] is the lru queue, least recently used
    page first, and [curcache] is its length. *)
Record MCACHE := mkMCACHE {
  lqh : list BKT;
  maxcache : Z;
  npages : Z;
  pagesize : Z
}.

(** Information on a special chunked element ([chunkinfo_t]); the fields
    that only serialise the header are left out, and [length] is
    [info_length] here. *)
Record chunkinfo_t := mkchunkinfo_t {
  attached : Z;
  flag : Z;
  info_length : Z;
  chunk_size : Z;
  nt_size : Z;
  ndims : Z;
  ddims : list DIM_REC;
  fill_val_len : Z;
  fill_val : bytes;
  seek_chunk_indices : list Z;
  seek_pos_chunk : list Z;
  seek_user_indices : list Z;
  chk_tree : gmap Z CHUNK_REC;
  chk_cache : MCACHE;
  num_recs : Z
}.

(** The fields of [accrec_t] the engine uses. *)
Record accrec_t := mkaccrec_t {
  access : Z;
  special : Z;
  file_id : Z;
  posn : Z;
  special_info : chunkinfo_t
}.

(** Modelled from the spec: the Object Store and the Chunk Directory Store
    (spec sections 2 and 6) behind [filerec_t]: elements keyed by tag and
    ref, the next free ref of the 16-bit ref space, and the appended
    records of the chunk table. *)
Record filerec_t := mkfilerec_t {
  f_access : Z;
  f_refcount : Z;
  f_objects : gmap (Z * Z) bytes;
  f_next_ref : Z;
  f_vdata : list CHK_TBL_REC
}.

(** What the engine does to its collaborators, in the order it does it. *)
Inductive event :=
| EvTreeIns (r : CHUNK_REC)          (* tbbtdins of a chunk record *)
| EvCacheGet (pg : Z)                (* mcache_get *)
| EvCachePut (pg : Z) (flags : Z)    (* mcache_put *)
| EvNewRef (ref : Z)                 (* Htagnewref *)
| EvVSwrite (r : CHK_TBL_REC)        (* VSwrite to the chunk table *)
| EvObjRead (tag ref : Z)            (* Hstartread/Hread of an element *)
| EvObjWrite (tag ref : Z).          (* Hstartwrite/Hwrite of an element *)

(** The state an operation works on: the access record with its special
    information, the file record it is attached to, and the events so far. *)
Record world := mkworld {
  access_rec : accrec_t;
  file_rec : filerec_t;
  trace : list event
}.

(** ** Results and the state-and-error monad *)

(** The error a routine pushes when it returns [FAIL]; [DFE_REPORT] stands
    for an [HE_REPORT_GOTO] message, [DFE_NONE] for a [FAIL] without a
    pushed error. *)
Inductive hdf_err :=
| DFE_NONE | DFE_REPORT | DFE_ARGS | DFE_RANGE | DFE_INTERNAL | DFE_DENIED
| DFE_NOREF | DFE_VSWRITE.

(** [Ret a]: the routine returns [a]; [Err e]: it returns [FAIL] after
    pushing [e]; [Stuck]: the loop counter of the model ran out, which no
    run of the C code corresponds to. *)
Inductive res (A : Type) :=
| Ret (a : A)
| Err (e : hdf_err)
| Stuck.

Arguments Ret {A} a.
Arguments Err {A} e.
Arguments Stuck {A}.

Definition M (A : Type) : Type := world -> res A * world.

Definition ret {A} (a : A) : M A := fun w => (Ret a, w).
Definition fail {A} (e : hdf_err) : M A := fun w => (Err e, w).

Definition bind {A B} (m : M A) (k : A -> M B) : M B :=
  fun w =>
    match m w with
    | (Ret a, w') => k a w'
    | (Err e, w') => (Err e, w')
    | (Stuck, w') => (Stuck, w')
    end.

Notation "'do' x <- m ; k" := (bind m (fun x => k))
  (at level 10, x pattern, m at level 99, k at level 200).
Notation "m ;; k" := (bind m (fun _ => k))
  (at level 100, k at level 200, right associativity).

(** The callee failed: the caller pushes [e] and fails in its turn. *)
Definition on_fail {A} (e : hdf_err) (m : M A) : M A :=
  fun w =>
    match m w with
    | (Err _, w') => (Err e, w')
    | r => r
    end.

Definition get_info : M chunkinfo_t := fun w => (Ret (special_info (access_rec w)), w).
Definition get_access : M accrec_t := fun w => (Ret (access_rec w), w).
Definition get_file : M filerec_t := fun w => (Ret (file_rec w), w).

Definition set_info (i : chunkinfo_t) : M unit :=
  fun w =>
    let a := access_rec w in
    (Ret tt, mkworld (mkaccrec_t (access a) (special a) (file_id a) (posn a) i)
                     (file_rec w) (trace w)).

Definition set_posn (p : Z) : M unit :=
  fun w =>
    let a := access_rec w in
    (Ret tt, mkworld (mkaccrec_t (access a) (special a) (file_id a) p (special_info a))
                     (file_rec w) (trace w)).

Definition set_file (f : filerec_t) : M unit :=
  fun w => (Ret tt, mkworld (access_rec w) f (trace w)).

Definition log (e : event) : M unit :=
  fun w => (Ret tt, mkworld (access_rec w) (file_rec w) (trace w ++ [e])).

(** Updates of single fields of [chunkinfo_t]. *)
Definition with_seek (sbi spb : list Z) (i : chunkinfo_t) : chunkinfo_t :=
  mkchunkinfo_t (attached i) (flag i) (info_length i) (chunk_size i) (nt_size i)
    (ndims i) (ddims i) (fill_val_len i) (fill_val i)
    sbi spb (seek_user_indices i) (chk_tree i) (chk_cache i) (num_recs i).

Definition with_user_indices (sui : list Z) (i : chunkinfo_t) : chunkinfo_t :=
  mkchunkinfo_t (attached i) (flag i) (info_length i) (chunk_size i) (nt_size i)
    (ndims i) (ddims i) (fill_val_len i) (fill_val i)
    (seek_chunk_indices i) (seek_pos_chunk i) sui (chk_tree i) (chk_cache i) (num_recs i).

Definition with_tree (t : gmap Z CHUNK_REC) (n : Z) (i : chunkinfo_t) : chunkinfo_t :=
  mkchunkinfo_t (attached i) (flag i) (info_length i) (chunk_size i) (nt_size i)
    (ndims i) (ddims i) (fill_val_len i) (fill_val i)
    (seek_chunk_indices i) (seek_pos_chunk i) (seek_user_indices i) t (chk_cache i) n.

Definition with_cache (c : MCACHE) (i : chunkinfo_t) : chunkinfo_t :=
  mkchunkinfo_t (attached i) (flag i) (info_length i) (chunk_size i) (nt_size i)
    (ndims i) (ddims i) (fill_val_len i) (fill_val i)
    (seek_chunk_indices i) (seek_pos_chunk i) (seek_user_indices i) (chk_tree i) c (num_recs i).

(** ** Object Store and Chunk Directory Store *)

(** [BADFREC] (hfile.h:492); a missing file record counts as closed. *)
Definition BADFREC (r : filerec_t) : bool := f_refcount r =? 0.

(** Modelled from the spec: [Htagnewref] hands out the next ref of the
    16-bit ref space, 0 when it is exhausted (spec section 6,
    allocate_new_ref). *)
Definition Htagnewref (tag : Z) : M Z :=
  do f <- get_file;
  if (1 <=? f_next_ref f) && (f_next_ref f <=? 65535)
  then
    set_file (mkfilerec_t (f_access f) (f_refcount f) (f_objects f)
                (f_next_ref f + 1) (f_vdata f));;
    log (EvNewRef (f_next_ref f));;
    ret (f_next_ref f)
  else ret 0.

(** Modelled from the spec: [VSwrite] of one record appends it to the chunk
    table (spec section 6, append_record). *)
Definition VSwrite (r : CHK_TBL_REC) : M Z :=
  do f <- get_file;
  set_file (mkfilerec_t (f_access f) (f_refcount f) (f_objects f)
              (f_next_ref f) (f_vdata f ++ [r]));;
  log (EvVSwrite r);;
  ret 1.

(** Modelled from the spec: [Hstartread], [Hread] of [len] bytes into
    [datap] and [Hendaccess] on the element [(tag, ref)] (spec section 6,
    open_element and read); fails when the element does not exist. *)
Definition Hread_element (tag ref len : Z) (datap : bytes) : M bytes :=
  do f <- get_file;
  match f_objects f !! (tag, ref) with
  | None => fail DFE_REPORT
  | Some data =>
      log (EvObjRead tag ref);;
      ret (memcpy_at datap 0 data len)
  end.

(** Modelled from the spec: [Hstartwrite] (or [HCcreate] for a compressed
    chunk), [Hwrite] of [len] bytes of [datap] and [Hendaccess] on the
    element [(tag, ref)], created when it does not exist (spec section 6,
    create_element and write); fails on a file without write access. *)
Definition Hwrite_element (tag ref len : Z) (datap : bytes) : M Z :=
  do f <- get_file;
  if Z.land (f_access f) DFACC_WRITE =? 0 then fail DFE_REPORT
  else
    let old := default [] (f_objects f !! (tag, ref)) in
    let new := take (Z.to_nat len) datap ++ drop (Z.to_nat len) old in
    set_file (mkfilerec_t (f_access f) (f_refcount f)
                (<[(tag, ref) := new]> (f_objects f)) (f_next_ref f) (f_vdata f));;
    log (EvObjWrite tag ref);;
    ret len.

(** ** Page-in and page-out routines of the chunk cache *)

(** The fill of a page whose chunk was never written (hchunks.c:2588-2591
    and 2621-2624). *)
Definition fill_page (info : chunkinfo_t) (datap : bytes) : bytes :=
  let nitems := (chunk_size info *i nt_size info) /i fill_val_len info in
  HDmemfill datap (fill_val info) (fill_val_len info) nitems.

(** [HMCPchunkread]: read a whole chunk given its number into [datap];
    returns the number of bytes read from the file and the buffer. *)
Definition HMCPchunkread (chunk_num : Z) (datap : bytes) : M (Z * bytes) :=
  do info <- get_info;
  let read_len := chunk_size info *i nt_size info in
  match chk_tree info !! chunk_num with
  | None => (* does not exist *)
      ret (0, fill_page info datap)
  | Some chk_rec =>
      if negb (chk_tag chk_rec =? DFTAG_NULL) && (BASETAG (chk_tag chk_rec) =? DFTAG_CHUNK)
      then (* valid chunk in file *)
        do data <- Hread_element (chk_tag chk_rec) (chk_ref chk_rec) read_len datap;
        ret (read_len, data)
      else if chk_tag chk_rec =? DFTAG_NULL
      then (* chunk has not been written, so return fill value buffer *)
        ret (0, fill_page info datap)
      else (* not a valid chunk ref for now *)
        fail DFE_REPORT
  end.

(** [HMCPchunkwrite]: write a whole chunk given its number; returns the
    number of bytes written. *)
Definition HMCPchunkwrite (chunk_num : Z) (datap : bytes) : M Z :=
  do info <- get_info;
  let write_len := chunk_size info *i nt_size info in
  match chk_tree info !! chunk_num with
  | None => fail DFE_REPORT
  | Some chk_rec =>
      if chk_tag chk_rec =? DFTAG_NULL
      then (* does not exist in Vdata table and in file but does in TBBT *)
        do ref <- Htagnewref DFTAG_CHUNK;
        let chkptr := mkCHUNK_REC (chunk_number chk_rec) (chk_vnum chk_rec)
                        (origin chk_rec) DFTAG_CHUNK ref in
        do info <- get_info;
        set_info (with_tree (<[chunk_num := chkptr]> (chk_tree info)) (num_recs info) info);;
        if ref =? 0 then fail DFE_NOREF (* out of ref numbers *)
        else
          on_fail DFE_VSWRITE
            (VSwrite (mkCHK_TBL_REC (origin chkptr) (chk_tag chkptr) (chk_ref chkptr)));;
          on_fail DFE_REPORT
            (Hwrite_element (chk_tag chkptr) (chk_ref chkptr) write_len datap);;
          ret write_len
      else (* already in table so start access *)
        on_fail DFE_REPORT
          (Hwrite_element (chk_tag chk_rec) (chk_ref chk_rec) write_len datap);;
        ret write_len
  end.

(** ** The chunk cache (mcache.h) *)

Definition get_cache : M MCACHE :=
  do info <- get_info; ret (chk_cache info).

Definition set_cache (c : MCACHE) : M unit :=
  do info <- get_info; set_info (with_cache c info).

Definition is_dirty (b : BKT) : bool := negb (Z.land (bflags b) MCACHE_DIRTY =? 0).
Definition is_pinned (b : BKT) : bool := negb (Z.land (bflags b) MCACHE_PINNED =? 0).

Definition find_page (pg : Z) (q : list BKT) : option BKT :=
  List.find (fun b => pgno b =? pg) q.

Definition remove_page (pg : Z) (q : list BKT) : list BKT :=
  List.filter (fun b => negb (pgno b =? pg)) q.

(** Modelled from the spec: [mcache_open] (spec section 4.1, open). *)
Definition mcache_open (pagesize maxcache npages : Z) : MCACHE :=
  mkMCACHE [] maxcache npages pagesize.

(** Modelled from the spec: the buffer [mcache_get] reads a missing page
    into (spec sections 3, CachePage, and 4.1): a new one while fewer than
    [maxcache] pages are resident, otherwise the one of the least recently
    used unpinned page, written back through [pgout] first if it is dirty;
    a new one again when every page is pinned. *)
Definition mcache_bkt (pgout : Z -> bytes -> M Z) : M bytes :=
  do mp <- get_cache;
  if Z.of_nat (length (lqh mp)) <? maxcache mp
  then ret (zero_bytes (pagesize mp))
  else
    match List.find (fun b => negb (is_pinned b)) (lqh mp) with
    | None => ret (zero_bytes (pagesize mp))
    | Some b =>
        (if is_dirty b then pgout (pgno b -i 1) (page b) else ret 0);;
        do mp <- get_cache;
        set_cache (mkMCACHE (remove_page (pgno b) (lqh mp))
                     (maxcache mp) (npages mp) (pagesize mp));;
        ret (page b)
    end.

(** Modelled from the spec: [mcache_get] (spec section 4.1, get).  Pages
    are numbered [1..npages]; a resident page becomes the most recently
    used one; a missing page is read through [pgin]; the page is pinned for
    the caller, whom the model hands its contents. *)
Definition mcache_get
    (pgin : Z -> bytes -> M (Z * bytes)) (pgout : Z -> bytes -> M Z)
    (pg : Z) : M bytes :=
  log (EvCacheGet pg);;
  do mp <- get_cache;
  if (pg <? 1) || (npages mp <? pg) then fail DFE_REPORT
  else
    match find_page pg (lqh mp) with
    | Some b =>
        set_cache (mkMCACHE
                     (remove_page pg (lqh mp)
                        ++ [mkBKT pg (page b) (Z.lor (bflags b) MCACHE_PINNED)])
                     (maxcache mp) (npages mp) (pagesize mp));;
        ret (page b)
    | None =>
        do buf <- mcache_bkt pgout;
        do r <- pgin (pg -i 1) buf;
        do mp <- get_cache;
        set_cache (mkMCACHE (lqh mp ++ [mkBKT pg (snd r) MCACHE_PINNED])
                     (maxcache mp) (npages mp) (pagesize mp));;
        ret (snd r)
    end.

(** The caller's [memcpy] into the page it holds pinned. *)
Definition page_memcpy (pg : Z) (off : Z) (src : bytes) (n : Z) : M unit :=
  do mp <- get_cache;
  set_cache (mkMCACHE
               ((fun b => if pgno b =? pg
                          then mkBKT pg (memcpy_at (page b) off src n) (bflags b)
                          else b) <$> lqh mp)
               (maxcache mp) (npages mp) (pagesize mp)).

(** Modelled from the spec: [mcache_put] (spec section 4.1, put) unpins
    the page and marks it dirty if [flags] says so; it fails on a page
    that is not in the cache. *)
Definition mcache_put (pg : Z) (flags : Z) : M Z :=
  log (EvCachePut pg flags);;
  do mp <- get_cache;
  match find_page pg (lqh mp) with
  | None => fail DFE_REPORT
  | Some _ =>
      set_cache (mkMCACHE
                   ((fun b => if pgno b =? pg
                              then mkBKT pg (page b)
                                     (Z.lor (Z.land (bflags b) (Z.lnot MCACHE_PINNED))
                                            (Z.land flags MCACHE_DIRTY))
                              else b) <$> lqh mp)
                   (maxcache mp) (npages mp) (pagesize mp));;
      ret 0
  end.

(** [mcache_set_maxcache] as the header of [HMCsetMaxcache] documents it
    (hchunks.c:2389-2396): the budget only ever grows. *)
Definition mcache_set_maxcache (n : Z) : M Z :=
  do mp <- get_cache;
  let cur := Z.of_nat (length (lqh mp)) in
  let full := maxcache mp <=? cur in
  let grow := if full then maxcache mp <? n else cur <? n in
  if grow
  then set_cache (mkMCACHE (lqh mp) n (npages mp) (pagesize mp));; ret n
  else ret (maxcache mp).

(** ** The chunked element engine *)

Definition set_seek (sbi_spb : list Z * list Z) : M unit :=
  do info <- get_info; set_info (with_seek (fst sbi_spb) (snd sbi_spb) info).

(** [update_chunk_indices_seek] on the arrays of the special info. *)
Definition seek_to (sloc : Z) : M unit :=
  do info <- get_info;
  set_seek (update_chunk_indices_seek sloc (ndims info) (nt_size info)
              (seek_chunk_indices info) (seek_pos_chunk info) (ddims info)).

(** [HMCPseek]: set the seek position in the chunked element.  The access
    record of the model is never [NULL]. *)
Definition HMCPseek (offset origin : Z) : M Z :=
  do access_rec <- get_access;
  if negb (special access_rec =? SPECIAL_CHUNKED) then fail DFE_INTERNAL
  else
    do info <- get_info;
    let offset := if origin =? DF_CURRENT then offset +i posn access_rec else offset in
    let offset := if origin =? DF_END
                  then offset +i (info_length info *i nt_size info) else offset in
    if offset <? 0 then fail DFE_RANGE
    else
      seek_to offset;;
      set_posn offset;;
      ret 0.

(** The chunk record both write paths insert for a chunk that is not in
    the tree (hchunks.c:3108-3124 and 3274-3289), followed by
    [num_recs++]. *)
Definition insert_chunk_rec (chunk_num : Z) (org : list Z) : M unit :=
  do info <- get_info;
  let chkptr := mkCHUNK_REC chunk_num (num_recs info) org DFTAG_NULL 0 in
  set_info (with_tree (<[chunk_num := chkptr]> (chk_tree info)) (num_recs info +i 1) info);;
  log (EvTreeIns chkptr).

(** The first [ndims] entries of an array, as the copy loops read them. *)
Definition copy_indices (n : Z) (a : list Z) : list Z :=
  (fun k => aget a k) <$> seq 0 (Z.to_nat n).

(** The [while (bytes_read < read_len)] loop of [HMCPread]; [fuel] bounds
    the number of passes. *)
Fixpoint HMCPread_loop
    (fuel : nat) (read_len bytes_read relative_posn : Z) (bptr : bytes)
  : M (Z * bytes) :=
  if bytes_read <? read_len then
    match fuel with
    | O => fun w => (Stuck, w)
    | S fuel' =>
        do info <- get_info;
        let chunk_num := calculate_chunk_num (ndims info) (seek_chunk_indices info) (ddims info) in
        let chunk_size := calculate_chunk_for_chunk (ndims info) (nt_size info) read_len
                            bytes_read (seek_chunk_indices info) (seek_pos_chunk info)
                            (ddims info) in
        do chk_data <- on_fail DFE_REPORT
                         (mcache_get HMCPchunkread HMCPchunkwrite (chunk_num +i 1));
        let read_seek := calculate_seek_in_chunk (ndims info) (nt_size info)
                           (seek_pos_chunk info) (ddims info) in
        let bptr := bptr ++ memcpy_from chk_data read_seek chunk_size in
        on_fail DFE_REPORT (mcache_put (chunk_num +i 1) 0);;
        let bytes_read := bytes_read +i chunk_size in
        let relative_posn := relative_posn +i chunk_size in
        seek_to relative_posn;;
        HMCPread_loop fuel' read_len bytes_read relative_posn bptr
    end
  else ret (bytes_read, bptr).

(** [HMCPread]: read [length] bytes at the current position; returns the
    number of bytes read and the bytes.  Every pass of the loop moves at
    least one byte on a well-formed element, so [read_len] passes do. *)
Definition HMCPread (length : Z) : M (Z * bytes) :=
  do access_rec <- get_access;
  do info <- get_info;
  if length <? 0 then fail DFE_RANGE
  else
    let length := if length =? 0
                  then (info_length info *i nt_size info) -i posn access_rec
                  else length in
    let length := if posn access_rec +i length >? info_length info *i nt_size info
                  then (info_length info *i nt_size info) -i posn access_rec
                  else length in
    seek_to (posn access_rec);;
    do r <- HMCPread_loop (Z.to_nat length) length 0 (posn access_rec) [];
    set_posn (posn access_rec +i fst r);;
    ret r.

(** The [while (bytes_written < write_len)] loop of [HMCPwrite]. *)
Fixpoint HMCPwrite_loop
    (fuel : nat) (write_len bytes_written relative_posn : Z) (bptr : bytes)
  : M Z :=
  if bytes_written <? write_len then
    match fuel with
    | O => fun w => (Stuck, w)
    | S fuel' =>
        do info <- get_info;
        let chunk_num := calculate_chunk_num (ndims info) (seek_chunk_indices info) (ddims info) in
        let chunk_size := calculate_chunk_for_chunk (ndims info) (nt_size info) write_len
                            bytes_written (seek_chunk_indices info) (seek_pos_chunk info)
                            (ddims info) in
        match chk_tree info !! chunk_num with
        | None => (* not in tree *)
            insert_chunk_rec chunk_num (copy_indices (ndims info) (seek_chunk_indices info))
        | Some _ => ret tt
        end;;
        do chk_data <- on_fail DFE_REPORT
                         (mcache_get HMCPchunkread HMCPchunkwrite (chunk_num +i 1));
        let write_seek := calculate_seek_in_chunk (ndims info) (nt_size info)
                            (seek_pos_chunk info) (ddims info) in
        page_memcpy (chunk_num +i 1) write_seek bptr chunk_size;;
        on_fail DFE_REPORT (mcache_put (chunk_num +i 1) MCACHE_DIRTY);;
        let bptr := drop (Z.to_nat chunk_size) bptr in
        let bytes_written := bytes_written +i chunk_size in
        let relative_posn := relative_posn +i chunk_size in
        seek_to relative_posn;;
        HMCPwrite_loop fuel' write_len bytes_written relative_posn bptr
    end
  else ret bytes_written.

(** [HMCPwrite]: write [length] bytes of [datap] at the current position;
    returns the number of bytes written. *)
Definition HMCPwrite (length : Z) (datap : bytes) : M Z :=
  do access_rec <- get_access;
  do file_rec <- get_file;
  if length <=? 0 then fail DFE_RANGE
  else if BADFREC file_rec then fail DFE_INTERNAL
  else
    seek_to (posn access_rec);;
    do bytes_written <- HMCPwrite_loop (Z.to_nat length) length 0 (posn access_rec) datap;
    set_posn (posn access_rec +i bytes_written);;
    ret bytes_written.

(** [for (i = 0; i < ndims; i++) { sbi[i] = origin[i]; spb[i] = 0; }] of
    the whole-chunk routines. *)
Definition seek_to_origin (org : list Z) : M unit :=
  do info <- get_info;
  let idxs := seq 0 (Z.to_nat (ndims info)) in
  set_seek (fold_left (fun a i => <[i := aget org i]> a) idxs (seek_chunk_indices info),
            fold_left (fun a i => <[i := 0]> a) idxs (seek_pos_chunk info)).

(** The update of the position after a whole chunk was moved
    (hchunks.c:2739-2751 and 3157-3168). *)
Definition seek_after_chunk (bytes_moved : Z) : M unit :=
  do info <- get_info;
  let spb := update_seek_pos_chunk bytes_moved (ndims info) (nt_size info)
               (seek_pos_chunk info) (ddims info) in
  let sui := compute_chunk_to_array (seek_chunk_indices info) spb (seek_user_indices info)
               (ndims info) (ddims info) in
  set_info (with_user_indices sui (with_seek (seek_chunk_indices info) spb info));;
  set_posn (compute_array_to_seek sui (nt_size info) (ndims info) (ddims info)).

(** [HMCreadChunk]: read the whole chunk at [origin]. *)
Definition HMCreadChunk (org : list Z) : M (Z * bytes) :=
  do access_rec <- get_access;
  do file_rec <- get_file;
  if BADFREC file_rec then fail DFE_INTERNAL
  else if Z.land (f_access file_rec) DFACC_READ =? 0 then fail DFE_DENIED
  else if special access_rec =? SPECIAL_CHUNKED then
    do info <- get_info;
    let read_len := chunk_size info *i nt_size info in
    seek_to_origin org;;
    let chunk_num := calculate_chunk_num (ndims info) org (ddims info) in
    do chk_data <- on_fail DFE_REPORT
                     (mcache_get HMCPchunkread HMCPchunkwrite (chunk_num +i 1));
    let bptr := memcpy_from chk_data 0 read_len in
    on_fail DFE_REPORT (mcache_put (chunk_num +i 1) 0);;
    seek_after_chunk read_len;;
    ret (read_len, bptr)
  else fail DFE_NONE.

(** [HMCwriteChunk]: write the whole chunk at [origin]. *)
Definition HMCwriteChunk (org : list Z) (datap : bytes) : M Z :=
  do access_rec <- get_access;
  do file_rec <- get_file;
  if BADFREC file_rec then fail DFE_INTERNAL
  else if Z.land (f_access file_rec) DFACC_WRITE =? 0 then fail DFE_DENIED
  else if special access_rec =? SPECIAL_CHUNKED then
    do info <- get_info;
    let write_len := chunk_size info *i nt_size info in
    seek_to_origin org;;
    let chunk_num := calculate_chunk_num (ndims info) org (ddims info) in
    match chk_tree info !! chunk_num with
    | None => insert_chunk_rec chunk_num (copy_indices (ndims info) org)
    | Some _ => ret tt
    end;;
    do chk_data <- on_fail DFE_REPORT
                     (mcache_get HMCPchunkread HMCPchunkwrite (chunk_num +i 1));
    page_memcpy (chunk_num +i 1) 0 datap write_len;;
    on_fail DFE_REPORT (mcache_put (chunk_num +i 1) MCACHE_DIRTY);;
    seek_after_chunk write_len;;
    ret write_len
  else fail DFE_NONE.

(** [HMCsetMaxcache]: set the maximum number of chunks to cache. *)
Definition HMCsetMaxcache (maxcache flags : Z) : M Z :=
  do access_rec <- get_access;
  if maxcache <? 1 then fail DFE_ARGS
  else if special access_rec =? SPECIAL_CHUNKED then mcache_set_maxcache maxcache
  else fail DFE_NONE.

(** [HMCPgetnumrecs]: the number of records in the chunked element. *)
Definition HMCPgetnumrecs : M Z :=
  do info <- get_info; ret (num_recs info).

(** ** Sequences of operations on one open element *)

Inductive op :=
| OpSeek (offset origin : Z)
| OpRead (length : Z)
| OpWrite (length : Z) (datap : bytes)
| OpReadChunk (org : list Z)
| OpWriteChunk (org : list Z) (datap : bytes)
| OpSetMaxcache (maxcache flags : Z)
| OpGetNumRecs.

(** One operation; [true] when it returned without [FAIL]. *)
Definition run_op (o : op) (w : world) : bool * world :=
  let ok {A} (r : res A * world) : bool * world :=
    (match fst r with Ret _ => true | _ => false end, snd r) in
  match o with
  | OpSeek offset origin => ok (HMCPseek offset origin w)
  | OpRead length => ok (HMCPread length w)
  | OpWrite length datap => ok (HMCPwrite length datap w)
  | OpReadChunk org => ok (HMCreadChunk org w)
  | OpWriteChunk org datap => ok (HMCwriteChunk org datap w)
  | OpSetMaxcache maxcache flags => ok (HMCsetMaxcache maxcache flags w)
  | OpGetNumRecs => ok (HMCPgetnumrecs w)
  end.

(** A sequence of operations, each on the state the previous one left;
    the result tells whether all of them succeeded. *)
Fixpoint run_ops (os : list op) (w : world) : bool * world :=
  match os with
  | [] => (true, w)
  | o :: os' =>
      let '(b, w') := run_op o w in
      let '(bs, w'') := run_ops os' w' in
      (b && bs, w'')
  end.

(** The chunk numbers of the pages returned to the cache dirty. *)
Fixpoint written_chunks (tr : list event) : gset Z :=
  match tr with
  | [] => ∅
  | EvCachePut pg flags :: tr' =>
      if Z.land flags MCACHE_DIRTY =? 0 then written_chunks tr'
      else {[pg - 1]} ∪ written_chunks tr'
  | _ :: tr' => written_chunks tr'
  end.

(** The element as [HMCcreate] leaves it: derived geometry, zeroed seek
    arrays, an empty chunk tree, no records, and a cache of
    [maxcache = prod_{i>0} num_chunks[i]] pages out of [npages]. *)
Definition HMCcreate_info
    (chunk_flag chunk_size nt_size : Z) (pdims : list DIM_DEF)
    (fill_val_len : Z) (fill_val : bytes) : chunkinfo_t :=
  let n := Z.of_nat (length pdims) in
  let dd := HMCcreate_ddims pdims in
  let zeros := replicate (length pdims) 0 in
  mkchunkinfo_t 1 chunk_flag (HMCcreate_data_len dd) chunk_size nt_size n dd
    fill_val_len (take (Z.to_nat fill_val_len) fill_val) zeros zeros zeros ∅
    (mcache_open (chunk_size *i nt_size) (HMCcreate_npages (drop 1 dd))
       (HMCcreate_npages dd))
    0.

Definition HMCcreate_world
    (chunk_flag chunk_size nt_size : Z) (pdims : list DIM_DEF)
    (fill_val_len : Z) (fill_val : bytes) (file : filerec_t) : world :=
  mkworld (mkaccrec_t (Z.lor DFACC_READ DFACC_WRITE) SPECIAL_CHUNKED 0 0
             (HMCcreate_info chunk_flag chunk_size nt_size pdims fill_val_len fill_val))
          file [].

(** ** The SZIP codec adapter (cszip.c) *)

Module Szip.

(** [szip_state] and [szip_dirty] of [comp_coder_szip_info_t]. *)
Inductive szip_state_t := SZIP_INIT | SZIP_RUN | SZIP_TERM.
Inductive szip_dirty_t := SZIP_CLEAN | SZIP_DIRTY.

(** SZIP [en|de]coding information; [buffer = None] is the [NULL] pointer. *)
Record comp_coder_szip_info_t := mkszip {
  offset : Z;
  buffer : option bytes;
  buffer_pos : Z;
  buffer_size : Z;
  bits_per_pixel : Z;
  options_mask : Z;
  pixels : Z;
  pixels_per_block : Z;
  pixels_per_scanline : Z;
  szip_state : szip_state_t;
  szip_dirty : szip_dirty_t
}.

(** Status codes of the SZIP library and the revised-format bit. *)
Definition SZ_OK : Z := 0.
Definition SZ_OUTBUF_FULL : Z := 2.
Definition SZ_H4_REV_2 : Z := 65536.

(** The errors the adapter pushes. *)
Inductive szip_err := DFE_CENCODE | DFE_CDECODE | DFE_READERROR | FAIL_NO_CODE.

(** Modelled from the spec: [INT32ENCODE] and [INT32DECODE] of hdfi.h are
    missing from the sources; the spec has a "4-byte logical length field",
    which HDF stores most significant byte first. *)
Definition byte_of_Z (z : Z) : Byte.byte :=
  default Byte.x00 (Byte.of_N (Z.to_N (z mod 256))).

Definition Z_of_byte (b : Byte.byte) : Z := Z.of_N (Byte.to_N b).

Definition INT32ENCODE (i : Z) : bytes :=
  [byte_of_Z (Z.shiftr i 24); byte_of_Z (Z.shiftr i 16);
   byte_of_Z (Z.shiftr i 8); byte_of_Z i].

Definition INT32DECODE (p : bytes) : Z :=
  match p with
  | b3 :: b2 :: b1 :: b0 :: _ =>
      Int32.wrap (Z.lor (Z.shiftl (Z_of_byte b3) 24)
                   (Z.lor (Z.shiftl (Z_of_byte b2) 16)
                      (Z.lor (Z.shiftl (Z_of_byte b1) 8) (Z_of_byte b0))))
  | _ => 0
  end.

(** [bytes_per_pixel = (bits_per_pixel + 7) >> 3], 4 instead of 3. *)
Definition bytes_per_pixel (s : comp_coder_szip_info_t) : Z :=
  let b := Z.shiftr (bits_per_pixel s +i 7) 3 in
  if b =? 3 then 4 else b.

Definition with_buffer
    (st : szip_state_t) (dirty : szip_dirty_t) (buf : option bytes)
    (pos size off : Z) (s : comp_coder_szip_info_t) : comp_coder_szip_info_t :=
  mkszip off buf pos size (bits_per_pixel s) (options_mask s) (pixels s)
    (pixels_per_block s) (pixels_per_scanline s) st dirty.

(** [if (szip_info->buffer_size == 0) { free(buffer); buffer = NULL; }] *)
Definition free_if_empty (s : comp_coder_szip_info_t) : comp_coder_szip_info_t :=
  if buffer_size s =? 0
  then with_buffer (szip_state s) (szip_dirty s) None (buffer_pos s) (buffer_size s) (offset s) s
  else s.

(** The size of the temporary buffer for compression (cszip.c:478-483). *)
Definition out_buffer_size (s : comp_coder_szip_info_t) : Z :=
  let n := (pixels s *i 2 *i bytes_per_pixel s) +i 5 in
  if n <? 1024 then 1024 else n.

(** [Hwrite(info->aid, len, data)] at the start of the compressed element,
    where [HCIcszip_init] left its position. *)
Definition Hwrite_at_start (elt : bytes) (len : Z) (data : bytes) : bytes :=
  take (Z.to_nat len) data ++ drop (Z.to_nat len) elt.

Section Codec.

(** The SZIP library is outside the repository: [SZ_BufftoBuffCompress]
    maps the input and the capacity of the output buffer to a status and
    the bytes it produced, [SZ_BufftoBuffDecompress] likewise. *)
Variable SZ_BufftoBuffCompress : bytes -> Z -> Z * bytes.
Variable SZ_BufftoBuffDecompress : bytes -> Z -> Z * bytes.

(** A block from [malloc] is not initialised: [uninitialised n] stands for
    whatever a fresh block of [n] bytes holds. *)
Variable uninitialised : Z -> bytes.

(** [HCIcszip_term]: flush the buffered data into the compressed element
    [elt]; returns the status, the SZIP information and the element. *)
Definition HCIcszip_term (s : comp_coder_szip_info_t) (elt : bytes)
  : (szip_err + Z) * comp_coder_szip_info_t * bytes :=
  match szip_state s with
  | SZIP_RUN =>
      match szip_dirty s with
      | SZIP_DIRTY =>
          let s := with_buffer SZIP_TERM (szip_dirty s) (buffer s) (buffer_pos s)
                     (buffer_size s) (offset s) s in
          let current_size := Z.of_nat (length elt) in
          let raw := take (Z.to_nat (buffer_pos s)) (default [] (buffer s)) in
          let '(status, out) := SZ_BufftoBuffCompress raw (out_buffer_size s -i 5) in
          let size_out := Z.of_nat (length out) in
          let clean := free_if_empty
                         (with_buffer (szip_state s) SZIP_CLEAN (buffer s) (buffer_pos s)
                            (buffer_size s) (offset s) s) in
          if negb (status =? SZ_OK) then
            if status =? SZ_OUTBUF_FULL
            then (* the raw form is built in out_buffer, which is freed *)
              (inr 0, clean, elt)
            else (inl DFE_CENCODE, clean, elt)
          else if size_out >? pixels s *i bytes_per_pixel s then
            (* larger than the original data: write the original data *)
            let out_buffer := Byte.x01 :: INT32ENCODE (buffer_pos s) ++ raw in
            (inr 0, clean, Hwrite_at_start elt (buffer_pos s +i 5) out_buffer)
          else if (current_size >? 0) && (size_out +i 5 <? current_size) then
            (* enough data to overwrite the existing data: [ob] is a block
               of [current_size] bytes from [malloc]; only its head is
               written, the rest, which "must be zeroes", is never set *)
            let good := Byte.x00 :: INT32ENCODE size_out ++ out in
            let ob := good ++ drop (length good) (uninitialised current_size) in
            (inr 0, clean, Hwrite_at_start elt current_size ob)
          else
            let out_buffer := Byte.x00 :: INT32ENCODE size_out ++ out in
            (inr 0, clean, Hwrite_at_start elt (size_out +i 5) out_buffer)
      | SZIP_CLEAN => (inr 0, free_if_empty s, elt)
      end
  | _ => (inr 0, s, elt) (* nothing to do *)
  end.

(** The tail of [HCIcszip_decode]: copy [len] bytes of the decoded buffer
    to the caller (cszip.c:299-317). *)
Definition decode_copy (s : comp_coder_szip_info_t) (len : Z)
  : (szip_err + bytes) * comp_coder_szip_info_t :=
  if len >? buffer_size s
  then (inl FAIL_NO_CODE,
        with_buffer (szip_state s) (szip_dirty s) None (buffer_pos s) (buffer_size s)
          (offset s) s)
  else
    let buf := memcpy_from (default [] (buffer s)) (buffer_pos s) len in
    let pos := buffer_pos s +i len in
    (inr buf,
     free_if_empty
       (with_buffer (szip_state s) (szip_dirty s) (buffer s) pos (buffer_size s -i len) pos s)).

(** [HCIcszip_decode]: decode [len] bytes of the compressed element [elt];
    returns the bytes handed to the caller and the SZIP information. *)
Definition HCIcszip_decode (s : comp_coder_szip_info_t) (elt : bytes) (len : Z)
  : (szip_err + bytes) * comp_coder_szip_info_t :=
  match szip_state s with
  | SZIP_INIT =>
      let in_length := Z.of_nat (length elt) in
      if in_length =? 0 then (inl DFE_READERROR, s) (* rbytes == 0 *)
      else
        let in_buffer :=
          if Z.land (options_mask s) SZ_H4_REV_2 =? 0
          then (* data encoded in V4.2r0: the preamble is not in the file *)
            Byte.x00 :: INT32ENCODE in_length ++ elt
          else elt in
        let out_length := pixels s *i bytes_per_pixel s in
        let good_bytes := INT32DECODE (drop 1 in_buffer) in
        if Z_of_byte (default Byte.x00 (head in_buffer)) =? 1 then
          (* this byte means the data was not compressed -- just copy out *)
          let data := memcpy_from in_buffer 5 good_bytes in
          let out_buffer := memcpy_at (zero_bytes out_length) 0 data good_bytes in
          let n := if good_bytes >? len then len else good_bytes in
          (inr (take (Z.to_nat n) data),
           free_if_empty
             (with_buffer SZIP_RUN (szip_dirty s) (Some out_buffer) n (good_bytes -i n) n s))
        else
          let '(status, out) := SZ_BufftoBuffDecompress (memcpy_from in_buffer 5 good_bytes)
                                  out_length in
          if negb (status =? SZ_OK) then (inl DFE_CDECODE, s)
          else
            decode_copy (with_buffer SZIP_RUN (szip_dirty s) (Some out) 0 out_length 0 s) len
  | _ => decode_copy s len
  end.

(** [HCIcszip_encode]: buffer [len] bytes of [buf] for [HCIcszip_term]. *)
Definition HCIcszip_encode (s : comp_coder_szip_info_t) (len : Z) (buf : bytes)
  : comp_coder_szip_info_t :=
  let s :=
    match szip_state s with
    | SZIP_INIT =>
        let buffer_size := pixels s *i bytes_per_pixel s in
        with_buffer SZIP_RUN (szip_dirty s) (Some (zero_bytes buffer_size)) 0 buffer_size
          (offset s) s
    | _ => s
    end in
  let b := memcpy_at (default [] (buffer s)) (buffer_pos s) buf len in
  let pos := buffer_pos s +i len in
  with_buffer (szip_state s) SZIP_DIRTY (Some b) pos (buffer_size s -i len) pos s.

End Codec.

End Szip.

(** ** Observations on states and traces *)

(** The parts of the state the cache and its callbacks leave alone. *)
Definition static (w : world) :=
  let a := access_rec w in
  let i := special_info a in
  (access a, special a, file_id a, attached i, flag i, info_length i,
   chunk_size i, nt_size i, ndims i, ddims i, fill_val_len i, fill_val i).

Definition seek_state (w : world) :=
  let i := special_info (access_rec w) in
  (seek_chunk_indices i, seek_pos_chunk i, seek_user_indices i).

Definition dir_keys (w : world) : gset Z :=
  dom (chk_tree (special_info (access_rec w))).

Definition dir_count (w : world) : Z :=
  num_recs (special_info (access_rec w)).

Record frame (w w' : world) : Prop := mkframe {
  frame_static : static w' = static w;
  frame_seek : seek_state w' = seek_state w;
  frame_posn : posn (access_rec w') = posn (access_rec w);
  frame_keys : dir_keys w' = dir_keys w;
  frame_count : dir_count w' = dir_count w
}.

(** Events of the Object Store and of the Chunk Directory Store. *)
Definition is_store_event (e : event) : Prop :=
  match e with
  | EvNewRef _ | EvVSwrite _ | EvObjRead _ _ | EvObjWrite _ _ => True
  | _ => False
  end.

(** The chunk numbers of the records inserted into the chunk tree. *)
Fixpoint inserted (tr : list event) : gset Z :=
  match tr with
  | [] => ∅
  | EvTreeIns r :: tr' => {[chunk_number r]} ∪ inserted tr'
  | _ :: tr' => inserted tr'
  end.

Fixpoint ins_count (tr : list event) : nat :=
  match tr with
  | [] => 0
  | EvTreeIns _ :: tr' => S (ins_count tr')
  | _ :: tr' => ins_count tr'
  end.

(** Every [mcache_get] asks for the page of a chunk that has an entry in
    the chunk tree at that moment: one of [present] or one inserted
    earlier in the trace. *)
Fixpoint gets_after_insert (present : gset Z) (tr : list event) : Prop :=
  match tr with
  | [] => True
  | EvTreeIns r :: tr' => gets_after_insert ({[chunk_number r]} ∪ present) tr'
  | EvCacheGet pg :: tr' =>
      (exists cn, cn ∈ present /\ pg = cn +i 1) /\ gets_after_insert present tr'
  | _ :: tr' => gets_after_insert present tr'
  end.

(** An inserted record is a placeholder: no storage tag, no ref. *)
Definition placeholder_insert (e : event) : Prop :=
  match e with
  | EvTreeIns r => chk_tag r = DFTAG_NULL /\ chk_ref r = 0
  | _ => True
  end.

Definition put_is_dirty (e : event) : Prop :=
  match e with
  | EvCachePut _ flags => flags = MCACHE_DIRTY
  | _ => True
  end.

Definition put_is_clean (e : event) : Prop :=
  match e with
  | EvCachePut _ flags => flags = 0
  | _ => True
  end.

(** [num_recs++], [k] times. *)
Definition bump (n : Z) (k : nat) : Z := Nat.iter k (fun n => n +i 1) n.

Definition is_Ret {A} (r : res A) : Prop :=
  match r with Ret _ => True | _ => False end.

(** The trace grew by events of the stores only. *)
Definition store_trace (w w' : world) : Prop :=
  exists io, trace w' = trace w ++ io /\ Forall is_store_event io.

(** The seek arrays hold [int32] values, and so do the origins a caller
    passes to the whole-chunk routines. *)
Definition typed (w : world) : Prop :=
  Forall Int32.in_range (seek_chunk_indices (special_info (access_rec w))).

Definition op_typed (o : op) : Prop :=
  match o with
  | OpReadChunk org | OpWriteChunk org _ => Forall Int32.in_range org
  | _ => True
  end.

(** Events that neither insert a chunk record nor return a page dirty. *)
Definition quiet (e : event) : Prop :=
  match e with
  | EvTreeIns _ => False
  | EvCachePut _ flags => flags = 0
  | _ => True
  end.

(** The directory is left as it was. *)
Record dframe (w w' : world) : Prop := mkdframe {
  dframe_static : static w' = static w;
  dframe_keys : dir_keys w' = dir_keys w;
  dframe_count : dir_count w' = dir_count w
}.

(** What a run of the engine does to the chunk directory, told by the
    events [tr] it adds to the trace: the keys grow by the inserted chunk
    numbers, each of them new, and [num_recs] is incremented once for each. *)
Record dir_step (w w' : world) (tr : list event) : Prop := mkdir_step {
  step_static : static w' = static w;
  step_trace : trace w' = trace w ++ tr;
  step_keys : dir_keys w' = dir_keys w ∪ inserted tr;
  step_size : size (dir_keys w') = (size (dir_keys w) + ins_count tr)%nat;
  step_count : dir_count w' = bump (dir_count w) (ins_count tr)
}.

(** The logical size of the element in bytes. *)
Definition logical_size (w : world) : Z :=
  let i := special_info (access_rec w) in info_length i *i nt_size i.

(** The seek arrays are those of the byte offset [x]: chunk index and
    position in the chunk of each user coordinate of element [x / nt_size]. *)
Definition seek_at (w : world) (x : Z) : Prop :=
  let i := special_info (access_rec w) in
  let cs := coords (ddims i) (x / nt_size i) in
  seek_chunk_indices i = zip_with (fun a d => a / chunk_length d) cs (ddims i) /\
  seek_pos_chunk i = zip_with (fun a d => a mod chunk_length d) cs (ddims i).

(** A well-formed open element: at least one dimension, arrays of [ndims]
    entries, dimension records as [HMCcreate] derives them, and sizes in
    bytes that fit [int32]. *)
Record wf_elem (w : world) : Prop := mkwf_elem {
  wf_ndims : 1 <= ndims (special_info (access_rec w));
  wf_ddims : Z.of_nat (length (ddims (special_info (access_rec w))))
             = ndims (special_info (access_rec w));
  wf_sbi : Z.of_nat (length (seek_chunk_indices (special_info (access_rec w))))
           = ndims (special_info (access_rec w));
  wf_spb : Z.of_nat (length (seek_pos_chunk (special_info (access_rec w))))
           = ndims (special_info (access_rec w));
  wf_dims : Forall dim_ok (ddims (special_info (access_rec w)));
  wf_nt : 0 < nt_size (special_info (access_rec w));
  wf_chunk_bytes :
    Forall (fun d => chunk_length d * nt_size (special_info (access_rec w))
                     <= Int32.max_signed)
           (ddims (special_info (access_rec w)));
  wf_size : 0 <= info_length (special_info (access_rec w))
                 * nt_size (special_info (access_rec w)) <= Int32.max_signed;
  wf_posn : 0 <= posn (access_rec w) <= Int32.max_signed
}.

(** What a write through the engine adds to the trace: every page it asks
    the cache for belongs to a chunk with a record in the tree, the records
    it inserts are placeholders, and it returns its pages dirty. *)
Record write_run (w w' : world) (tr : list event) : Prop := mkwrite_run {
  run_step : dir_step w w' tr;
  run_gets : gets_after_insert (dir_keys w) tr;
  run_placeholder : Forall placeholder_insert tr;
  run_dirty : Forall put_is_dirty tr
}.

(** The record of a chunk with its storage tag and ref filled in, as the
    page-out routine leaves it. *)
Definition stored_rec (r : CHUNK_REC) (ref : Z) : CHUNK_REC :=
  mkCHUNK_REC (chunk_number r) (chk_vnum r) (origin r) DFTAG_CHUNK ref.

(** A run that leaves the directory and the position alone and adds only
    quiet events to the trace. *)
Definition quiet_run (w w' : world) : Prop :=
  dframe w w' /\ (typed w -> typed w') /\
  exists tr, trace w' = trace w ++ tr /\ Forall quiet tr.

(** What an operation does to the directory: the step [tr] tells, every
    chunk whose page was returned dirty has a record and, when the
    operation succeeded ([ok]), every record inserted is the one of a chunk
    whose page was returned dirty. *)
Definition op_outcome (ok : Prop) (w w' : world) (tr : list event) : Prop :=
  dir_step w w' tr /\
  (typed w ->
   typed w' /\ written_chunks tr ⊆ dir_keys w' /\
   (ok -> inserted tr ⊆ written_chunks tr)).

(** Events of the stores and of the chunk tree, not of the cache. *)
Definition no_cache_event (e : event) : Prop :=
  match e with
  | EvCacheGet _ | EvCachePut _ _ => False
  | _ => True
  end.

(** Every page got from the cache is returned to it, dirty, before the next
    one is asked for, and none is left pinned at the end; [pinned] is the
    page held at the start of the trace. *)
Fixpoint returned_dirty (pinned : option Z) (tr : list event) : Prop :=
  match tr with
  | [] => pinned = None
  | EvCacheGet pg :: tr' => pinned = None /\ returned_dirty (Some pg) tr'
  | EvCachePut pg flags :: tr' =>
      pinned = Some pg /\ flags = MCACHE_DIRTY /\ returned_dirty None tr'
  | _ :: tr' => returned_dirty pinned tr'
  end.

(** * Further parts of the sources *)

(** ** Keys of the chunk tree and tags (hchunks.c:728-745, hfile.h:520-530) *)

(** [chkcompare]: compares two chunk B-tree keys; the difference of the
    [int32] keys, cast to [intn]. *)
Definition chkcompare (k1 k2 : Z) : Z := k1 -i k2.

(** [SPECIALTAG] (hfile.h:528): checks if a tag is special. *)
Definition SPECIALTAG (t : Z) : bool :=
  negb (Z.land (Z.lnot t) 32768 =? 0) && negb (Z.land t 16384 =? 0).

(** [MKSPECIALTAG] (hfile.h:530): (potentially) converts a regular tag into
    a special tag. *)
Definition MKSPECIALTAG (t : Z) : Z :=
  if Z.land (Z.lnot t) 32768 =? 0 then DFTAG_NULL else Z.lor t 16384 mod 65536.

(** The position in a chunk as [update_seek_pos_chunk] leaves it, read back
    by [calculate_seek_in_chunk]. *)
(** The check of the tag in [HMCcreate] (hchunks.c:1369): the special tag
    the element is created under, or [None] for [DFE_ARGS]. *)
Definition HMCcreate_special_tag (tag : Z) : option Z :=
  if SPECIALTAG tag || (MKSPECIALTAG tag =? DFTAG_NULL) then None
  else Some (MKSPECIALTAG tag).

(** [P] on the [n] integers from [z] on. *)
Fixpoint holds_from (P : Z -> bool) (z : Z) (n : nat) : bool :=
  match n with
  | O => true
  | S n' => P z && holds_from P (z + 1) n'
  end.

Definition chunk_seek_roundtrip
    (chunk_seek ndims nt_size : Z) (spb0 : list Z) (ddims : list DIM_REC) : Z :=
  calculate_seek_in_chunk ndims nt_size
    (update_seek_pos_chunk chunk_seek ndims nt_size spb0 ddims) ddims.

(** ** Observations on the cache and on the file record *)

Definition cache_of (w : world) : MCACHE := chk_cache (special_info (access_rec w)).

(** The page [pg] is in the cache and holds [data]. *)
Definition resident (w : world) (pg : Z) (data : bytes) : Prop :=
  exists b, find_page pg (lqh (cache_of w)) = Some b /\ page b = data.

(** What stays as it is while an element is open: its static fields, the
    access mode and the reference count of the file, and the number of
    pages of the cache. *)
Definition kept (w w' : world) : Prop :=
  static w' = static w /\
  f_access (file_rec w') = f_access (file_rec w) /\
  f_refcount (file_rec w') = f_refcount (file_rec w) /\
  npages (cache_of w') = npages (cache_of w).

(** Cache, file record and static fields are as they were. *)
Definition same_store (w w' : world) : Prop :=
  cache_of w' = cache_of w /\ file_rec w' = file_rec w /\ static w' = static w.

(** The chunk directory is as it was, and the trace grew by events that
    neither insert a record nor return a page dirty. *)
Definition directory_kept (w w' : world) : Prop :=
  dir_keys w' = dir_keys w /\ dir_count w' = dir_count w /\
  exists tr, trace w' = trace w ++ tr /\ inserted tr = ∅ /\ written_chunks tr = ∅.

(** The seek state names the first element of the chunk at [org]: position
    0 on every axis of the chunk, the user coordinates of its corner, and
    the byte offset of that element. *)
Definition at_chunk_origin (org : list Z) (w : world) : Prop :=
  let i := special_info (access_rec w) in
  let corner := zip_with (fun o d => o * chunk_length d) org (ddims i) in
  seek_chunk_indices i = org /\
  seek_pos_chunk i = replicate (length org) 0 /\
  seek_user_indices i = corner /\
  posn (access_rec w) = compute_array_to_seek corner (nt_size i) (ndims i) (ddims i).

(** ** The SZIP adapter as a stream (cszip.c:731-860) *)

Module SzipIO.

Import Szip.

(** Size of the throw-away buffer of [HCPcszip_seek]. *)
Definition TMP_BUF_SIZE : Z := 8192.

(** The errors the stream routines push. *)
Inductive szip_io_err := DFE_CTERM | DFE_CDECODE.

(** [HCIcszip_init] (cszip.c:69-105) after its [Hseek] to the start of the
    element: the buffer is released only when [buffer_size] is not 0, and
    [buffer_pos] is left as it is. *)
Definition HCIcszip_init (s : comp_coder_szip_info_t) : comp_coder_szip_info_t :=
  if negb (buffer_size s =? 0)
  then with_buffer SZIP_INIT SZIP_CLEAN None (buffer_pos s) 0 0 s
  else with_buffer SZIP_INIT SZIP_CLEAN (buffer s) (buffer_pos s) (buffer_size s) 0 s.

Section Codec.

Variable SZ_BufftoBuffCompress : bytes -> Z -> Z * bytes.
Variable SZ_BufftoBuffDecompress : bytes -> Z -> Z * bytes.
Variable uninitialised : Z -> bytes.

(** [HCPcszip_read]: the bytes decoded and [length], or [DFE_CDECODE]. *)
Definition HCPcszip_read (s : comp_coder_szip_info_t) (elt : bytes) (length : Z)
  : (szip_io_err + Z * bytes) * comp_coder_szip_info_t :=
  match HCIcszip_decode SZ_BufftoBuffDecompress s elt length with
  | (inl _, s') => (inl DFE_CDECODE, s')
  | (inr data, s') => (inr (length, data), s')
  end.

(** The [while (szip_info->offset + TMP_BUF_SIZE < offset)] loop of
    [HCPcszip_seek]; [fuel] bounds the number of passes. *)
Fixpoint HCPcszip_seek_loop
    (fuel : nat) (s : comp_coder_szip_info_t) (elt : bytes) (off : Z)
  : option ((szip_io_err + unit) * comp_coder_szip_info_t) :=
  if Szip.offset s +i TMP_BUF_SIZE <? off then
    match fuel with
    | O => None
    | S fuel' =>
        match HCIcszip_decode SZ_BufftoBuffDecompress s elt TMP_BUF_SIZE with
        | (inl _, s') => Some (inl DFE_CDECODE, s')
        | (inr _, s') => HCPcszip_seek_loop fuel' s' elt off
        end
    end
  else Some (inr tt, s).

(** [HCPcszip_seek]: move to the absolute offset [off] by decoding and
    throwing away, from the start of the element when [off] is behind the
    current offset; returns the status, the SZIP information and the
    element, which a flush of buffered data may have changed. *)
Definition HCPcszip_seek
    (fuel : nat) (s : comp_coder_szip_info_t) (elt : bytes) (off : Z)
  : option ((szip_io_err + unit) * comp_coder_szip_info_t * bytes) :=
  let restart :=
    if off <? Szip.offset s then
      let '(r, s1, elt1) :=
        match szip_dirty s, szip_state s with
        | SZIP_DIRTY, SZIP_INIT => (inr 0, s, elt)
        | SZIP_DIRTY, _ => HCIcszip_term SZ_BufftoBuffCompress uninitialised s elt
        | SZIP_CLEAN, _ => (inr 0, s, elt)
        end in
      match r with
      | inl _ => (inl DFE_CTERM, s1, elt1)
      | inr _ => (inr tt, HCIcszip_init s1, elt1)
      end
    else (inr tt, s, elt) in
  match restart with
  | (inl e, s1, elt1) => Some (inl e, s1, elt1)
  | (inr _, s1, elt1) =>
      match HCPcszip_seek_loop fuel s1 elt1 off with
      | None => None
      | Some (inl e, s2) => Some (inl e, s2, elt1)
      | Some (inr _, s2) =>
          if Szip.offset s2 <? off then
            match HCIcszip_decode SZ_BufftoBuffDecompress s2 elt1 (off -i Szip.offset s2) with
            | (inl _, s3) => Some (inl DFE_CDECODE, s3, elt1)
            | (inr _, s3) => Some (inr tt, s3, elt1)
            end
          else Some (inr tt, s2, elt1)
      end
  end.

End Codec.

(** A reader that holds the decoded bytes [data] of the element and stands
    at offset [p]; the buffer is released once everything was read. *)
Definition reading (s : comp_coder_szip_info_t) (data : bytes) (p : Z) : Prop :=
  szip_state s = SZIP_RUN /\ szip_dirty s = SZIP_CLEAN /\
  0 <= p <= Z.of_nat (length data) /\
  Szip.offset s = p /\ buffer_pos s = p /\
  buffer_size s = Z.of_nat (length data) - p /\
  (p < Z.of_nat (length data) ->
   exists b, buffer s = Some b /\ take (length data) b = data).

(** The parameters of the coder, which no operation of the adapter
    changes. *)
Definition params (s : comp_coder_szip_info_t) :=
  (bits_per_pixel s, options_mask s, pixels s, pixels_per_block s,
   pixels_per_scanline s).

(** A reader as [HCIcszip_init] leaves it. *)
Definition at_start (s : comp_coder_szip_info_t) : Prop :=
  szip_state s = SZIP_INIT /\ szip_dirty s = SZIP_CLEAN /\ Szip.offset s = 0.

(** A reader of the element at offset [p]: freshly initialised, or holding
    the decoded bytes. *)
Definition ready (s : comp_coder_szip_info_t) (data : bytes) (p : Z) : Prop :=
  (at_start s /\ p = 0) \/ reading s data p.

(** The element [elt] stores [data] for a coder of [out_length] bytes:
    raw behind sentinel byte 1, or compressed behind sentinel byte 0 in a
    form the library decompresses to [data]. *)
Definition stores
    (SZ_BufftoBuffDecompress : bytes -> Z -> Z * bytes)
    (out_length : Z) (elt data : bytes) : Prop :=
  (exists rest,
     elt = Byte.x01 :: INT32ENCODE (Z.of_nat (length data)) ++ data ++ rest /\
     Z.of_nat (length data) <= out_length) \/
  (exists out rest,
     elt = Byte.x00 :: INT32ENCODE (Z.of_nat (length out)) ++ out ++ rest /\
     Z.of_nat (length out) <= Int32.max_signed /\
     SZ_BufftoBuffDecompress out out_length = (SZ_OK, data) /\
     Z.of_nat (length data) = out_length).

End SzipIO.

(** ** Parameters of the SZIP coder (cszip.c:978-1100) *)

Module SzipParms.

(** The [szip] member of [comp_info]. *)
Record szip_parms := mkszip_parms {
  options_mask : Z;
  pixels_per_block : Z;
  pixels_per_scanline : Z;
  bits_per_pixel : Z;
  pixels : Z
}.

Section Limits.

(** The limits of the SZIP library and the size of a number type come
    from outside the sources; [DFKNTsize_native nt] stands for
    [DFKNTsize(nt | DFNT_NATIVE)], [-1] for [FAIL]. *)
Variable SZ_MAX_BLOCKS_PER_SCANLINE : Z.
Variable SZ_MAX_PIXELS_PER_SCANLINE : Z.
Variable DFKNTsize_native : Z -> Z.

(** [MIN] of hdfi.h. *)
Definition MIN (a b : Z) : Z := if a <? b then a else b.

(** [HCPsetup_szip_parms]: whether it returned [SUCCEED], and [c_info] as
    it leaves it; [cdims] is [None] for the [NULL] pointer of an element
    that is not chunked. *)
Definition HCPsetup_szip_parms
    (c_info : szip_parms) (nt ncomp ndims : Z) (dims : list Z) (cdims : option (list Z))
  : bool * szip_parms :=
  if ndims <=? 0 then (false, c_info)
  else
    let unit := default dims cdims in
    let npoints :=
      fold_left (fun n i => n *i aget unit i) (seq 0 (Z.to_nat ndims)) ncomp in
    let c_info := mkszip_parms (options_mask c_info) (pixels_per_block c_info)
                    (pixels_per_scanline c_info) (bits_per_pixel c_info) npoints in
    let scanline := aget unit (Z.to_nat (ndims - 1)) *i ncomp in
    let blocks := pixels_per_block c_info *i SZ_MAX_BLOCKS_PER_SCANLINE in
    let scanline' :=
      if scanline <? pixels_per_block c_info then
        if pixels c_info <? pixels_per_block c_info then None
        else Some (MIN blocks npoints)
      else if scanline <=? SZ_MAX_PIXELS_PER_SCANLINE then Some (MIN blocks scanline)
      else Some blocks in
    match scanline' with
    | None => (false, c_info)
    | Some scanline =>
        let c_info := mkszip_parms (options_mask c_info) (pixels_per_block c_info)
                        scanline (bits_per_pixel c_info) (pixels c_info) in
        let sz := DFKNTsize_native nt in
        if sz =? -1 then (false, c_info)
        else (true, mkszip_parms (options_mask c_info) (pixels_per_block c_info)
                      (pixels_per_scanline c_info) (sz *i 8) (pixels c_info))
    end.

End Limits.

End SzipParms.

(** ** The cache and the file as one store of chunks *)

(** The size of a chunk, and of a page of the cache, in bytes. *)
Definition pagebytes (w : world) : Z :=
  chunk_size (special_info (access_rec w)) *i nt_size (special_info (access_rec w)).

(** What [HMCPchunkread] reads of chunk [k] into a fresh page: the bytes of
    its element, or fill values; [None] when it fails. *)
Definition chunk_in_file (w : world) (k : Z) : option bytes :=
  match (HMCPchunkread k (zero_bytes (pagebytes w)) w).1 with
  | Ret r => Some r.2
  | _ => None
  end.

(** What chunk [k] holds: its page when that is in the cache, otherwise
    what is in the file. *)
Definition chunk_content (w : world) (k : Z) : option bytes :=
  match find_page (k + 1) (lqh (cache_of w)) with
  | Some b => Some (page b)
  | None => chunk_in_file w k
  end.

(** The cache and the chunk tree agree with the file.  Pages have the size
    of a chunk, at most one page per chunk is in the cache and only the
    page [pin] is pinned; a clean page holds what is in the file, a dirty
    page belongs to a chunk with a record; a record with a storage tag
    names an element of at least a chunk's size under a ref that was handed
    out, and no two records name the same element.  The fill value tiles a
    chunk. *)
Record coherent (pin : option Z) (w : world) : Prop := mkcoherent {
  coh_bytes :
    0 < chunk_size (special_info (access_rec w)) * nt_size (special_info (access_rec w))
    <= Int32.max_signed;
  coh_pagesize : pagesize (cache_of w) = pagebytes w;
  coh_npages : npages (cache_of w) <= Int32.max_signed;
  coh_fill :
    0 < fill_val_len (special_info (access_rec w))
    <= Z.of_nat (length (fill_val (special_info (access_rec w)))) /\
    pagebytes w mod fill_val_len (special_info (access_rec w)) = 0;
  coh_pages :
    Forall (fun b => Z.of_nat (length (page b)) = pagebytes w /\
                     1 <= pgno b <= npages (cache_of w) /\
                     (is_pinned b = true <-> pin = Some (pgno b)))
           (lqh (cache_of w));
  coh_nodup : NoDup (pgno <$> lqh (cache_of w));
  coh_clean :
    forall b, b ∈ lqh (cache_of w) -> is_dirty b = false ->
              chunk_in_file w (pgno b - 1) = Some (page b);
  coh_dirty :
    forall b, b ∈ lqh (cache_of w) -> is_dirty b = true ->
              is_Some (chk_tree (special_info (access_rec w)) !! (pgno b - 1));
  coh_tree :
    forall k r, chk_tree (special_info (access_rec w)) !! k = Some r ->
      chk_tag r = DFTAG_NULL \/
      (chk_tag r = DFTAG_CHUNK /\ 1 <= chk_ref r < f_next_ref (file_rec w) /\
       exists d, f_objects (file_rec w) !! (DFTAG_CHUNK, chk_ref r) = Some d /\
                 pagebytes w <= Z.of_nat (length d));
  coh_refs :
    forall k1 k2 r1 r2,
      chk_tree (special_info (access_rec w)) !! k1 = Some r1 ->
      chk_tree (special_info (access_rec w)) !! k2 = Some r2 ->
      chk_tag r1 = DFTAG_CHUNK -> chk_tag r2 = DFTAG_CHUNK ->
      chk_ref r1 = chk_ref r2 -> k1 = k2
}.

(** What [HMCPchunkread] puts into the buffer [buf] for chunk [k], read off
    the chunk tree and the elements of the file. *)
Definition read_of (i : chunkinfo_t) (objs : gmap (Z * Z) bytes) (k : Z) (buf : bytes)
  : option bytes :=
  match chk_tree i !! k with
  | None => Some (fill_page i buf)
  | Some r =>
      if negb (chk_tag r =? DFTAG_NULL) && (BASETAG (chk_tag r) =? DFTAG_CHUNK)
      then (fun data => memcpy_at buf 0 data (chunk_size i *i nt_size i))
             <$> objs !! (chk_tag r, chk_ref r)
      else if chk_tag r =? DFTAG_NULL then Some (fill_page i buf)
      else None
  end.

(** The chunks are the same: static fields, chunk tree, cache, and the
    elements and the next ref of the file. *)
Definition same_chunks (w w' : world) : Prop :=
  static w' = static w /\
  chk_tree (special_info (access_rec w')) = chk_tree (special_info (access_rec w)) /\
  cache_of w' = cache_of w /\
  f_objects (file_rec w') = f_objects (file_rec w) /\
  f_next_ref (file_rec w') = f_next_ref (file_rec w).

(** Every chunk holds what it held, every chunk with a record still has
    one, and the file is open as it was. *)
Definition same_content (w w' : world) : Prop :=
  kept w w' /\
  (forall j, chunk_content w' j = chunk_content w j) /\
  (forall j, is_Some (chk_tree (special_info (access_rec w)) !! j) ->
             is_Some (chk_tree (special_info (access_rec w')) !! j)).

(** An operation that does not write to chunk [k]: any but a write of
    bytes, and a write of a whole chunk other than [k]. *)
Definition spares (w : world) (k : Z) (o : op) : Prop :=
  match o with
  | OpWrite _ _ => False
  | OpWriteChunk org _ =>
      calculate_chunk_num (ndims (special_info (access_rec w))) org
        (ddims (special_info (access_rec w))) <> k
  | _ => True
  end.

(** ** The bytes of the element *)

(** The element is laid out as [HMCcreate] lays it out: a chunk holds the
    product of the chunk lengths in elements, the element the product of
    the dimension lengths, and the cache has a page for every chunk. *)
Record laid_out (w : world) : Prop := mklaid_out {
  lay_wf : wf_elem w;
  lay_chunk :
    chunk_size (special_info (access_rec w))
    = MixedRadix.span (chunk_length <$> ddims (special_info (access_rec w)));
  lay_length :
    info_length (special_info (access_rec w))
    = MixedRadix.span (dim_length <$> ddims (special_info (access_rec w)));
  lay_pages :
    npages (cache_of w)
    = MixedRadix.span (num_chunks <$> ddims (special_info (access_rec w)))
}.

(** The number of the chunk that holds the byte at offset [x] of the
    element, as [calculate_chunk_num] gives it for the seek arrays of [x]. *)
Definition chunk_of (w : world) (x : Z) : Z :=
  let i := special_info (access_rec w) in
  let cs := coords (ddims i) (x / nt_size i) in
  calculate_chunk_num (ndims i)
    (zip_with (fun a d => a / chunk_length d) cs (ddims i)) (ddims i).

(** The offset of that byte in the chunk: [calculate_seek_in_chunk] leads
    to the element [x / nt_size]. *)
Definition offset_of (w : world) (x : Z) : Z :=
  let i := special_info (access_rec w) in
  let cs := coords (ddims i) (x / nt_size i) in
  calculate_seek_in_chunk (ndims i) (nt_size i)
    (zip_with (fun a d => a mod chunk_length d) cs (ddims i)) (ddims i)
  + x mod nt_size i.

(** The byte at offset [x] of the element, in the cache or in the file. *)
Definition byte_at (w : world) (x : Z) : option Byte.byte :=
  chunk_content w (chunk_of w x) ≫= fun d => d !! Z.to_nat (offset_of w x).

(** ** Plain data elements and the file below them (hfile.c, hfile.h) *)

Module Hfile.

(** [uint32] arithmetic of [f_cur_off] and [f_end_off]. *)
Definition uint32 (z : Z) : Z := z mod 2 ^ 32.

(** What the last file operation was (hfile.h:331-338, named as hfile.c
    names them). *)
Inductive fileop_t := H4_OP_UNKNOWN | H4_OP_SEEK | H4_OP_WRITE | H4_OP_READ.

Definition fileop_eqb (a b : fileop_t) : bool :=
  match a, b with
  | H4_OP_UNKNOWN, H4_OP_UNKNOWN | H4_OP_SEEK, H4_OP_SEEK
  | H4_OP_WRITE, H4_OP_WRITE | H4_OP_READ, H4_OP_READ => true
  | _, _ => false
  end.

(** The stream [file_rec->file] as the C library has it: the bytes of the
    file, the file position, and the operation done last.  [defined] turns
    false when input directly follows output, or output input, with no
    positioning call in between, which the C standard leaves undefined. *)
Record hdf_file_t := mkhdf_file_t {
  contents : bytes;
  position : Z;
  last_io : fileop_t;
  defined : bool
}.

(** [HI_SEEK] (hfile.h:89): [fseek] from the start of the file; a negative
    offset fails, an offset past the end does not. *)
Definition HI_SEEK (f : hdf_file_t) (o : Z) : bool * hdf_file_t :=
  if o <? 0 then (false, f)
  else (true, mkhdf_file_t (contents f) o H4_OP_SEEK (defined f)).

(** [HI_READ] (hfile.h:83): [fread] of [n] bytes; it is [SUCCEED] when all
    [n] bytes were there.  A negative [n] is a huge [size_t]: everything up
    to the end of the file is read, and that is never [n] bytes. *)
Definition HI_READ (f : hdf_file_t) (n : Z) : bool * bytes * hdf_file_t :=
  let rest := drop (Z.to_nat (position f)) (contents f) in
  let got := if n <? 0 then rest else take (Z.to_nat n) rest in
  (negb (n <? 0) && (Z.of_nat (length got) =? n), got,
   mkhdf_file_t (contents f) (position f + Z.of_nat (length got)) H4_OP_READ
     (defined f && negb (fileop_eqb (last_io f) H4_OP_WRITE))).

(** The bytes of a file after [fwrite] of [buf] at [pos]: a gap between the
    end of the file and [pos] reads as zeros. *)
Definition fwrite_at (c : bytes) (pos : Z) (buf : bytes) : bytes :=
  take (Z.to_nat pos) c ++ zero_bytes (pos - Z.of_nat (length c)) ++ buf
  ++ drop (Z.to_nat pos + length buf) c.

(** [HI_WRITE] (hfile.h:85): [fwrite] of the first [n] bytes of [buf], on a
    device with room for them. *)
Definition HI_WRITE (f : hdf_file_t) (buf : bytes) (n : Z) : bool * hdf_file_t :=
  if n <? 0 then (false, f)
  else
    (true,
     mkhdf_file_t (fwrite_at (contents f) (position f) (take (Z.to_nat n) buf))
       (position f + n) H4_OP_WRITE
       (defined f && negb (fileop_eqb (last_io f) H4_OP_READ))).

(** The fields of [filerec_t] (hfile.h:341-372) the access layer uses. *)
Record filerec_t := mkfilerec_t {
  file : hdf_file_t;
  refcount : Z;
  f_cur_off : Z;
  last_op : fileop_t;
  cache : bool;
  dirty : Z;
  f_end_off : Z
}.

Definition FILE_END_DIRTY : Z := 2.

(** [BADFREC] (hfile.h:492). *)
Definition BADFREC (r : filerec_t) : bool := refcount r =? 0.

(** Modelled from the spec: the data descriptor of an element of the Object
    Store (spec section 6), with the fields of [dd_t] (hfile.h:278-285) that
    [HTPinquire] reports and [HTPupdate] sets; [length] and [offset] are
    named [dd_length] and [dd_offset] here. *)
Record dd_t := mkdd_t {
  tag : Z;
  ref : Z;
  dd_length : Z;
  dd_offset : Z
}.

(** The fields of [accrec_t] (hfile.h:382-400) of a plain element; [ddid]
    holds the descriptor it names. *)
Record accrec_t := mkaccrec_t {
  appendable : bool;
  access : Z;
  special : Z;
  new_elem : bool;
  posn : Z;
  ddid : dd_t
}.

(** The errors the routines and their callers in hchunks.c push. *)
Inductive hfile_err :=
| DFE_ARGS | DFE_INTERNAL | DFE_BADSEEK | DFE_READERROR | DFE_SEEKERROR
| DFE_WRITEERROR | DFE_NOSPACE.

(** [SUCCEED a]: the routine returns [a]; [FAIL e]: it returns [FAIL] after
    pushing [e]; [SPECIAL]: the call went on in the routines of a special
    element, which are not part of this model. *)
Inductive outcome (A : Type) :=
| SUCCEED (a : A)
| FAIL (e : hfile_err)
| SPECIAL.

Arguments SUCCEED {A} a.
Arguments FAIL {A} e.
Arguments SPECIAL {A}.

Definition with_file (f : hdf_file_t) (r : filerec_t) : filerec_t :=
  mkfilerec_t f (refcount r) (f_cur_off r) (last_op r) (cache r) (dirty r) (f_end_off r).

Definition with_last_op (o : fileop_t) (r : filerec_t) : filerec_t :=
  mkfilerec_t (file r) (refcount r) (f_cur_off r) o (cache r) (dirty r) (f_end_off r).

Definition with_cur (f : hdf_file_t) (off : Z) (o : fileop_t) (r : filerec_t) : filerec_t :=
  mkfilerec_t f (refcount r) off o (cache r) (dirty r) (f_end_off r).

Definition with_posn (p : Z) (a : accrec_t) : accrec_t :=
  mkaccrec_t (appendable a) (access a) (special a) (new_elem a) p (ddid a).

Definition with_appendable (b : bool) (a : accrec_t) : accrec_t :=
  mkaccrec_t b (access a) (special a) (new_elem a) (posn a) (ddid a).

(** [HPseek] (hfile.c:3226-3254): the seek is left out when the file is
    known to be at [offset] already. *)
Definition HPseek (file_rec : filerec_t) (offset : Z) : outcome unit * filerec_t :=
  if negb (f_cur_off file_rec =? uint32 offset)
     || fileop_eqb (last_op file_rec) H4_OP_UNKNOWN
  then
    match HI_SEEK (file file_rec) offset with
    | (false, f) => (FAIL DFE_SEEKERROR, with_file f file_rec)
    | (true, f) => (SUCCEED (), with_cur f (uint32 offset) H4_OP_SEEK file_rec)
    end
  else (SUCCEED (), file_rec).

(** [HP_read] (hfile.c:3184-3205). *)
Definition HP_read (file_rec : filerec_t) (bytes : Z)
  : outcome (list Byte.byte) * filerec_t :=
  let switch :=
    fileop_eqb (last_op file_rec) H4_OP_WRITE
    || fileop_eqb (last_op file_rec) H4_OP_UNKNOWN in
  let '(sought, file_rec) :=
    if switch then
      HPseek (with_last_op H4_OP_UNKNOWN file_rec) (Int32.wrap (f_cur_off file_rec))
    else (SUCCEED (), file_rec) in
  match sought with
  | SUCCEED _ =>
      match HI_READ (file file_rec) bytes with
      | (false, _, f) => (FAIL DFE_READERROR, with_file f file_rec)
      | (true, buf, f) =>
          (SUCCEED buf, with_cur f (uint32 (f_cur_off file_rec + bytes)) H4_OP_READ file_rec)
      end
  | _ => (FAIL DFE_INTERNAL, file_rec)
  end.

(** [HP_write] (hfile.c:3276-3298). *)
Definition HP_write (file_rec : filerec_t) (buf : bytes) (bytes : Z)
  : outcome unit * filerec_t :=
  let switch :=
    fileop_eqb (last_op file_rec) H4_OP_READ
    || fileop_eqb (last_op file_rec) H4_OP_UNKNOWN in
  let '(sought, file_rec) :=
    if switch then
      HPseek (with_last_op H4_OP_UNKNOWN file_rec) (Int32.wrap (f_cur_off file_rec))
    else (SUCCEED (), file_rec) in
  match sought with
  | SUCCEED _ =>
      match HI_WRITE (file file_rec) buf bytes with
      | (false, f) => (FAIL DFE_WRITEERROR, with_file f file_rec)
      | (true, f) =>
          (SUCCEED (), with_cur f (uint32 (f_cur_off file_rec + bytes)) H4_OP_WRITE file_rec)
      end
  | _ => (FAIL DFE_INTERNAL, file_rec)
  end.

Section Outside.

(** [temp] is the byte [HPgetdiskblock] writes from a variable it never
    sets.  [HLconvert] is not among the sources: it tells whether the
    element could be turned into a linked-block element. *)
Variable temp : Byte.byte.
Variable HLconvert : accrec_t -> filerec_t -> bool.

(** [HPgetdiskblock] (hfile.c:2948-3005), without [DISKBLOCK_DEBUG]: the
    block is taken at the end of the file. *)
Definition HPgetdiskblock (file_rec : filerec_t) (block_size : Z) (moveto : bool)
  : outcome Z * filerec_t :=
  if block_size <? 0 then (FAIL DFE_ARGS, file_rec)
  else
    let ret_value := Int32.wrap (f_end_off file_rec) in
    let '(reserved, file_rec) :=
      if 0 <? block_size then
        if cache file_rec then
          (SUCCEED (),
           mkfilerec_t (file file_rec) (refcount file_rec) (f_cur_off file_rec)
             (last_op file_rec) (cache file_rec)
             (Z.lor (dirty file_rec) FILE_END_DIRTY) (f_end_off file_rec))
        else
          match HPseek file_rec (ret_value +i block_size -i 1) with
          | (SUCCEED _, file_rec) =>
              match HP_write file_rec [temp] 1 with
              | (SUCCEED _, file_rec) => (SUCCEED (), file_rec)
              | (_, file_rec) => (FAIL DFE_WRITEERROR, file_rec)
              end
          | (_, file_rec) => (FAIL DFE_SEEKERROR, file_rec)
          end
      else (SUCCEED (), file_rec) in
    match reserved with
    | SUCCEED _ =>
        let '(moved, file_rec) :=
          if moveto then HPseek file_rec ret_value else (SUCCEED (), file_rec) in
        match moved with
        | SUCCEED _ =>
            (SUCCEED ret_value,
             mkfilerec_t (file file_rec) (refcount file_rec) (f_cur_off file_rec)
               (last_op file_rec) (cache file_rec) (dirty file_rec)
               (uint32 (f_end_off file_rec + block_size)))
        | _ => (FAIL DFE_SEEKERROR, file_rec)
        end
    | FAIL e => (FAIL e, file_rec)
    | SPECIAL => (SPECIAL, file_rec)
    end.

(** Modelled from the spec: [HTPupdate] sets the offset and the length of
    the descriptor of an element of the Object Store (spec section 6); [-2]
    for one of them leaves it as it is (hfile.c:1380-1381). *)
Definition HTPupdate (dd : dd_t) (new_off new_len : Z) : dd_t :=
  mkdd_t (tag dd) (ref dd)
    (if new_len =? -2 then dd_length dd else new_len)
    (if new_off =? -2 then dd_offset dd else new_off).

Definition state : Type := accrec_t * filerec_t.

(** [Hsetlength] (hfile.c:977-1012). *)
Definition Hsetlength (length : Z) (s : state) : outcome unit * state :=
  let '(access_rec, file_rec) := s in
  if negb (new_elem access_rec) then (FAIL DFE_ARGS, s)
  else if BADFREC file_rec then (FAIL DFE_ARGS, s)
  else
    match HPgetdiskblock file_rec length false with
    | (SUCCEED offset, file_rec) =>
        (SUCCEED (),
         (mkaccrec_t (appendable access_rec) (access access_rec) (special access_rec)
            false (posn access_rec) (HTPupdate (ddid access_rec) offset length),
          file_rec))
    | (_, file_rec) => (FAIL DFE_SEEKERROR, (access_rec, file_rec))
    end.

(** [Hseek] (hfile.c:1116-1187) on a valid access record. *)
Definition Hseek (offset origin : Z) (s : state) : outcome unit * state :=
  let '(access_rec, file_rec) := s in
  if negb (origin =? DF_START) && negb (origin =? DF_CURRENT) && negb (origin =? DF_END)
  then (FAIL DFE_ARGS, s)
  else if negb (special access_rec =? 0) then (SPECIAL, s)
  else
    let data_off := dd_offset (ddid access_rec) in
    let data_len := dd_length (ddid access_rec) in
    let offset := if origin =? DF_CURRENT then offset +i posn access_rec else offset in
    let offset := if origin =? DF_END then offset +i data_len else offset in
    if offset =? posn access_rec then (SUCCEED (), s)
    else if (offset <? 0) || (negb (appendable access_rec) && (data_len <? offset))
    then (FAIL DFE_BADSEEK, s)
    else if appendable access_rec && (data_len <=? offset)
            && negb (uint32 (data_len +i data_off) =? f_end_off file_rec)
    then
      if HLconvert access_rec file_rec then (SPECIAL, s)
      else (FAIL DFE_BADSEEK, (with_appendable false access_rec, file_rec))
    else (SUCCEED (), (with_posn offset access_rec, file_rec)).

(** [Hread] (hfile.c:1240-1298) on a valid access record, into a buffer
    that is there. *)
Definition Hread (length : Z) (s : state) : outcome (Z * bytes) * state :=
  let '(access_rec, file_rec) := s in
  if new_elem access_rec then (FAIL DFE_READERROR, s)
  else if negb (special access_rec =? 0) then (SPECIAL, s)
  else if BADFREC file_rec then (FAIL DFE_INTERNAL, s)
  else if length <? 0 then (FAIL DFE_BADSEEK, s)
  else
    let data_off := dd_offset (ddid access_rec) in
    let data_len := dd_length (ddid access_rec) in
    match HPseek file_rec (posn access_rec +i data_off) with
    | (SUCCEED _, file_rec) =>
        let length :=
          if (length =? 0) || (data_len <? length +i posn access_rec)
          then data_len -i posn access_rec else length in
        match HP_read file_rec length with
        | (SUCCEED data, file_rec) =>
            (SUCCEED (length, data),
             (with_posn (posn access_rec +i length) access_rec, file_rec))
        | (_, file_rec) => (FAIL DFE_READERROR, (access_rec, file_rec))
        end
    | (_, file_rec) => (FAIL DFE_SEEKERROR, (access_rec, file_rec))
    end.

(** [Hwrite] (hfile.c:1320-1406) on a valid access record, from a buffer
    that is there. *)
Definition Hwrite (length : Z) (data : bytes) (s : state) : outcome Z * state :=
  let '(access_rec, file_rec) := s in
  if Z.land (access access_rec) DFACC_WRITE =? 0 then (FAIL DFE_ARGS, s)
  else if negb (special access_rec =? 0) then (SPECIAL, s)
  else if BADFREC file_rec then (FAIL DFE_INTERNAL, s)
  else
    let '(access_rec, file_rec) :=
      if new_elem access_rec then
        let '(access_rec, file_rec) := (Hsetlength length s).2 in
        (with_appendable true access_rec, file_rec)
      else s in
    let data_off := dd_offset (ddid access_rec) in
    let data_len := dd_length (ddid access_rec) in
    if (length <=? 0)
       || (negb (appendable access_rec) && (data_len <? length +i posn access_rec))
    then (FAIL DFE_BADSEEK, (access_rec, file_rec))
    else
      let grows := appendable access_rec && (data_len <? length +i posn access_rec) in
      if grows && negb (uint32 (data_len +i data_off) =? f_end_off file_rec)
      then
        if HLconvert access_rec file_rec then (SPECIAL, (access_rec, file_rec))
        else (FAIL DFE_BADSEEK, (with_appendable false access_rec, file_rec))
      else
        let access_rec :=
          if grows then
            mkaccrec_t (appendable access_rec) (access access_rec) (special access_rec)
              (new_elem access_rec) (posn access_rec)
              (HTPupdate (ddid access_rec) (-2) (posn access_rec +i length))
          else access_rec in
        match HPseek file_rec (posn access_rec +i data_off) with
        | (SUCCEED _, file_rec) =>
            match HP_write file_rec data length with
            | (SUCCEED _, file_rec) =>
                let file_rec :=
                  if f_end_off file_rec <? f_cur_off file_rec then
                    mkfilerec_t (file file_rec) (refcount file_rec) (f_cur_off file_rec)
                      (last_op file_rec) (cache file_rec) (dirty file_rec)
                      (f_cur_off file_rec)
                  else file_rec in
                (SUCCEED length,
                 (with_posn (posn access_rec +i length) access_rec, file_rec))
            | (_, file_rec) => (FAIL DFE_WRITEERROR, (access_rec, file_rec))
            end
        | (_, file_rec) => (FAIL DFE_SEEKERROR, (access_rec, file_rec))
        end.

End Outside.

(** The bytes of the element an access record is attached to. *)
Definition element (s : state) : bytes :=
  take (Z.to_nat (dd_length (ddid s.1)))
    (drop (Z.to_nat (dd_offset (ddid s.1))) (contents (file s.2))).

(** The seek cache of a file record agrees with its stream: no undefined
    switch between input and output has happened, and unless the last
    operation is unknown, [last_op] and [f_cur_off] are those of the
    stream. *)
Definition synced (r : filerec_t) : Prop :=
  defined (file r) = true /\
  0 <= f_cur_off r <= Int32.max_signed /\
  (last_op r = H4_OP_UNKNOWN \/
   (last_op r = last_io (file r) /\ position (file r) = f_cur_off r)).

(** The file is shorter than 2 GiB. *)
Definition small (r : filerec_t) : Prop :=
  Z.of_nat (length (contents (file r))) <= Int32.max_signed.

(** A call of the file layer, and a run of calls that stops at the first
    one that fails. *)
Inductive hp_op :=
| hp_seek (offset : Z)
| hp_read (bytes : Z)
| hp_write (buf : bytes).

Definition hp_step (o : hp_op) (r : filerec_t) : bool * filerec_t :=
  match o with
  | hp_seek offset =>
      match HPseek r offset with (SUCCEED _, r) => (true, r) | (_, r) => (false, r) end
  | hp_read n =>
      match HP_read r n with (SUCCEED _, r) => (true, r) | (_, r) => (false, r) end
  | hp_write buf =>
      match HP_write r buf (Z.of_nat (length buf)) with
      | (SUCCEED _, r) => (true, r)
      | (_, r) => (false, r)
      end
  end.

Fixpoint hp_run (os : list hp_op) (r : filerec_t) : bool * filerec_t :=
  match os with
  | [] => (true, r)
  | o :: os =>
      match hp_step o r with
      | (true, r) => hp_run os r
      | (false, r) => (false, r)
      end
  end.

Definition hp_int32 (o : hp_op) : Prop :=
  match o with
  | hp_seek offset => Int32.in_range offset
  | hp_read n => Int32.in_range n
  | hp_write buf => Int32.in_range (Z.of_nat (length buf))
  end.

(** What a call leaves of a file record besides the stream and the seek
    cache. *)
Definition same_rest (r r' : filerec_t) : Prop :=
  refcount r' = refcount r /\ cache r' = cache r /\ dirty r' = dirty r /\
  f_end_off r' = f_end_off r.

(** A file record right after a call that left the file at [off]. *)
Definition at_offset (r : filerec_t) (off : Z) : Prop :=
  defined (file r) = true /\ f_cur_off r = off /\ position (file r) = off /\
  last_op r = last_io (file r) /\ last_op r <> H4_OP_UNKNOWN.

(** A run of [Hwrite] calls, each of a whole buffer, that stops at the
    first one that fails. *)
Fixpoint Hwrite_run (temp : Byte.byte) (HLconvert : accrec_t -> filerec_t -> bool)
    (ds : list bytes) (s : state) : bool * state :=
  match ds with
  | [] => (true, s)
  | d :: ds =>
      match Hwrite temp HLconvert (Z.of_nat (length d)) d s with
      | (SUCCEED _, s) => Hwrite_run temp HLconvert ds s
      | (_, s) => (false, s)
      end
  end.

(** An element that was appended to at the end of the file: [c0] are the
    bytes of the file before it, [E] its own. *)
Record appended (c0 E : bytes) (s : state) : Prop := mkappended {
  app_special : special s.1 = 0;
  app_old : new_elem s.1 = false;
  app_access : Z.land (access s.1) DFACC_WRITE <> 0;
  app_appendable : appendable s.1 = true;
  app_open : BADFREC s.2 = false;
  app_synced : synced s.2;
  app_contents : contents (file s.2) = c0 ++ E;
  app_offset : dd_offset (ddid s.1) = Z.of_nat (length c0);
  app_length : dd_length (ddid s.1) = Z.of_nat (length E);
  app_posn : posn s.1 = Z.of_nat (length E);
  app_end : f_end_off s.2 = Z.of_nat (length (c0 ++ E))
}.

(** A plain element that is open, lies in the file, and has its position
    inside it. *)
Record plain (s : state) : Prop := mkplain {
  plain_special : special s.1 = 0;
  plain_old : new_elem s.1 = false;
  plain_open : BADFREC s.2 = false;
  plain_synced : synced s.2;
  plain_small : small s.2;
  plain_off : 0 <= dd_offset (ddid s.1);
  plain_posn : 0 <= posn s.1 <= dd_length (ddid s.1);
  plain_inside :
    dd_offset (ddid s.1) + dd_length (ddid s.1) <= Z.of_nat (length (contents (file s.2)))
}.

End Hfile.

(** ** The header of a chunked element (hchunks.c:1575-1676 and 940-1040) *)

Module ChunkHeader.

Import Szip Hfile.

(** Modelled from the spec: [UINT16ENCODE] and [UINT16DECODE] of hdfi.h are
    missing from the sources; the spec (section 7, on-disk header layout)
    has 2-byte fields beside the 4-byte ones, and HDF stores both most
    significant byte first. *)
Definition UINT16ENCODE (i : Z) : bytes := [byte_of_Z (Z.shiftr i 8); byte_of_Z i].

Definition UINT16DECODE (p : bytes) : Z :=
  match p with
  | b1 :: b0 :: _ => Z.lor (Z.shiftl (Z_of_byte b1) 8) (Z_of_byte b0)
  | _ => 0
  end.

Definition _HDF_CHK_HDR_VER : Z := 0.

(** The "chunked element format header fields" of [chunkinfo_t]
    (hchunks.c:312-327); [length] is [info_length] here. *)
Record chunk_header := mkchunk_header {
  sp_tag_header_len : Z;
  version : Z;
  flag : Z;
  info_length : Z;
  chunk_size : Z;
  nt_size : Z;
  chktbl_tag : Z;
  chktbl_ref : Z;
  sp_tag : Z;
  sp_ref : Z;
  ndims : Z;
  ddims : list DIM_REC;
  fill_val_len : Z;
  fill_val : bytes
}.

(** The total length of the header [HMCcreate] writes (hchunks.c:1587-1596);
    [comp_sp_tag_head_len] is the length of the compression header. *)
Definition HMCcreate_sp_tag_header_len
    (flag ndims fill_val_len comp_sp_tag_head_len : Z) : Z :=
  if Z.land flag 255 =? SPECIAL_COMP
  then 6 +i 9 +i 12 +i 8 +i 12 *i ndims +i 4 +i fill_val_len +i 6 +i comp_sp_tag_head_len
  else 6 +i 9 +i 12 +i 8 +i 12 *i ndims +i 4 +i fill_val_len.

(** The header fields as [HMCcreate] sets them (hchunks.c:1403-1424,
    1478-1483, 1520-1573 and 1609-1617) for the chunk table
    [(chktbl_tag, chktbl_ref)]. *)
Definition HMCcreate_header_fields
    (chunk_flag chunk_size nt_size : Z) (pdims : list DIM_DEF)
    (fill_val_len : Z) (fill_val : bytes) (chktbl_tag chktbl_ref : Z)
    (comp_sp_tag_head_len : Z) : chunk_header :=
  let n := Z.of_nat (length pdims) in
  let dd := HMCcreate_ddims pdims in
  let total := HMCcreate_sp_tag_header_len chunk_flag n fill_val_len comp_sp_tag_head_len in
  mkchunk_header
    (if Z.land chunk_flag 255 =? SPECIAL_COMP
     then total -i 6 -i 6 -i comp_sp_tag_head_len else total -i 6)
    _HDF_CHK_HDR_VER chunk_flag (HMCcreate_data_len dd) chunk_size nt_size
    chktbl_tag chktbl_ref DFTAG_NULL 0 n dd
    fill_val_len (take (Z.to_nat fill_val_len) fill_val).

Definition encode_dim (d : DIM_REC) : bytes :=
  INT32ENCODE (dim_flag d) ++ INT32ENCODE (dim_length d) ++ INT32ENCODE (chunk_length d).

(** The buffer [c_sp_header] as [HMCcreate] fills it (hchunks.c:1619-1660);
    [comp_sp_tag_header] is the encoded compression header of an element
    that is also compressed. *)
Definition HMCcreate_c_sp_header (info : chunk_header) (comp_sp_tag_header : bytes)
  : bytes :=
  UINT16ENCODE SPECIAL_CHUNKED
  ++ INT32ENCODE (sp_tag_header_len info)
  ++ [byte_of_Z (version info)]
  ++ INT32ENCODE (flag info)
  ++ INT32ENCODE (info_length info)
  ++ INT32ENCODE (chunk_size info)
  ++ INT32ENCODE (nt_size info)
  ++ UINT16ENCODE (chktbl_tag info)
  ++ UINT16ENCODE (chktbl_ref info)
  ++ UINT16ENCODE (sp_tag info)
  ++ UINT16ENCODE (sp_ref info)
  ++ INT32ENCODE (ndims info)
  ++ mjoin ((fun j => encode_dim (dget (ddims info) j)) <$> seq 0 (Z.to_nat (ndims info)))
  ++ INT32ENCODE (fill_val_len info)
  ++ take (Z.to_nat (fill_val_len info)) (fill_val info)
  ++ (if Z.land (flag info) 255 =? SPECIAL_COMP
      then UINT16ENCODE SPECIAL_COMP
           ++ INT32ENCODE (Z.of_nat (length comp_sp_tag_header)) ++ comp_sp_tag_header
      else []).

(** The access record [Hstartaccess] sets up (hfile.c:866-935) for reading
    an element whose descriptor it found; the element counts as new when
    its offset and length are both invalid. *)
Definition Hstartaccess_read (dd : dd_t) : accrec_t :=
  mkaccrec_t false DFACC_READ 0 ((dd_offset dd =? -1) && (dd_length dd =? -1)) 0 dd.

(** The loop "decode dimension stuff" of [HMCIstaccess] (hchunks.c:1001-1027)
    over [n] dimensions from [p] on; [None] when a chunk length of 0 makes
    it divide by zero. *)
Fixpoint decode_dims (n : nat) (p : bytes) : option (list DIM_REC) * bytes :=
  match n with
  | O => (Some [], p)
  | S n =>
      let flag := INT32DECODE p in
      let dim_length := INT32DECODE (drop 4 p) in
      let chunk_length := INT32DECODE (drop 8 p) in
      if chunk_length =? 0 then (None, drop 12 p)
      else
        match decode_dims n (drop 12 p) with
        | (Some ds, p) => (Some (HMCIstaccess_dim flag dim_length chunk_length :: ds), p)
        | r => r
        end
  end.

(** How the reading of a header ends: with the fields decoded; with an
    error; in the code for the compression header of an element that is
    also compressed, which is not part of this model; or outside the C
    language, when the header makes the decoder leave [c_sp_header] or
    divide by zero. *)
Inductive decoded :=
| Decoded (info : chunk_header)
| Refused (e : hfile_err)
| Compressed
| Undefined.

(** [HMCIstaccess] from the [Hstartaccess] on the header to the decoding of
    the fill value (hchunks.c:940-1040).  [local_ptbuf] is what the buffer
    of that name holds before, [dd] the descriptor of the element. *)
Definition HMCIstaccess_header
    (HLconvert : accrec_t -> filerec_t -> bool) (local_ptbuf : bytes)
    (dd : dd_t) (file_rec : filerec_t) : decoded * state :=
  let s := (Hstartaccess_read dd, file_rec) in
  match Hseek HLconvert 2 DF_START s with
  | (SUCCEED _, s) =>
      match Hread 4 s with
      | (SUCCEED (_, data), s) =>
          let local_ptbuf := memcpy_at local_ptbuf 0 data 4 in
          let sp_tag_header_len := INT32DECODE local_ptbuf in
          if (sp_tag_header_len <? 0) || (256 <? sp_tag_header_len)
          then (Refused DFE_INTERNAL, s)
          else
            match Hread sp_tag_header_len s with
            | (SUCCEED (n, data), s) =>
                if 256 <? n then (Undefined, s)
                else
                  let c_sp_header := data ++ zero_bytes (256 - n) in
                  let version := Z_of_byte (hd Byte.x00 c_sp_header) in
                  let p := drop 1 c_sp_header in
                  if negb (version =? _HDF_CHK_HDR_VER) then (Refused DFE_INTERNAL, s)
                  else
                    let flag := INT32DECODE p in
                    let p := drop 4 p in
                    let length := INT32DECODE p in
                    let p := drop 4 p in
                    let chunk_size := INT32DECODE p in
                    let p := drop 4 p in
                    let nt_size := INT32DECODE p in
                    let p := drop 4 p in
                    let chktbl_tag := UINT16DECODE p in
                    let p := drop 2 p in
                    let chktbl_ref := UINT16DECODE p in
                    let p := drop 2 p in
                    let sp_tag := UINT16DECODE p in
                    let p := drop 2 p in
                    let sp_ref := UINT16DECODE p in
                    let p := drop 2 p in
                    let ndims := INT32DECODE p in
                    let p := drop 4 p in
                    if ndims <? 0 then (Refused DFE_INTERNAL, s)
                    else if 256 <? 29 + 12 * ndims + 4 then (Undefined, s)
                    else
                      match decode_dims (Z.to_nat ndims) p with
                      | (Some ddims, p) =>
                          let fill_val_len := INT32DECODE p in
                          let p := drop 4 p in
                          if fill_val_len <? 0 then (Refused DFE_NOSPACE, s)
                          else if 256 <? 33 + 12 * ndims + fill_val_len then (Undefined, s)
                          else
                            let fill_val := take (Z.to_nat fill_val_len) p in
                            if Z.land flag 255 =? SPECIAL_COMP then (Compressed, s)
                            else
                              (Decoded
                                 (mkchunk_header sp_tag_header_len version flag length
                                    chunk_size nt_size chktbl_tag chktbl_ref sp_tag sp_ref
                                    ndims ddims fill_val_len fill_val),
                               s)
                      | (None, _) => (Undefined, s)
                      end
            | (_, s) => (Refused DFE_READERROR, s)
            end
      | (_, s) => (Refused DFE_READERROR, s)
      end
  | (_, s) => (Refused DFE_SEEKERROR, s)
  end.

(** A dimension whose stored fields are [int32] values, with a chunk length
    that is not 0. *)
Definition storable (d : DIM_REC) : Prop :=
  Int32.in_range (dim_flag d) /\ Int32.in_range (dim_length d) /\
  Int32.in_range (chunk_length d) /\ chunk_length d <> 0.

End ChunkHeader.

(** * Properties of the embedding *)

(** ** Facts on [int32] arithmetic *)

Section Int32Facts.

Import Int32.

Lemma wrap_small z : in_range z -> wrap z = z.
Proof.
  unfold in_range, min_signed, max_signed, wrap. intros H.
  rewrite Z.mod_small by lia. lia.
Qed.

Lemma wrap_in_range z : in_range (wrap z).
Proof.
  unfold in_range, min_signed, max_signed, wrap.
  pose proof (Z.mod_pos_bound (z + 2 ^ 31) (2 ^ 32) ltac:(lia)). lia.
Qed.

Lemma add_small a b : in_range (a + b) -> a +i b = a + b.
Proof. apply wrap_small. Qed.

Lemma sub_small a b : in_range (a - b) -> a -i b = a - b.
Proof. apply wrap_small. Qed.

Lemma mul_small a b : in_range (a * b) -> a *i b = a * b.
Proof. apply wrap_small. Qed.

Lemma div_nonneg a b : 0 <= a <= max_signed -> 0 < b -> a /i b = a / b.
Proof.
  intros Ha Hb. unfold div. rewrite Z.quot_div_nonneg by lia.
  apply wrap_small. unfold in_range, min_signed, max_signed in *.
  pose proof (Z.div_pos a b ltac:(lia) Hb).
  pose proof (Z.div_le_upper_bound a b a Hb ltac:(nia)). lia.
Qed.

Lemma rem_nonneg a b : 0 <= a -> 0 < b -> a %i b = a mod b.
Proof. intros. unfold rem. apply Z.rem_mod_nonneg; lia. Qed.

Lemma in_range_nonneg z : 0 <= z <= max_signed -> in_range z.
Proof. unfold in_range, min_signed, max_signed. lia. Qed.

End Int32Facts.

(** ** Facts on mixed-radix numbers *)

Section MixedRadixFacts.

Import MixedRadix.

Lemma span_pos ds : Forall (fun d => 0 < d) ds -> 0 < span ds.
Proof. induction 1; simpl; lia. Qed.

Lemma span_app ds1 ds2 : span (ds1 ++ ds2) = span ds1 * span ds2.
Proof. induction ds1 as [|d ds1 IH]; simpl; [lia | rewrite IH; lia]. Qed.

Lemma span_reverse ds : span (reverse ds) = span ds.
Proof.
  induction ds as [|d ds IH]; [done|].
  rewrite reverse_cons, span_app, IH. simpl. lia.
Qed.

Lemma length_digits ds s : length (digits ds s) = length ds.
Proof. revert s. induction ds as [|d ds IH]; intros s; simpl; [done | by rewrite IH]. Qed.

Lemma digits_in_radix ds s :
  Forall (fun d => 0 < d) ds -> Forall2 in_radix (digits ds s) ds.
Proof.
  intros H. revert s. induction H as [|d ds Hd _ IH]; intros s; simpl.
  - constructor.
  - constructor; [|apply IH]. unfold in_radix. apply Z.mod_pos_bound. lia.
Qed.

Lemma val_bound xs ds : Forall2 in_radix xs ds -> 0 <= val xs ds < span ds.
Proof.
  induction 1 as [|x d xs ds Hx _ IH]; simpl; [lia|].
  unfold in_radix in Hx. nia.
Qed.

Lemma val_digits ds s :
  Forall (fun d => 0 < d) ds -> val (digits ds s) ds = s mod span ds.
Proof.
  intros H. revert s. induction H as [|d ds Hd Hds IH]; intros s; simpl.
  - by rewrite Z.mod_1_r.
  - rewrite IH. pose proof (span_pos _ Hds).
    rewrite Z.rem_mul_r by lia. lia.
Qed.

Lemma val_digits_small ds s :
  Forall (fun d => 0 < d) ds -> 0 <= s < span ds -> val (digits ds s) ds = s.
Proof. intros H Hs. rewrite val_digits by done. by apply Z.mod_small. Qed.

Lemma val_inj xs ys ds :
  Forall2 in_radix xs ds -> Forall2 in_radix ys ds ->
  val xs ds = val ys ds -> xs = ys.
Proof.
  intros Hx. revert ys. induction Hx as [|x d xs ds Hx Hxs IH]; intros ys Hy Hv.
  - by inversion Hy.
  - inversion Hy as [|y d' ys' ds' Hy1 Hys]; subst. simpl in Hv.
    unfold in_radix in *.
    assert (x = y).
    { assert (Hm : (x + d * val xs ds) mod d = (y + d * val ys' ds) mod d) by (by rewrite Hv).
      rewrite !(Z.mul_comm d), !Z.mod_add, !Z.mod_small in Hm by lia. done. }
    subst y. f_equal. apply IH; [done|]. nia.
Qed.

End MixedRadixFacts.

(** ** The index loops against mixed-radix numbers *)

Section Loops.

Import MixedRadix.

Lemma val_nonneg xs ds :
  Forall (fun x => 0 <= x) xs -> Forall (fun d => 0 < d) ds -> 0 <= val xs ds.
Proof.
  intros Hx. revert ds. induction Hx as [|x xs Hx _ IH]; intros ds Hd; simpl; [lia|].
  destruct Hd as [|d ds Hd Hds]; [lia|]. specialize (IH _ Hds). nia.
Qed.

Lemma rev_take_S {A} `{!Inhabited A} (l : list A) (j : nat) :
  (j < length l)%nat -> reverse (take (S j) l) = l !!! j :: reverse (take j l).
Proof.
  intros Hj. destruct (lookup_lt_is_Some_2 l j Hj) as [x Hx].
  rewrite (take_S_r _ _ _ Hx), reverse_snoc.
  by rewrite (list_lookup_total_correct _ _ _ Hx).
Qed.

Lemma dget_fmap (radix : DIM_REC -> Z) ddims (j : nat) :
  (j < length ddims)%nat -> (radix <$> ddims) !!! j = radix (dget ddims j).
Proof. intros Hj. unfold dget. by apply list_lookup_total_fmap. Qed.

Lemma Forall_rev_take {A} (P : A -> Prop) (l : list A) (j : nat) :
  Forall P l -> Forall P (reverse (take j l)).
Proof.
  intros H. apply Forall_reverse. by apply Forall_take.
Qed.

(** The part of a row-major number contributed by the indices below [k]. *)
Lemma row_major_loop_spec radix idx ddims :
  Forall (fun x => 0 <= x) idx ->
  Forall (fun d => 0 < d) (radix <$> ddims) ->
  forall (k : nat) cnum acc,
    (S k <= length idx)%nat -> (S k <= length ddims)%nat ->
    0 <= acc -> 0 < cnum ->
    cnum * span (take k (drop 1 (radix <$> ddims))) <= Int32.max_signed ->
    acc + cnum * (radix (dget ddims k) *
                  val (reverse (take k idx)) (reverse (take k (radix <$> ddims))))
      <= Int32.max_signed ->
    row_major_loop radix k cnum acc idx ddims =
    acc + cnum * (radix (dget ddims k) *
                  val (reverse (take k idx)) (reverse (take k (radix <$> ddims)))).
Proof.
  intros Hidx Hrs. induction k as [|j IH]; intros cnum acc Hk1 Hk2 Hacc Hcnum Hp Hv.
  - simpl. lia.
  - cbn [row_major_loop].
    set (r := radix (dget ddims (S j))) in *.
    assert (Hr : 0 < r).
    { rewrite Forall_forall in Hrs. apply Hrs. apply list_elem_of_fmap_2.
      unfold dget. apply list_elem_of_lookup_total_2. lia. }
    assert (Hrj : 0 < radix (dget ddims j)).
    { rewrite Forall_forall in Hrs. apply Hrs. apply list_elem_of_fmap_2.
      unfold dget. apply list_elem_of_lookup_total_2. lia. }
    assert (Hxj : 0 <= aget idx j).
    { rewrite Forall_forall in Hidx. apply Hidx.
      unfold aget. apply list_elem_of_lookup_total_2. lia. }
    rewrite (rev_take_S idx j) in Hv |- * by lia.
    rewrite (rev_take_S (radix <$> ddims) j) in Hv |- * by (rewrite length_fmap; lia).
    rewrite (dget_fmap radix ddims j) in Hv |- * by lia.
    cbn [val] in Hv |- *. fold (aget idx j) in Hv |- *.
    set (T := val (reverse (take j idx)) (reverse (take j (radix <$> ddims)))) in *.
    assert (HT : 0 <= T).
    { apply val_nonneg; by apply Forall_rev_take. }
    assert (Hpj : 0 < span (take j (drop 1 (radix <$> ddims)))).
    { apply span_pos. apply Forall_take, Forall_drop. done. }
    assert (Hps : span (take (S j) (drop 1 (radix <$> ddims))) =
                  span (take j (drop 1 (radix <$> ddims))) * r).
    { assert (Hl : drop 1 (radix <$> ddims) !! j = Some r).
      { rewrite lookup_drop. simpl. rewrite list_lookup_fmap.
        unfold r, dget. rewrite (list_lookup_lookup_total_lt ddims (S j)) by lia. done. }
      rewrite (take_S_r _ _ _ Hl), span_app. simpl. lia. }
    rewrite Hps in Hp.
    assert (Hc : cnum *i r = cnum * r).
    { apply mul_small, in_range_nonneg. unfold Int32.max_signed in *. nia. }
    rewrite Hc.
    assert (Hm : aget idx j *i (cnum * r) = aget idx j * (cnum * r)).
    { apply mul_small, in_range_nonneg. unfold Int32.max_signed in *. nia. }
    rewrite Hm.
    assert (Ha : acc +i aget idx j * (cnum * r) = acc + aget idx j * (cnum * r)).
    { apply add_small, in_range_nonneg. unfold Int32.max_signed in *. nia. }
    rewrite Ha.
    rewrite IH; try lia; unfold Int32.max_signed in *; nia.
Qed.

Lemma in_radix_nonneg xs ds :
  Forall2 in_radix xs ds -> Forall (fun x => 0 <= x) xs.
Proof. induction 1 as [|x d xs ds Hx _ IH]; constructor; [apply Hx | done]. Qed.

Lemma in_radix_pos xs ds :
  Forall2 in_radix xs ds -> Forall (fun d => 0 < d) ds.
Proof.
  induction 1 as [|x d xs ds Hx _ IH]; constructor; [|done].
  unfold in_radix in Hx. lia.
Qed.

(** [row_major] computes the mixed-radix value of the indices, the last
    axis being the least significant digit, as long as the product of the
    radices is an [int32]. *)
Lemma row_major_spec radix (n : nat) idx ddims :
  (1 <= n)%nat -> length idx = n -> length ddims = n ->
  Forall2 in_radix idx (radix <$> ddims) ->
  span (radix <$> ddims) <= Int32.max_signed ->
  row_major radix (Z.of_nat n) idx ddims =
  val (reverse idx) (reverse (radix <$> ddims)).
Proof.
  intros Hn Hli Hld Hin Hprod.
  pose proof (in_radix_nonneg _ _ Hin) as Hnn.
  pose proof (in_radix_pos _ _ Hin) as Hpos.
  assert (Hval : val (reverse idx) (reverse (radix <$> ddims)) =
                 aget idx (n - 1) + 1 * (radix (dget ddims (n - 1)) *
                   val (reverse (take (n - 1) idx))
                       (reverse (take (n - 1) (radix <$> ddims))))).
  { rewrite <- (take_ge idx n) at 1 by lia.
    rewrite <- (take_ge (radix <$> ddims) n) at 1 by (rewrite length_fmap; lia).
    replace n with (S (n - 1)) at 1 2 by lia.
    rewrite (rev_take_S idx) by lia.
    rewrite (rev_take_S (radix <$> ddims)) by (rewrite length_fmap; lia).
    cbn [val]. rewrite dget_fmap by lia. unfold aget. lia. }
  pose proof (val_bound _ _ (Forall2_reverse _ _ _ Hin)) as Hb.
  rewrite span_reverse in Hb.
  unfold row_major. rewrite Nat2Z.id.
  destruct (Z.of_nat n >? 1) eqn:Hgt.
  - rewrite Hval. apply row_major_loop_spec; try done; try lia.
    { unfold aget. pose proof (Forall_lookup_total_1 _ idx (n - 1)%nat Hnn) as H.
      simpl in H. apply H. lia. }
    destruct ddims as [|d0 ds]; [simpl in *; lia|].
    rewrite fmap_cons in Hprod, Hpos |- *. simpl drop. rewrite drop_0.
    rewrite take_ge by (rewrite length_fmap; simpl in Hld; lia).
    simpl in Hprod. inversion Hpos as [|? ? Hd0 Hds]; subst.
    pose proof (span_pos _ Hds). nia.
  - replace (n - 1)%nat with 0%nat in Hval |- * by lia. rewrite Hval. simpl. lia.
Qed.

Lemma drop_insert_same {A} (l : list A) (i : nat) (x : A) :
  (i < length l)%nat -> drop i (<[i := x]> l) = x :: drop (S i) l.
Proof.
  intros Hi. destruct (lookup_lt_is_Some_2 l i Hi) as [y Hy].
  rewrite drop_insert_ge by lia. rewrite Nat.sub_diag.
  by rewrite (drop_S _ _ _ Hy).
Qed.

(** What [HMCcreate] and [HMCIstaccess] derive for a dimension. *)
Lemma dim_ok_facts d :
  dim_ok d ->
  0 < chunk_length d <= Int32.max_signed /\
  0 < dim_length d <= Int32.max_signed /\
  1 <= num_chunks d <= Int32.max_signed /\
  1 <= last_chunk_length d <= chunk_length d /\
  dim_length d = (num_chunks d - 1) * chunk_length d + last_chunk_length d.
Proof.
  intros (HC & HD & HN & HL). split; [done|]. split; [done|].
  unfold HMCIstaccess_dim in HN, HL.
  rewrite rem_nonneg in HN, HL by lia. rewrite div_nonneg in HN by lia.
  pose proof (Z.mod_pos_bound (dim_length d) (chunk_length d) ltac:(lia)) as Hm.
  pose proof (Z.div_mod (dim_length d) (chunk_length d) ltac:(lia)) as Hdm.
  pose proof (Z.div_pos (dim_length d) (chunk_length d) ltac:(lia) ltac:(lia)) as Hq.
  destruct (dim_length d mod chunk_length d =? 0) eqn:Hodd; simpl in HN, HL.
  - apply Z.eqb_eq in Hodd. rewrite HN, HL. unfold Int32.max_signed in *. nia.
  - apply Z.eqb_neq in Hodd.
    assert (Hq2 : dim_length d / chunk_length d + 1 <= Int32.max_signed).
    { unfold Int32.max_signed in *. nia. }
    rewrite add_small in HN by (apply in_range_nonneg; lia).
    rewrite HN, HL. unfold Int32.max_signed in *. nia.
Qed.

Lemma coords_snoc ddims d s :
  coords (ddims ++ [d]) s =
  coords ddims (s / dim_length d) ++ [s mod dim_length d].
Proof.
  unfold coords. rewrite fmap_app, reverse_app. simpl.
  by rewrite reverse_cons.
Qed.

Lemma length_coords ddims s : length (coords ddims s) = length ddims.
Proof.
  unfold coords. by rewrite length_reverse, length_digits, length_reverse, length_fmap.
Qed.

(** The downward loop of [update_chunk_indices_seek] fills the first [i]
    entries with the chunk index and the position in the chunk of each
    user coordinate. *)
Lemma seek_loop_spec ddims :
  Forall dim_ok ddims ->
  forall (i : nat) stmp sbi spb,
    (i <= length ddims)%nat -> (i <= length sbi)%nat -> (i <= length spb)%nat ->
    0 <= stmp <= Int32.max_signed ->
    update_chunk_indices_seek_loop i stmp sbi spb ddims =
    (zip_with (fun a d => a / chunk_length d) (coords (take i ddims) stmp) (take i ddims)
       ++ drop i sbi,
     zip_with (fun a d => a mod chunk_length d) (coords (take i ddims) stmp) (take i ddims)
       ++ drop i spb).
Proof.
  intros Hok. induction i as [|i IH]; intros stmp sbi spb Hd Hs Hp Hst.
  - by rewrite !take_0, !drop_0.
  - cbn [update_chunk_indices_seek_loop].
    destruct (lookup_lt_is_Some_2 ddims i ltac:(lia)) as [d Hdi].
    unfold dget. rewrite (list_lookup_total_correct _ _ _ Hdi).
    assert (Hdok : dim_ok d).
    { rewrite Forall_forall in Hok. apply Hok. eapply list_elem_of_lookup_2; eauto. }
    destruct (dim_ok_facts _ Hdok) as (HC & HD & _).
    pose proof (Z.mod_pos_bound stmp (dim_length d) ltac:(lia)) as Hm.
    assert (Hmle : stmp mod dim_length d <= stmp) by (apply Z.mod_le; lia).
    rewrite !rem_nonneg by lia.
    rewrite !div_nonneg by lia.
    pose proof (Z.div_pos stmp (dim_length d) ltac:(lia) ltac:(lia)) as Hq.
    assert (Hqle : stmp / dim_length d <= stmp).
    { apply Z.div_le_upper_bound; nia. }
    rewrite IH by (rewrite ?length_insert; lia).
    rewrite !drop_insert_same by lia.
    rewrite (take_S_r _ _ _ Hdi), coords_snoc.
    rewrite !zip_with_app by (rewrite length_coords; done).
    simpl. by rewrite <- !app_assoc.
Qed.

Lemma fold_insert_seq {A} (f : nat -> A) (n : nat) (l : list A) :
  (n <= length l)%nat ->
  fold_left (fun arr j => <[j := f j]> arr) (seq 0 n) l = (f <$> seq 0 n) ++ drop n l.
Proof.
  induction n as [|n IH]; intros Hn.
  - by rewrite drop_0.
  - rewrite seq_S, fold_left_app, IH by lia. simpl.
    rewrite fmap_app. simpl.
    rewrite insert_app_r_alt by (rewrite length_fmap, length_seq; lia).
    rewrite length_fmap, length_seq, Nat.sub_diag.
    destruct (lookup_lt_is_Some_2 l n ltac:(lia)) as [y Hy].
    rewrite (drop_S _ _ _ Hy). simpl. by rewrite <- app_assoc.
Qed.

Lemma aget_zip_with (f : Z -> DIM_REC -> Z) (l : list Z) ddims (j : nat) :
  (j < length l)%nat -> (j < length ddims)%nat ->
  aget (zip_with f l ddims) j = f (aget l j) (dget ddims j).
Proof.
  intros Hl Hd. unfold aget, dget.
  destruct (lookup_lt_is_Some_2 l j Hl) as [x Hx].
  destruct (lookup_lt_is_Some_2 ddims j Hd) as [d Hdj].
  rewrite (list_lookup_total_correct _ _ _ Hx), (list_lookup_total_correct _ _ _ Hdj).
  apply list_lookup_total_correct. rewrite lookup_zip_with, Hx. simpl. by rewrite Hdj.
Qed.

Lemma coords_in_radix ddims s :
  Forall dim_ok ddims ->
  Forall2 in_radix (coords ddims s) (dim_length <$> ddims).
Proof.
  intros Hok. unfold coords.
  rewrite <- (reverse_involutive (dim_length <$> ddims)) at 2.
  apply Forall2_reverse, digits_in_radix, Forall_reverse, Forall_fmap.
  eapply Forall_impl; [exact Hok|]. intros d Hd. simpl.
  destruct (dim_ok_facts _ Hd) as (_ & HD & _). lia.
Qed.

(** [update_chunk_indices_seek] on arrays of [ndims] entries. *)
Lemma update_chunk_indices_seek_spec x (n : nat) nt_size sbi0 spb0 ddims :
  Forall dim_ok ddims ->
  length ddims = n -> length sbi0 = n -> length spb0 = n ->
  0 < nt_size -> 0 <= x <= Int32.max_signed ->
  update_chunk_indices_seek x (Z.of_nat n) nt_size sbi0 spb0 ddims =
  (zip_with (fun a d => a / chunk_length d) (coords ddims (x / nt_size)) ddims,
   zip_with (fun a d => a mod chunk_length d) (coords ddims (x / nt_size)) ddims).
Proof.
  intros Hok Hd Hs Hp Hnt Hx. unfold update_chunk_indices_seek.
  rewrite Nat2Z.id, div_nonneg by lia.
  pose proof (Z.div_pos x nt_size ltac:(lia) Hnt).
  assert (x / nt_size <= x) by (apply Z.div_le_upper_bound; nia).
  rewrite seek_loop_spec by (try done; lia).
  rewrite take_ge by lia. rewrite !drop_ge by lia. by rewrite !app_nil_r.
Qed.

(** [compute_chunk_to_array] inverts the split of a coordinate into chunk
    index and position in the chunk. *)
Lemma compute_chunk_to_array_spec (n : nat) arr0 ddims (A : list Z) :
  Forall dim_ok ddims ->
  length ddims = n -> length arr0 = n ->
  Forall2 in_radix A (dim_length <$> ddims) ->
  compute_chunk_to_array
    (zip_with (fun a d => a / chunk_length d) A ddims)
    (zip_with (fun a d => a mod chunk_length d) A ddims)
    arr0 (Z.of_nat n) ddims = A.
Proof.
  intros Hok Hd Ha HA. unfold compute_chunk_to_array.
  pose proof (Forall2_length _ _ _ HA) as HlA. rewrite length_fmap in HlA.
  rewrite Nat2Z.id, fold_insert_seq by lia.
  rewrite drop_ge, app_nil_r by lia.
  apply list_eq_same_length with n; [lia | by rewrite length_fmap, length_seq |].
  intros j y z Hj Hy Hz.
  rewrite list_lookup_fmap, lookup_seq_lt in Hy by done. simpl in Hy.
  injection Hy as <-.
  unfold compute_chunk_to_array_at.
  rewrite !aget_zip_with by lia.
  assert (Hzj : aget A j = z) by (by apply list_lookup_total_correct).
  rewrite Hzj.
  destruct (lookup_lt_is_Some_2 ddims j ltac:(lia)) as [d Hdj].
  unfold dget. rewrite (list_lookup_total_correct _ _ _ Hdj).
  assert (Hdok : dim_ok d).
  { rewrite Forall_forall in Hok. apply Hok. eapply list_elem_of_lookup_2; eauto. }
  destruct (dim_ok_facts _ Hdok) as (HC & HD & HN & HL & Heq).
  assert (Hz0 : 0 <= z < dim_length d).
  { eapply (Forall2_lookup_lr _ _ _ j z (dim_length d)) in HA; [exact HA|done|].
    by rewrite list_lookup_fmap, Hdj. }
  pose proof (Z.mod_pos_bound z (chunk_length d) ltac:(lia)) as Hm.
  pose proof (Z.div_mod z (chunk_length d) ltac:(lia)) as Hdm.
  pose proof (Z.div_pos z (chunk_length d) ltac:(lia) ltac:(lia)) as Hq.
  assert (Hqc : 0 <= z / chunk_length d * chunk_length d <= z) by nia.
  rewrite mul_small by (apply in_range_nonneg; lia).
  rewrite sub_small by (apply in_range_nonneg; lia).
  destruct (z / chunk_length d =? num_chunks d - 1) eqn:Hlast.
  - apply Z.eqb_eq in Hlast.
    assert (Hgt : (z mod chunk_length d >? last_chunk_length d) = false).
    { rewrite Z.gtb_ltb. apply Z.ltb_ge. nia. }
    rewrite Hgt. rewrite add_small by (apply in_range_nonneg; lia). lia.
  - rewrite add_small by (apply in_range_nonneg; lia). lia.
Qed.

Lemma mul_loop (f : DIM_REC -> Z) ddims :
  Forall (fun d => 0 < f d) ddims ->
  forall a, 0 <= a -> a * span (f <$> ddims) <= Int32.max_signed ->
  fold_left (fun acc d => acc *i f d) ddims a = a * span (f <$> ddims).
Proof.
  induction 1 as [|d ds Hd Hds IH]; intros a Ha Hb; [simpl in *; lia|].
  rewrite fmap_cons in Hb |- *. cbn [span fold_left] in Hb |- *.
  assert (Hsp : 0 < span (f <$> ds)).
  { apply span_pos, Forall_fmap. done. }
  assert (Had : 0 <= a * f d) by nia.
  assert (Hle : a * f d <= a * f d * span (f <$> ds)).
  { rewrite <- (Z.mul_1_r (a * f d)) at 1.
    apply Z.mul_le_mono_nonneg_l; lia. }
  rewrite mul_small by (apply in_range_nonneg; lia).
  rewrite IH; [lia | lia | lia].
Qed.

(** Without overflow the logical length of [HMCcreate] is the product of
    the dimension lengths. *)
Lemma HMCcreate_data_len_span ddims :
  Forall dim_ok ddims ->
  span (dim_length <$> ddims) <= Int32.max_signed ->
  HMCcreate_data_len ddims = span (dim_length <$> ddims).
Proof.
  intros Hok Hb. unfold HMCcreate_data_len.
  rewrite (mul_loop dim_length); [lia | | lia | lia].
  eapply Forall_impl; [exact Hok|]. intros d Hd.
  destruct (dim_ok_facts _ Hd) as (_ & HD & _). lia.
Qed.

(** Without overflow the page count of [HMCcreate] is the product of the
    chunk counts. *)
Lemma HMCcreate_npages_span ddims :
  Forall (fun d => 1 <= num_chunks d) ddims ->
  span (num_chunks <$> ddims) <= Int32.max_signed ->
  HMCcreate_npages ddims = span (num_chunks <$> ddims).
Proof.
  intros Hok Hb. unfold HMCcreate_npages.
  rewrite (mul_loop num_chunks); [lia | | lia | lia].
  eapply Forall_impl; [exact Hok|]. intros d Hd. simpl in Hd. lia.
Qed.

Lemma HMCcreate_dim_fields p :
  chunk_length (HMCcreate_dim p) = pdim_chunk_length p /\
  dim_length (HMCcreate_dim p) =
    (if pdim_dim_length p =? 0 then pdim_chunk_length p else pdim_dim_length p) /\
  num_chunks (HMCcreate_dim p) =
    num_chunks (HMCIstaccess_dim 0 (dim_length (HMCcreate_dim p)) (pdim_chunk_length p)) /\
  last_chunk_length (HMCcreate_dim p) =
    last_chunk_length (HMCIstaccess_dim 0 (dim_length (HMCcreate_dim p)) (pdim_chunk_length p)).
Proof.
  unfold HMCcreate_dim, HMCIstaccess_dim.
  destruct (pdim_dim_length p =? 0);
    destruct (_ %i pdim_chunk_length p =? 0) eqn:E; simpl; rewrite ?E; done.
Qed.

(** The geometry [HMCcreate] derives from valid lengths is well formed. *)
Lemma HMCcreate_dim_ok p :
  0 < pdim_chunk_length p <= Int32.max_signed ->
  0 <= pdim_dim_length p <= Int32.max_signed ->
  dim_ok (HMCcreate_dim p).
Proof.
  intros HC HD. unfold dim_ok, HMCcreate_dim, HMCIstaccess_dim.
  destruct (pdim_dim_length p =? 0) eqn:E1;
    [apply Z.eqb_eq in E1 | apply Z.eqb_neq in E1];
    destruct (_ %i pdim_chunk_length p =? 0) eqn:E2; simpl; rewrite ?E2; simpl;
    repeat split; lia.
Qed.

End Loops.

(** Closed goals on concrete inputs are decided by evaluation. *)
Ltac by_evaluation :=
  vm_compute; repeat split; intros; first [reflexivity | discriminate | congruence].

(** ** Claims on the chunk geometry *)

Section GeometryClaims.

Import MixedRadix.

(** C1 (as amended).  For a well-formed geometry whose logical size
    [length * nt_size] is an [int32], and every byte offset [x] in
    [0, logical_size): splitting [x] with [update_chunk_indices_seek] and
    recomposing it with [compute_chunk_to_array] and [compute_array_to_seek]
    yields [x] rounded down to a multiple of the element size [nt_size];
    it yields [x] itself exactly when [x] is a multiple of [nt_size]. *)
Theorem seek_roundtrip_rounds_down
    (ndims nt_size x : Z) (sbi0 spb0 arr0 : list Z) (ddims : list DIM_REC) :
  1 <= ndims ->
  length ddims = Z.to_nat ndims ->
  length sbi0 = Z.to_nat ndims ->
  length spb0 = Z.to_nat ndims ->
  length arr0 = Z.to_nat ndims ->
  Forall dim_ok ddims ->
  0 < nt_size ->
  span (dim_length <$> ddims) * nt_size <= Int32.max_signed ->
  0 <= x < HMCcreate_data_len ddims *i nt_size ->
  seek_roundtrip x ndims nt_size sbi0 spb0 arr0 ddims = x - x mod nt_size /\
  (seek_roundtrip x ndims nt_size sbi0 spb0 arr0 ddims = x <-> x mod nt_size = 0).
Proof.
  intros Hn Hld Hls Hlp Hla Hok Hnt Hsize Hx.
  assert (Hgoal : seek_roundtrip x ndims nt_size sbi0 spb0 arr0 ddims = x - x mod nt_size);
    [|split; [exact Hgoal | rewrite Hgoal; lia]].
  set (n := Z.to_nat ndims) in *.
  assert (Hnd : ndims = Z.of_nat n) by (unfold n; lia).
  assert (Hpos : Forall (fun d => 0 < d) (dim_length <$> ddims)).
  { apply Forall_fmap. eapply Forall_impl; [exact Hok|]. intros d Hd. simpl.
    destruct (dim_ok_facts _ Hd) as (_ & HD & _). lia. }
  pose proof (span_pos _ Hpos) as Hsp.
  assert (Hsp_le : span (dim_length <$> ddims) <= Int32.max_signed).
  { unfold Int32.max_signed in *. nia. }
  rewrite HMCcreate_data_len_span in Hx by done.
  rewrite mul_small in Hx by (apply in_range_nonneg; nia).
  pose proof (Z.div_pos x nt_size ltac:(lia) Hnt) as Hs0.
  assert (Hs1 : x / nt_size < span (dim_length <$> ddims)).
  { apply Z.div_lt_upper_bound; lia. }
  pose proof (Z.div_mod x nt_size ltac:(lia)) as Hdm.
  pose proof (Z.mod_pos_bound x nt_size Hnt) as Hm.
  unfold seek_roundtrip. rewrite Hnd.
  rewrite update_chunk_indices_seek_spec by (try done; lia).
  pose proof (coords_in_radix ddims (x / nt_size) Hok) as Hin.
  rewrite compute_chunk_to_array_spec by done.
  unfold compute_array_to_seek.
  rewrite (row_major_spec dim_length n) by (try done; try lia; by rewrite length_coords).
  unfold coords. rewrite reverse_involutive.
  rewrite val_digits_small.
  - rewrite mul_small by (apply in_range_nonneg; nia). lia.
  - by apply Forall_reverse.
  - rewrite span_reverse. lia.
Qed.

(** C2.  For every geometry with [ndims >= 1], [num_chunks >= 1] on each
    axis and a page count that is an [int32], [calculate_chunk_num] maps
    the chunk coordinates of the grid one-to-one onto [0, npages), where
    [npages] is the product of the chunk counts. *)
Theorem calculate_chunk_num_bijection (ndims : Z) (ddims : list DIM_REC) :
  1 <= ndims ->
  length ddims = Z.to_nat ndims ->
  Forall (fun d => 1 <= num_chunks d) ddims ->
  span (num_chunks <$> ddims) <= Int32.max_signed ->
  HMCcreate_npages ddims = span (num_chunks <$> ddims) /\
  (forall c, in_grid ddims c ->
     0 <= calculate_chunk_num ndims c ddims < HMCcreate_npages ddims) /\
  (forall c1 c2, in_grid ddims c1 -> in_grid ddims c2 ->
     calculate_chunk_num ndims c1 ddims = calculate_chunk_num ndims c2 ddims ->
     c1 = c2) /\
  (forall m, 0 <= m < HMCcreate_npages ddims ->
     exists c, in_grid ddims c /\ calculate_chunk_num ndims c ddims = m).
Proof.
  intros Hn Hld Hnc Hb.
  set (n := Z.to_nat ndims) in *.
  assert (Hnd : ndims = Z.of_nat n) by (unfold n; lia).
  rewrite HMCcreate_npages_span by done. split; [done|].
  assert (Hnum : forall c, in_grid ddims c ->
            calculate_chunk_num ndims c ddims =
            val (reverse c) (reverse (num_chunks <$> ddims))).
  { intros c Hc. unfold calculate_chunk_num. rewrite Hnd.
    apply row_major_spec; try done; try lia.
    apply Forall2_length in Hc. rewrite length_fmap in Hc. lia. }
  assert (Hpos : Forall (fun d => 0 < d) (num_chunks <$> ddims)).
  { apply Forall_fmap. eapply Forall_impl; [exact Hnc|]. intros d Hd. simpl in *. lia. }
  split; [|split].
  - intros c Hc. rewrite (Hnum c Hc).
    rewrite <- span_reverse. apply val_bound. by apply Forall2_reverse.
  - intros c1 c2 H1 H2 Heq. rewrite (Hnum c1 H1), (Hnum c2 H2) in Heq.
    apply (inj reverse).
    eapply val_inj; [| |exact Heq]; by apply Forall2_reverse.
  - intros m Hm.
    exists (reverse (digits (reverse (num_chunks <$> ddims)) m)).
    assert (Hg : in_grid ddims (reverse (digits (reverse (num_chunks <$> ddims)) m))).
    { unfold in_grid.
      rewrite <- (reverse_involutive (num_chunks <$> ddims)) at 2.
      apply Forall2_reverse, digits_in_radix. by apply Forall_reverse. }
    split; [done|]. rewrite (Hnum _ Hg), reverse_involutive.
    apply val_digits_small; [by apply Forall_reverse | by rewrite span_reverse].
Qed.

(** C3.  For every dimension with a positive chunk length, [HMCcreate]
    derives [num_chunks = ceil(dim_length / chunk_length)] and
    [last_chunk_length = dim_length mod chunk_length] when the division is
    inexact, else [chunk_length]; [HMCIstaccess] derives the same on open.
    For [dim_length = [10,10]] and [chunk_length = [4,4]]:
    [num_chunks = [3,3]], [last_chunk_length = [2,2]], and the byte at
    element coordinate (9,9) lies in chunk (2,2), chunk number 8. *)
Theorem HMCcreate_derived_geometry :
  (forall p,
     0 < pdim_chunk_length p <= Int32.max_signed ->
     0 <= pdim_dim_length p <= Int32.max_signed ->
     let d := HMCcreate_dim p in
     chunk_length d = pdim_chunk_length p /\
     dim_length d = (if pdim_dim_length p =? 0 then pdim_chunk_length p
                     else pdim_dim_length p) /\
     (num_chunks d - 1) * chunk_length d < dim_length d <= num_chunks d * chunk_length d /\
     last_chunk_length d =
       (if dim_length d mod chunk_length d =? 0 then chunk_length d
        else dim_length d mod chunk_length d) /\
     num_chunks d = num_chunks (HMCIstaccess_dim (dim_flag d) (dim_length d) (chunk_length d)) /\
     last_chunk_length d =
       last_chunk_length (HMCIstaccess_dim (dim_flag d) (dim_length d) (chunk_length d))) /\
  (let ddims := HMCcreate_ddims [mkDIM_DEF 0 10 4; mkDIM_DEF 0 10 4] in
   num_chunks <$> ddims = [3; 3] /\
   last_chunk_length <$> ddims = [2; 2] /\
   compute_array_to_seek [9; 9] 1 2 ddims = 99 /\
   update_chunk_indices_seek 99 2 1 [0; 0] [0; 0] ddims = ([2; 2], [1; 1]) /\
   calculate_chunk_num 2 [2; 2] ddims = 8).
Proof.
  split; [|vm_compute; repeat split; reflexivity].
  intros p HC HD d.
  pose proof (HMCcreate_dim_ok p HC HD) as Hok. fold d in Hok.
  destruct (dim_ok_facts _ Hok) as (HC' & HD' & HN & HL & Heq).
  destruct Hok as (_ & _ & HNe & HLe).
  assert (Hc : chunk_length d = pdim_chunk_length p).
  { unfold d, HMCcreate_dim. by destruct (_ =? 0). }
  assert (Hd : dim_length d = (if pdim_dim_length p =? 0 then pdim_chunk_length p
                               else pdim_dim_length p)).
  { unfold d, HMCcreate_dim. destruct (pdim_dim_length p =? 0); by destruct (_ =? 0). }
  split; [done|]. split; [done|]. split; [nia|]. split; [|done].
  rewrite HLe. unfold HMCIstaccess_dim. rewrite rem_nonneg by lia.
  by destruct (dim_length d mod chunk_length d =? 0).
Qed.

Lemma scenario_A_dim_ok :
  Forall dim_ok (HMCcreate_ddims [mkDIM_DEF 0 10 4; mkDIM_DEF 0 10 4]).
Proof.
  repeat constructor; by_evaluation.
Defined.

(** The round trip of C1 at offset 398 of a 10x10 element of 4-byte
    numbers in 4x4 chunks: the result is 396. *)
Lemma seek_roundtrip_rounds_down_witness :
  let ddims := HMCcreate_ddims [mkDIM_DEF 0 10 4; mkDIM_DEF 0 10 4] in
  0 <= 398 < HMCcreate_data_len ddims *i 4 /\
  seek_roundtrip 398 2 4 [0; 0] [0; 0] [0; 0] ddims = 398 - 398 mod 4 /\
  (seek_roundtrip 398 2 4 [0; 0] [0; 0] [0; 0] ddims = 398 <-> 398 mod 4 = 0).
Proof.
  split; [by_evaluation|].
  apply seek_roundtrip_rounds_down;
    first [exact scenario_A_dim_ok | reflexivity | by_evaluation].
Defined.

(** C1 as stated fails: with 4-byte numbers the byte offset 1 of a
    one-dimensional element of 10 numbers in chunks of 4 comes back as 0. *)
Lemma seek_roundtrip_not_identity :
  let ddims := HMCcreate_ddims [mkDIM_DEF 0 10 4] in
  Forall dim_ok ddims /\
  0 <= 1 < HMCcreate_data_len ddims *i 4 /\
  seek_roundtrip 1 1 4 [0] [0] [0] ddims = 0 /\
  seek_roundtrip 1 1 4 [0] [0] [0] ddims <> 1.
Proof.
  split; [repeat constructor; by_evaluation|]. by_evaluation.
Qed.

(** The bijection of C2 on the 3x3 chunk grid of scenario A. *)
Lemma calculate_chunk_num_bijection_witness :
  let ddims := HMCcreate_ddims [mkDIM_DEF 0 10 4; mkDIM_DEF 0 10 4] in
  HMCcreate_npages ddims = span (num_chunks <$> ddims) /\
  (forall c, in_grid ddims c ->
     0 <= calculate_chunk_num 2 c ddims < HMCcreate_npages ddims) /\
  (forall c1 c2, in_grid ddims c1 -> in_grid ddims c2 ->
     calculate_chunk_num 2 c1 ddims = calculate_chunk_num 2 c2 ddims ->
     c1 = c2) /\
  (forall m, 0 <= m < HMCcreate_npages ddims ->
     exists c, in_grid ddims c /\ calculate_chunk_num 2 c ddims = m).
Proof.
  apply calculate_chunk_num_bijection;
    first [reflexivity | repeat constructor; by_evaluation | by_evaluation].
Defined.

(** The derivation of C3 for one dimension of length 10 in chunks of 4. *)
Lemma HMCcreate_derived_geometry_witness :
  let d := HMCcreate_dim (mkDIM_DEF 0 10 4) in
  0 < 4 <= Int32.max_signed /\
  (num_chunks d - 1) * chunk_length d < dim_length d <= num_chunks d * chunk_length d /\
  num_chunks d = 3 /\ last_chunk_length d = 2.
Proof.
  split; [by_evaluation|].
  destruct (proj1 HMCcreate_derived_geometry (mkDIM_DEF 0 10 4))
    as (_ & _ & H & _); [by_evaluation | by_evaluation |].
  split; [exact H | by_evaluation].
Defined.

End GeometryClaims.

(** ** Claims on seek, on the page-in routine and on invalid writes *)

Section EngineClaims.

(** The offset a seek resolves to: absolute, relative to the current
    position, or relative to the end of the logical length. *)
Lemma HMCPseek_unfold offset origin w :
  special (access_rec w) = SPECIAL_CHUNKED ->
  let a := access_rec w in
  let info := special_info a in
  let resolved :=
    if origin =? DF_CURRENT then offset +i posn a
    else if origin =? DF_END then offset +i (info_length info *i nt_size info)
    else offset in
  HMCPseek offset origin w =
  if resolved <? 0 then (Err DFE_RANGE, w)
  else
    let sp := update_chunk_indices_seek resolved (ndims info) (nt_size info)
                (seek_chunk_indices info) (seek_pos_chunk info) (ddims info) in
    (Ret 0, mkworld (mkaccrec_t (access a) (special a) (file_id a) resolved
                       (with_seek (fst sp) (snd sp) info))
                    (file_rec w) (trace w)).
Proof.
  intros Hsp a info resolved. unfold HMCPseek, bind, get_access, get_info, fail. simpl.
  rewrite Hsp. simpl. fold a.
  assert (Hr : (if origin =? DF_END
                then (if origin =? DF_CURRENT then offset +i posn a else offset)
                       +i (info_length (special_info a) *i nt_size (special_info a))
                else if origin =? DF_CURRENT then offset +i posn a else offset) = resolved).
  { unfold resolved, info. destruct (origin =? DF_CURRENT) eqn:E1; [|done].
    apply Z.eqb_eq in E1. subst origin. done. }
  rewrite Hr. destruct (resolved <? 0); [done|].
  unfold seek_to, set_seek, bind, get_info, set_info, set_posn, ret. simpl. done.
Qed.


(** C10.  A write of a length [<= 0], 0 included, fails with a range error
    and leaves the whole state (position, directory, cache, file) as it
    was. *)
Theorem HMCPwrite_nonpositive_length (length : Z) (datap : bytes) (w : world) :
  length <= 0 -> HMCPwrite length datap w = (Err DFE_RANGE, w).
Proof.
  intros Hlen. unfold HMCPwrite, bind, get_access, get_file, fail. simpl.
  apply Z.leb_le in Hlen. by rewrite Hlen.
Qed.

Lemma length_tiled {A} (n : nat) (l : list A) :
  length (mjoin (replicate n l)) = (n * length l)%nat.
Proof.
  induction n as [|n IH]; simpl; [done|]. rewrite length_app.
  change (foldr app [] (replicate n l)) with (mjoin (replicate n l)).
  rewrite IH. lia.
Qed.

(** The page-in routine on a chunk that has no entry in the chunk tree. *)
Lemma HMCPchunkread_unwritten w chunk_num datap :
  let info := special_info (access_rec w) in
  let page_bytes := chunk_size info * nt_size info in
  let tiled := mjoin (replicate (Z.to_nat (page_bytes / fill_val_len info)) (fill_val info)) in
  chk_tree info !! chunk_num = None ->
  0 < fill_val_len info ->
  Z.of_nat (length (fill_val info)) = fill_val_len info ->
  0 <= page_bytes <= Int32.max_signed ->
  HMCPchunkread chunk_num datap w = (Ret (0, tiled ++ drop (length tiled) datap), w) /\
  (Z.of_nat (length datap) = page_bytes -> page_bytes mod fill_val_len info = 0 ->
   tiled ++ drop (length tiled) datap = tiled).
Proof.
  intros info page_bytes tiled Hnone Hfl Hfv Hpb. split.
  - unfold HMCPchunkread, bind, get_info, ret. simpl. fold info. rewrite Hnone.
    unfold fill_page, HDmemfill.
    rewrite mul_small by (apply in_range_nonneg; done).
    rewrite div_nonneg by done.
    assert (Htake : take (Z.to_nat (fill_val_len info)) (fill_val info) = fill_val info)
      by (apply take_ge; lia).
    rewrite !Htake. done.
  - intros Hlen Hdiv. rewrite drop_ge; [by rewrite app_nil_r|].
    unfold tiled. rewrite length_tiled.
    apply Z.mod_divide in Hdiv; [|lia]. destruct Hdiv as [q Hq].
    rewrite Hq, Z.div_mul by lia.
    assert (0 <= q) by nia. nia.
Qed.

(** C4.  For every chunk whose number has no entry in the chunk tree,
    [HMCPchunkread] returns 0 bytes read from the file and the buffer with
    the fill value written [(chunk_size * nt_size) / fill_val_len] times at
    its start, which is the whole page when the fill value length divides
    the page size; it leaves the file and the event trace as they were, so
    nothing is read from the Object Store.  With a fill value of 4 zero
    bytes, 16 elements per chunk and 4 bytes per element an unwritten chunk
    reads as 64 zero bytes, through the cache as well. *)
Theorem HMCPchunkread_fill_value :
  (forall w chunk_num datap,
     let info := special_info (access_rec w) in
     let page_bytes := chunk_size info * nt_size info in
     let tiled :=
       mjoin (replicate (Z.to_nat (page_bytes / fill_val_len info)) (fill_val info)) in
     chk_tree info !! chunk_num = None ->
     0 < fill_val_len info ->
     Z.of_nat (length (fill_val info)) = fill_val_len info ->
     0 <= page_bytes <= Int32.max_signed ->
     HMCPchunkread chunk_num datap w = (Ret (0, tiled ++ drop (length tiled) datap), w) /\
     (Z.of_nat (length datap) = page_bytes -> page_bytes mod fill_val_len info = 0 ->
      tiled ++ drop (length tiled) datap = tiled)) /\
  (forall file datap chunk_num,
     let w := HMCcreate_world 0 16 4 [mkDIM_DEF 0 8 4; mkDIM_DEF 0 8 4] 4
                (replicate 4 Byte.x00) file in
     length datap = 64%nat ->
     HMCPchunkread chunk_num datap w = (Ret (0, replicate 64 Byte.x00), w) /\
     exists w',
       mcache_get HMCPchunkread HMCPchunkwrite 1 w = (Ret (replicate 64 Byte.x00), w') /\
       file_rec w' = file_rec w /\ trace w' = [EvCacheGet 1]).
Proof.
  split; [intros; by apply HMCPchunkread_unwritten|].
  intros file datap chunk_num w Hlen. split.
  - destruct (HMCPchunkread_unwritten w chunk_num datap) as [Hr Hfull];
      [done | by_evaluation | by_evaluation | by_evaluation |].
    rewrite Hr. rewrite Hfull; [done | rewrite Hlen; by_evaluation | by_evaluation].
  - eexists. split; [reflexivity|]. split; reflexivity.
Qed.

Lemma HMCPchunkread_fill_value_witness :
  let w := HMCcreate_world 0 16 4 [mkDIM_DEF 0 8 4; mkDIM_DEF 0 8 4] 4
             (replicate 4 Byte.x2a) (mkfilerec_t 3 1 ∅ 2 []) in
  chk_tree (special_info (access_rec w)) !! 3 = None /\
  HMCPchunkread 3 (replicate 64 Byte.xff) w = (Ret (0, replicate 64 Byte.x2a), w).
Proof.
  split; [reflexivity|].
  destruct (proj1 HMCPchunkread_fill_value
              (HMCcreate_world 0 16 4 [mkDIM_DEF 0 8 4; mkDIM_DEF 0 8 4] 4
                 (replicate 4 Byte.x2a) (mkfilerec_t 3 1 ∅ 2 []))
              3 (replicate 64 Byte.xff)) as [Hr _];
    [reflexivity | by_evaluation | by_evaluation | by_evaluation |].
  exact Hr.
Defined.


Lemma HMCPwrite_nonpositive_length_witness :
  let w := HMCcreate_world 0 16 1 [mkDIM_DEF 0 10 4; mkDIM_DEF 0 10 4] 1
             [Byte.x00] (mkfilerec_t 3 1 ∅ 2 []) in
  HMCPwrite 0 [Byte.x01] w = (Err DFE_RANGE, w).
Proof.
  apply HMCPwrite_nonpositive_length. lia.
Defined.

End EngineClaims.

(** ** Claims on the SZIP codec adapter *)

Section SzipClaims.

Import Szip.

Lemma Z_of_byte_of_Z z : Z_of_byte (byte_of_Z z) = z mod 256.
Proof.
  unfold Z_of_byte, byte_of_Z.
  pose proof (Z.mod_pos_bound z 256 ltac:(lia)) as Hb.
  destruct (Byte.of_N (Z.to_N (z mod 256))) as [b|] eqn:E.
  - simpl. apply Byte.to_of_N in E. rewrite E. lia.
  - apply Byte.of_N_None_iff in E. lia.
Qed.

Lemma testbit_byte a m :
  0 <= m -> Z.testbit (a mod 256) m = (m <? 8) && Z.testbit a m.
Proof.
  intros Hm. change 256 with (2 ^ 8).
  destruct (m <? 8) eqn:E; [apply Z.ltb_lt in E | apply Z.ltb_ge in E]; simpl.
  - apply Z.mod_pow2_bits_low. lia.
  - apply Z.mod_pow2_bits_high. lia.
Qed.

Lemma assemble_bytes i :
  Z.lor (Z.shiftl (Z.shiftr i 24 mod 256) 24)
    (Z.lor (Z.shiftl (Z.shiftr i 16 mod 256) 16)
       (Z.lor (Z.shiftl (Z.shiftr i 8 mod 256) 8) (i mod 256))) = i mod 2 ^ 32.
Proof.
  apply Z.bits_inj'. intros n Hn.
  rewrite !Z.lor_spec, !Z.shiftl_spec by lia.
  destruct (n <? 8) eqn:E8; [apply Z.ltb_lt in E8 | apply Z.ltb_ge in E8].
  { rewrite !(Z.testbit_neg_r _ (n - _)) by lia. simpl.
    rewrite testbit_byte by lia. rewrite Z.mod_pow2_bits_low by lia.
    replace (n <? 8) with true by (symmetry; apply Z.ltb_lt; lia). done. }
  destruct (n <? 16) eqn:E16; [apply Z.ltb_lt in E16 | apply Z.ltb_ge in E16].
  { rewrite !(Z.testbit_neg_r _ (n - 16)), !(Z.testbit_neg_r _ (n - 24)) by lia. simpl.
    rewrite !testbit_byte by lia. rewrite Z.shiftr_spec by lia.
    rewrite Z.mod_pow2_bits_low by lia.
    replace (n <? 8) with false by (symmetry; apply Z.ltb_ge; lia).
    replace (n - 8 <? 8) with true by (symmetry; apply Z.ltb_lt; lia).
    simpl. rewrite orb_false_r. f_equal. lia. }
  destruct (n <? 24) eqn:E24; [apply Z.ltb_lt in E24 | apply Z.ltb_ge in E24].
  { rewrite !(Z.testbit_neg_r _ (n - 24)) by lia. simpl.
    rewrite !testbit_byte by lia. rewrite !Z.shiftr_spec by lia.
    rewrite Z.mod_pow2_bits_low by lia.
    replace (n <? 8) with false by (symmetry; apply Z.ltb_ge; lia).
    replace (n - 8 <? 8) with false by (symmetry; apply Z.ltb_ge; lia).
    replace (n - 16 <? 8) with true by (symmetry; apply Z.ltb_lt; lia).
    simpl. rewrite orb_false_r. f_equal. lia. }
  rewrite !testbit_byte by lia. rewrite !Z.shiftr_spec by lia.
  replace (n <? 8) with false by (symmetry; apply Z.ltb_ge; lia).
  replace (n - 8 <? 8) with false by (symmetry; apply Z.ltb_ge; lia).
  replace (n - 16 <? 8) with false by (symmetry; apply Z.ltb_ge; lia).
  simpl. rewrite !orb_false_r.
  destruct (n <? 32) eqn:E32; [apply Z.ltb_lt in E32 | apply Z.ltb_ge in E32].
  - replace (n - 24 <? 8) with true by (symmetry; apply Z.ltb_lt; lia).
    rewrite Z.mod_pow2_bits_low by lia. simpl. f_equal. lia.
  - replace (n - 24 <? 8) with false by (symmetry; apply Z.ltb_ge; lia).
    rewrite Z.mod_pow2_bits_high by lia. done.
Qed.

(** A length survives its four-byte encoding. *)
Lemma INT32DECODE_ENCODE i rest :
  Int32.in_range i -> INT32DECODE (INT32ENCODE i ++ rest) = i.
Proof.
  intros Hi. unfold INT32ENCODE, INT32DECODE. simpl.
  rewrite !Z_of_byte_of_Z, assemble_bytes.
  unfold Int32.in_range, Int32.min_signed, Int32.max_signed, Int32.wrap in *.
  destruct (Z_lt_le_dec i 0).
  - replace (i mod 2 ^ 32) with (i + 2 ^ 32).
    + rewrite <- (Z.mod_unique (i + 2 ^ 32 + 2 ^ 31) (2 ^ 32) 1 (i + 2 ^ 31)); lia.
    + apply (Z.mod_unique i (2 ^ 32) (-1)); lia.
  - rewrite (Z.mod_small i) by lia. rewrite Z.mod_small by lia. lia.
Qed.

(** C6 (as amended).  When the SZIP library reports success and its output
    is larger than the codec buffer ([pixels * bytes_per_pixel] bytes),
    [HCIcszip_term] stores sentinel byte 1, the 4-byte count of buffered
    raw bytes, then those raw bytes unchanged, and [HCIcszip_decode] of
    that stored form, by a reader whose options mask has the
    revised-format bit, returns the raw bytes exactly; an output of at
    most the size of the codec buffer is stored behind sentinel byte 0. *)
Theorem HCIcszip_raw_sentinel
    (compress decompress : bytes -> Z -> Z * bytes) (uninitialised : Z -> bytes)
    (s : comp_coder_szip_info_t) (elt b out : bytes) :
  szip_state s = SZIP_RUN -> szip_dirty s = SZIP_DIRTY -> buffer s = Some b ->
  0 <= buffer_pos s <= Z.of_nat (length b) ->
  buffer_pos s + 5 <= Int32.max_signed ->
  Z.of_nat (length out) + 5 <= Int32.max_signed ->
  let raw := take (Z.to_nat (buffer_pos s)) b in
  compress raw (out_buffer_size s -i 5) = (SZ_OK, out) ->
  let stored := snd (HCIcszip_term compress uninitialised s elt) in
  (Z.of_nat (length out) > pixels s *i bytes_per_pixel s ->
   fst (fst (HCIcszip_term compress uninitialised s elt)) = inr 0 /\
   stored = Byte.x01 :: INT32ENCODE (buffer_pos s) ++ raw
              ++ drop (Z.to_nat (buffer_pos s + 5)) elt /\
   forall d,
     szip_state d = SZIP_INIT -> Z.land (options_mask d) SZ_H4_REV_2 <> 0 ->
     fst (HCIcszip_decode decompress d stored (buffer_pos s)) = inr raw) /\
  (Z.of_nat (length out) <= pixels s *i bytes_per_pixel s ->
   fst (fst (HCIcszip_term compress uninitialised s elt)) = inr 0 /\
   head stored = Some Byte.x00).
Proof.
  intros Hst Hdirty Hbuf Hpos Hpos5 Hout raw Hc stored.
  assert (Hraw : length raw = Z.to_nat (buffer_pos s)).
  { unfold raw. rewrite length_take. lia. }
  assert (Hterm : HCIcszip_term compress uninitialised s elt =
            let clean := free_if_empty
                           (with_buffer SZIP_TERM SZIP_CLEAN (Some b) (buffer_pos s)
                              (buffer_size s) (offset s) s) in
            if Z.of_nat (length out) >? pixels s *i bytes_per_pixel s
            then (inr 0, clean,
                  Hwrite_at_start elt (buffer_pos s +i 5)
                    (Byte.x01 :: INT32ENCODE (buffer_pos s) ++ raw))
            else if (Z.of_nat (length elt) >? 0)
                    && (Z.of_nat (length out) +i 5 <? Z.of_nat (length elt))
            then (inr 0, clean,
                  Hwrite_at_start elt (Z.of_nat (length elt))
                    ((Byte.x00 :: INT32ENCODE (Z.of_nat (length out)) ++ out)
                       ++ drop (length (Byte.x00 :: INT32ENCODE (Z.of_nat (length out)) ++ out))
                            (uninitialised (Z.of_nat (length elt)))))
            else (inr 0, clean,
                  Hwrite_at_start elt (Z.of_nat (length out) +i 5)
                    (Byte.x00 :: INT32ENCODE (Z.of_nat (length out)) ++ out))).
  { clear stored Hpos Hpos5 Hout Hraw. subst raw.
    destruct s as [off buf pos size bpp om px ppb pps st dirty].
    cbn [szip_state szip_dirty buffer buffer_pos buffer_size offset pixels] in *.
    subst st dirty buf. unfold HCIcszip_term.
    cbn [with_buffer szip_state szip_dirty buffer buffer_pos buffer_size offset pixels
         bits_per_pixel options_mask pixels_per_block pixels_per_scanline].
    match goal with
    | |- context [compress ?x ?y] =>
        replace (compress x y) with (SZ_OK, out) by (symmetry; exact Hc)
    end.
    reflexivity. }
  split.
  - intros Hgt. unfold stored. rewrite Hterm. cbn zeta.
    replace (_ >? _) with true by (symmetry; apply Z.gtb_lt; lia).
    cbn [fst snd]. split; [done|].
    assert (Hstored : Hwrite_at_start elt (buffer_pos s +i 5)
                        (Byte.x01 :: INT32ENCODE (buffer_pos s) ++ raw) =
                      Byte.x01 :: INT32ENCODE (buffer_pos s) ++ raw
                        ++ drop (Z.to_nat (buffer_pos s + 5)) elt).
    { unfold Hwrite_at_start. rewrite add_small by (apply in_range_nonneg; lia).
      rewrite take_ge.
      - by rewrite <- app_comm_cons, <- app_assoc.
      - cbn [length]. rewrite length_app, Hraw. simpl. lia. }
    split; [exact Hstored|]. rewrite Hstored.
    intros d Hd Hrev. unfold HCIcszip_decode. rewrite Hd.
    apply Z.eqb_neq in Hrev. rewrite Hrev.
    cbn [length]. replace (Z.of_nat (S _) =? 0) with false by (symmetry; apply Z.eqb_neq; lia).
    cbn [head default from_option drop]. rewrite ?drop_0. unfold id.
    change (Z_of_byte Byte.x01 =? 1) with true. cbn iota.
    rewrite INT32DECODE_ENCODE by (unfold Int32.in_range, Int32.min_signed; lia).
    rewrite Z.gtb_ltb, Z.ltb_irrefl. cbn [fst].
    f_equal. unfold memcpy_from. change (Z.to_nat 5) with 5%nat. cbn [drop INT32ENCODE app].
    rewrite drop_0, take_app_length' by done.
    rewrite take_ge by lia. done.
  - intros Hle. unfold stored. rewrite Hterm. cbn zeta.
    replace (_ >? _) with false by (symmetry; rewrite Z.gtb_ltb; apply Z.ltb_ge; lia).
    destruct (_ && _) eqn:E; cbn [fst snd]; (split; [done|]); unfold Hwrite_at_start.
    + apply andb_prop in E as [E1 _]. apply Z.gtb_lt in E1.
      destruct (Z.to_nat (Z.of_nat (length elt))) eqn:En; [lia|]. done.
    + rewrite add_small by (apply in_range_nonneg; lia).
      destruct (Z.to_nat (Z.of_nat (length out) + 5)) eqn:En; [lia|]. done.
Qed.

(** A codec state with four buffered one-byte pixels. *)
Lemma HCIcszip_raw_sentinel_witness :
  let s := mkszip 4 (Some [Byte.x0a; Byte.x0b; Byte.x0c; Byte.x0d]) 4 0 8 SZ_H4_REV_2 4 4 4
             SZIP_RUN SZIP_DIRTY in
  let inflate := fun (raw : bytes) (_ : Z) => (SZ_OK, raw ++ raw) in
  let block := fun n : Z => replicate (Z.to_nat n) Byte.xff in
  let stored := snd (HCIcszip_term inflate block s []) in
  stored = [Byte.x01; Byte.x00; Byte.x00; Byte.x00; Byte.x04;
            Byte.x0a; Byte.x0b; Byte.x0c; Byte.x0d] /\
  fst (HCIcszip_decode inflate (mkszip 0 None 0 0 8 SZ_H4_REV_2 4 4 4 SZIP_INIT SZIP_CLEAN)
         stored 4) = inr [Byte.x0a; Byte.x0b; Byte.x0c; Byte.x0d].
Proof.
  intros s inflate block stored.
  assert (Hraw := HCIcszip_raw_sentinel inflate inflate block s []
              [Byte.x0a; Byte.x0b; Byte.x0c; Byte.x0d]
              ([Byte.x0a; Byte.x0b; Byte.x0c; Byte.x0d]
                 ++ [Byte.x0a; Byte.x0b; Byte.x0c; Byte.x0d])
              eq_refl eq_refl eq_refl).
  destruct Hraw as [Hraw _]; [by_evaluation | by_evaluation | by_evaluation | reflexivity |].
  destruct Hraw as (_ & Hst & Hdec); [by_evaluation|].
  split; [exact Hst|].
  apply (Hdec (mkszip 0 None 0 0 8 SZ_H4_REV_2 4 4 4 SZIP_INIT SZIP_CLEAN));
    by_evaluation.
Defined.

(** C6 as stated fails.  A compressed form of exactly the raw size (here
    of a stand-in codec that returns its input) is not smaller than the
    raw form, yet it is stored behind sentinel byte 0; and on an overflow
    of the codec's internal buffer ([SZ_OUTBUF_FULL]) nothing is stored at
    all. *)
Lemma HCIcszip_not_smaller_stored_compressed :
  let s := mkszip 4 (Some [Byte.x0a; Byte.x0b; Byte.x0c; Byte.x0d]) 4 0 8 SZ_H4_REV_2 4 4 4
             SZIP_RUN SZIP_DIRTY in
  let same_size := fun (raw : bytes) (_ : Z) => (SZ_OK, raw) in
  let overflow := fun (_ : bytes) (_ : Z) => (SZ_OUTBUF_FULL, @nil Byte.byte) in
  let block := fun n : Z => replicate (Z.to_nat n) Byte.xff in
  HCIcszip_term same_size block s [] =
    (inr 0,
     mkszip 4 None 4 0 8 SZ_H4_REV_2 4 4 4 SZIP_TERM SZIP_CLEAN,
     [Byte.x00; Byte.x00; Byte.x00; Byte.x00; Byte.x04;
      Byte.x0a; Byte.x0b; Byte.x0c; Byte.x0d]) /\
  head (snd (HCIcszip_term same_size block s [])) <> Some Byte.x01 /\
  HCIcszip_term overflow block s [] =
    (inr 0, mkszip 4 None 4 0 8 SZ_H4_REV_2 4 4 4 SZIP_TERM SZIP_CLEAN, []).
Proof.
  by_evaluation.
Qed.

End SzipClaims.

(** ** Typing of the index arrays and progress of the transfer loops *)

Section Typing.

Import Int32 MixedRadix.

Lemma in_range_0 : in_range 0.
Proof. unfold in_range, min_signed, max_signed. lia. Qed.

Lemma aget_in_range idx (j : nat) : Forall in_range idx -> in_range (aget idx j).
Proof.
  intros H. unfold aget. destruct (idx !! j) as [x|] eqn:Hx.
  - rewrite (list_lookup_total_correct _ _ _ Hx).
    rewrite Forall_forall in H. apply H. eapply list_elem_of_lookup_2; eauto.
  - rewrite list_lookup_total_alt, Hx. apply in_range_0.
Qed.

Lemma row_major_loop_in_range radix (k : nat) cnum acc idx ddims :
  in_range acc -> in_range (row_major_loop radix k cnum acc idx ddims).
Proof.
  revert cnum acc. induction k as [|k IH]; intros cnum acc Hacc; [done|].
  cbn [row_major_loop]. apply IH, wrap_in_range.
Qed.

(** A chunk number computed from [int32] indices is an [int32]. *)
Lemma row_major_in_range radix ndims idx ddims :
  Forall in_range idx -> in_range (row_major radix ndims idx ddims).
Proof.
  intros H. unfold row_major. destruct (ndims >? 1).
  - by apply row_major_loop_in_range, aget_in_range.
  - by apply aget_in_range.
Qed.

Lemma seek_loop_typed (i : nat) stmp sbi spb ddims :
  Forall in_range sbi ->
  Forall in_range (update_chunk_indices_seek_loop i stmp sbi spb ddims).1.
Proof.
  revert stmp sbi spb. induction i as [|i IH]; intros stmp sbi spb H; [done|].
  cbn [update_chunk_indices_seek_loop]. apply IH.
  apply Forall_insert; [done|]. apply wrap_in_range.
Qed.

Lemma fold_insert_typed (f : nat -> Z) (js : list nat) (l : list Z) :
  (forall j, in_range (f j)) -> Forall in_range l ->
  Forall in_range (fold_left (fun a i => <[i := f i]> a) js l).
Proof.
  intros Hf. revert l. induction js as [|j js IH]; intros l Hl; [done|].
  simpl. apply IH. by apply Forall_insert.
Qed.

(** The page number of an [int32] chunk number that [mcache_get] accepts
    gives the chunk number back. *)
Lemma page_of_chunk cn : in_range cn -> 1 <= cn +i 1 -> cn +i 1 - 1 = cn.
Proof.
  intros Hr Hp. unfold add, wrap, in_range, min_signed, max_signed in *.
  destruct (Z.eq_dec cn (2 ^ 31 - 1)) as [->|Hne].
  - exfalso. revert Hp. vm_compute. intros Hp. by apply Hp.
  - rewrite Z.mod_small in * by lia. lia.
Qed.

(** In the chunk a seek position falls into, at least one element and at
    most a chunk row remains along the fastest-varying dimension: every pass
    of the transfer loops moves between 1 and [len - bytes_finished] bytes. *)
Lemma calculate_chunk_for_chunk_bounds (n : nat) nt len fin x ddims :
  Forall dim_ok ddims ->
  Forall (fun d => chunk_length d * nt <= max_signed) ddims ->
  length ddims = n -> (1 <= n)%nat -> 0 < nt ->
  0 <= fin < len -> len <= max_signed ->
  let cs := coords ddims x in
  1 <= calculate_chunk_for_chunk (Z.of_nat n) nt len fin
         (zip_with (fun a d => a / chunk_length d) cs ddims)
         (zip_with (fun a d => a mod chunk_length d) cs ddims) ddims
    <= len - fin.
Proof.
  intros Hok Hcb Hn Hn1 Hnt Hfin Hlen cs.
  unfold calculate_chunk_for_chunk. rewrite Nat2Z.id.
  set (n1 := (n - 1)%nat).
  assert (Hlt : (n1 < length ddims)%nat) by lia.
  assert (Hcs : length cs = length ddims) by apply length_coords.
  rewrite !aget_zip_with by lia.
  destruct (lookup_lt_is_Some_2 ddims n1 Hlt) as [d Hd].
  assert (Hdd : dget ddims n1 = d) by (by apply list_lookup_total_correct).
  rewrite Hdd.
  assert (Hdok : dim_ok d).
  { rewrite Forall_forall in Hok. apply Hok. eapply list_elem_of_lookup_2; eauto. }
  assert (Hdcb : chunk_length d * nt <= max_signed).
  { rewrite Forall_forall in Hcb. apply Hcb. eapply list_elem_of_lookup_2; eauto. }
  destruct (dim_ok_facts _ Hdok) as (HC & HD & HN & HL & HDL).
  assert (Ha : 0 <= aget cs n1 < dim_length d).
  { pose proof (coords_in_radix ddims x Hok) as Hr. fold cs in Hr.
    destruct (lookup_lt_is_Some_2 cs n1 ltac:(lia)) as [a Ha].
    unfold aget. rewrite (list_lookup_total_correct _ _ _ Ha).
    eapply Forall2_lookup_lr in Hr; [exact Hr | exact Ha |].
    by rewrite list_lookup_fmap, Hd. }
  set (a := aget cs n1) in *.
  pose proof (Z.mod_pos_bound a (chunk_length d) ltac:(lia)) as Hm.
  pose proof (Z.div_mod a (chunk_length d) ltac:(lia)) as Hdm.
  assert (Hsub : len -i fin = len - fin).
  { apply sub_small. unfold in_range, min_signed, max_signed in *. lia. }
  rewrite Hsub.
  assert (Hone : num_chunks d -i 1 = num_chunks d - 1).
  { apply sub_small. unfold in_range, min_signed, max_signed in *. lia. }
  rewrite Hone.
  destruct (a / chunk_length d =? num_chunks d - 1) eqn:Hlast.
  - apply Z.eqb_eq in Hlast.
    assert (Hrest : 1 <= last_chunk_length d - a mod chunk_length d <= chunk_length d) by nia.
    rewrite (sub_small (last_chunk_length d)) by
      (unfold in_range, min_signed, max_signed in *; lia).
    assert (Hb : 1 <= (last_chunk_length d - a mod chunk_length d) * nt <= max_signed) by nia.
    rewrite mul_small by (unfold in_range, min_signed, max_signed in *; lia).
    destruct (_ >? _) eqn:Hgt; [lia|].
    rewrite Z.gtb_ltb in Hgt. apply Z.ltb_ge in Hgt. lia.
  - assert (Hrest : 1 <= chunk_length d - a mod chunk_length d <= chunk_length d) by lia.
    rewrite (sub_small (chunk_length d)) by
      (unfold in_range, min_signed, max_signed in *; lia).
    assert (Hb : 1 <= (chunk_length d - a mod chunk_length d) * nt <= max_signed) by nia.
    rewrite mul_small by (unfold in_range, min_signed, max_signed in *; lia).
    destruct (_ >? _) eqn:Hgt; [lia|].
    rewrite Z.gtb_ltb in Hgt. apply Z.ltb_ge in Hgt. lia.
Qed.

Lemma bump_add n (a b : nat) : bump (bump n a) b = bump n (a + b).
Proof. unfold bump. by rewrite Nat.add_comm, Nat.iter_add. Qed.

Lemma bump_small n (k : nat) :
  in_range n -> n + Z.of_nat k <= max_signed -> bump n k = n + Z.of_nat k.
Proof.
  intros Hn. induction k as [|k IH]; intros Hk.
  - simpl. lia.
  - unfold bump in *. simpl Nat.iter. rewrite IH by lia.
    rewrite add_small by (unfold in_range, min_signed, max_signed in *; lia). lia.
Qed.

End Typing.

(** ** The monad and the frame of the cache *)

Section Monad.

Lemma bind_inv {A B} (m : M A) (k : A -> M B) w r w' :
  bind m k w = (r, w') ->
  (exists a w1, m w = (Ret a, w1) /\ k a w1 = (r, w')) \/
  (exists e, m w = (Err e, w') /\ r = Err e) \/
  (m w = (Stuck, w') /\ r = Stuck).
Proof.
  unfold bind. destruct (m w) as [[a|e|] w1]; intros H.
  - left. eauto.
  - right. left. injection H as <- <-. eauto.
  - right. right. injection H as <- <-. eauto.
Qed.

Lemma on_fail_inv {A} e (m : M A) w r w' :
  on_fail e m w = (r, w') ->
  (exists a, m w = (Ret a, w') /\ r = Ret a) \/
  (exists e', m w = (Err e', w') /\ r = Err e) \/
  (m w = (Stuck, w') /\ r = Stuck).
Proof.
  unfold on_fail. destruct (m w) as [[a|e'|] w1]; intros H; injection H as <- <-; eauto.
Qed.

Lemma frame_refl w : frame w w.
Proof. by constructor. Qed.

Lemma frame_trans w1 w2 w3 : frame w1 w2 -> frame w2 w3 -> frame w1 w3.
Proof. intros [] []. constructor; congruence. Qed.

Lemma Forall_store_app (io1 io2 : list event) :
  Forall is_store_event io1 -> Forall is_store_event io2 ->
  Forall is_store_event (io1 ++ io2).
Proof. intros. by apply Forall_app. Qed.

End Monad.

(** ** Page-in, page-out and the cache leave the engine's state alone *)

Ltac unfold_M :=
  unfold bind, ret, fail, get_info, get_access, get_file, get_cache,
    set_info, set_posn, set_file, set_cache, log, on_fail in *.

Ltac inv_bind H :=
  let a := fresh "a" in
  let w1 := fresh "w" in
  let e := fresh "e" in
  let Hm := fresh "Hm" in
  let He := fresh "He" in
  apply bind_inv in H as [(a & w1 & Hm & H) | [(e & Hm & He) | [Hm He]]].

Ltac inv_on_fail H :=
  let a := fresh "a" in
  let e := fresh "e" in
  let He := fresh "He" in
  apply on_fail_inv in H as [(a & H & He) | [(e & H & He) | [H He]]].

Section CacheFrame.

Lemma store_trace_refl w : store_trace w w.
Proof. exists []. by rewrite app_nil_r. Qed.

Lemma store_trace_trans w1 w2 w3 :
  store_trace w1 w2 -> store_trace w2 w3 -> store_trace w1 w3.
Proof.
  intros (io1 & H1 & F1) (io2 & H2 & F2). exists (io1 ++ io2).
  split; [by rewrite H2, H1, app_assoc | by apply Forall_app].
Qed.

Lemma Htagnewref_spec tag w r w' :
  Htagnewref tag w = (r, w') ->
  access_rec w' = access_rec w /\ store_trace w w' /\ is_Ret r.
Proof.
  unfold Htagnewref. unfold_M. simpl.
  destruct (_ && _); intros H; injection H as <- <-; simpl.
  - split; [done|]. split; [|done]. exists [EvNewRef (f_next_ref (file_rec w))].
    split; [done|]. by repeat constructor.
  - split; [done|]. split; [apply store_trace_refl | done].
Qed.

Lemma VSwrite_spec rec w r w' :
  VSwrite rec w = (r, w') ->
  access_rec w' = access_rec w /\ store_trace w w' /\ is_Ret r.
Proof.
  unfold VSwrite. unfold_M. simpl. intros H; injection H as <- <-; simpl.
  split; [done|]. split; [|done]. exists [EvVSwrite rec]. split; [done|]. by repeat constructor.
Qed.

Lemma Hread_element_spec tag ref len datap w r w' :
  Hread_element tag ref len datap w = (r, w') ->
  access_rec w' = access_rec w /\ store_trace w w' /\ r <> Stuck.
Proof.
  unfold Hread_element. unfold_M. simpl.
  destruct (f_objects (file_rec w) !! (tag, ref)); intros H; injection H as <- <-; simpl.
  - split; [done|]. split; [|done]. exists [EvObjRead tag ref]. split; [done|].
    by repeat constructor.
  - split; [done|]. split; [apply store_trace_refl | done].
Qed.

Lemma Hwrite_element_spec tag ref len datap w r w' :
  Hwrite_element tag ref len datap w = (r, w') ->
  access_rec w' = access_rec w /\ store_trace w w' /\ r <> Stuck.
Proof.
  unfold Hwrite_element. unfold_M. simpl.
  destruct (_ =? 0); intros H; injection H as <- <-; simpl.
  - split; [done|]. split; [apply store_trace_refl | done].
  - split; [done|]. split; [|done]. exists [EvObjWrite tag ref]. split; [done|].
    by repeat constructor.
Qed.

(** [HMCPchunkread] changes nothing of the access record. *)
Lemma HMCPchunkread_spec chunk_num datap w r w' :
  HMCPchunkread chunk_num datap w = (r, w') ->
  access_rec w' = access_rec w /\ store_trace w w' /\ r <> Stuck.
Proof.
  unfold HMCPchunkread. intros H.
  apply bind_inv in H as [(info & w1 & Hg & H) | [(e & Hg & _) | [Hg _]]];
    unfold get_info in Hg; try discriminate.
  injection Hg as <- <-.
  destruct (chk_tree _ !! chunk_num) as [chk_rec|].
  - destruct (_ && _).
    + apply bind_inv in H as [(d & w2 & Hr & H) | [(e & Hr & He) | [Hr He]]];
        apply Hread_element_spec in Hr as (Ha & Ht & Hs); subst; try done.
      injection H as <- <-. done.
    + destruct (_ =? _); injection H as <- <-;
        (split; [done|]); (split; [apply store_trace_refl | done]).
  - injection H as <- <-. split; [done|]. split; [apply store_trace_refl | done].
Qed.

Lemma frame_of_access w w' : access_rec w' = access_rec w -> frame w w'.
Proof.
  intros H. constructor; unfold static, seek_state, dir_keys, dir_count; by rewrite H.
Qed.

(** [HMCPchunkwrite] updates the tag and ref of an existing record only. *)
Lemma HMCPchunkwrite_spec chunk_num datap w r w' :
  HMCPchunkwrite chunk_num datap w = (r, w') ->
  frame w w' /\
  chk_cache (special_info (access_rec w')) = chk_cache (special_info (access_rec w)) /\
  store_trace w w' /\ r <> Stuck.
Proof.
  unfold HMCPchunkwrite. intros H.
  inv_bind H; unfold get_info in Hm; try discriminate. injection Hm as <- <-.
  destruct (chk_tree _ !! chunk_num) as [chk_rec|] eqn:Hlook; cycle 1.
  { injection H as <- <-. split; [apply frame_refl|]. split; [done|].
    split; [apply store_trace_refl | done]. }
  destruct (chk_tag chk_rec =? DFTAG_NULL).
  - inv_bind H; apply Htagnewref_spec in Hm as (Ha1 & Ht1 & Hr1); subst; try done.
    inv_bind H; unfold get_info in Hm; try discriminate. injection Hm as <- <-.
    inv_bind H; unfold set_info in Hm; try discriminate. injection Hm as <- <-.
    match type of H with _ ?w0 = _ => set (w2 := w0) in * end.
    assert (Hf2 : frame w w2 /\
              chk_cache (special_info (access_rec w2))
                = chk_cache (special_info (access_rec w)) /\ store_trace w w2).
    { unfold w2. rewrite Ha1. split; [|split; [done|]].
      - constructor; try done. unfold dir_keys. simpl.
        apply dom_insert_lookup_L. by rewrite Hlook.
      - destruct Ht1 as (io & Hio & Fio). exists io. done. }
    destruct Hf2 as (Hf2 & Hc2 & Ht2). clearbody w2.
    destruct (a =? 0).
    { injection H as <- <-. done. }
    inv_bind H; inv_on_fail Hm; try discriminate;
      apply VSwrite_spec in Hm as (Ha3 & Ht3 & Hs3); subst; try done.
    inv_bind H; inv_on_fail Hm; try discriminate;
      apply Hwrite_element_spec in Hm as (Ha4 & Ht4 & Hs4); subst; try done.
    + injection H as <- <-.
      split; [eauto using frame_trans, frame_of_access|].
      split; [congruence|]. split; [eauto using store_trace_trans | done].
    + split; [eauto using frame_trans, frame_of_access|].
      split; [congruence|]. split; [eauto using store_trace_trans | done].
  - inv_bind H; inv_on_fail Hm; try discriminate;
      apply Hwrite_element_spec in Hm as (Ha4 & Ht4 & Hs4); subst; try done.
    + injection H as <- <-.
      split; [eauto using frame_of_access|]. split; [congruence | done].
    + split; [eauto using frame_of_access|]. split; [congruence | done].
Qed.

Lemma get_cache_eq w : get_cache w = (Ret (chk_cache (special_info (access_rec w))), w).
Proof. reflexivity. Qed.

Lemma set_cache_spec c w r w' :
  set_cache c w = (r, w') ->
  r = Ret tt /\ frame w w' /\ trace w' = trace w /\
  chk_cache (special_info (access_rec w')) = c.
Proof.
  unfold set_cache. unfold_M. simpl. intros H. injection H as <- <-.
  split; [done|]. split; [by constructor | done].
Qed.

Lemma store_trace_of_eq w w' : trace w' = trace w -> store_trace w w'.
Proof. intros H. exists []. by rewrite app_nil_r. Qed.

(** The buffer for a missing page: only [HMCPchunkwrite] may run. *)
Lemma mcache_bkt_spec w r w' :
  mcache_bkt HMCPchunkwrite w = (r, w') ->
  frame w w' /\ store_trace w w' /\ r <> Stuck.
Proof.
  unfold mcache_bkt. intros H.
  inv_bind H; rewrite get_cache_eq in Hm; try discriminate. injection Hm as <- <-.
  destruct (_ <? _).
  { injection H as <- <-. split; [apply frame_refl|]. split; [apply store_trace_refl | done]. }
  destruct (List.find _ _) as [b|]; cycle 1.
  { injection H as <- <-. split; [apply frame_refl|]. split; [apply store_trace_refl | done]. }
  assert (Hout : forall r1 w1,
            (if is_dirty b then HMCPchunkwrite (pgno b -i 1) (page b) else ret 0) w = (r1, w1) ->
            frame w w1 /\ store_trace w w1 /\ r1 <> Stuck).
  { intros r1 w1. destruct (is_dirty b).
    - intros Hw. apply HMCPchunkwrite_spec in Hw as (? & ? & ? & ?). done.
    - intros Hw. injection Hw as <- <-.
      split; [apply frame_refl|]. split; [apply store_trace_refl | done]. }
  inv_bind H; apply Hout in Hm as (Hf1 & Ht1 & Hs1); subst; try done.
  inv_bind H; rewrite get_cache_eq in Hm; try discriminate. injection Hm as <- <-.
  inv_bind H; apply set_cache_spec in Hm as (Hr & Hf2 & Ht2 & _); try discriminate.
  injection H as <- <-.
  split; [eauto using frame_trans|].
  split; [eauto using store_trace_trans, store_trace_of_eq | done].
Qed.

(** [mcache_get]: the trace grows by the get and by events of the stores;
    a page that is handed out has a number in [1, npages]. *)
Lemma mcache_get_spec pg w r w' :
  mcache_get HMCPchunkread HMCPchunkwrite pg w = (r, w') ->
  frame w w' /\
  (exists io, trace w' = trace w ++ EvCacheGet pg :: io /\ Forall is_store_event io) /\
  r <> Stuck /\
  (is_Ret r -> 1 <= pg <= npages (chk_cache (special_info (access_rec w)))).
Proof.
  unfold mcache_get. intros H.
  inv_bind H; unfold log in Hm; try discriminate. injection Hm as <- <-.
  match type of H with _ ?w0 = _ => set (w1 := w0) in * end.
  assert (Hf1 : frame w w1) by (by constructor).
  assert (Ht1 : trace w1 = trace w ++ [EvCacheGet pg]) by done.
  assert (Hc1 : chk_cache (special_info (access_rec w1))
                = chk_cache (special_info (access_rec w))) by done.
  clearbody w1.
  assert (Hwrap : forall w2, store_trace w1 w2 ->
            exists io, trace w2 = trace w ++ EvCacheGet pg :: io /\ Forall is_store_event io).
  { intros w2 (io & Hio & Fio). exists io. rewrite Hio, Ht1, <- app_assoc. done. }
  inv_bind H; rewrite get_cache_eq in Hm; try discriminate. injection Hm as <- <-.
  rewrite Hc1 in H.
  destruct (_ || _) eqn:Hrange.
  { injection H as <- <-. split; [done|]. split; [apply Hwrap, store_trace_refl|]. done. }
  apply orb_false_elim in Hrange as [Hlo Hhi].
  apply Z.ltb_ge in Hlo. apply Z.ltb_ge in Hhi.
  destruct (find_page _ _) as [b|].
  - inv_bind H; apply set_cache_spec in Hm as (Hr & Hf2 & Ht2 & _); try discriminate.
    injection H as <- <-.
    split; [eauto using frame_trans|].
    split; [apply Hwrap; eauto using store_trace_of_eq|]. split; [done | lia].
  - inv_bind H; apply mcache_bkt_spec in Hm as (Hf2 & Ht2 & Hs2); subst; try done;
      cycle 1.
    { split; [eauto using frame_trans|]. split; [by apply Hwrap | done]. }
    inv_bind H; apply HMCPchunkread_spec in Hm as (Ha3 & Ht3 & Hs3); subst; try done;
      cycle 1.
    { split; [eauto using frame_trans, frame_of_access|].
      split; [apply Hwrap; eauto using store_trace_trans | done]. }
    inv_bind H; rewrite get_cache_eq in Hm; try discriminate. injection Hm as <- <-.
    inv_bind H; apply set_cache_spec in Hm as (Hr & Hf4 & Ht4 & _); try discriminate.
    injection H as <- <-.
    split; [eauto using frame_trans, frame_of_access|].
    split; [apply Hwrap; eauto using store_trace_trans, store_trace_of_eq|].
    split; [done | lia].
Qed.

Lemma mcache_put_spec pg flags w r w' :
  mcache_put pg flags w = (r, w') ->
  frame w w' /\ trace w' = trace w ++ [EvCachePut pg flags] /\ r <> Stuck.
Proof.
  unfold mcache_put. intros H.
  inv_bind H; unfold log in Hm; try discriminate. injection Hm as <- <-.
  inv_bind H; rewrite get_cache_eq in Hm; try discriminate. injection Hm as <- <-.
  simpl in H. destruct (find_page _ _).
  - inv_bind H; apply set_cache_spec in Hm as (Hr & Hf2 & Ht2 & _); try discriminate.
    injection H as <- <-. split; [|split; [by rewrite Ht2 | done]].
    eapply frame_trans; [|exact Hf2]. by constructor.
  - injection H as <- <-. split; [by constructor | done].
Qed.

Lemma page_memcpy_spec pg off src n w r w' :
  page_memcpy pg off src n w = (r, w') ->
  r = Ret tt /\ frame w w' /\ trace w' = trace w.
Proof.
  unfold page_memcpy. intros H.
  inv_bind H; rewrite get_cache_eq in Hm; try discriminate. injection Hm as <- <-.
  apply set_cache_spec in H as (Hr & Hf & Ht & _). done.
Qed.

Lemma mcache_set_maxcache_spec n w r w' :
  mcache_set_maxcache n w = (r, w') ->
  is_Ret r /\ frame w w' /\ trace w' = trace w.
Proof.
  unfold mcache_set_maxcache. intros H.
  inv_bind H; rewrite get_cache_eq in Hm; try discriminate. injection Hm as <- <-.
  match type of H with (if ?c then _ else _) _ = _ => destruct c end.
  - inv_bind H; apply set_cache_spec in Hm as (Hr & Hf & Ht & _); try discriminate.
    injection H as <- <-. done.
  - injection H as <- <-. split; [done|]. split; [apply frame_refl | done].
Qed.

(** *** Traces *)

Lemma inserted_app tr1 tr2 : inserted (tr1 ++ tr2) = inserted tr1 ∪ inserted tr2.
Proof.
  induction tr1 as [|[] tr1 IH]; simpl; rewrite ?IH; set_solver.
Qed.

Lemma ins_count_app tr1 tr2 : ins_count (tr1 ++ tr2) = (ins_count tr1 + ins_count tr2)%nat.
Proof. induction tr1 as [|[] tr1 IH]; simpl; rewrite ?IH; lia. Qed.

Lemma written_chunks_app tr1 tr2 :
  written_chunks (tr1 ++ tr2) = written_chunks tr1 ∪ written_chunks tr2.
Proof.
  induction tr1 as [|[] tr1 IH]; simpl; rewrite ?IH; try set_solver.
  destruct (_ =? 0); set_solver.
Qed.

Lemma quiet_inserted tr : Forall quiet tr -> inserted tr = ∅.
Proof. induction 1 as [|[] tr H _ IH]; simpl; try done. Qed.

Lemma quiet_ins_count tr : Forall quiet tr -> ins_count tr = 0%nat.
Proof. induction 1 as [|[] tr H _ IH]; simpl; try done. Qed.

Lemma quiet_written tr : Forall quiet tr -> written_chunks tr = ∅.
Proof.
  induction 1 as [|[] tr H _ IH]; simpl; try done.
  simpl in H. by rewrite H.
Qed.

Lemma store_event_quiet e : is_store_event e -> quiet e.
Proof. by destruct e. Qed.

Lemma store_events_quiet io : Forall is_store_event io -> Forall quiet io.
Proof. intros H. eapply Forall_impl; [exact H | apply store_event_quiet]. Qed.

Lemma gets_after_insert_mono P Q tr :
  P ⊆ Q -> gets_after_insert P tr -> gets_after_insert Q tr.
Proof.
  revert P Q. induction tr as [|[] tr IH]; intros P Q HPQ; simpl; try done; eauto.
  - apply IH. set_solver.
  - intros [(cn & Hcn & ->) H]. split; [|by eauto]. exists cn. set_solver.
Qed.

Lemma gets_after_insert_app P tr1 tr2 :
  gets_after_insert P tr1 -> gets_after_insert (P ∪ inserted tr1) tr2 ->
  gets_after_insert P (tr1 ++ tr2).
Proof.
  revert P. induction tr1 as [|[] tr1 IH]; intros P; simpl; eauto.
  - intros _. apply gets_after_insert_mono. set_solver.
  - intros H1 H2. apply IH; [done|].
    eapply gets_after_insert_mono; [|exact H2]. set_solver.
  - intros [Hg H1] H2. split; [done|]. by apply IH.
Qed.

Lemma gets_after_insert_store P io : Forall is_store_event io -> gets_after_insert P io.
Proof. induction 1 as [|[] io H _ IH]; simpl; try done. Qed.

Lemma returned_dirty_skip p tr0 tr :
  Forall no_cache_event tr0 -> returned_dirty p tr -> returned_dirty p (tr0 ++ tr).
Proof. induction 1 as [|[] tr0 H _ IH]; simpl; try done. Qed.

Lemma returned_dirty_app p tr1 tr2 :
  returned_dirty p tr1 -> returned_dirty None tr2 -> returned_dirty p (tr1 ++ tr2).
Proof.
  revert p. induction tr1 as [|[] tr1 IH]; intros p; simpl; eauto.
  - by intros ->.
  - intros [-> H1] H2. eauto.
  - intros (-> & -> & H1) H2. eauto.
Qed.

Lemma store_events_no_cache io : Forall is_store_event io -> Forall no_cache_event io.
Proof. intros H. eapply Forall_impl; [exact H|]. by intros []. Qed.

(** *** Steps of the directory *)

Lemma dframe_refl w : dframe w w.
Proof. by constructor. Qed.

Lemma dframe_trans w1 w2 w3 : dframe w1 w2 -> dframe w2 w3 -> dframe w1 w3.
Proof. intros [] []. constructor; congruence. Qed.

Lemma frame_dframe w w' : frame w w' -> dframe w w'.
Proof. intros []. by constructor. Qed.

Lemma dir_step_refl w : dir_step w w [].
Proof.
  constructor; simpl; try done; [by rewrite app_nil_r | set_solver].
Qed.

Lemma dir_step_trans w1 w2 w3 tr1 tr2 :
  dir_step w1 w2 tr1 -> dir_step w2 w3 tr2 -> dir_step w1 w3 (tr1 ++ tr2).
Proof.
  intros [Hs1 Ht1 Hk1 Hz1 Hc1] [Hs2 Ht2 Hk2 Hz2 Hc2]. constructor.
  - congruence.
  - by rewrite Ht2, Ht1, app_assoc.
  - rewrite Hk2, Hk1, inserted_app. set_solver.
  - rewrite Hz2, Hz1, ins_count_app. lia.
  - by rewrite Hc2, Hc1, ins_count_app, bump_add.
Qed.

Lemma dir_step_of_dframe w w' tr :
  dframe w w' -> trace w' = trace w ++ tr -> Forall quiet tr -> dir_step w w' tr.
Proof.
  intros [Hs Hk Hc] Ht Hq. constructor; try done.
  - rewrite Hk, (quiet_inserted _ Hq). set_solver.
  - rewrite Hk, (quiet_ins_count _ Hq). lia.
  - by rewrite Hc, (quiet_ins_count _ Hq).
Qed.

Lemma dir_step_keys_mono w w' tr : dir_step w w' tr -> dir_keys w ⊆ dir_keys w'.
Proof. intros []. set_solver. Qed.

End CacheFrame.

(** ** The engine: seeks, reads and writes *)

Section Engine.

Ltac by_failure := repeat split; [intros Hr; exact Hr | discriminate].

Lemma typed_of_seek w w' : seek_state w' = seek_state w -> typed w -> typed w'.
Proof. unfold seek_state, typed. intros H. by injection H as -> _ _. Qed.

Lemma typed_frame w w' : frame w w' -> typed w -> typed w'.
Proof. intros []. by apply typed_of_seek. Qed.

Lemma seek_to_spec x w r w' :
  seek_to x w = (r, w') ->
  r = Ret tt /\ dframe w w' /\ trace w' = trace w /\
  posn (access_rec w') = posn (access_rec w) /\
  (typed w -> typed w') /\
  (let i := special_info (access_rec w) in
   let i' := special_info (access_rec w') in
   (seek_chunk_indices i', seek_pos_chunk i') =
   update_chunk_indices_seek x (ndims i) (nt_size i)
     (seek_chunk_indices i) (seek_pos_chunk i) (ddims i)).
Proof.
  unfold seek_to, set_seek. unfold_M. simpl. intros H. injection H as <- <-.
  simpl. repeat split; try done.
  - intros Ht. unfold typed. simpl. unfold update_chunk_indices_seek.
    by apply seek_loop_typed.
  - by destruct (update_chunk_indices_seek _ _ _ _ _ _).
Qed.

Lemma insert_chunk_rec_spec cn org w r w' :
  chk_tree (special_info (access_rec w)) !! cn = None ->
  insert_chunk_rec cn org w = (r, w') ->
  r = Ret tt /\
  dir_step w w' [EvTreeIns (mkCHUNK_REC cn (dir_count w) org DFTAG_NULL 0)] /\
  seek_state w' = seek_state w /\
  posn (access_rec w') = posn (access_rec w).
Proof.
  intros Hnone. unfold insert_chunk_rec. unfold_M. simpl. intros H.
  injection H as <- <-. split; [done|]. split; [|done].
  assert (Hnot : cn ∉ dir_keys w) by (unfold dir_keys; by apply not_elem_of_dom).
  constructor; simpl; try done.
  - unfold dir_keys. simpl. rewrite dom_insert_L. set_solver.
  - unfold dir_keys in *. simpl. rewrite dom_insert_L.
    rewrite size_union by set_solver. rewrite size_singleton. lia.
Qed.

Lemma write_run_trans w1 w2 w3 tr1 tr2 :
  write_run w1 w2 tr1 -> write_run w2 w3 tr2 -> write_run w1 w3 (tr1 ++ tr2).
Proof.
  intros [Hs1 Hg1 Hp1 Hd1] [Hs2 Hg2 Hp2 Hd2]. constructor.
  - by eapply dir_step_trans.
  - apply gets_after_insert_app; [done|]. by rewrite <- (step_keys _ _ _ Hs1).
  - by apply Forall_app.
  - by apply Forall_app.
Qed.

Lemma write_run_of_dframe w w' : dframe w w' -> trace w' = trace w -> write_run w w' [].
Proof.
  intros Hf Ht. constructor; try done.
  apply dir_step_of_dframe; [done | by rewrite app_nil_r | done].
Qed.

(** Making sure the chunk has a record. *)
Lemma insert_if_absent_spec cn org w :
  exists w0 tr0,
    (match chk_tree (special_info (access_rec w)) !! cn with
     | None => insert_chunk_rec cn org
     | Some _ => ret tt
     end) w = (Ret tt, w0) /\
    write_run w w0 tr0 /\ seek_state w0 = seek_state w /\
    posn (access_rec w0) = posn (access_rec w) /\
    inserted tr0 ⊆ {[cn]} /\ written_chunks tr0 = ∅ /\
    cn ∈ dir_keys w0 /\ Forall no_cache_event tr0.
Proof.
  destruct (chk_tree (special_info (access_rec w)) !! cn) as [rec|] eqn:Hl.
  - exists w, []. split; [done|].
    split; [constructor; try done; apply dir_step_refl|].
    repeat split; try done. unfold dir_keys. apply elem_of_dom. eauto.
  - destruct (insert_chunk_rec cn org w) as [r0 w0] eqn:Hi.
    apply insert_chunk_rec_spec in Hi as (-> & Hstep & Hseek & Hposn); [|done].
    eexists w0, _. split; [done|].
    split; [constructor; [exact Hstep | done | | ]|].
    + by repeat constructor.
    + by repeat constructor.
    + repeat split; try done; [simpl; set_solver| |by repeat constructor].
      rewrite (step_keys _ _ _ Hstep). simpl. set_solver.
Qed.

(** The first half of a pass of both write paths: make sure the chunk has
    a record, get its page, copy into it and return it dirty; [k] is what
    the path does afterwards. *)
Lemma write_page_spec {A} cn org off src n (k : M A) w r w' :
  ((match chk_tree (special_info (access_rec w)) !! cn with
    | None => insert_chunk_rec cn org
    | Some _ => ret tt
    end);;
   do chk_data <- on_fail DFE_REPORT
                    (mcache_get HMCPchunkread HMCPchunkwrite (cn +i 1));
   page_memcpy (cn +i 1) off src n;;
   on_fail DFE_REPORT (mcache_put (cn +i 1) MCACHE_DIRTY);;
   k) w = (r, w') ->
  exists w1 tr1,
    write_run w w1 tr1 /\
    seek_state w1 = seek_state w /\
    posn (access_rec w1) = posn (access_rec w) /\
    inserted tr1 ⊆ {[cn]} /\
    (Int32.in_range cn -> written_chunks tr1 ⊆ dir_keys w1) /\
    ((~ is_Ret r /\ r <> Stuck /\ w' = w1) \/
     (k w1 = (r, w') /\ returned_dirty None tr1 /\
      (Int32.in_range cn -> written_chunks tr1 = {[cn]}))).
Proof.
  intros H.
  destruct (insert_if_absent_spec cn org w)
    as (w0 & tr0 & He & Hrun0 & Hseek0 & Hposn0 & Hins0 & Hwr0 & Hkey0 & Hnc0).
  inv_bind H; rewrite He in Hm; try discriminate. injection Hm as <- <-.
  (* the page *)
  assert (Hget : forall r1 w1,
            mcache_get HMCPchunkread HMCPchunkwrite (cn +i 1) w0 = (r1, w1) ->
            exists io, write_run w0 w1 (EvCacheGet (cn +i 1) :: io) /\ frame w0 w1 /\
                       written_chunks (EvCacheGet (cn +i 1) :: io) = ∅ /\
                       inserted (EvCacheGet (cn +i 1) :: io) = ∅ /\
                       r1 <> Stuck /\ (is_Ret r1 -> 1 <= cn +i 1) /\
                       Forall is_store_event io).
  { intros r1 w1 Hg. apply mcache_get_spec in Hg as (Hf1 & (io & Ht1 & Fio) & Hs1 & Hpg).
    exists io.
    assert (Hq : Forall quiet (EvCacheGet (cn +i 1) :: io)).
    { constructor; [done | by apply store_events_quiet]. }
    split; [|split; [done|]; split; [|split; [|split; [done|split; [|done]]]]].
    - constructor.
      + apply dir_step_of_dframe; [by apply frame_dframe | done | done].
      + simpl. split; [eauto | by apply gets_after_insert_store].
      + constructor; [done|]. eapply Forall_impl; [exact Fio|]. by intros [].
      + constructor; [done|]. eapply Forall_impl; [exact Fio|]. by intros [].
    - by apply quiet_written.
    - by apply quiet_inserted.
    - intros Hr. apply Hpg in Hr. lia. }
  inv_bind H; inv_on_fail Hm;
    apply Hget in Hm as (io & Hrun1 & Hf1 & Hwr1 & Hins1 & Hs1 & Hpg & Fio);
    subst; try done.
  2:{ exists w', (tr0 ++ EvCacheGet (cn +i 1) :: io).
      split; [by eapply write_run_trans|].
      destruct Hf1 as [_ Hsk Hpo _ _].
      split; [congruence|]. split; [congruence|].
      rewrite inserted_app, written_chunks_app, Hwr0, Hwr1, Hins1.
      split; [set_solver|]. split; [set_solver|]. left. by_failure. }
  (* the copy *)
  inv_bind H; apply page_memcpy_spec in Hm as (Hr2 & Hf2 & Ht2); try discriminate.
  assert (Hrun2 : write_run w1 w2 []).
  { apply write_run_of_dframe; [by apply frame_dframe | done]. }
  (* the put *)
  assert (Hput : forall r3 w3,
            mcache_put (cn +i 1) MCACHE_DIRTY w2 = (r3, w3) ->
            write_run w2 w3 [EvCachePut (cn +i 1) MCACHE_DIRTY] /\ frame w2 w3 /\
            r3 <> Stuck).
  { intros r3 w3 Hp. apply mcache_put_spec in Hp as (Hf3 & Ht3 & Hs3).
    split; [|done]. destruct Hf3 as [Hst Hsk Hpo Hke Hco].
    constructor; try by repeat constructor.
    constructor; simpl; try done.
    - rewrite Hke. set_solver.
    - rewrite Hke. lia. }
  assert (Hpage : Int32.in_range cn -> cn +i 1 - 1 = cn).
  { intros Hr. apply page_of_chunk; [done | by apply Hpg]. }
  assert (Hall : forall w3, write_run w2 w3 [EvCachePut (cn +i 1) MCACHE_DIRTY] ->
            frame w2 w3 ->
            let tr := tr0 ++ (EvCacheGet (cn +i 1) :: io) ++ [] ++
                      [EvCachePut (cn +i 1) MCACHE_DIRTY] in
            write_run w w3 tr /\ seek_state w3 = seek_state w /\
            posn (access_rec w3) = posn (access_rec w) /\
            inserted tr ⊆ {[cn]} /\
            (Int32.in_range cn -> written_chunks tr ⊆ dir_keys w3) /\
            returned_dirty None tr /\
            (Int32.in_range cn -> written_chunks tr = {[cn]})).
  { intros w3 Hrun3 Hf3 tr.
    split; [by repeat (eapply write_run_trans; [eassumption|])|].
    destruct Hf1 as [_ Hsk1 Hpo1 Hke1 _], Hf2 as [_ Hsk2 Hpo2 Hke2 _],
             Hf3 as [_ Hsk3 Hpo3 Hke3 _].
    split; [congruence|]. split; [congruence|].
    assert (Hw : Int32.in_range cn -> written_chunks tr = {[cn]}).
    { intros Hr. unfold tr. rewrite !written_chunks_app, Hwr0, Hwr1. simpl.
      rewrite (Hpage Hr). set_solver. }
    split; [|split; [|split; [|done]]].
    - unfold tr. rewrite !inserted_app, Hins1. simpl. set_solver.
    - intros Hr. rewrite (Hw Hr), Hke3, Hke2, Hke1. set_solver.
    - unfold tr. apply returned_dirty_skip; [done|]. simpl. split; [done|].
      apply returned_dirty_skip; [by apply store_events_no_cache|]. by simpl. }
  inv_bind H; inv_on_fail Hm; apply Hput in Hm as (Hrun3 & Hf3 & Hs3); subst; try done.
  - destruct (Hall _ Hrun3 Hf3) as (Hrun & Hsk & Hpo & Hin & Hwk & Hrd & Hw).
    eexists w3, _. do 5 (split; [eassumption|]). right. done.
  - destruct (Hall _ Hrun3 Hf3) as (Hrun & Hsk & Hpo & Hin & Hwk & Hrd & Hw).
    eexists w', _. do 5 (split; [eassumption|]). left. by_failure.
Qed.

Lemma calculate_chunk_num_in_range ndims idx ddims :
  Forall Int32.in_range idx -> Int32.in_range (calculate_chunk_num ndims idx ddims).
Proof. apply row_major_in_range. Qed.

(** The loop of [HMCPwrite]. *)
Lemma HMCPwrite_loop_spec fuel : forall write_len bytes_written rel bptr w r w',
  HMCPwrite_loop fuel write_len bytes_written rel bptr w = (r, w') ->
  exists tr,
    write_run w w' tr /\
    posn (access_rec w') = posn (access_rec w) /\
    (is_Ret r -> returned_dirty None tr) /\
    (typed w ->
     typed w' /\ written_chunks tr ⊆ dir_keys w' /\
     (is_Ret r -> inserted tr ⊆ written_chunks tr)).
Proof.
  assert (Hnil : forall A (r : res A) w,
            exists tr, write_run w w tr /\ posn (access_rec w) = posn (access_rec w) /\
              (is_Ret r -> returned_dirty None tr) /\
              (typed w -> typed w /\ written_chunks tr ⊆ dir_keys w /\
                          (is_Ret r -> inserted tr ⊆ written_chunks tr))).
  { intros A r w. exists []. split; [apply write_run_of_dframe; [apply dframe_refl | done]|].
    split; [done|]. split; [done|]. intros Ht. split; [done|]. simpl. set_solver. }
  induction fuel as [|fuel IH]; intros write_len bytes_written rel bptr w r w' H;
    cbn [HMCPwrite_loop] in H; destruct (bytes_written <? write_len);
    try (injection H as <- <-; by apply Hnil).
  inv_bind H; unfold get_info in Hm; try discriminate. injection Hm as <- <-.
  cbv zeta in H.
  apply write_page_spec in H
    as (w1 & tr1 & Hrun1 & Hsk1 & Hpo1 & Hin1 & Hwk1 &
        [(Hnr & Hns & ->) | (Hk & Hrd1 & Hw1)]).
  - exists tr1. split; [done|]. split; [done|]. split; [done|]. intros Ht.
    split; [by eapply typed_of_seek|].
    split; [by apply Hwk1, calculate_chunk_num_in_range|done].
  - inv_bind Hk; apply seek_to_spec in Hm as (Hr2 & Hdf2 & Ht2 & Hpo2 & Hty2 & _);
      try discriminate.
    apply IH in Hk as (tr2 & Hrun2 & Hpo3 & Hrd3 & Htyp3).
    exists (tr1 ++ [] ++ tr2).
    split; [|split; [congruence|split]].
    { eapply write_run_trans; [exact Hrun1|].
      eapply write_run_trans; [|exact Hrun2]. by apply write_run_of_dframe. }
    { intros Hr. apply returned_dirty_app; [done | by apply Hrd3]. }
    intros Ht.
    assert (Hcn : Int32.in_range
              (calculate_chunk_num (ndims (special_info (access_rec w)))
                 (seek_chunk_indices (special_info (access_rec w)))
                 (ddims (special_info (access_rec w)))))
      by (by apply calculate_chunk_num_in_range).
    destruct Htyp3 as (Ht3 & Hw3 & Hi3); [by eapply Hty2, typed_of_seek|].
    split; [done|].
    pose proof (dir_step_keys_mono _ _ _ (run_step _ _ _ Hrun2)) as Hmono.
    pose proof (dframe_keys _ _ Hdf2) as Hke2.
    specialize (Hwk1 Hcn). specialize (Hw1 Hcn).
    simpl. rewrite written_chunks_app, inserted_app.
    split; [set_solver|]. intros Hr. specialize (Hi3 Hr). set_solver.
Qed.

Lemma set_posn_spec p w r w' :
  set_posn p w = (r, w') ->
  r = Ret tt /\ dframe w w' /\ trace w' = trace w /\ seek_state w' = seek_state w /\
  posn (access_rec w') = p.
Proof. unfold set_posn. intros H. injection H as <- <-. done. Qed.

Lemma HMCPwrite_spec len datap w r w' :
  HMCPwrite len datap w = (r, w') ->
  exists tr, write_run w w' tr /\
    (is_Ret r -> returned_dirty None tr) /\
    (typed w ->
     typed w' /\ written_chunks tr ⊆ dir_keys w' /\
     (is_Ret r -> inserted tr ⊆ written_chunks tr)).
Proof.
  assert (Hnil : forall e w,
            exists tr, write_run w w tr /\
              (is_Ret (@Err Z e) -> returned_dirty None tr) /\
              (typed w -> typed w /\ written_chunks tr ⊆ dir_keys w /\
                          (is_Ret (@Err Z e) -> inserted tr ⊆ written_chunks tr))).
  { intros e w0. exists []. split; [apply write_run_of_dframe; [apply dframe_refl | done]|].
    split; [done|]. intros Ht. split; [done|]. simpl. set_solver. }
  unfold HMCPwrite. intros H.
  inv_bind H; unfold get_access in Hm; try discriminate. injection Hm as <- <-.
  inv_bind H; unfold get_file in Hm; try discriminate. injection Hm as <- <-.
  destruct (len <=? 0); [injection H as <- <-; apply Hnil|].
  destruct (BADFREC _); [injection H as <- <-; apply Hnil|].
  inv_bind H; apply seek_to_spec in Hm as (Hr1 & Hdf1 & Ht1 & Hpo1 & Hty1 & _);
    try discriminate.
  assert (Hrun1 : write_run w w0 []) by (by apply write_run_of_dframe).
  inv_bind H; apply HMCPwrite_loop_spec in Hm as (tr & Hrun2 & Hpo2 & Hrd2 & Htyp2); subst.
  - inv_bind H; apply set_posn_spec in Hm as (Hr3 & Hdf3 & Ht3 & Hsk3 & _);
      try discriminate.
    injection H as <- <-.
    exists ([] ++ tr ++ []).
    split.
    { eapply write_run_trans; [exact Hrun1|].
      eapply write_run_trans; [exact Hrun2|]. by apply write_run_of_dframe. }
    split; [intros _; simpl; rewrite app_nil_r; by apply Hrd2|].
    intros Ht. destruct Htyp2 as (Ht2 & Hw2 & Hi2); [by apply Hty1|].
    split; [by eapply typed_of_seek|].
    simpl. rewrite app_nil_r. rewrite (dframe_keys _ _ Hdf3). done.
  - exists ([] ++ tr). split; [by eapply write_run_trans|]. split; [done|].
    intros Ht. destruct Htyp2 as (Ht2 & Hw2 & Hi2); [by apply Hty1|]. done.
  - exists ([] ++ tr). split; [by eapply write_run_trans|]. split; [done|].
    intros Ht. destruct Htyp2 as (Ht2 & Hw2 & Hi2); [by apply Hty1|]. done.
Qed.

Lemma seek_to_origin_spec org w r w' :
  seek_to_origin org w = (r, w') ->
  r = Ret tt /\ dframe w w' /\ trace w' = trace w /\
  chk_tree (special_info (access_rec w')) = chk_tree (special_info (access_rec w)) /\
  (Forall Int32.in_range org -> typed w -> typed w').
Proof.
  unfold seek_to_origin, set_seek. unfold_M. simpl. intros H. injection H as <- <-.
  repeat split; try done.
  intros Ho Ht. unfold typed. simpl.
  apply (fold_insert_typed (fun i => aget org i)); [|done].
  intros j. by apply aget_in_range.
Qed.

Lemma seek_after_chunk_spec n w r w' :
  seek_after_chunk n w = (r, w') ->
  r = Ret tt /\ dframe w w' /\ trace w' = trace w /\ (typed w -> typed w').
Proof.
  unfold seek_after_chunk. unfold_M. simpl. intros H. injection H as <- <-. done.
Qed.

Lemma HMCwriteChunk_spec org datap w r w' :
  HMCwriteChunk org datap w = (r, w') ->
  exists tr, write_run w w' tr /\
    (is_Ret r -> returned_dirty None tr) /\
    (Forall Int32.in_range org -> typed w ->
     typed w' /\ written_chunks tr ⊆ dir_keys w' /\
     (is_Ret r -> inserted tr ⊆ written_chunks tr)).
Proof.
  assert (Hnil : forall e w,
            exists tr, write_run w w tr /\
              (is_Ret (@Err Z e) -> returned_dirty None tr) /\
              (Forall Int32.in_range org -> typed w ->
               typed w /\ written_chunks tr ⊆ dir_keys w /\
               (is_Ret (@Err Z e) -> inserted tr ⊆ written_chunks tr))).
  { intros e w0. exists []. split; [apply write_run_of_dframe; [apply dframe_refl | done]|].
    split; [done|]. intros _ Ht. split; [done|]. simpl. set_solver. }
  unfold HMCwriteChunk. intros H.
  inv_bind H; unfold get_access in Hm; try discriminate. injection Hm as <- <-.
  inv_bind H; unfold get_file in Hm; try discriminate. injection Hm as <- <-.
  destruct (BADFREC _); [injection H as <- <-; apply Hnil|].
  destruct (_ =? 0); [injection H as <- <-; apply Hnil|].
  destruct (_ =? SPECIAL_CHUNKED); [|injection H as <- <-; apply Hnil].
  inv_bind H; unfold get_info in Hm; try discriminate. injection Hm as <- <-.
  cbv zeta in H.
  inv_bind H; apply seek_to_origin_spec in Hm as (Hr1 & Hdf1 & Ht1 & Htree & Hty1);
    try discriminate.
  assert (Hrun1 : write_run w w0 []) by (by apply write_run_of_dframe).
  rewrite <- Htree in H.
  apply write_page_spec in H
    as (w1 & tr1 & Hrun2 & Hsk2 & Hpo2 & Hin2 & Hwk2 &
        [(Hnr & Hns & ->) | (Hk & Hrd2 & Hw2)]).
  - exists ([] ++ tr1). split; [by eapply write_run_trans|]. split; [done|].
    intros Ho Ht. split; [by eapply typed_of_seek, Hty1|].
    split; [by apply Hwk2, calculate_chunk_num_in_range|done].
  - inv_bind Hk; apply seek_after_chunk_spec in Hm as (Hr3 & Hdf3 & Ht3 & Hty3);
      try discriminate.
    injection Hk as <- <-.
    exists ([] ++ tr1 ++ []). split.
    { eapply write_run_trans; [exact Hrun1|].
      eapply write_run_trans; [exact Hrun2|]. by apply write_run_of_dframe. }
    split; [intros _; simpl; by rewrite app_nil_r|].
    intros Ho Ht.
    assert (Hcn : Int32.in_range
              (calculate_chunk_num (ndims (special_info (access_rec w))) org
                 (ddims (special_info (access_rec w)))))
      by (by apply calculate_chunk_num_in_range).
    split; [by eapply Hty3, typed_of_seek, Hty1|].
    simpl. rewrite app_nil_r, (dframe_keys _ _ Hdf3), (Hw2 Hcn).
    split; [rewrite <- (Hw2 Hcn); by apply Hwk2 | done].
Qed.

(** *** Operations that leave the directory alone *)

Lemma quiet_run_refl w : quiet_run w w.
Proof.
  split; [apply dframe_refl|]. split; [done|]. exists []. by rewrite app_nil_r.
Qed.

Lemma quiet_run_trans w1 w2 w3 : quiet_run w1 w2 -> quiet_run w2 w3 -> quiet_run w1 w3.
Proof.
  intros (Hd1 & Ht1 & tr1 & He1 & Hq1) (Hd2 & Ht2 & tr2 & He2 & Hq2).
  split; [by eapply dframe_trans|]. split; [auto|].
  exists (tr1 ++ tr2). split; [by rewrite He2, He1, app_assoc | by apply Forall_app].
Qed.

Lemma quiet_run_of_dframe w w' :
  dframe w w' -> (typed w -> typed w') -> trace w' = trace w -> quiet_run w w'.
Proof. intros Hd Ht He. split; [done|]. split; [done|]. exists []. by rewrite app_nil_r. Qed.

Lemma quiet_run_of_frame w w' tr :
  frame w w' -> trace w' = trace w ++ tr -> Forall quiet tr -> quiet_run w w'.
Proof.
  intros Hf He Hq. split; [by apply frame_dframe|].
  split; [by apply typed_frame | eauto].
Qed.

Lemma mcache_get_quiet pg w r w' :
  mcache_get HMCPchunkread HMCPchunkwrite pg w = (r, w') -> quiet_run w w'.
Proof.
  intros H. apply mcache_get_spec in H as (Hf & (io & Ht & Fio) & _).
  eapply quiet_run_of_frame; [done | exact Ht |].
  constructor; [done | by apply store_events_quiet].
Qed.

Lemma mcache_put_clean_quiet pg w r w' :
  mcache_put pg 0 w = (r, w') -> quiet_run w w'.
Proof.
  intros H. apply mcache_put_spec in H as (Hf & Ht & _).
  eapply quiet_run_of_frame; [done | exact Ht | by repeat constructor].
Qed.

Lemma seek_to_quiet x w r w' : seek_to x w = (r, w') -> quiet_run w w'.
Proof.
  intros H. apply seek_to_spec in H as (_ & Hd & Ht & _ & Hty & _).
  by apply quiet_run_of_dframe.
Qed.

Lemma set_posn_quiet p w r w' : set_posn p w = (r, w') -> quiet_run w w'.
Proof.
  intros H. apply set_posn_spec in H as (_ & Hd & Ht & Hsk & _).
  apply quiet_run_of_dframe; [done | by apply typed_of_seek | done].
Qed.

Ltac quiet_chain :=
  repeat first [ eassumption | apply quiet_run_refl
               | eapply quiet_run_trans; [eassumption|] ].

Lemma HMCPread_loop_quiet fuel : forall read_len bytes_read rel bptr w r w',
  HMCPread_loop fuel read_len bytes_read rel bptr w = (r, w') -> quiet_run w w'.
Proof.
  induction fuel as [|fuel IH]; intros read_len bytes_read rel bptr w r w' H;
    cbn [HMCPread_loop] in H; destruct (bytes_read <? read_len);
    try (injection H as <- <-; by apply quiet_run_refl).
  inv_bind H; unfold get_info in Hm; try discriminate. injection Hm as <- <-.
  cbv zeta in H.
  inv_bind H; inv_on_fail Hm; apply mcache_get_quiet in Hm; rename Hm into Hq1; subst; try done.
  inv_bind H; inv_on_fail Hm; apply mcache_put_clean_quiet in Hm; rename Hm into Hq2; subst;
    try by quiet_chain.
  inv_bind H; apply seek_to_quiet in Hm; rename Hm into Hq3; subst;
    try by quiet_chain.
  apply IH in H. by quiet_chain.
Qed.

Lemma HMCPread_quiet len w r w' : HMCPread len w = (r, w') -> quiet_run w w'.
Proof.
  unfold HMCPread. intros H.
  inv_bind H; unfold get_access in Hm; try discriminate. injection Hm as <- <-.
  inv_bind H; unfold get_info in Hm; try discriminate. injection Hm as <- <-.
  destruct (len <? 0); [injection H as <- <-; apply quiet_run_refl|].
  cbv zeta in H.
  inv_bind H; apply seek_to_quiet in Hm; rename Hm into Hq4; subst; try done.
  inv_bind H; apply HMCPread_loop_quiet in Hm; rename Hm into Hq5; subst;
    try by quiet_chain.
  inv_bind H; apply set_posn_quiet in Hm; rename Hm into Hq6; subst;
    try by quiet_chain.
  injection H as <- <-. by quiet_chain.
Qed.

Lemma HMCreadChunk_quiet org w r w' :
  Forall Int32.in_range org -> HMCreadChunk org w = (r, w') -> quiet_run w w'.
Proof.
  unfold HMCreadChunk. intros Ho H.
  inv_bind H; unfold get_access in Hm; try discriminate. injection Hm as <- <-.
  inv_bind H; unfold get_file in Hm; try discriminate. injection Hm as <- <-.
  destruct (BADFREC _); [injection H as <- <-; apply quiet_run_refl|].
  destruct (_ =? 0); [injection H as <- <-; apply quiet_run_refl|].
  destruct (_ =? SPECIAL_CHUNKED); [|injection H as <- <-; apply quiet_run_refl].
  inv_bind H; unfold get_info in Hm; try discriminate. injection Hm as <- <-.
  cbv zeta in H.
  assert (Hso : forall r1 w1, seek_to_origin org w = (r1, w1) -> quiet_run w w1).
  { intros r1 w1 Hs. apply seek_to_origin_spec in Hs as (_ & Hd & Ht & _ & Hty).
    apply quiet_run_of_dframe; auto. }
  assert (Hsa : forall n w0 r1 w1, seek_after_chunk n w0 = (r1, w1) -> quiet_run w0 w1).
  { intros n w0 r1 w1 Hs. apply seek_after_chunk_spec in Hs as (_ & Hd & Ht & Hty).
    by apply quiet_run_of_dframe. }
  inv_bind H; apply Hso in Hm; rename Hm into Hq7; subst; try done.
  inv_bind H; inv_on_fail Hm; apply mcache_get_quiet in Hm; rename Hm into Hq8; subst;
    try by quiet_chain.
  inv_bind H; inv_on_fail Hm; apply mcache_put_clean_quiet in Hm; rename Hm into Hq9; subst;
    try by quiet_chain.
  inv_bind H; apply Hsa in Hm; rename Hm into Hq10; subst;
    try by quiet_chain.
  injection H as <- <-. by quiet_chain.
Qed.

Lemma HMCPseek_quiet offset origin w r w' : HMCPseek offset origin w = (r, w') -> quiet_run w w'.
Proof.
  unfold HMCPseek. intros H.
  inv_bind H; unfold get_access in Hm; try discriminate. injection Hm as <- <-.
  destruct (negb _); [injection H as <- <-; apply quiet_run_refl|].
  inv_bind H; unfold get_info in Hm; try discriminate. injection Hm as <- <-.
  cbv zeta in H.
  destruct (_ <? 0); [injection H as <- <-; apply quiet_run_refl|].
  inv_bind H; apply seek_to_quiet in Hm; rename Hm into Hq11; subst; try done.
  inv_bind H; apply set_posn_quiet in Hm; rename Hm into Hq12; subst; try by quiet_chain.
  injection H as <- <-. by quiet_chain.
Qed.

Lemma HMCsetMaxcache_quiet maxcache flags w r w' :
  HMCsetMaxcache maxcache flags w = (r, w') -> quiet_run w w'.
Proof.
  unfold HMCsetMaxcache. intros H.
  inv_bind H; unfold get_access in Hm; try discriminate. injection Hm as <- <-.
  destruct (_ <? 1); [injection H as <- <-; apply quiet_run_refl|].
  destruct (_ =? SPECIAL_CHUNKED); [|injection H as <- <-; apply quiet_run_refl].
  apply mcache_set_maxcache_spec in H as (_ & Hf & Ht).
  eapply quiet_run_of_frame; [done | by rewrite app_nil_r | done].
Qed.

Lemma HMCPgetnumrecs_quiet w r w' : HMCPgetnumrecs w = (r, w') -> quiet_run w w'.
Proof. unfold HMCPgetnumrecs. unfold_M. intros H. injection H as <- <-. apply quiet_run_refl. Qed.

(** *** Sequences of operations *)

Lemma quiet_run_outcome ok w w' : quiet_run w w' -> exists tr, op_outcome ok w w' tr.
Proof.
  intros (Hd & Hty & tr & He & Hq). exists tr.
  split; [by apply dir_step_of_dframe|]. intros Ht. split; [auto|].
  rewrite (quiet_written _ Hq), (quiet_inserted _ Hq). set_solver.
Qed.

Lemma op_outcome_trans (ok1 ok2 : Prop) w1 w2 w3 tr1 tr2 :
  op_outcome ok1 w1 w2 tr1 -> op_outcome ok2 w2 w3 tr2 ->
  op_outcome (ok1 /\ ok2) w1 w3 (tr1 ++ tr2).
Proof.
  intros [Hs1 Ho1] [Hs2 Ho2]. split; [by eapply dir_step_trans|].
  intros Ht. destruct (Ho1 Ht) as (Ht2 & Hw1 & Hi1). destruct (Ho2 Ht2) as (Ht3 & Hw2 & Hi2).
  split; [done|]. pose proof (dir_step_keys_mono _ _ _ Hs2) as Hmono.
  rewrite written_chunks_app, inserted_app. split; [set_solver|].
  intros [H1 H2]. specialize (Hi1 H1). specialize (Hi2 H2). set_solver.
Qed.

Lemma op_outcome_weaken (ok ok' : Prop) w w' tr :
  (ok' -> ok) -> op_outcome ok w w' tr -> op_outcome ok' w w' tr.
Proof.
  intros Himp [Hs Ho]. split; [done|]. intros Ht.
  destruct (Ho Ht) as (? & ? & ?). auto.
Qed.

Lemma run_op_spec o w b w' :
  op_typed o -> run_op o w = (b, w') -> exists tr, op_outcome (b = true) w w' tr.
Proof.
  intros Ho H. destruct o as [offset origin|len|len datap|org|org datap|maxcache flags|];
    unfold run_op in H; cbv beta zeta in H.
  - destruct (HMCPseek offset origin w) as [r w1] eqn:Hr. injection H as <- <-.
    eapply quiet_run_outcome, HMCPseek_quiet, Hr.
  - destruct (HMCPread len w) as [r w1] eqn:Hr. injection H as <- <-.
    eapply quiet_run_outcome, HMCPread_quiet, Hr.
  - destruct (HMCPwrite len datap w) as [r w1] eqn:Hr. injection H as <- <-.
    apply HMCPwrite_spec in Hr as (tr & Hrun & _ & Hty). exists tr.
    split; [apply Hrun|]. intros Ht. destruct (Hty Ht) as (? & ? & Hi).
    split; [done|]. split; [done|]. intros Hb. apply Hi. by destruct r.
  - destruct (HMCreadChunk org w) as [r w1] eqn:Hr. injection H as <- <-.
    eapply quiet_run_outcome, HMCreadChunk_quiet, Hr. exact Ho.
  - destruct (HMCwriteChunk org datap w) as [r w1] eqn:Hr. injection H as <- <-.
    apply HMCwriteChunk_spec in Hr as (tr & Hrun & _ & Hty). exists tr.
    split; [apply Hrun|]. intros Ht. destruct (Hty Ho Ht) as (? & ? & Hi).
    split; [done|]. split; [done|]. intros Hb. apply Hi. by destruct r.
  - destruct (HMCsetMaxcache maxcache flags w) as [r w1] eqn:Hr. injection H as <- <-.
    eapply quiet_run_outcome, HMCsetMaxcache_quiet, Hr.
  - destruct (HMCPgetnumrecs w) as [r w1] eqn:Hr. injection H as <- <-.
    eapply quiet_run_outcome, HMCPgetnumrecs_quiet, Hr.
Qed.

Lemma run_ops_spec os : forall w b w',
  Forall op_typed os -> run_ops os w = (b, w') ->
  exists tr, op_outcome (b = true) w w' tr.
Proof.
  induction os as [|o os IH]; intros w b w' Ho H; simpl in H.
  - injection H as <- <-. exists []. split; [apply dir_step_refl|].
    intros Ht. split; [done|]. simpl. set_solver.
  - apply Forall_cons in Ho as [Ho Hos].
    destruct (run_op o w) as [b1 w1] eqn:H1.
    destruct (run_ops os w1) as [b2 w2] eqn:H2. injection H as <- <-.
    apply run_op_spec in H1 as (tr1 & Hout1); [|done].
    apply IH in H2 as (tr2 & Hout2); [|done].
    exists (tr1 ++ tr2). eapply op_outcome_weaken; [|by eapply op_outcome_trans].
    intros Hb. by apply andb_true_iff in Hb.
Qed.

Lemma run_ops_app os1 os2 w :
  run_ops (os1 ++ os2) w =
  (let '(b1, w1) := run_ops os1 w in
   let '(b2, w2) := run_ops os2 w1 in (b1 && b2, w2)).
Proof.
  revert w. induction os1 as [|o os1 IH]; intros w; simpl.
  - by destruct (run_ops os2 w).
  - destruct (run_op o w) as [b w1]. rewrite IH.
    destruct (run_ops os1 w1) as [b1 w2]. destruct (run_ops os2 w2) as [b2 w3].
    by rewrite andb_assoc.
Qed.

(** The count follows the number of keys as long as it fits [int32]. *)
Lemma dir_step_count w w' tr :
  dir_step w w' tr ->
  dir_count w = Z.of_nat (size (dir_keys w)) ->
  Z.of_nat (size (dir_keys w')) <= Int32.max_signed ->
  dir_count w' = Z.of_nat (size (dir_keys w')).
Proof.
  intros [_ _ _ Hz Hc] H0 Hmax. rewrite Hc, Hz, bump_small; [lia | | lia].
  apply in_range_nonneg. lia.
Qed.

End Engine.

(** ** Claims on the chunk directory *)

Section DirectoryClaims.

(** C7 (as amended).  Across every sequence of operations on one open chunked
    element whose count of records equals the number of entries of the
    chunk tree to begin with (as on a new element, where both are 0), and as
    long as that number fits [int32]: at every point of the sequence the
    entries are among the later ones and the count is at most the later
    one (no entry is removed, [num_recs] never decreases); the count stays
    the number of entries, which are the earlier entries and the chunk
    numbers whose record a write inserted; every chunk number whose page
    was returned dirty has an entry; and when every operation of the
    sequence succeeded, the entries are exactly the earlier ones and the
    distinct chunk numbers written, so that on a new element the count is
    the number of distinct chunk numbers written. *)
Theorem directory_append_only (os : list op) (w w' : world) (ok : bool) :
  typed w -> Forall op_typed os ->
  dir_count w = Z.of_nat (size (dir_keys w)) ->
  run_ops os w = (ok, w') ->
  Z.of_nat (size (dir_keys w')) <= Int32.max_signed ->
  (forall os1 os2, os = os1 ++ os2 ->
     let w1 := (run_ops os1 w).2 in
     dir_keys w ⊆ dir_keys w1 /\ dir_keys w1 ⊆ dir_keys w' /\
     dir_count w <= dir_count w1 <= dir_count w') /\
  dir_count w' = Z.of_nat (size (dir_keys w')) /\
  exists tr,
    trace w' = trace w ++ tr /\
    dir_keys w' = dir_keys w ∪ inserted tr /\
    written_chunks tr ⊆ dir_keys w' /\
    (ok = true -> dir_keys w' = dir_keys w ∪ written_chunks tr) /\
    (ok = true -> dir_keys w = ∅ ->
     dir_count w' = Z.of_nat (size (written_chunks tr))).
Proof.
  intros Ht Ho H0 Hrun Hmax.
  destruct (run_ops_spec _ _ _ _ Ho Hrun) as (tr & Hstep & Hout).
  destruct (Hout Ht) as (Ht' & Hwr & Hins).
  assert (Hcount : dir_count w' = Z.of_nat (size (dir_keys w')))
    by (by eapply dir_step_count).
  split; [|split; [done|]].
  - intros os1 os2 -> w1. rewrite run_ops_app in Hrun.
    apply Forall_app in Ho as [Ho1 Ho2].
    destruct (run_ops os1 w) as [b1 w1'] eqn:H1. subst w1. simpl.
    destruct (run_ops os2 w1') as [b2 w2] eqn:H2. injection Hrun as <- <-.
    destruct (run_ops_spec _ _ _ _ Ho1 H1) as (tr1 & Hstep1 & Hout1).
    destruct (run_ops_spec _ _ _ _ Ho2 H2) as (tr2 & Hstep2 & _).
    pose proof (dir_step_keys_mono _ _ _ Hstep1) as Hm1.
    pose proof (dir_step_keys_mono _ _ _ Hstep2) as Hm2.
    split; [done|]. split; [done|].
    pose proof (subseteq_size _ _ Hm1) as Hz1.
    pose proof (subseteq_size _ _ Hm2) as Hz2.
    assert (Hc1 : dir_count w1' = Z.of_nat (size (dir_keys w1'))).
    { eapply dir_step_count; [exact Hstep1 | done | lia]. }
    lia.
  - exists tr. split; [apply Hstep|]. split; [apply Hstep|]. split; [done|].
    assert (Hok : ok = true -> dir_keys w' = dir_keys w ∪ written_chunks tr).
    { intros Hk. specialize (Hins Hk). rewrite (step_keys _ _ _ Hstep) in Hwr |- *.
      clear -Hins Hwr. set_solver. }
    split; [done|]. intros Hk He. rewrite Hcount, (Hok Hk), He.
    f_equal. f_equal. set_solver.
Qed.

Lemma directory_append_only_witness :
  let w := HMCcreate_world 0 16 1 [mkDIM_DEF 0 10 4; mkDIM_DEF 0 10 4] 1
             [Byte.x00] (mkfilerec_t 3 1 ∅ 2 []) in
  let os := [OpSeek 99 DF_START; OpWrite 1 [Byte.x01];
             OpSeek 0 DF_START; OpWrite 5 (replicate 5 Byte.x02);
             OpSeek 0 DF_START; OpRead 0;
             OpWriteChunk [2; 2] (replicate 16 Byte.x07); OpGetNumRecs] in
  let w' := (run_ops os w).2 in
  (run_ops os w).1 = true /\
  dir_count w' = Z.of_nat (size (dir_keys w')) /\
  size (dir_keys w') = 3%nat /\
  dir_count w' = 3.
Proof.
  intros w os w'.
  assert (Ht : typed w) by (repeat constructor; by_evaluation).
  assert (Ho : Forall op_typed os) by (repeat constructor; by_evaluation).
  assert (Hmax : Z.of_nat (size (dir_keys w')) <= Int32.max_signed) by by_evaluation.
  destruct (directory_append_only os w w' (run_ops os w).1 Ht Ho eq_refl
              (surjective_pairing _) Hmax) as (_ & Hcount & _).
  split; [reflexivity|]. split; [exact Hcount|]. split; reflexivity.
Defined.

(** A write that fails after its insert leaves the record behind: with the
    refs of the file used up, the page-out of chunk 0, which the second
    write needs the cache to do, fails; two records, one chunk written.
    So does a whole-chunk write at an origin outside the chunk grid. *)
Lemma directory_count_exceeds_written :
  let w := HMCcreate_world 0 4 1 [mkDIM_DEF 0 8 4] 1 [Byte.x00]
             (mkfilerec_t 3 1 ∅ 65536 []) in
  let os := [OpWrite 4 (replicate 4 Byte.x01); OpWrite 4 (replicate 4 Byte.x02)] in
  let w' := (run_ops os w).2 in
  let v := HMCcreate_world 0 16 1 [mkDIM_DEF 0 10 4; mkDIM_DEF 0 10 4] 1
             [Byte.x00] (mkfilerec_t 3 1 ∅ 2 []) in
  let r := HMCwriteChunk [5; 0] (replicate 16 Byte.x01) v in
  (dir_count w = 0 /\ elements (dir_keys w) = [] /\
   (run_op (OpWrite 4 (replicate 4 Byte.x01)) w).1 = true /\
   (HMCPwrite 4 (replicate 4 Byte.x02)
      (run_op (OpWrite 4 (replicate 4 Byte.x01)) w).2).1 = Err DFE_REPORT /\
   dir_count w' = 2 /\
   elements (written_chunks (trace w')) = [0]) /\
  (dir_count v = 0 /\ r.1 = Err DFE_REPORT /\ dir_count r.2 = 1 /\
   elements (written_chunks (trace r.2)) = []).
Proof. by_evaluation. Qed.

(** The page-out of a chunk whose record is a placeholder. *)
Lemma HMCPchunkwrite_placeholder chunk_num datap w rec :
  chk_tree (special_info (access_rec w)) !! chunk_num = Some rec ->
  chk_tag rec = DFTAG_NULL ->
  1 <= f_next_ref (file_rec w) <= 65535 ->
  Z.land (f_access (file_rec w)) DFACC_WRITE <> 0 ->
  let info := special_info (access_rec w) in
  let ref := f_next_ref (file_rec w) in
  let tbl := mkCHK_TBL_REC (origin rec) DFTAG_CHUNK ref in
  exists w',
    HMCPchunkwrite chunk_num datap w = (Ret (chunk_size info *i nt_size info), w') /\
    trace w' = trace w ++ [EvNewRef ref; EvVSwrite tbl; EvObjWrite DFTAG_CHUNK ref] /\
    chk_tree (special_info (access_rec w')) =
      <[chunk_num := stored_rec rec ref]> (chk_tree info) /\
    dir_count w' = dir_count w /\
    f_vdata (file_rec w') = f_vdata (file_rec w) ++ [tbl] /\
    f_next_ref (file_rec w') = ref + 1.
Proof.
  intros Hl Htag Href Hacc info ref tbl.
  unfold HMCPchunkwrite, Htagnewref, VSwrite, Hwrite_element. unfold_M. simpl.
  rewrite Hl, Htag. simpl.
  destruct (1 <=? f_next_ref (file_rec w)) eqn:E1; [|apply Z.leb_gt in E1; lia].
  destruct (f_next_ref (file_rec w) <=? 65535) eqn:E2; [|apply Z.leb_gt in E2; lia].
  simpl.
  destruct (f_next_ref (file_rec w) =? 0) eqn:E3; [apply Z.eqb_eq in E3; lia|].
  simpl.
  match goal with
  | |- context [if ?c then _ else _] =>
      destruct c eqn:E4; [apply Z.eqb_eq in E4; by destruct Hacc|]
  end.
  eexists. split; [reflexivity|]. simpl. rewrite <- !app_assoc. done.
Qed.

(** C5 (as amended).  For every write through a chunked-element handle
    ([HMCPwrite], and the whole-chunk [HMCwriteChunk]): every page the write
    asks the cache for is the page of a chunk number that has an entry in
    the in-memory index at that moment, one it had before or one the write
    inserted earlier; an entry the write inserts is a placeholder, without
    storage tag (DFTAG_NULL) and ref (0), and [num_recs] is incremented for
    it; every page the write returns to the cache it returns dirty, and a
    write that succeeds returns every page it got, before it asks for the
    next.  The fresh ref is allocated and the record appended to the Chunk
    Directory Store later, when the page is written out
    ([HMCPchunkwrite]): on a placeholder entry, with a ref left and a
    writable file, it allocates the next ref, appends the record (origin,
    DFTAG_CHUNK, ref), writes the element and fills tag and ref into the
    entry. *)
Theorem HMCPwrite_placeholder_before_get :
  (forall (wr : M Z) (w w' : world) (r : res Z),
     (exists length datap, wr = HMCPwrite length datap) \/
     (exists org datap, wr = HMCwriteChunk org datap) ->
     wr w = (r, w') ->
     exists tr,
       trace w' = trace w ++ tr /\
       gets_after_insert (dir_keys w) tr /\
       Forall placeholder_insert tr /\
       Forall put_is_dirty tr /\
       (is_Ret r -> returned_dirty None tr) /\
       dir_keys w' = dir_keys w ∪ inserted tr /\
       dir_count w' = bump (dir_count w) (ins_count tr)) /\
  (forall chunk_num datap w rec,
     chk_tree (special_info (access_rec w)) !! chunk_num = Some rec ->
     chk_tag rec = DFTAG_NULL ->
     1 <= f_next_ref (file_rec w) <= 65535 ->
     Z.land (f_access (file_rec w)) DFACC_WRITE <> 0 ->
     let info := special_info (access_rec w) in
     let ref := f_next_ref (file_rec w) in
     let tbl := mkCHK_TBL_REC (origin rec) DFTAG_CHUNK ref in
     exists w',
       HMCPchunkwrite chunk_num datap w = (Ret (chunk_size info *i nt_size info), w') /\
       trace w' = trace w ++ [EvNewRef ref; EvVSwrite tbl; EvObjWrite DFTAG_CHUNK ref] /\
       chk_tree (special_info (access_rec w')) =
         <[chunk_num := stored_rec rec ref]> (chk_tree info) /\
       dir_count w' = dir_count w /\
       f_vdata (file_rec w') = f_vdata (file_rec w) ++ [tbl] /\
       f_next_ref (file_rec w') = ref + 1).
Proof.
  split.
  - intros wr w w' r Hwr H.
    assert (Hrun : exists tr, write_run w w' tr /\ (is_Ret r -> returned_dirty None tr)).
    { destruct Hwr as [(length & datap & ->) | (org & datap & ->)].
      - apply HMCPwrite_spec in H as (tr & Hrun & Hrd & _). eauto.
      - apply HMCwriteChunk_spec in H as (tr & Hrun & Hrd & _). eauto. }
    destruct Hrun as (tr & [[_ Ht Hk _ Hc] Hg Hp Hd] & Hrd). exists tr. done.
  - intros. by apply HMCPchunkwrite_placeholder.
Qed.

Lemma HMCPwrite_placeholder_before_get_witness :
  let w := HMCcreate_world 0 16 1 [mkDIM_DEF 0 10 4; mkDIM_DEF 0 10 4] 1
             [Byte.x00] (mkfilerec_t 3 1 ∅ 2 []) in
  let w1 := (HMCPseek 99 DF_START w).2 in
  let w2 := (HMCPwrite 1 [Byte.x01] w1).2 in
  (exists tr,
     trace w2 = trace w1 ++ tr /\
     gets_after_insert (dir_keys w1) tr /\
     Forall placeholder_insert tr /\
     Forall put_is_dirty tr /\
     (is_Ret (HMCPwrite 1 [Byte.x01] w1).1 -> returned_dirty None tr) /\
     dir_keys w2 = dir_keys w1 ∪ inserted tr /\
     dir_count w2 = bump (dir_count w1) (ins_count tr)) /\
  (exists w3,
     HMCPchunkwrite 8 (replicate 16 Byte.x01) w2 = (Ret 16, w3) /\
     f_vdata (file_rec w3) = [mkCHK_TBL_REC [2; 2] DFTAG_CHUNK 2]).
Proof.
  intros w w1 w2.
  destruct HMCPwrite_placeholder_before_get as [Hwrite Hout].
  split.
  - apply (Hwrite (HMCPwrite 1 [Byte.x01]) w1 w2 (HMCPwrite 1 [Byte.x01] w1).1);
      [left; eauto | apply surjective_pairing].
  - destruct (Hout 8 (replicate 16 Byte.x01) w2 (mkCHUNK_REC 8 0 [2; 2] DFTAG_NULL 0))
      as (w3 & Hr & _ & _ & _ & Hv & _);
      [reflexivity | reflexivity | by_evaluation | by_evaluation |].
    exists w3. split; [exact Hr | exact Hv].
Defined.

(** The insert of a write allocates nothing: one byte written to chunk 8,
    which has no entry, leaves a placeholder in the tree, the ref counter
    of the file where it was and the chunk table empty; the events are the
    insert, the get and the dirty put. *)
Lemma HMCPwrite_insert_allocates_nothing :
  let w := HMCcreate_world 0 16 1 [mkDIM_DEF 0 10 4; mkDIM_DEF 0 10 4] 1
             [Byte.x00] (mkfilerec_t 3 1 ∅ 2 []) in
  let w1 := (HMCPseek 99 DF_START w).2 in
  let r := HMCPwrite 1 [Byte.x01] w1 in
  chk_tree (special_info (access_rec w1)) !! 8 = None /\
  r.1 = Ret 1 /\
  trace r.2 = trace w1 ++
    [EvTreeIns (mkCHUNK_REC 8 0 [2; 2] DFTAG_NULL 0);
     EvCacheGet 9; EvCachePut 9 MCACHE_DIRTY] /\
  chk_tree (special_info (access_rec r.2)) !! 8
    = Some (mkCHUNK_REC 8 0 [2; 2] DFTAG_NULL 0) /\
  f_next_ref (file_rec r.2) = f_next_ref (file_rec w1) /\
  f_vdata (file_rec r.2) = [].
Proof. by_evaluation. Qed.

End DirectoryClaims.

(** ** Claims on reads *)

Section ReadClaims.

Import Int32.

Lemma wf_elem_frame w w' : frame w w' -> wf_elem w -> wf_elem w'.
Proof.
  intros [Hst Hsk Hpo _ _] [H1 H2 H3 H4 H5 H6 H7 H8 H9].
  unfold static, seek_state in *.
  injection Hst as _ _ _ _ _ Hil _ Hnt Hnd Hdd _ _. injection Hsk as Hsbi Hspb _.
  constructor; rewrite ?Hsbi, ?Hspb, ?Hpo, ?Hil, ?Hnt, ?Hnd, ?Hdd; done.
Qed.

Lemma seek_at_frame w w' x : frame w w' -> seek_at w x -> seek_at w' x.
Proof.
  intros [Hst Hsk _ _ _]. unfold static, seek_state, seek_at in *.
  injection Hst as _ _ _ _ _ _ _ Hnt _ Hdd _ _. injection Hsk as Hsbi Hspb _.
  cbv zeta. by rewrite Hsbi, Hspb, Hnt, Hdd.
Qed.

(** [seek_to] on a well-formed element. *)
Lemma seek_to_wf x w r w' :
  wf_elem w -> 0 <= x <= max_signed ->
  seek_to x w = (r, w') ->
  r = Ret tt /\ wf_elem w' /\ seek_at w' x /\
  posn (access_rec w') = posn (access_rec w) /\ static w' = static w.
Proof.
  intros Hwf Hx H.
  pose proof H as H'. apply seek_to_spec in H' as (Hr & [Hst _ _] & _ & Hpo & _ & _).
  destruct Hwf as [H1 H2 H3 H4 H5 H6 H7 H8 H9].
  unfold seek_to, set_seek in H. unfold_M. simpl in H.
  set (i := special_info (access_rec w)) in *.
  rewrite <- H2 in H.
  rewrite update_chunk_indices_seek_spec in H by (try done; lia).
  simpl in H. injection H as <- <-.
  assert (Hlc : length (coords (ddims i) (x / nt_size i)) = length (ddims i))
    by apply length_coords.
  split; [done|]. split; [|split; [done|split; [done|done]]].
  constructor; simpl; fold i; try done.
  - rewrite length_zip_with. lia.
  - rewrite length_zip_with. lia.
Qed.

(** The loop of [HMCPread] on a well-formed element: [read_len -
    bytes_read] passes are enough, and it returns [read_len] unless the
    cache fails. *)
Lemma HMCPread_loop_progress fuel : forall read_len bytes_read rel bptr w r w',
  wf_elem w -> seek_at w rel ->
  0 <= bytes_read <= read_len -> read_len <= max_signed -> 0 <= rel ->
  rel + (read_len - bytes_read) <= max_signed ->
  (Z.to_nat (read_len - bytes_read) <= fuel)%nat ->
  HMCPread_loop fuel read_len bytes_read rel bptr w = (r, w') ->
  posn (access_rec w') = posn (access_rec w) /\
  (r = Err DFE_REPORT \/
   exists data, r = Ret (read_len, data) /\
     Z.of_nat (length data) <= Z.of_nat (length bptr) + (read_len - bytes_read)).
Proof.
  induction fuel as [|fuel IH]; intros read_len bytes_read rel bptr w r w'
    Hwf Hat Hbr Hlen Hrel Hmax Hfuel H;
    cbn [HMCPread_loop] in H; destruct (bytes_read <? read_len) eqn:Hlt;
    try (apply Z.ltb_ge in Hlt; injection H as <- <-; split; [done|]; right;
         exists bptr; split; [repeat f_equal; lia | lia]).
  { apply Z.ltb_lt in Hlt. lia. }
  apply Z.ltb_lt in Hlt.
  inv_bind H; unfold get_info in Hm; try discriminate. injection Hm as <- <-.
  cbv zeta in H.
  match type of H with
  | context [calculate_chunk_for_chunk ?a ?b ?c ?d ?e ?f ?g] =>
      set (cs := calculate_chunk_for_chunk a b c d e f g) in *
  end.
  assert (Hcs : 1 <= cs <= read_len - bytes_read).
  { subst cs. destruct Hat as [-> ->]. destruct Hwf as [H1 H2 H3 H4 H5 H6 H7 H8 H9].
    rewrite <- H2.
    apply calculate_chunk_for_chunk_bounds; try done; lia. }
  inv_bind H; inv_on_fail Hm;
    apply mcache_get_spec in Hm as (Hf1 & _ & Hs1 & _); simplify_eq; try done.

  2:{ split; [apply Hf1 | by left]. }
  inv_bind H; inv_on_fail Hm;
    apply mcache_put_spec in Hm as (Hf2 & _ & Hs2); simplify_eq; try done.
  2:{ split; [|by left]. rewrite (frame_posn _ _ Hf2). apply Hf1. }
  assert (Hf : frame w w1) by (by eapply frame_trans).
  rewrite (add_small bytes_read cs), (add_small rel cs) in H
    by (unfold in_range, min_signed, max_signed in *; lia).
  inv_bind H; apply seek_to_wf in Hm as (Hr3 & Hwf3 & Hat3 & Hpo3 & Hst3);
    try discriminate; try (by eapply wf_elem_frame); try lia.
  apply IH in H as (Hpo4 & Hres); try done; try lia.
  split; [rewrite Hpo4, Hpo3; apply Hf|].
  destruct Hres as [->|(data & -> & Hdl)]; [by left|]. right.
  exists data. split; [done|].
  rewrite length_app in Hdl. unfold memcpy_from in Hdl. rewrite length_take in Hdl. lia.
Qed.

Lemma HMCPread_loop_done fuel read_len bytes_read rel bptr w :
  read_len <= bytes_read ->
  HMCPread_loop fuel read_len bytes_read rel bptr w = (Ret (bytes_read, bptr), w).
Proof.
  intros H. apply Z.ltb_ge in H. destruct fuel; cbn [HMCPread_loop]; by rewrite H.
Qed.

(** Reads whose position plus length is an [int32].  On a well-formed
    open chunked element, with the position and the requested length in
    [int32] range and their sum as well: a negative length
    fails (with a range error, nothing changed); otherwise the call comes
    back, and unless the cache fails it returns the number [n] of bytes
    read, having moved the position by [n] and handed over at most [n]
    bytes, where [n] is the distance from the position to the logical end
    for a requested length of 0, and the requested length clamped to that
    distance otherwise (nothing when the position is past the end). *)
Theorem HMCPread_length (len : Z) (w : world) :
  wf_elem w ->
  let size := logical_size w in
  let p := posn (access_rec w) in
  (len < 0 -> HMCPread len w = (Err DFE_RANGE, w)) /\
  (0 <= len -> p + len <= Int32.max_signed ->
   let n := Z.max 0 (if len =? 0 then size - p else Z.min len (size - p)) in
   exists r w',
     HMCPread len w = (r, w') /\
     (r = Err DFE_REPORT \/
      exists data,
        r = Ret (n, data) /\ Z.of_nat (length data) <= n /\
        posn (access_rec w') = p + n)).
Proof.
  intros Hwf size p. split.
  - intros Hneg. unfold HMCPread. unfold_M. simpl.
    replace (len <? 0) with true by (symmetry; by apply Z.ltb_lt). done.
  - intros Hlen Hsum n.
    destruct (HMCPread len w) as [r w'] eqn:H. exists r, w'. split; [done|].
    pose proof Hwf as [H1 H2 H3 H4 H5 H6 H7 H8 H9]. fold p in H9.
    unfold HMCPread in H.
    inv_bind H; unfold get_access in Hm; try discriminate. injection Hm as <- <-.
    inv_bind H; unfold get_info in Hm; try discriminate. injection Hm as <- <-.
    replace (len <? 0) with false in H by (symmetry; apply Z.ltb_ge; lia).
    cbv zeta in H. fold p in H.
    assert (HS : size = info_length (special_info (access_rec w))
                        * nt_size (special_info (access_rec w))).
    { unfold size, logical_size. apply mul_small, in_range_nonneg. done. }
    unfold size, logical_size in HS, n. cbv zeta in HS, n.
    set (S := info_length (special_info (access_rec w))
              *i nt_size (special_info (access_rec w))) in *.

    assert (HSr : 0 <= S <= max_signed) by (rewrite HS; done).
    set (L1 := if len =? 0 then S -i p else len) in H.
    set (L2 := if p +i L1 >? S then S -i p else L1) in H.
    assert (HL2 : L2 = if len =? 0 then S - p else Z.min len (S - p)).
    { assert (Hsub : S -i p = S - p).
      { apply sub_small. unfold in_range, min_signed, max_signed in *. lia. }
      subst L2 L1. rewrite Hsub. destruct (len =? 0) eqn:E.
      - rewrite add_small by (unfold in_range, min_signed, max_signed in *; lia).
        by destruct (p + (S - p) >? S).
      - apply Z.eqb_neq in E.
        rewrite add_small by (unfold in_range, min_signed, max_signed in *; lia).
        destruct (p + len >? S) eqn:G.
        + rewrite Z.gtb_ltb in G. apply Z.ltb_lt in G. lia.
        + rewrite Z.gtb_ltb in G. apply Z.ltb_ge in G. lia. }
    assert (Hn : n = Z.max 0 L2) by (unfold n; by rewrite HL2).
    assert (HL2max : L2 <= max_signed /\ p + L2 <= max_signed).
    { rewrite HL2. destruct (len =? 0); lia. }
    clearbody L2 n. clear L1 HL2. subst n.
    inv_bind H; apply seek_to_wf in Hm as (Hr1 & Hwf1 & Hat1 & Hpo1 & Hst1);
      try discriminate; try done.
    destruct (Z_le_gt_dec L2 0) as [Hle|Hgt].
    + inv_bind H; rewrite HMCPread_loop_done in Hm by lia; simplify_eq.
      inv_bind H; apply set_posn_spec in Hm as (Hr2 & _ & _ & _ & Hpo2);
        try discriminate. injection H as <- <-.
      right. exists []. replace (Z.max 0 L2) with 0 by lia.
      split; [done|]. split; [done|]. rewrite Hpo2. simpl.
      rewrite add_small by (unfold in_range, min_signed, max_signed in *; lia). done.
    + inv_bind H;
        apply HMCPread_loop_progress in Hm as (Hpo2 & Hres);
        try done; try lia; destruct Hres as [Hres|(data & Hres & Hdl)];
        simplify_eq; try by left.
      inv_bind H; apply set_posn_spec in Hm as (Hr3 & _ & _ & _ & Hpo3);
        try discriminate. injection H as <- <-.
      right. exists data. replace (Z.max 0 L2) with L2 by lia.
      split; [done|]. split; [simpl in Hdl; lia|]. rewrite Hpo3. simpl.
      apply add_small. unfold in_range, min_signed, max_signed in *. lia.
Qed.

Lemma HMCPread_length_witness :
  let w := (HMCPseek 95 DF_START
              (HMCcreate_world 0 16 1 [mkDIM_DEF 0 10 4; mkDIM_DEF 0 10 4] 1
                 [Byte.x2a] (mkfilerec_t 3 1 ∅ 2 []))).2 in
  HMCPread (-1) w = (Err DFE_RANGE, w) /\
  (exists r w',
     HMCPread 0 w = (r, w') /\
     (r = Err DFE_REPORT \/
      exists data, r = Ret (5, data) /\ Z.of_nat (length data) <= 5 /\
                   posn (access_rec w') = 95 + 5)) /\
  (exists r w',
     HMCPread 10 w = (r, w') /\
     (r = Err DFE_REPORT \/
      exists data, r = Ret (5, data) /\ Z.of_nat (length data) <= 5 /\
                   posn (access_rec w') = 95 + 5)) /\
  (HMCPread 10 w).1 = Ret (5, replicate 5 Byte.x2a) /\
  (HMCPread 3 w).1 = Ret (3, replicate 3 Byte.x2a).
Proof.
  intros w.
  assert (Hwf : wf_elem w).
  { constructor;
      [by_evaluation | by_evaluation | by_evaluation | by_evaluation
      | repeat constructor; by_evaluation | by_evaluation
      | repeat constructor; by_evaluation | by_evaluation | by_evaluation]. }
  split; [apply (HMCPread_length (-1) w Hwf); lia|].
  split; [apply (HMCPread_length 0 w Hwf); by_evaluation|].
  split; [apply (HMCPread_length 10 w Hwf); by_evaluation|].
  split; reflexivity.
Defined.

(** The loop of [HMCPread] is left only when [bytes_read] has reached
    [read_len]. *)
Lemma HMCPread_loop_count fuel : forall read_len bytes_read rel bptr w n d w',
  HMCPread_loop fuel read_len bytes_read rel bptr w = (Ret (n, d), w') -> read_len <= n.
Proof.
  induction fuel as [|fuel IH]; intros read_len bytes_read rel bptr w n d w' H;
    cbn [HMCPread_loop] in H; destruct (bytes_read <? read_len) eqn:Hlt;
    try (apply Z.ltb_ge in Hlt; injection H as <- <- <-; lia).
  { discriminate. }
  inv_bind H; try discriminate. clear Hm.
  inv_bind H; try discriminate. clear Hm.
  inv_bind H; try discriminate. clear Hm.
  inv_bind H; try discriminate. clear Hm.
  by apply IH in H.
Qed.

(** C8 (the code misses the claim).  [HMCPread] clamps by the test
    [posn + length > size], computed in [int32].  When the position plus
    the requested length exceeds [int32] the sum wraps to a negative
    number, the test is false although the read would extend past the
    logical end, and the length is not clamped: the call is the seek to
    the position, the loop entered with the whole requested length, and
    the update of the position; a call that comes back without a failure
    reports at least that many bytes, more than the [size - position]
    bytes the clamp is meant to leave. *)
Theorem HMCPread_clamp_overflows (len : Z) (w : world) :
  wf_elem w ->
  let size := logical_size w in
  let p := posn (access_rec w) in
  0 < len <= max_signed -> max_signed < p + len ->
  size - p < len /\
  (p +i len >? size) = false /\
  HMCPread len w
  = (seek_to p;;
     do r <- HMCPread_loop (Z.to_nat len) len 0 p [];
     set_posn (p +i fst r);; ret r) w /\
  forall r w', HMCPread len w = (r, w') ->
    forall n d, r = Ret (n, d) -> size - p < len <= n.
Proof.
  intros Hwf size p Hlen Hsum.
  pose proof Hwf as [H1 H2 H3 H4 H5 H6 H7 H8 H9]. fold p in H9.
  assert (HS : size = info_length (special_info (access_rec w))
                      * nt_size (special_info (access_rec w))).
  { unfold size, logical_size. apply mul_small, in_range_nonneg. done. }
  assert (Hwrap : p +i len = p + len - 2 ^ 32).
  { unfold add, wrap, max_signed in *.
    rewrite <- (Z.mod_unique (p + len + 2 ^ 31) (2 ^ 32) 1 (p + len - 2 ^ 31)); lia. }
  assert (Htest : (p +i len >? size) = false).
  { rewrite Hwrap, Z.gtb_ltb. apply Z.ltb_ge. unfold max_signed in *. lia. }
  split; [lia|]. split; [done|].
  split.
  { unfold HMCPread. unfold bind at 1 2, get_access, get_info.
    replace (len <? 0) with false by (symmetry; apply Z.ltb_ge; lia).
    replace (len =? 0) with false by (symmetry; apply Z.eqb_neq; lia).
    cbv zeta. fold p. unfold size, logical_size in Htest. cbv zeta in Htest.
    by rewrite Htest. }
  intros r w' H n d ->. split; [lia|].
  unfold HMCPread in H.
  inv_bind H; unfold get_access in Hm; try discriminate. injection Hm as <- <-.
  inv_bind H; unfold get_info in Hm; try discriminate. injection Hm as <- <-.
  replace (len <? 0) with false in H by (symmetry; apply Z.ltb_ge; lia).
  replace (len =? 0) with false in H by (symmetry; apply Z.eqb_neq; lia).
  cbv zeta in H. fold p in H. unfold size, logical_size in Htest. cbv zeta in Htest.
  rewrite Htest in H.
  inv_bind H; try discriminate. clear Hm.
  inv_bind H; try discriminate. destruct a0 as [n0 d0]. apply HMCPread_loop_count in Hm.
  inv_bind H; try discriminate. by injection H as <- <- <-.
Qed.

(** At position 95 of an element of 100 bytes, a read of 2147483647 bytes. *)
Lemma HMCPread_clamp_overflows_witness :
  let w := (HMCPseek 95 DF_START
              (HMCcreate_world 0 16 1 [mkDIM_DEF 0 10 4; mkDIM_DEF 0 10 4] 1
                 [Byte.x2a] (mkfilerec_t 3 1 ∅ 2 []))).2 in
  logical_size w = 100 /\ posn (access_rec w) = 95 /\
  (95 +i 2147483647 >? 100) = false /\
  forall r w', HMCPread 2147483647 w = (r, w') ->
    forall n d, r = Ret (n, d) -> 100 - 95 < 2147483647 <= n.
Proof.
  intros w.
  assert (Hwf : wf_elem w).
  { constructor;
      [by_evaluation | by_evaluation | by_evaluation | by_evaluation
      | repeat constructor; by_evaluation | by_evaluation
      | repeat constructor; by_evaluation | by_evaluation | by_evaluation]. }
  split; [reflexivity|]. split; [reflexivity|].
  destruct (HMCPread_clamp_overflows 2147483647 w Hwf) as (_ & Ht & _ & H);
    [by_evaluation | by_evaluation |].
  split; [exact Ht | exact H].
Defined.

End ReadClaims.

(** * Further properties of the code *)

(** Closed side conditions, by evaluation. *)
Ltac evaluated :=
  lazymatch goal with
  | |- Forall _ _ => repeat constructor; by_evaluation
  | |- Forall2 _ _ _ => repeat constructor; by_evaluation
  | |- (_ <= _)%nat => lia
  | |- (_ < _)%nat => lia
  | |- _ => first [lia | by_evaluation]
  end.

(** ** Coordinates: seeks, runs inside a chunk, keys and tags *)

Section GeometryExtras.

Import Int32 MixedRadix.

(** Splitting user coordinates into chunk index and position in the chunk
    stays inside the chunk grid and inside the chunk. *)
Lemma split_in_grid ddims cs :
  Forall dim_ok ddims ->
  Forall2 in_radix cs (dim_length <$> ddims) ->
  Forall2 in_radix (zip_with (fun a d => a / chunk_length d) cs ddims)
    (num_chunks <$> ddims) /\
  Forall2 in_radix (zip_with (fun a d => a mod chunk_length d) cs ddims)
    (chunk_length <$> ddims).
Proof.
  intros Hok. revert cs. induction Hok as [|d ds Hd Hok IH]; intros cs H.
  - rewrite fmap_nil in H. apply Forall2_nil_inv_r in H as ->. by split; constructor.
  - rewrite fmap_cons in H. apply Forall2_cons_inv_r in H as (a & cs' & Ha & H & ->).
    destruct (IH _ H) as [IH1 IH2].
    destruct (dim_ok_facts _ Hd) as (HC & HD & HN & HL & HDL).
    unfold in_radix in Ha.
    pose proof (Z.mod_pos_bound a (chunk_length d) ltac:(lia)).
    pose proof (Z.div_pos a (chunk_length d) ltac:(lia) ltac:(lia)).
    assert (a / chunk_length d < num_chunks d)
      by (apply Z.div_lt_upper_bound; nia).
    split; simpl; constructor; try done; unfold in_radix; lia.
Qed.

(** X1.  Every non-negative seek offset, also one past the logical end of
    the element, is split by [update_chunk_indices_seek] into a chunk
    coordinate of the chunk grid and a position inside a chunk, and
    [calculate_chunk_num] gives that coordinate a chunk number in
    [0, npages): a seek never leads outside the chunks the element has. *)
Theorem seek_lands_in_grid x (n : nat) nt_size sbi0 spb0 ddims :
  Forall dim_ok ddims ->
  length ddims = n -> (1 <= n)%nat -> length sbi0 = n -> length spb0 = n ->
  0 < nt_size -> 0 <= x <= max_signed ->
  span (num_chunks <$> ddims) <= max_signed ->
  let sp := update_chunk_indices_seek x (Z.of_nat n) nt_size sbi0 spb0 ddims in
  in_grid ddims sp.1 /\
  Forall2 in_radix sp.2 (chunk_length <$> ddims) /\
  0 <= calculate_chunk_num (Z.of_nat n) sp.1 ddims < HMCcreate_npages ddims.
Proof.
  intros Hok Hn Hn1 Hs Hp Hnt Hx Hspan sp. subst sp.
  rewrite update_chunk_indices_seek_spec by done. cbn [fst snd].
  destruct (split_in_grid ddims (coords ddims (x / nt_size)) Hok
              (coords_in_radix _ _ Hok)) as [Hg Hc].
  split; [done|]. split; [done|].
  assert (Hlen : length (coords ddims (x / nt_size)) = length ddims)
    by apply length_coords.
  unfold calculate_chunk_num.
  rewrite row_major_spec; try done; [|rewrite length_zip_with; lia].
  rewrite HMCcreate_npages_span; [| |done].
  - rewrite <- (span_reverse (num_chunks <$> ddims)).
    apply val_bound. by apply Forall2_reverse.
  - eapply Forall_impl; [exact Hok|]. intros d Hd.
    destruct (dim_ok_facts _ Hd) as (_ & _ & HN & _). simpl. lia.
Qed.

Lemma seek_lands_in_grid_witness :
  let ddims := HMCcreate_ddims [mkDIM_DEF 0 10 4; mkDIM_DEF 0 10 4] in
  let sp := update_chunk_indices_seek 1000 2 1 [0; 0] [0; 0] ddims in
  in_grid ddims sp.1 /\
  Forall2 in_radix sp.2 (chunk_length <$> ddims) /\
  0 <= calculate_chunk_num 2 sp.1 ddims < HMCcreate_npages ddims.
Proof.
  apply (seek_lands_in_grid 1000 2 1 [0; 0] [0; 0]); evaluated.
Defined.

(** X2.  In the chunk a seek position falls into, a pass of the transfer
    loops moves at least one byte and at most the bytes that are left to
    move, and it stops at the end of the chunk along the fastest-varying
    axis: the run never crosses the boundary of the chunk, nor the end of
    the data in the last chunk of that axis. *)
Theorem calculate_chunk_for_chunk_within_chunk
    x (n : nat) nt_size len bytes_finished sbi0 spb0 ddims :
  Forall dim_ok ddims ->
  Forall (fun d => chunk_length d * nt_size <= max_signed) ddims ->
  length ddims = n -> (1 <= n)%nat -> length sbi0 = n -> length spb0 = n ->
  0 < nt_size -> 0 <= x <= max_signed ->
  0 <= bytes_finished < len -> len <= max_signed ->
  let sp := update_chunk_indices_seek x (Z.of_nat n) nt_size sbi0 spb0 ddims in
  let d := dget ddims (n - 1) in
  let run := calculate_chunk_for_chunk (Z.of_nat n) nt_size len bytes_finished
               sp.1 sp.2 ddims in
  1 <= run <= len - bytes_finished /\
  aget sp.2 (n - 1) * nt_size + run <= chunk_length d * nt_size /\
  (aget sp.1 (n - 1) = num_chunks d - 1 ->
   aget sp.2 (n - 1) * nt_size + run <= last_chunk_length d * nt_size).
Proof.
  intros Hok Hcb Hn Hn1 Hs Hp Hnt Hx Hfin Hlen sp d run. subst sp run.
  rewrite update_chunk_indices_seek_spec by done. cbn [fst snd].
  set (cs := coords ddims (x / nt_size)).
  unfold calculate_chunk_for_chunk. rewrite Nat2Z.id.
  set (n1 := (n - 1)%nat) in *.
  assert (Hlt : (n1 < length ddims)%nat) by lia.
  assert (Hcs : length cs = length ddims) by apply length_coords.
  rewrite !aget_zip_with by lia. fold d.
  assert (Hdn : ddims !! n1 = Some d).
  { unfold d, dget. apply list_lookup_lookup_total_lt. lia. }
  assert (Hdok : dim_ok d).
  { rewrite Forall_forall in Hok. apply Hok. eapply list_elem_of_lookup_2; eauto. }
  assert (Hdcb : chunk_length d * nt_size <= max_signed).
  { rewrite Forall_forall in Hcb. apply Hcb. eapply list_elem_of_lookup_2; eauto. }
  destruct (dim_ok_facts _ Hdok) as (HC & HD & HN & HL & HDL).
  assert (Ha : 0 <= aget cs n1 < dim_length d).
  { pose proof (coords_in_radix ddims (x / nt_size) Hok) as Hr. fold cs in Hr.
    destruct (lookup_lt_is_Some_2 cs n1 ltac:(lia)) as [a Ha].
    unfold aget. rewrite (list_lookup_total_correct _ _ _ Ha).
    eapply Forall2_lookup_lr in Hr; [exact Hr | exact Ha |].
    by rewrite list_lookup_fmap, Hdn. }
  set (a := aget cs n1) in *.
  pose proof (Z.mod_pos_bound a (chunk_length d) ltac:(lia)) as Hm.
  pose proof (Z.div_mod a (chunk_length d) ltac:(lia)) as Hdm.
  rewrite (sub_small len) by (unfold in_range, min_signed, max_signed in *; lia).
  rewrite (sub_small (num_chunks d))
    by (unfold in_range, min_signed, max_signed in *; lia).
  destruct (a / chunk_length d =? num_chunks d - 1) eqn:Hlast.
  - apply Z.eqb_eq in Hlast.
    assert (Hrest : 1 <= last_chunk_length d - a mod chunk_length d <= chunk_length d)
      by nia.
    rewrite (sub_small (last_chunk_length d))
      by (unfold in_range, min_signed, max_signed in *; lia).
    assert (Hb : 1 <= (last_chunk_length d - a mod chunk_length d) * nt_size
                 <= max_signed) by nia.
    rewrite mul_small by (unfold in_range, min_signed, max_signed in *; lia).
    destruct (_ >? _) eqn:Hgt; rewrite Z.gtb_ltb in Hgt;
      [apply Z.ltb_lt in Hgt | apply Z.ltb_ge in Hgt]; nia.
  - apply Z.eqb_neq in Hlast.
    assert (Hrest : 1 <= chunk_length d - a mod chunk_length d <= chunk_length d)
      by lia.
    rewrite (sub_small (chunk_length d))
      by (unfold in_range, min_signed, max_signed in *; lia).
    assert (Hb : 1 <= (chunk_length d - a mod chunk_length d) * nt_size <= max_signed)
      by nia.
    rewrite mul_small by (unfold in_range, min_signed, max_signed in *; lia).
    destruct (_ >? _) eqn:Hgt; rewrite Z.gtb_ltb in Hgt;
      [apply Z.ltb_lt in Hgt | apply Z.ltb_ge in Hgt];
      (split; [lia|split; [nia|intros; lia]]).
Qed.

Lemma calculate_chunk_for_chunk_within_chunk_witness :
  let ddims := HMCcreate_ddims [mkDIM_DEF 0 10 4; mkDIM_DEF 0 10 4] in
  let sp := update_chunk_indices_seek 99 2 1 [0; 0] [0; 0] ddims in
  let run := calculate_chunk_for_chunk 2 1 50 0 sp.1 sp.2 ddims in
  (1 <= run <= 50 - 0 /\
   aget sp.2 1 * 1 + run <= chunk_length (dget ddims 1) * 1 /\
   (aget sp.1 1 = num_chunks (dget ddims 1) - 1 ->
    aget sp.2 1 * 1 + run <= last_chunk_length (dget ddims 1) * 1)) /\
  run = 1.
Proof.
  split; [|reflexivity].
  apply (calculate_chunk_for_chunk_within_chunk 99 2 1 50 0 [0; 0] [0; 0]); evaluated.
Defined.

(** Digits of an element number in a chunk, first axis first. *)
Lemma chunk_digits_snoc (ddims : list DIM_REC) d s :
  reverse (digits (reverse (chunk_length <$> ddims ++ [d])) s) =
  reverse (digits (reverse (chunk_length <$> ddims)) (s / chunk_length d))
    ++ [s mod chunk_length d].
Proof. rewrite fmap_app, reverse_app. simpl. by rewrite reverse_cons. Qed.

(** The downward loop of [update_seek_pos_chunk] writes the digits of the
    element number against the chunk lengths. *)
Lemma update_seek_pos_chunk_loop_spec ddims :
  Forall (fun d => 0 < chunk_length d) ddims ->
  forall (i : nat) stmp spb,
    (i <= length ddims)%nat -> (i <= length spb)%nat ->
    0 <= stmp <= max_signed ->
    update_seek_pos_chunk_loop i stmp spb ddims =
    reverse (digits (reverse (chunk_length <$> take i ddims)) stmp) ++ drop i spb.
Proof.
  intros Hpos. induction i as [|i IH]; intros stmp spb Hd Hp Hst.
  - by rewrite take_0, drop_0.
  - cbn [update_seek_pos_chunk_loop].
    destruct (lookup_lt_is_Some_2 ddims i ltac:(lia)) as [d Hdi].
    unfold dget. rewrite (list_lookup_total_correct _ _ _ Hdi).
    assert (HC : 0 < chunk_length d).
    { rewrite Forall_forall in Hpos. apply Hpos. eapply list_elem_of_lookup_2; eauto. }
    rewrite rem_nonneg, div_nonneg by lia.
    pose proof (Z.div_pos stmp (chunk_length d) ltac:(lia) ltac:(lia)) as Hq.
    assert (Hqle : stmp / chunk_length d <= stmp)
      by (apply Z.div_le_upper_bound; nia).
    rewrite IH by (rewrite ?length_insert; lia).
    rewrite drop_insert_same by lia.
    rewrite (take_S_r _ _ _ Hdi), chunk_digits_snoc.
    by rewrite <- app_assoc.
Qed.

Lemma digits_val xs ds :
  Forall2 in_radix xs ds -> digits ds (val xs ds) = xs.
Proof.
  intros H. pose proof (in_radix_pos _ _ H) as Hpos.
  apply (val_inj _ _ ds); [by apply digits_in_radix | done |].
  apply val_digits_small; [done | by apply val_bound].
Qed.

(** X3.  Inside a chunk, [update_seek_pos_chunk] and
    [calculate_seek_in_chunk] are inverse to each other at the granularity
    of elements: a byte offset in the chunk is split into a position per
    axis and comes back as the offset of the element it lies in, and a
    position per axis comes back from its byte offset as it was. *)
Theorem chunk_seek_roundtrip_elements (n : nat) nt_size spb0 ddims :
  Forall (fun d => 0 < chunk_length d) ddims ->
  length ddims = n -> (1 <= n)%nat -> length spb0 = n ->
  0 < nt_size ->
  span (chunk_length <$> ddims) * nt_size <= max_signed ->
  (forall s, 0 <= s < span (chunk_length <$> ddims) * nt_size ->
     chunk_seek_roundtrip s (Z.of_nat n) nt_size spb0 ddims = s - s mod nt_size) /\
  (forall spb, Forall2 in_radix spb (chunk_length <$> ddims) ->
     update_seek_pos_chunk
       (calculate_seek_in_chunk (Z.of_nat n) nt_size spb ddims)
       (Z.of_nat n) nt_size spb0 ddims = spb).
Proof.
  intros Hpos Hn Hn1 Hp Hnt Hspan.
  assert (Hpos' : Forall (fun c => 0 < c) (chunk_length <$> ddims))
    by (by apply Forall_fmap).
  pose proof (span_pos _ Hpos') as Hsp.
  assert (Hspm : span (chunk_length <$> ddims) <= max_signed) by nia.
  assert (Hloop : forall e, 0 <= e <= max_signed ->
            update_seek_pos_chunk_loop n e spb0 ddims =
            reverse (digits (reverse (chunk_length <$> ddims)) e)).
  { intros e He. rewrite update_seek_pos_chunk_loop_spec by (try done; lia).
    rewrite take_ge, drop_ge by lia. by rewrite app_nil_r. }
  assert (Hseek : forall spb, Forall2 in_radix spb (chunk_length <$> ddims) ->
            calculate_seek_in_chunk (Z.of_nat n) nt_size spb ddims =
            val (reverse spb) (reverse (chunk_length <$> ddims)) * nt_size /\
            0 <= val (reverse spb) (reverse (chunk_length <$> ddims))
              < span (chunk_length <$> ddims)).
  { intros spb Hin. unfold calculate_seek_in_chunk.
    assert (Hl : length spb = n).
    { apply Forall2_length in Hin. rewrite length_fmap in Hin. lia. }
    rewrite row_major_spec by done.
    pose proof (val_bound _ _ (Forall2_reverse _ _ _ Hin)) as Hb.
    rewrite span_reverse in Hb. split; [|done].
    apply mul_small, in_range_nonneg. nia. }
  split.
  - intros s Hs. unfold chunk_seek_roundtrip, update_seek_pos_chunk.
    rewrite Nat2Z.id.
    pose proof (Z.div_pos s nt_size ltac:(lia) Hnt) as Hq.
    assert (Hqlt : s / nt_size < span (chunk_length <$> ddims))
      by (apply Z.div_lt_upper_bound; lia).
    rewrite div_nonneg by lia. rewrite Hloop by lia.
    assert (Hin : Forall2 in_radix
              (reverse (digits (reverse (chunk_length <$> ddims)) (s / nt_size)))
              (chunk_length <$> ddims)).
    { rewrite <- (reverse_involutive (chunk_length <$> ddims)) at 2.
      apply Forall2_reverse, digits_in_radix. by apply Forall_reverse. }
    destruct (Hseek _ Hin) as [-> _].
    rewrite reverse_involutive, val_digits_small;
      [| by apply Forall_reverse | rewrite span_reverse; lia].
    pose proof (Z.div_mod s nt_size ltac:(lia)). lia.
  - intros spb Hin. destruct (Hseek _ Hin) as [-> Hb].
    unfold update_seek_pos_chunk. rewrite Nat2Z.id.
    rewrite div_nonneg by nia. rewrite Z.div_mul by lia.
    rewrite Hloop by lia.
    rewrite digits_val by (by apply Forall2_reverse).
    apply reverse_involutive.
Qed.

Lemma chunk_seek_roundtrip_elements_witness :
  let ddims := HMCcreate_ddims [mkDIM_DEF 0 10 4; mkDIM_DEF 0 10 4] in
  chunk_seek_roundtrip 27 2 2 [0; 0] ddims = 26 /\
  update_seek_pos_chunk (calculate_seek_in_chunk 2 2 [3; 1] ddims) 2 2 [0; 0] ddims
    = [3; 1].
Proof.
  intros ddims.
  destruct (chunk_seek_roundtrip_elements 2 2 [0; 0] ddims) as [H1 H2];
    [evaluated | evaluated | evaluated | evaluated | evaluated | evaluated |].
  split; [apply (H1 27); evaluated | apply (H2 [3; 1]); evaluated].
Defined.

(** X4.  [chkcompare] is the difference of the keys as long as that is an
    [int32], and so orders the keys of the chunk tree, the non-negative
    chunk numbers, as the integers are ordered: negative, zero or positive
    as the first key is smaller than, equal to or larger than the second. *)
Theorem chkcompare_orders_chunk_numbers (k1 k2 : Z) :
  0 <= k1 <= max_signed -> 0 <= k2 <= max_signed ->
  chkcompare k1 k2 = k1 - k2 /\
  (chkcompare k1 k2 < 0 <-> k1 < k2) /\
  (chkcompare k1 k2 = 0 <-> k1 = k2) /\
  (0 < chkcompare k1 k2 <-> k2 < k1).
Proof.
  intros H1 H2. unfold chkcompare.
  rewrite sub_small by (unfold in_range, min_signed, max_signed in *; lia). lia.
Qed.

Lemma chkcompare_orders_chunk_numbers_witness :
  chkcompare 3 8 = 3 - 8 /\
  (chkcompare 3 8 < 0 <-> 3 < 8) /\
  (chkcompare 3 8 = 0 <-> 3 = 8) /\
  (0 < chkcompare 3 8 <-> 8 < 3).
Proof. apply chkcompare_orders_chunk_numbers; evaluated. Defined.

End GeometryExtras.

Section TagExtras.

Lemma holds_from_spec (P : Z -> bool) (n : nat) : forall z,
  holds_from P z n = true -> forall t, z <= t < z + Z.of_nat n -> P t = true.
Proof.
  induction n as [|n IH]; intros z H t Ht; [lia |].
  cbn [holds_from] in H. apply andb_prop in H as [H1 H2].
  destruct (decide (t = z)) as [->|]; [done |].
  apply (IH (z + 1)); [done | lia].
Qed.

(** A property of all 16-bit tags, checked tag by tag. *)
Lemma all_tags (P : Z -> bool) :
  holds_from P 0 (Z.to_nat 65536) = true ->
  forall t, 0 <= t < 65536 -> P t = true.
Proof. intros H t Ht. apply (holds_from_spec _ _ _ H). lia. Qed.

Lemma tag_macros_checked :
  holds_from
    (fun t =>
       match HMCcreate_special_tag t with
       | Some s => (t <? 16384) && (s =? t + 16384) && SPECIALTAG s
                   && (BASETAG s =? t)
       | None => negb (t <? 16384)
       end
       && negb (SPECIALTAG (BASETAG t))
       && (BASETAG (BASETAG t) =? BASETAG t))
    0 (Z.to_nat 65536) = true.
Proof. vm_compute. reflexivity. Qed.

(** X5.  [HMCcreate] accepts exactly the tags below 0x4000, neither
    special already nor outside the range that has special forms, and
    creates the element under the tag with bit 14 set; that tag is special,
    and [BASETAG] gives the caller's tag back.  On every 16-bit tag
    [BASETAG] gives a tag that is not special and that it leaves alone. *)
Theorem HMCcreate_special_tag_roundtrip (tag : Z) :
  0 <= tag < 65536 ->
  (HMCcreate_special_tag tag =
     if tag <? 16384 then Some (tag + 16384) else None) /\
  (forall s, HMCcreate_special_tag tag = Some s ->
     SPECIALTAG s = true /\ BASETAG s = tag) /\
  SPECIALTAG (BASETAG tag) = false /\
  BASETAG (BASETAG tag) = BASETAG tag.
Proof.
  intros Ht.
  pose proof (all_tags _ tag_macros_checked tag Ht) as H. cbv beta in H.
  apply andb_prop in H as [H H3]. apply andb_prop in H as [H H2].
  apply Z.eqb_eq in H3. apply negb_true_iff in H2.
  destruct (HMCcreate_special_tag tag) as [s|] eqn:Hs.
  - apply andb_prop in H as [H H7]. apply andb_prop in H as [H H6].
    apply andb_prop in H as [H4 H5].
    apply Z.eqb_eq in H5, H7. rewrite H4. subst s.
    split; [done |]. split; [| done].
    intros s' Hs'. by simplify_eq.
  - apply negb_true_iff in H. rewrite H. done.
Qed.

Lemma HMCcreate_special_tag_roundtrip_witness :
  HMCcreate_special_tag 702 = Some 17086 /\
  SPECIALTAG 17086 = true /\ BASETAG 17086 = 702 /\
  HMCcreate_special_tag 17086 = None /\ HMCcreate_special_tag 40000 = None.
Proof.
  destruct (HMCcreate_special_tag_roundtrip 702 ltac:(lia)) as (H1 & H2 & _).
  destruct (H2 17086 H1) as (H3 & H4).
  destruct (HMCcreate_special_tag_roundtrip 17086 ltac:(lia)) as (H5 & _).
  destruct (HMCcreate_special_tag_roundtrip 40000 ltac:(lia)) as (H6 & _).
  repeat split; assumption.
Defined.

End TagExtras.

(** ** Positions past the end, reads and the directory *)

Section SeekExtras.

Import Int32 MixedRadix.

Lemma digits_add_span ds s :
  Forall (fun d => 0 < d) ds -> digits ds (s + span ds) = digits ds s.
Proof.
  intros Hpos. pose proof (span_pos _ Hpos) as Hsp.
  apply (val_inj _ _ ds); try by apply digits_in_radix.
  rewrite !val_digits by done.
  rewrite <- (Z.mul_1_l (span ds)) at 1. apply Z.mod_add. lia.
Qed.

(** X6.  The seek arrays are periodic in the logical size of the element:
    an offset one logical size further on is split into the same chunk
    coordinate and the same position in the chunk, so a position past the
    end addresses the chunk of the position it wraps around to. *)
Theorem update_chunk_indices_seek_wraps x (n : nat) nt_size sbi0 spb0 ddims :
  Forall dim_ok ddims ->
  length ddims = n -> length sbi0 = n -> length spb0 = n ->
  0 < nt_size -> 0 <= x ->
  x + span (dim_length <$> ddims) * nt_size <= max_signed ->
  update_chunk_indices_seek (x + span (dim_length <$> ddims) * nt_size)
    (Z.of_nat n) nt_size sbi0 spb0 ddims =
  update_chunk_indices_seek x (Z.of_nat n) nt_size sbi0 spb0 ddims.
Proof.
  intros Hok Hn Hs Hp Hnt Hx Hmax.
  assert (Hpos : Forall (fun d => 0 < d) (reverse (dim_length <$> ddims))).
  { apply Forall_reverse, Forall_fmap. eapply Forall_impl; [exact Hok |].
    intros d Hd. destruct (dim_ok_facts _ Hd) as (_ & HD & _). simpl. lia. }
  pose proof (span_pos _ Hpos) as Hsp. rewrite span_reverse in Hsp.
  rewrite !update_chunk_indices_seek_spec by (try done; nia).
  rewrite Z.div_add by lia. unfold coords.
  rewrite <- (span_reverse (dim_length <$> ddims)).
  by rewrite digits_add_span.
Qed.

Lemma update_chunk_indices_seek_wraps_witness :
  let ddims := HMCcreate_ddims [mkDIM_DEF 0 10 4; mkDIM_DEF 0 10 4] in
  update_chunk_indices_seek (37 + span (dim_length <$> ddims) * 2) 2 2 [0; 0] [0; 0] ddims =
  update_chunk_indices_seek 37 2 2 [0; 0] [0; 0] ddims /\
  update_chunk_indices_seek 237 2 2 [0; 0] [0; 0] ddims = ([0; 2], [1; 0]).
Proof.
  intros ddims. split; [| reflexivity].
  apply (update_chunk_indices_seek_wraps 37 2 2 [0; 0] [0; 0]); evaluated.
Defined.

(** X7.  Reading and seeking never add a chunk record: whatever
    [HMCPread], [HMCreadChunk] and [HMCPseek] return, the chunk numbers in
    the chunk tree and [num_recs] are as before, also after a read of
    chunks that were never written, and no page is returned to the cache
    dirty. *)
Theorem reads_leave_directory (w : world) :
  (forall len, directory_kept w (HMCPread len w).2) /\
  (forall org, Forall in_range org -> directory_kept w (HMCreadChunk org w).2) /\
  (forall offset origin, directory_kept w (HMCPseek offset origin w).2).
Proof.
  assert (Hq : forall w', quiet_run w w' -> directory_kept w w').
  { intros w' ([_ Hk Hc] & _ & tr & Ht & Hqt).
    split; [done |]. split; [done |]. exists tr. split; [done |].
    split; [by apply quiet_inserted | by apply quiet_written]. }
  split; [| split].
  - intros len. destruct (HMCPread len w) as [r w'] eqn:H.
    eapply Hq, HMCPread_quiet, H.
  - intros org Ho. destruct (HMCreadChunk org w) as [r w'] eqn:H.
    eapply Hq, HMCreadChunk_quiet, H. done.
  - intros offset origin. destruct (HMCPseek offset origin w) as [r w'] eqn:H.
    eapply Hq, HMCPseek_quiet, H.
Qed.

Lemma reads_leave_directory_witness :
  let w := HMCcreate_world 0 16 1 [mkDIM_DEF 0 10 4; mkDIM_DEF 0 10 4] 1
             [Byte.x2a] (mkfilerec_t 3 1 ∅ 2 []) in
  (HMCreadChunk [1; 1] w).1 = Ret (16, replicate 16 Byte.x2a) /\
  directory_kept w (HMCreadChunk [1; 1] w).2 /\
  dir_count (HMCreadChunk [1; 1] w).2 = 0.
Proof.
  intros w. split; [by_evaluation |]. split; [| by_evaluation].
  destruct (reads_leave_directory w) as (_ & H & _).
  apply (H [1; 1]). repeat constructor; by_evaluation.
Defined.

End SeekExtras.

(** ** Contents of the cache: what is written is what is read *)

Section CacheContents.

Import Int32.

Lemma bind_ok {A B} (m : M A) (k : A -> M B) w a w1 :
  m w = (Ret a, w1) -> bind m k w = k a w1.
Proof. unfold bind. by intros ->. Qed.

Lemma on_fail_ok {A} e (m : M A) w a w1 :
  m w = (Ret a, w1) -> on_fail e m w = (Ret a, w1).
Proof. unfold on_fail. by intros ->. Qed.

Lemma kept_refl w : kept w w.
Proof. by repeat split. Qed.

Lemma kept_trans w1 w2 w3 : kept w1 w2 -> kept w2 w3 -> kept w1 w3.
Proof. intros (? & ? & ? & ?) (? & ? & ? & ?). repeat split; congruence. Qed.

Lemma kept_of_access w w' :
  access_rec w' = access_rec w ->
  f_access (file_rec w') = f_access (file_rec w) ->
  f_refcount (file_rec w') = f_refcount (file_rec w) -> kept w w'.
Proof. intros Ha Hf Hr. unfold kept, static, cache_of. by rewrite Ha. Qed.

Lemma Htagnewref_kept tag w r w' : Htagnewref tag w = (r, w') -> kept w w'.
Proof.
  unfold Htagnewref. unfold_M. simpl.
  destruct (_ && _); intros H; injection H as <- <-; by apply kept_of_access.
Qed.

Lemma VSwrite_kept rec w r w' : VSwrite rec w = (r, w') -> kept w w'.
Proof.
  unfold VSwrite. unfold_M. simpl. intros H; injection H as <- <-; by apply kept_of_access.
Qed.

Lemma Hread_element_kept tag ref len datap w r w' :
  Hread_element tag ref len datap w = (r, w') -> kept w w'.
Proof.
  unfold Hread_element. unfold_M. simpl.
  destruct (_ !! _); intros H; injection H as <- <-; by apply kept_of_access.
Qed.

Lemma Hwrite_element_kept tag ref len datap w r w' :
  Hwrite_element tag ref len datap w = (r, w') -> kept w w'.
Proof.
  unfold Hwrite_element. unfold_M. simpl.
  destruct (_ =? 0); intros H; injection H as <- <-; by apply kept_of_access.
Qed.

Lemma HMCPchunkread_kept chunk_num datap w r w' :
  HMCPchunkread chunk_num datap w = (r, w') -> kept w w' /\ cache_of w' = cache_of w.
Proof.
  intros H. pose proof (HMCPchunkread_spec _ _ _ _ _ H) as (Ha & _ & _).
  split; [| unfold cache_of; by rewrite Ha].
  unfold HMCPchunkread in H.
  inv_bind H; unfold get_info in Hm; try discriminate. injection Hm as <- <-.
  destruct (chk_tree _ !! chunk_num) as [chk_rec|].
  - destruct (_ && _).
    + inv_bind H; apply Hread_element_kept in Hm; subst; try done.
      by injection H as <- <-.
    + destruct (_ =? _); injection H as <- <-; apply kept_refl.
  - injection H as <- <-. apply kept_refl.
Qed.

Lemma HMCPchunkwrite_kept chunk_num datap w r w' :
  HMCPchunkwrite chunk_num datap w = (r, w') -> kept w w' /\ cache_of w' = cache_of w.
Proof.
  intros H. pose proof (HMCPchunkwrite_spec _ _ _ _ _ H) as (_ & Hc & _ & _).
  split; [| done].
  unfold HMCPchunkwrite in H.
  inv_bind H; unfold get_info in Hm; try discriminate. injection Hm as <- <-.
  destruct (chk_tree _ !! chunk_num) as [chk_rec|]; cycle 1.
  { injection H as <- <-. apply kept_refl. }
  destruct (chk_tag chk_rec =? DFTAG_NULL).
  - inv_bind H; apply Htagnewref_kept in Hm; rename Hm into Hk1; subst; try done.
    inv_bind H; unfold get_info in Hm; try discriminate. injection Hm as <- <-.
    inv_bind H; unfold set_info in Hm; try discriminate. injection Hm as <- <-.
    match type of H with _ ?w0 = _ => set (w2 := w0) in * end.
    assert (Hk2 : kept w w2).
    { eapply kept_trans; [exact Hk1 |]. unfold w2. by repeat split. }
    clearbody w2.
    destruct (a =? 0); [by injection H as <- <- |].
    inv_bind H; inv_on_fail Hm; try discriminate;
      apply VSwrite_kept in Hm; rename Hm into Hk3; subst;
      try (by eapply kept_trans).
    inv_bind H; inv_on_fail Hm; try discriminate;
      apply Hwrite_element_kept in Hm; rename Hm into Hk4; subst;
      try (by eauto using kept_trans).
    injection H as <- <-. eauto using kept_trans.
  - inv_bind H; inv_on_fail Hm; try discriminate;
      apply Hwrite_element_kept in Hm; subst; try done.
    by injection H as <- <-.
Qed.

Lemma find_page_remove pg q l :
  find_page pg l = None -> find_page pg (remove_page q l) = None.
Proof.
  unfold find_page, remove_page. induction l as [|b l IH]; simpl; [done |].
  destruct (pgno b =? pg) eqn:E; [done |]. intros H.
  destruct (negb (pgno b =? q)); simpl; rewrite ?E; auto.
Qed.

Lemma find_page_remove_same pg l : find_page pg (remove_page pg l) = None.
Proof.
  unfold find_page, remove_page. induction l as [|b l IH]; simpl; [done |].
  destruct (pgno b =? pg) eqn:E; simpl; rewrite ?E; auto.
Qed.

Lemma find_page_new pg l b :
  find_page pg l = None -> pgno b = pg -> find_page pg (l ++ [b]) = Some b.
Proof.
  unfold find_page. intros H <-. induction l as [|c l IH]; simpl in *.
  - by rewrite Z.eqb_refl.
  - destruct (pgno c =? pgno b); [done | auto].
Qed.

Lemma find_page_fmap pg (f : BKT -> BKT) l b :
  (forall x, pgno (f x) = pgno x) ->
  find_page pg l = Some b -> find_page pg (f <$> l) = Some (f b).
Proof.
  unfold find_page. intros Hf. induction l as [|c l IH]; simpl; [done |].
  rewrite Hf. destruct (pgno c =? pg); [intros H; by simplify_eq | auto].
Qed.

Lemma set_cache_kept c w r w' :
  set_cache c w = (r, w') ->
  r = Ret tt /\ cache_of w' = c /\ file_rec w' = file_rec w /\ static w' = static w.
Proof. unfold set_cache. unfold_M. simpl. intros H. by injection H as <- <-. Qed.

(** The buffer for a missing page: a page that was not in the cache is not
    in it afterwards either. *)
Lemma mcache_bkt_kept w r w' :
  mcache_bkt HMCPchunkwrite w = (r, w') ->
  kept w w' /\
  forall pg, find_page pg (lqh (cache_of w)) = None ->
             find_page pg (lqh (cache_of w')) = None.
Proof.
  unfold mcache_bkt. intros H.
  inv_bind H; rewrite get_cache_eq in Hm; try discriminate. injection Hm as <- <-.
  destruct (_ <? _); [injection H as <- <-; split; [apply kept_refl | done] |].
  destruct (List.find _ _) as [b|]; cycle 1.
  { injection H as <- <-. split; [apply kept_refl | done]. }
  assert (Hout : forall r1 w1,
            (if is_dirty b then HMCPchunkwrite (pgno b -i 1) (page b) else ret 0) w = (r1, w1) ->
            kept w w1 /\ cache_of w1 = cache_of w).
  { intros r1 w1. destruct (is_dirty b).
    - apply HMCPchunkwrite_kept.
    - intros Hw. injection Hw as <- <-. split; [apply kept_refl | done]. }
  inv_bind H; apply Hout in Hm as (Hk1 & Hc1); subst; try (by rewrite Hc1).
  inv_bind H; rewrite get_cache_eq in Hm; try discriminate. injection Hm as <- <-.
  inv_bind H; apply set_cache_kept in Hm as (Hr & Hc2 & Hf2 & Hs2); try discriminate.
  injection H as <- <-.
  split.
  - destruct Hk1 as (? & ? & ? & ?). unfold kept. rewrite Hc2, Hf2, Hs2. simpl.
    unfold cache_of in *. done.
  - intros pg Hpg. rewrite Hc2. simpl. apply find_page_remove.
    fold (cache_of w0). by rewrite Hc1.
Qed.

(** A page handed out by [mcache_get] is in the cache, with the contents
    handed out. *)
Lemma mcache_get_resident pg w data w' :
  mcache_get HMCPchunkread HMCPchunkwrite pg w = (Ret data, w') ->
  resident w' pg data /\ kept w w' /\ 1 <= pg <= npages (cache_of w).
Proof.
  intros H. pose proof (mcache_get_spec _ _ _ _ H) as (_ & _ & _ & Hpg).
  split; [| split; [| by apply Hpg]]; revert H; unfold mcache_get; intros H.
  all: inv_bind H; unfold log in Hm; try discriminate; injection Hm as <- <-.
  all: match type of H with _ ?w0 = _ => set (w1 := w0) in * end.
  all: assert (Hk1 : kept w w1) by (by repeat split).
  all: assert (Hc1 : cache_of w1 = cache_of w) by done.
  all: clearbody w1.
  all: inv_bind H; rewrite get_cache_eq in Hm; try discriminate; injection Hm as <- <-.
  all: fold (cache_of w1) in H.
  all: destruct (_ || _); [discriminate |].
  all: destruct (find_page pg (lqh (cache_of w1))) as [b|] eqn:Hfind.
  - inv_bind H; apply set_cache_kept in Hm as (Hr & Hc2 & Hf2 & Hs2); try discriminate.
    injection H as <- <-. eexists. rewrite Hc2. simpl.
    split; [apply find_page_new; [apply find_page_remove_same | done] | done].
  - inv_bind H; apply mcache_bkt_kept in Hm as (Hk2 & Hn2); try discriminate.
    inv_bind H; apply HMCPchunkread_kept in Hm as (Hk3 & Hc3); try discriminate.
    inv_bind H; rewrite get_cache_eq in Hm; try discriminate. injection Hm as <- <-.
    inv_bind H; apply set_cache_kept in Hm as (Hr & Hc4 & Hf4 & Hs4); try discriminate.
    injection H as <- <-. eexists. rewrite Hc4. simpl.
    split; [apply find_page_new; [| done] | done].
    fold (cache_of w2). rewrite Hc3. by apply Hn2.
  - inv_bind H; apply set_cache_kept in Hm as (Hr & Hc2 & Hf2 & Hs2); try discriminate.
    injection H as <- <-. eapply kept_trans; [exact Hk1 |].
    unfold kept. by rewrite Hc2, Hf2, Hs2.
  - inv_bind H; apply mcache_bkt_kept in Hm as (Hk2 & Hn2); try discriminate.
    inv_bind H; apply HMCPchunkread_kept in Hm as (Hk3 & Hc3); try discriminate.
    inv_bind H; rewrite get_cache_eq in Hm; try discriminate. injection Hm as <- <-.
    inv_bind H; apply set_cache_kept in Hm as (Hr & Hc4 & Hf4 & Hs4); try discriminate.
    injection H as <- <-.
    eapply kept_trans; [exact Hk1 |]. eapply kept_trans; [exact Hk2 |].
    eapply kept_trans; [exact Hk3 |].
    unfold kept. rewrite Hc4, Hf4, Hs4. by fold (cache_of w2).
Qed.

Lemma find_page_pgno pg l b : find_page pg l = Some b -> pgno b = pg.
Proof.
  unfold find_page. intros H. apply find_some in H as [_ H]. by apply Z.eqb_eq.
Qed.

Lemma same_store_kept w w' : same_store w w' -> kept w w'.
Proof. intros (Hc & Hf & Hs). unfold kept. by rewrite Hc, Hf, Hs. Qed.

Lemma same_store_resident w w' pg data :
  same_store w w' -> resident w pg data -> resident w' pg data.
Proof. intros (Hc & _ & _). unfold resident. by rewrite Hc. Qed.

Lemma page_memcpy_resident pg off src n w data :
  resident w pg data ->
  exists w',
    page_memcpy pg off src n w = (Ret tt, w') /\
    resident w' pg (memcpy_at data off src n) /\ kept w w' /\
    file_rec w' = file_rec w /\ trace w' = trace w.
Proof.
  intros (b & Hb & <-). pose proof (find_page_pgno _ _ _ Hb) as Hpg.
  eexists. split; [reflexivity |]. split; [| by repeat split].
  eexists. unfold cache_of. simpl. split.
  - apply find_page_fmap; [| exact Hb].
    intros x. destruct (pgno x =? pg) eqn:E; [| done]. apply Z.eqb_eq in E. done.
  - rewrite Hpg, Z.eqb_refl. done.
Qed.

Lemma mcache_put_resident pg flags w data :
  resident w pg data ->
  exists w',
    mcache_put pg flags w = (Ret 0, w') /\
    resident w' pg data /\ kept w w' /\
    file_rec w' = file_rec w /\ trace w' = trace w ++ [EvCachePut pg flags].
Proof.
  intros (b & Hb & <-). pose proof (find_page_pgno _ _ _ Hb) as Hpg.
  unfold mcache_put. unfold_M. simpl. fold (cache_of w). rewrite Hb.
  eexists. split; [reflexivity |]. split; [| by repeat split].
  eexists. unfold cache_of. simpl. split.
  - apply find_page_fmap; [| exact Hb].
    intros x. destruct (pgno x =? pg) eqn:E; [| done]. apply Z.eqb_eq in E. done.
  - rewrite Hpg, Z.eqb_refl. done.
Qed.

(** A page in the cache is handed out as it is, without page-in or
    page-out. *)
Lemma mcache_get_hit pgin pgout pg w data :
  resident w pg data -> 1 <= pg <= npages (cache_of w) ->
  exists w',
    mcache_get pgin pgout pg w = (Ret data, w') /\
    resident w' pg data /\ kept w w' /\
    file_rec w' = file_rec w /\ trace w' = trace w ++ [EvCacheGet pg].
Proof.
  intros (b & Hb & <-) Hpg.
  unfold mcache_get. unfold_M. simpl. fold (cache_of w).
  replace (pg <? 1) with false by (symmetry; apply Z.ltb_ge; lia).
  replace (npages (cache_of w) <? pg) with false by (symmetry; apply Z.ltb_ge; lia).
  simpl. rewrite Hb.
  eexists. split; [reflexivity |]. split; [| by repeat split].
  eexists. unfold cache_of. simpl.
  split; [apply find_page_new; [apply find_page_remove_same | done] | done].
Qed.

Lemma seek_to_origin_store org w :
  exists w', seek_to_origin org w = (Ret tt, w') /\ same_store w w' /\
             trace w' = trace w /\
             chk_tree (special_info (access_rec w')) = chk_tree (special_info (access_rec w)).
Proof.
  unfold seek_to_origin, set_seek. unfold_M. simpl.
  eexists. split; [reflexivity |]. by repeat split.
Qed.

Lemma seek_after_chunk_store n w :
  exists w', seek_after_chunk n w = (Ret tt, w') /\ same_store w w' /\ trace w' = trace w.
Proof.
  unfold seek_after_chunk. unfold_M. simpl.
  eexists. split; [reflexivity |]. by repeat split.
Qed.

Lemma insert_if_absent_store cn org w :
  exists w0,
    (match chk_tree (special_info (access_rec w)) !! cn with
     | None => insert_chunk_rec cn org
     | Some _ => ret tt
     end) w = (Ret tt, w0) /\ same_store w w0.
Proof.
  unfold insert_chunk_rec. unfold_M.
  destruct (chk_tree _ !! cn); simpl; eexists; (split; [reflexivity |]); by repeat split.
Qed.

Lemma static_fields w w' :
  static w' = static w ->
  special (access_rec w') = special (access_rec w) /\
  chunk_size (special_info (access_rec w')) = chunk_size (special_info (access_rec w)) /\
  nt_size (special_info (access_rec w')) = nt_size (special_info (access_rec w)) /\
  ndims (special_info (access_rec w')) = ndims (special_info (access_rec w)) /\
  ddims (special_info (access_rec w')) = ddims (special_info (access_rec w)).
Proof. unfold static. intros H. injection H as _ ? _ _ _ _ ? ? ? ? _ _. done. Qed.

(** A whole-chunk read of a chunk whose page is in the cache. *)
Lemma HMCreadChunk_hit org w data :
  let info := special_info (access_rec w) in
  let pg := calculate_chunk_num (ndims info) org (ddims info) +i 1 in
  let read_len := chunk_size info *i nt_size info in
  BADFREC (file_rec w) = false ->
  Z.land (f_access (file_rec w)) DFACC_READ <> 0 ->
  special (access_rec w) = SPECIAL_CHUNKED ->
  resident w pg data -> 1 <= pg <= npages (cache_of w) ->
  exists w',
    HMCreadChunk org w = (Ret (read_len, memcpy_from data 0 read_len), w') /\
    resident w' pg data /\ kept w w' /\
    file_rec w' = file_rec w /\
    trace w' = trace w ++ [EvCacheGet pg; EvCachePut pg 0].
Proof.
  intros info pg read_len Hbad Hacc Hsp Hres Hpg.
  unfold HMCreadChunk.
  rewrite (bind_ok get_access _ w (access_rec w) w) by done.
  rewrite (bind_ok get_file _ w (file_rec w) w) by done.
  rewrite Hbad. apply Z.eqb_neq in Hacc. rewrite Hacc, Hsp, Z.eqb_refl.
  rewrite (bind_ok get_info _ w info w) by done. cbv zeta.
  destruct (seek_to_origin_store org w) as (w0 & H0 & Hs0 & Ht0 & _).
  rewrite (bind_ok _ _ _ _ _ H0).
  fold info pg.
  destruct (mcache_get_hit HMCPchunkread HMCPchunkwrite pg w0 data)
    as (w1 & H1 & Hr1 & Hk1 & Hf1 & Ht1).
  { by eapply same_store_resident. }
  { destruct Hs0 as (-> & _). done. }
  rewrite (bind_ok _ _ _ _ _ (on_fail_ok _ _ _ _ _ H1)).
  destruct (mcache_put_resident pg 0 w1 data Hr1) as (w2 & H2 & Hr2 & Hk2 & Hf2 & Ht2).
  rewrite (bind_ok _ _ _ _ _ (on_fail_ok _ _ _ _ _ H2)).
  destruct (seek_after_chunk_store (chunk_size info *i nt_size info) w2)
    as (w3 & H3 & Hs3 & Ht3).
  rewrite (bind_ok _ _ _ _ _ H3).
  exists w3. split; [done |].
  split; [by eapply same_store_resident |].
  split.
  { eapply kept_trans; [apply same_store_kept, Hs0 |].
    eapply kept_trans; [exact Hk1 |].
    eapply kept_trans; [exact Hk2 | apply same_store_kept, Hs3]. }
  destruct Hs0 as (_ & Hf0 & _), Hs3 as (_ & Hf3 & _).
  split; [congruence |].
  rewrite Ht3, Ht2, Ht1, Ht0, <- app_assoc. done.
Qed.

(** X8.  A chunk written by [HMCwriteChunk] is what [HMCreadChunk] of the
    same origin returns next: the bytes handed over, in the length of a
    chunk, served from the page in the cache without another access to
    the file. *)
Theorem HMCwriteChunk_then_HMCreadChunk org datap w n w1 :
  HMCwriteChunk org datap w = (Ret n, w1) ->
  (Z.to_nat n <= length datap)%nat ->
  Z.land (f_access (file_rec w)) DFACC_READ <> 0 ->
  let info := special_info (access_rec w) in
  let pg := calculate_chunk_num (ndims info) org (ddims info) +i 1 in
  n = chunk_size info *i nt_size info /\
  exists w2,
    HMCreadChunk org w1 = (Ret (n, take (Z.to_nat n) datap), w2) /\
    file_rec w2 = file_rec w1 /\
    trace w2 = trace w1 ++ [EvCacheGet pg; EvCachePut pg 0].
Proof.
  intros H Hlen Hacc info pg.
  unfold HMCwriteChunk in H.
  inv_bind H; unfold get_access in Hm; try discriminate. injection Hm as <- <-.
  inv_bind H; unfold get_file in Hm; try discriminate. injection Hm as <- <-.
  destruct (BADFREC _) eqn:Hbad; [discriminate |].
  destruct (_ =? 0); [discriminate |].
  destruct (_ =? SPECIAL_CHUNKED) eqn:Hsp; [| discriminate].
  apply Z.eqb_eq in Hsp.
  inv_bind H; unfold get_info in Hm; try discriminate. injection Hm as <- <-.
  cbv zeta in H.
  destruct (seek_to_origin_store org w) as (w0 & H0 & Hs0 & Ht0 & Htree).
  rewrite (bind_ok _ _ _ _ _ H0) in H. rewrite <- Htree in H. fold info pg in H.
  destruct (insert_if_absent_store
              (calculate_chunk_num (ndims info) org (ddims info))
              (copy_indices (ndims info) org) w0) as (w0' & Hi & Hsi).
  rewrite (bind_ok _ _ _ _ _ Hi) in H.
  inv_bind H; inv_on_fail Hm; try discriminate.
  injection He as ->.
  apply mcache_get_resident in Hm as (Hr1 & Hk1 & Hpg1).
  destruct (page_memcpy_resident pg 0 datap (chunk_size info *i nt_size info) _ _ Hr1)
    as (w3 & H3 & Hr3 & Hk3 & Hf3 & Ht3).
  rewrite (bind_ok _ _ _ _ _ H3) in H.
  destruct (mcache_put_resident pg MCACHE_DIRTY _ _ Hr3) as (w4 & H4 & Hr4 & Hk4 & Hf4 & Ht4).
  rewrite (bind_ok _ _ _ _ _ (on_fail_ok _ _ _ _ _ H4)) in H.
  destruct (seek_after_chunk_store (chunk_size info *i nt_size info) w4)
    as (w5 & H5 & Hs5 & Ht5).
  rewrite (bind_ok _ _ _ _ _ H5) in H.
  injection H as <- <-. split; [done |].
  assert (Hk : kept w w5).
  { eapply kept_trans; [apply same_store_kept, Hs0 |].
    eapply kept_trans; [apply same_store_kept, Hsi |].
    eapply kept_trans; [exact Hk1 |].
    eapply kept_trans; [exact Hk3 |].
    eapply kept_trans; [exact Hk4 | apply same_store_kept, Hs5]. }
  destruct Hk as (Hst & Hfa & Hfr & Hnp).
  destruct (static_fields _ _ Hst) as (Esp & Ecs & Ent & End' & Edd).
  destruct (HMCreadChunk_hit org w5
              (memcpy_at a0 0 datap (chunk_size info *i nt_size info)))
    as (w6 & H6 & _ & _ & Hf6 & Ht6).
  - unfold BADFREC in *. by rewrite Hfr.
  - by rewrite Hfa.
  - by rewrite Esp.
  - rewrite End', Edd. fold info pg. by eapply same_store_resident.
  - rewrite End', Edd, Hnp. fold info pg.
    destruct Hs0 as (Hc0 & _), Hsi as (Hci & _). rewrite <- Hc0, <- Hci. done.
  - exists w6. rewrite Ecs, Ent in H6. rewrite End', Edd in Ht6.
    fold info pg in H6, Ht6.
    split; [| done]. rewrite H6. repeat f_equal.
    unfold memcpy_from, memcpy_at. simpl. rewrite drop_0.
    rewrite take_app_length'; [done |]. rewrite length_take. lia.
Qed.

Lemma HMCwriteChunk_then_HMCreadChunk_witness :
  let w := HMCcreate_world 0 16 1 [mkDIM_DEF 0 10 4; mkDIM_DEF 0 10 4] 1
             [Byte.x2a] (mkfilerec_t 3 1 ∅ 2 []) in
  let data := replicate 16 Byte.x07 in
  let w1 := (HMCwriteChunk [2; 2] data w).2 in
  16 = 16 /\
  exists w2,
    HMCreadChunk [2; 2] w1 = (Ret (16, data), w2) /\
    file_rec w2 = file_rec w1 /\
    trace w2 = trace w1 ++ [EvCacheGet 9; EvCachePut 9 0].
Proof.
  intros w data w1.
  apply (HMCwriteChunk_then_HMCreadChunk [2; 2] data w 16 w1); by_evaluation.
Defined.

End CacheContents.

(** ** Page-out and page-in of a chunk *)

Section StoreExtras.

Import Int32.

(** X9.  What [HMCPchunkwrite] pages out is what [HMCPchunkread] pages in:
    a chunk whose record is a placeholder is read as fill values, with no
    byte read from the file; once [HMCPchunkwrite] has returned, the
    record names an element under the chunk tag and a read of the chunk
    gets the bytes paged out, in the length of a chunk, from that
    element. *)
Theorem HMCPchunkwrite_then_HMCPchunkread chunk_num datap buf w rec n w1 :
  let info := special_info (access_rec w) in
  chk_tree info !! chunk_num = Some rec ->
  chk_tag rec = DFTAG_NULL \/ BASETAG (chk_tag rec) = DFTAG_CHUNK ->
  (Z.to_nat (chunk_size info *i nt_size info) <= length datap)%nat ->
  HMCPchunkwrite chunk_num datap w = (Ret n, w1) ->
  (chk_tag rec = DFTAG_NULL ->
   HMCPchunkread chunk_num buf w = (Ret (0, fill_page info buf), w)) /\
  n = chunk_size info *i nt_size info /\
  exists rec' w2,
    chk_tree (special_info (access_rec w1)) !! chunk_num = Some rec' /\
    chk_tag rec' <> DFTAG_NULL /\ BASETAG (chk_tag rec') = DFTAG_CHUNK /\
    HMCPchunkread chunk_num buf w1 =
      (Ret (n, take (Z.to_nat n) datap ++ drop (Z.to_nat n) buf), w2) /\
    access_rec w2 = access_rec w1 /\ file_rec w2 = file_rec w1 /\
    trace w2 = trace w1 ++ [EvObjRead (chk_tag rec') (chk_ref rec')].
Proof.
  intros info Hlook Htag Hlen H. split.
  { intros Hnull. unfold HMCPchunkread. unfold_M. fold info. rewrite Hlook, Hnull. done. }
  assert (Hback : forall (old : bytes) (m : Z),
            (Z.to_nat m <= length datap)%nat ->
            memcpy_at buf 0 (take (Z.to_nat m) datap ++ drop (Z.to_nat m) old) m =
            take (Z.to_nat m) datap ++ drop (Z.to_nat m) buf).
  { intros old m Hm. unfold memcpy_at. simpl.
    rewrite take_app_length' by (rewrite length_take; lia).
    rewrite length_take. repeat f_equal. lia. }
  unfold HMCPchunkwrite, Htagnewref, VSwrite, Hwrite_element in H.
  unfold_M. fold info in H. rewrite Hlook in H.
  destruct (chk_tag rec =? DFTAG_NULL) eqn:Hnull.
  - destruct (_ && _); simpl in H; [| discriminate].
    destruct (f_next_ref (file_rec w) =? 0); [discriminate |]. simpl in H.
    destruct (Z.land (f_access (file_rec w)) DFACC_WRITE =? 0); [discriminate |].
    injection H as <- <-. split; [done |].
    eexists _, _. simpl. rewrite lookup_insert_eq.
    split; [reflexivity |]. split; [done |]. split; [done |].
    unfold HMCPchunkread, Hread_element. unfold_M. simpl.
    rewrite lookup_insert_eq. simpl. rewrite lookup_insert_eq. fold info.
    rewrite Hback by done. done.
  - apply Z.eqb_neq in Hnull. destruct Htag as [Htag | Htag]; [done |].
    simpl in H.
    destruct (Z.land (f_access (file_rec w)) DFACC_WRITE =? 0); [discriminate |].
    injection H as <- <-. split; [done |].
    exists rec. eexists. simpl. fold info.
    split; [done |]. split; [done |]. split; [done |].
    unfold HMCPchunkread, Hread_element. unfold_M. simpl. fold info.
    rewrite Hlook. apply Z.eqb_neq in Hnull. rewrite Hnull, Htag. simpl.
    rewrite lookup_insert_eq. rewrite Hback by done. done.
Qed.

Lemma HMCPchunkwrite_then_HMCPchunkread_witness :
  let w := (HMCPwrite 1 [Byte.x01]
              (HMCPseek 99 DF_START
                 (HMCcreate_world 0 16 1 [mkDIM_DEF 0 10 4; mkDIM_DEF 0 10 4] 1
                    [Byte.x2a] (mkfilerec_t 3 1 ∅ 2 []))).2).2 in
  let data := replicate 16 Byte.x07 in
  let buf := replicate 16 Byte.x00 in
  let w1 := (HMCPchunkwrite 8 data w).2 in
  HMCPchunkread 8 buf w = (Ret (0, replicate 16 Byte.x2a), w) /\
  exists w2,
    HMCPchunkread 8 buf w1 = (Ret (16, data), w2) /\
    trace w2 = trace w1 ++ [EvObjRead DFTAG_CHUNK 2].
Proof.
  intros w data buf w1.
  destruct (HMCPchunkwrite_then_HMCPchunkread 8 data buf w
              (mkCHUNK_REC 8 0 [2; 2] DFTAG_NULL 0) 16 w1)
    as (H1 & _ & rec' & w2 & Hrec & _ & _ & H2 & _ & _ & Ht);
    [by_evaluation | by left | by_evaluation | by_evaluation |].
  split; [by apply H1 |]. exists w2. split; [exact H2 |].
  assert (rec' = mkCHUNK_REC 8 0 [2; 2] DFTAG_CHUNK 2) as ->; [| exact Ht].
  assert (Hc : chk_tree (special_info (access_rec w1)) !! 8
               = Some (mkCHUNK_REC 8 0 [2; 2] DFTAG_CHUNK 2)) by by_evaluation.
  congruence.
Defined.

(** X10.  When the file has no ref left, the page-out of a chunk whose
    record is a placeholder fails with [DFE_NOREF] after the record was
    given the chunk tag and ref 0: nothing is appended to the chunk table
    and no element is written, but the chunk, which read as fill values
    before, is now read from the element of ref 0 and the read fails when
    there is none. *)
Theorem HMCPchunkwrite_out_of_refs chunk_num datap buf w rec :
  let info := special_info (access_rec w) in
  chk_tree info !! chunk_num = Some rec ->
  chk_tag rec = DFTAG_NULL ->
  ~ 1 <= f_next_ref (file_rec w) <= 65535 ->
  HMCPchunkread chunk_num buf w = (Ret (0, fill_page info buf), w) /\
  exists w1,
    HMCPchunkwrite chunk_num datap w = (Err DFE_NOREF, w1) /\
    chk_tree (special_info (access_rec w1)) =
      <[chunk_num := stored_rec rec 0]> (chk_tree info) /\
    dir_count w1 = dir_count w /\
    file_rec w1 = file_rec w /\ trace w1 = trace w /\
    (f_objects (file_rec w) !! (DFTAG_CHUNK, 0) = None ->
     HMCPchunkread chunk_num buf w1 = (Err DFE_REPORT, w1)).
Proof.
  intros info Hlook Hnull Href. split.
  { unfold HMCPchunkread. unfold_M. fold info. rewrite Hlook, Hnull. done. }
  unfold HMCPchunkwrite, Htagnewref. unfold_M. fold info. rewrite Hlook, Hnull.
  simpl.
  replace ((1 <=? f_next_ref (file_rec w)) && (f_next_ref (file_rec w) <=? 65535))
    with false by (symmetry; apply andb_false_iff; lia).
  simpl. eexists. split; [reflexivity |]. simpl.
  split; [done |]. split; [done |]. split; [done |]. split; [done |].
  intros Hobj. unfold HMCPchunkread, Hread_element. unfold_M. simpl.
  rewrite lookup_insert_eq. simpl. by rewrite Hobj.
Qed.

Lemma HMCPchunkwrite_out_of_refs_witness :
  let w := (HMCPwrite 4 (replicate 4 Byte.x01)
              (HMCcreate_world 0 4 1 [mkDIM_DEF 0 8 4] 1 [Byte.x2a]
                 (mkfilerec_t 3 1 ∅ 65536 []))).2 in
  let buf := replicate 4 Byte.x00 in
  HMCPchunkread 0 buf w = (Ret (0, replicate 4 Byte.x2a), w) /\
  exists w1,
    HMCPchunkwrite 0 (replicate 4 Byte.x01) w = (Err DFE_NOREF, w1) /\
    f_vdata (file_rec w1) = [] /\
    HMCPchunkread 0 buf w1 = (Err DFE_REPORT, w1).
Proof.
  intros w buf.
  destruct (HMCPchunkwrite_out_of_refs 0 (replicate 4 Byte.x01) buf w
              (mkCHUNK_REC 0 0 [0] DFTAG_NULL 0))
    as (H1 & w1 & H2 & _ & _ & Hf & _ & H3);
    [by_evaluation | by_evaluation | intros [_ H]; vm_compute in H; by apply H |].
  split; [exact H1 |]. exists w1. split; [exact H2 |].
  split; [by rewrite Hf | apply H3; by_evaluation].
Defined.

End StoreExtras.

(** ** Lengths and positions of the write paths *)

Section WriteExtras.

Import Int32.

Lemma wf_elem_moved w w' :
  static w' = static w -> seek_state w' = seek_state w ->
  posn (access_rec w') = posn (access_rec w) -> wf_elem w -> wf_elem w'.
Proof.
  intros Hst Hsk Hpo [H1 H2 H3 H4 H5 H6 H7 H8 H9].
  unfold static, seek_state in *.
  injection Hst as _ _ _ _ _ Hil _ Hnt Hnd Hdd _ _. injection Hsk as Hsbi Hspb _.
  constructor; rewrite ?Hsbi, ?Hspb, ?Hpo, ?Hil, ?Hnt, ?Hnd, ?Hdd; done.
Qed.

Lemma seek_at_moved w w' x :
  static w' = static w -> seek_state w' = seek_state w -> seek_at w x -> seek_at w' x.
Proof.
  intros Hst Hsk. unfold static, seek_state, seek_at in *.
  injection Hst as _ _ _ _ _ _ _ Hnt _ Hdd _ _. injection Hsk as Hsbi Hspb _.
  cbv zeta. by rewrite Hsbi, Hspb, Hnt, Hdd.
Qed.

Lemma not_Ret_Err {A} (r : res A) : ~ is_Ret r -> r <> Stuck -> exists e, r = Err e.
Proof. destruct r; [by intros [] | eauto | done]. Qed.

(** The loop of [HMCPwrite] on a well-formed element: [write_len -
    bytes_written] passes are enough, and it returns [write_len] unless
    the cache fails. *)
Lemma HMCPwrite_loop_progress fuel : forall write_len bytes_written rel bptr w r w',
  wf_elem w -> seek_at w rel ->
  0 <= bytes_written <= write_len -> write_len <= max_signed -> 0 <= rel ->
  rel + (write_len - bytes_written) <= max_signed ->
  (Z.to_nat (write_len - bytes_written) <= fuel)%nat ->
  HMCPwrite_loop fuel write_len bytes_written rel bptr w = (r, w') ->
  posn (access_rec w') = posn (access_rec w) /\
  ((exists e, r = Err e) \/ r = Ret write_len).
Proof.
  induction fuel as [|fuel IH]; intros write_len bytes_written rel bptr w r w'
    Hwf Hat Hbw Hlen Hrel Hmax Hfuel H;
    cbn [HMCPwrite_loop] in H; destruct (bytes_written <? write_len) eqn:Hlt;
    try (apply Z.ltb_ge in Hlt; injection H as <- <-; split; [done |]; right;
         f_equal; lia).
  { apply Z.ltb_lt in Hlt. lia. }
  apply Z.ltb_lt in Hlt.
  inv_bind H; unfold get_info in Hm; try discriminate. injection Hm as <- <-.
  cbv zeta in H.
  match type of H with
  | context [calculate_chunk_for_chunk ?a ?b ?c ?d ?e ?f ?g] =>
      set (cs := calculate_chunk_for_chunk a b c d e f g) in *
  end.
  assert (Hcs : 1 <= cs <= write_len - bytes_written).
  { subst cs. destruct Hat as [-> ->]. destruct Hwf as [H1 H2 H3 H4 H5 H6 H7 H8 H9].
    rewrite <- H2.
    apply calculate_chunk_for_chunk_bounds; try done; lia. }
  apply write_page_spec in H
    as (w1 & tr1 & Hrun1 & Hsk1 & Hpo1 & _ & _ &
        [(Hnr & Hns & ->) | (Hk & _ & _)]).
  { split; [done |]. left. by apply not_Ret_Err. }
  pose proof (step_static _ _ _ (run_step _ _ _ Hrun1)) as Hst1.
  rewrite (add_small bytes_written cs), (add_small rel cs) in Hk
    by (unfold in_range, min_signed, max_signed in *; lia).
  inv_bind Hk; apply seek_to_wf in Hm as (Hr3 & Hwf3 & Hat3 & Hpo3 & Hst3);
    try discriminate; try (by eapply wf_elem_moved); try lia.
  apply IH in Hk as (Hpo4 & Hres); try done; try lia.
  split; [congruence | done].
Qed.



End WriteExtras.

(** ** The position after a whole chunk was moved *)

Section ChunkPosition.

Import Int32 MixedRadix.

Lemma origin_split ddims org :
  Forall dim_ok ddims ->
  Forall2 in_radix org (num_chunks <$> ddims) ->
  let corner := zip_with (fun o d => o * chunk_length d) org ddims in
  zip_with (fun a d => a / chunk_length d) corner ddims = org /\
  zip_with (fun a d => a mod chunk_length d) corner ddims = replicate (length ddims) 0 /\
  Forall2 in_radix corner (dim_length <$> ddims).
Proof.
  intros Hok. revert org. induction Hok as [|d ds Hd Hok IH]; intros org H.
  - rewrite fmap_nil in H. apply Forall2_nil_inv_r in H as ->. by repeat split; constructor.
  - rewrite fmap_cons in H. apply Forall2_cons_inv_r in H as (o & org' & Ho & H & ->).
    destruct (IH _ H) as (IH1 & IH2 & IH3).
    destruct (dim_ok_facts _ Hd) as (HC & HD & HN & HL & HDL).
    unfold in_radix in Ho. simpl.
    rewrite Z.div_mul, Z.mod_mul by lia. rewrite IH1, IH2.
    split; [done |]. split; [done |].
    constructor; [unfold in_radix; nia | done].
Qed.

Lemma digits_span ds :
  Forall (fun d => 0 < d) ds -> digits ds (span ds) = replicate (length ds) 0.
Proof.
  induction 1 as [|d ds Hd _ IH]; [done |]. simpl.
  rewrite (Z.mul_comm d), Z.mod_mul, Z.div_mul by lia. by rewrite IH.
Qed.

Lemma update_seek_pos_chunk_whole (n : nat) nt_size spb0 ddims :
  Forall (fun d => 0 < chunk_length d) ddims ->
  length ddims = n -> length spb0 = n -> 0 < nt_size ->
  span (chunk_length <$> ddims) * nt_size <= max_signed ->
  update_seek_pos_chunk (span (chunk_length <$> ddims) *i nt_size)
    (Z.of_nat n) nt_size spb0 ddims = replicate n 0.
Proof.
  intros Hpos Hn Hp Hnt Hmax.
  assert (Hpos' : Forall (fun c => 0 < c) (chunk_length <$> ddims)) by (by apply Forall_fmap).
  pose proof (span_pos _ Hpos') as Hsp.
  unfold update_seek_pos_chunk. rewrite Nat2Z.id.
  rewrite mul_small by (apply in_range_nonneg; nia).
  rewrite div_nonneg by nia. rewrite Z.div_mul by lia.
  rewrite update_seek_pos_chunk_loop_spec by (try done; nia).
  rewrite take_ge, drop_ge, app_nil_r by lia.
  rewrite <- (span_reverse (chunk_length <$> ddims)).
  rewrite digits_span by (by apply Forall_reverse).
  rewrite length_reverse, length_fmap, Hn. apply reverse_replicate.
Qed.

Lemma fmap_aget_seq (org : list Z) (n : nat) :
  length org = n -> (fun j => aget org j) <$> seq 0 n = org.
Proof.
  intros Hn. apply list_eq_same_length with n; [done | by rewrite length_fmap, length_seq |].
  intros j y z Hj Hy Hz.
  rewrite list_lookup_fmap, lookup_seq_lt in Hy by done. simpl in Hy.
  injection Hy as <-. unfold aget. by apply list_lookup_total_correct.
Qed.

Lemma fmap_const_seq (n : nat) : (fun _ : nat => 0) <$> seq 0 n = replicate n 0.
Proof.
  apply list_eq_same_length with n;
    [by rewrite length_replicate | by rewrite length_fmap, length_seq |].
  intros j y z Hj Hy Hz.
  rewrite list_lookup_fmap, lookup_seq_lt in Hy by done. simpl in Hy.
  apply lookup_replicate in Hz as [-> _]. by injection Hy as <-.
Qed.

(** The state [seek_to_origin] leaves. *)
Lemma seek_to_origin_at org w r w0 :
  Z.of_nat (length org) = ndims (special_info (access_rec w)) ->
  Z.of_nat (length (seek_chunk_indices (special_info (access_rec w))))
    = ndims (special_info (access_rec w)) ->
  Z.of_nat (length (seek_pos_chunk (special_info (access_rec w))))
    = ndims (special_info (access_rec w)) ->
  seek_to_origin org w = (r, w0) ->
  seek_state w0 = (org, replicate (length org) 0,
                   seek_user_indices (special_info (access_rec w))) /\
  static w0 = static w.
Proof.
  intros Ho Hs Hp. unfold seek_to_origin, set_seek. unfold_M. simpl.
  intros H. injection H as <- <-. split; [| done].
  unfold seek_state. simpl. rewrite <- Ho, Nat2Z.id.
  rewrite (fold_insert_seq (fun j => aget org j)) by lia.
  rewrite (fold_insert_seq (fun _ => 0)) by lia.
  rewrite !drop_ge, !app_nil_r by lia.
  by rewrite fmap_aget_seq, fmap_const_seq.
Qed.

(** The update of the position after a whole chunk, from the state
    [seek_to_origin] leaves. *)
Lemma seek_after_chunk_at org w r w' :
  let i := special_info (access_rec w) in
  Forall dim_ok (ddims i) ->
  Z.of_nat (length (ddims i)) = ndims i ->
  in_grid (ddims i) org -> 0 < nt_size i ->
  chunk_size i = span (chunk_length <$> ddims i) ->
  chunk_size i * nt_size i <= max_signed ->
  seek_state w = (org, replicate (length org) 0, seek_user_indices i) ->
  length (seek_user_indices i) = length org ->
  seek_after_chunk (chunk_size i *i nt_size i) w = (r, w') ->
  at_chunk_origin org w'.
Proof.
  intros i Hok Hnd Hgrid Hnt Hcs Hmax Hsk Hsui.
  unfold seek_state in Hsk. fold i in Hsk. injection Hsk as Hsbi Hspb.
  pose proof (Forall2_length _ _ _ Hgrid) as Hlo. rewrite length_fmap in Hlo.
  destruct (origin_split _ _ Hok Hgrid) as (Hdiv & Hmod & Hrad).
  unfold seek_after_chunk. unfold_M. simpl. fold i.
  intros H. injection H as <- <-. unfold at_chunk_origin. simpl. fold i.
  rewrite Hsbi, Hspb, Hcs, <- Hnd.
  rewrite update_seek_pos_chunk_whole; try done; try lia; cycle 1.
  { eapply Forall_impl; [exact Hok |]. intros d Hd.
    destruct (dim_ok_facts _ Hd) as (HC & _). simpl. lia. }
  { rewrite length_replicate. lia. }
  assert (Hc : compute_chunk_to_array org (replicate (length (ddims i)) 0)
                 (seek_user_indices i) (Z.of_nat (length (ddims i))) (ddims i) =
               zip_with (fun o d => o * chunk_length d) org (ddims i)).
  { rewrite <- Hmod. rewrite <- Hdiv at 1.
    apply compute_chunk_to_array_spec; try done; lia. }
  rewrite Hc, Hlo. done.
Qed.

(** X12.  After a whole chunk was read or written the position is at
    the first element of that chunk, not behind the chunk: the seek arrays
    hold the origin and position 0 on every axis, and [posn] is the byte
    offset of the corner of the chunk. *)
Theorem whole_chunk_leaves_position_at_origin org w :
  let i := special_info (access_rec w) in
  wf_elem w ->
  length (seek_user_indices i) = length org ->
  in_grid (ddims i) org ->
  chunk_size i = span (chunk_length <$> ddims i) ->
  chunk_size i * nt_size i <= max_signed ->
  (forall r w', HMCreadChunk org w = (Ret r, w') -> at_chunk_origin org w') /\
  (forall datap r w', HMCwriteChunk org datap w = (Ret r, w') -> at_chunk_origin org w').
Proof.
  intros i [H1 H2 H3 H4 H5 H6 H7 H8 H9] Hsui Hgrid Hcs Hmax. fold i in H1, H2, H3, H4, H5, H6.
  pose proof (Forall2_length _ _ _ Hgrid) as Hlo. rewrite length_fmap in Hlo.
  assert (Hfin : forall w0 w2 r w',
            seek_state w0 = (org, replicate (length org) 0, seek_user_indices i) ->
            static w0 = static w ->
            seek_state w2 = seek_state w0 -> static w2 = static w0 ->
            seek_after_chunk (chunk_size i *i nt_size i) w2 = (r, w') ->
            at_chunk_origin org w').
  { intros w0 w2 r w' Hsk0 Hst0 Hsk2 Hst2 H.
    assert (Hst : static w2 = static w) by congruence.
    destruct (static_fields _ _ Hst) as (_ & Ecs & Ent & End' & Edd).
    assert (Esui : seek_user_indices (special_info (access_rec w2)) = seek_user_indices i).
    { rewrite Hsk0 in Hsk2. unfold seek_state in Hsk2. by injection Hsk2. }
    unfold i in H, Esui. rewrite <- Ecs, <- Ent in H.
    eapply seek_after_chunk_at; [.. | exact H]; rewrite ?Edd, ?Ent, ?End', ?Ecs, ?Esui;
      try done.
    by rewrite Hsk2, Hsk0. }
  split.
  - intros r w' H. unfold HMCreadChunk in H.
    inv_bind H; unfold get_access in Hm; try discriminate. injection Hm as <- <-.
    inv_bind H; unfold get_file in Hm; try discriminate. injection Hm as <- <-.
    destruct (BADFREC _); [discriminate |].
    destruct (_ =? 0); [discriminate |].
    destruct (_ =? SPECIAL_CHUNKED); [| discriminate].
    inv_bind H; unfold get_info in Hm; try discriminate. injection Hm as <- <-.
    cbv zeta in H. fold i in H.
    inv_bind H; try discriminate.
    apply seek_to_origin_at in Hm as (Hsk0 & Hst0); try (fold i; lia).
    inv_bind H; inv_on_fail Hm; try discriminate.
    apply mcache_get_spec in Hm as ([Hst1 Hsk1 _ _ _] & _).
    inv_bind H; inv_on_fail Hm; try discriminate.
    apply mcache_put_spec in Hm as ([Hst2 Hsk2 _ _ _] & _).
    inv_bind H; try discriminate. injection H as _ <-.
    eapply (Hfin w0 w2); [done | done | congruence | congruence | exact Hm].
  - intros datap r w' H. unfold HMCwriteChunk in H.
    inv_bind H; unfold get_access in Hm; try discriminate. injection Hm as <- <-.
    inv_bind H; unfold get_file in Hm; try discriminate. injection Hm as <- <-.
    destruct (BADFREC _); [discriminate |].
    destruct (_ =? 0); [discriminate |].
    destruct (_ =? SPECIAL_CHUNKED); [| discriminate].
    inv_bind H; unfold get_info in Hm; try discriminate. injection Hm as <- <-.
    cbv zeta in H. fold i in H.
    inv_bind H; try discriminate.
    pose proof (seek_to_origin_spec _ _ _ _ Hm) as (_ & _ & _ & Htree & _).
    apply seek_to_origin_at in Hm as (Hsk0 & Hst0); try (fold i; lia).
    fold i in Htree. rewrite <- Htree in H.
    apply write_page_spec in H
      as (w1 & tr1 & Hrun1 & Hsk1 & _ & _ & _ & [(Hnr & _ & _) | (Hk & _ & _)]).
    { by destruct Hnr. }
    pose proof (step_static _ _ _ (run_step _ _ _ Hrun1)) as Hst1.
    inv_bind Hk; try discriminate. injection Hk as _ <-.
    eapply (Hfin w0 w1); [done | done | done | done | exact Hm].
Qed.

Lemma whole_chunk_leaves_position_at_origin_witness :
  let w := HMCcreate_world 0 16 1 [mkDIM_DEF 0 10 4; mkDIM_DEF 0 10 4] 1
             [Byte.x2a] (mkfilerec_t 3 1 ∅ 2 []) in
  let w' := (HMCwriteChunk [2; 2] (replicate 16 Byte.x07) w).2 in
  at_chunk_origin [2; 2] w' /\ posn (access_rec w') = 88 /\
  at_chunk_origin [1; 2] (HMCreadChunk [1; 2] w).2.
Proof.
  intros w w'.
  assert (Hwf : wf_elem w).
  { constructor;
      [by_evaluation | by_evaluation | by_evaluation | by_evaluation
      | repeat constructor; by_evaluation | by_evaluation
      | repeat constructor; by_evaluation | by_evaluation | by_evaluation]. }
  destruct (whole_chunk_leaves_position_at_origin [2; 2] w) as [_ Hw];
    [exact Hwf | by_evaluation | repeat constructor; by_evaluation
    | by_evaluation | by_evaluation |].
  destruct (whole_chunk_leaves_position_at_origin [1; 2] w) as [Hr _];
    [exact Hwf | by_evaluation | repeat constructor; by_evaluation
    | by_evaluation | by_evaluation |].
  split; [apply (Hw (replicate 16 Byte.x07) 16 w'); by_evaluation |].
  split; [by_evaluation |].
  apply (Hr (16, replicate 16 Byte.x2a)). by_evaluation.
Defined.

End ChunkPosition.

(** ** The SZIP adapter: compressed form and streaming *)

Section SzipExtras.

Import Szip.

Lemma memcpy_at_fresh (data : bytes) n :
  Z.of_nat (length data) = n ->
  memcpy_at (zero_bytes n) 0 data n = data.
Proof.
  intros Hn. unfold memcpy_at, zero_bytes. simpl.
  rewrite take_ge by lia. rewrite drop_ge by (rewrite length_replicate; lia).
  apply app_nil_r.
Qed.

(** X13.  The compressed form round-trips when the SZIP library does: a
    chunk buffered whole by [HCIcszip_encode], whose compression succeeds
    with an output no larger than the chunk, is stored by [HCIcszip_term]
    as sentinel byte 0, the 4-byte length of the compressed bytes and the
    compressed bytes.  When the element was longer before, the bytes
    behind them, up to its former length, are what the block from [malloc]
    happened to hold: the code never clears it, though its comment wants
    zeroes there.  [HCIcszip_decode] of the stored element by a reader of
    the revised format returns the chunk whatever these bytes are,
    provided the library decompresses what it compressed. *)
Theorem HCIcszip_compressed_roundtrip
    (compress decompress : bytes -> Z -> Z * bytes) (uninitialised : Z -> bytes)
    (s : comp_coder_szip_info_t) (elt data out : bytes) :
  let size := pixels s *i bytes_per_pixel s in
  szip_state s = SZIP_INIT ->
  Z.of_nat (length data) = size -> size + 5 <= Int32.max_signed ->
  Z.of_nat (length out) <= size ->
  compress data (out_buffer_size s -i 5) = (SZ_OK, out) ->
  decompress out size = (SZ_OK, data) ->
  let r := HCIcszip_term compress uninitialised (HCIcszip_encode s size data) elt in
  let good := Byte.x00 :: INT32ENCODE (Z.of_nat (length out)) ++ out in
  let pad :=
    if (Z.of_nat (length elt) >? 0) && (Z.of_nat (length out) + 5 <? Z.of_nat (length elt))
    then take (length elt - length good)
           (drop (length good) (uninitialised (Z.of_nat (length elt))))
    else [] in
  r.1.1 = inr 0 /\ szip_dirty r.1.2 = SZIP_CLEAN /\
  r.2 = good ++ pad /\
  forall d,
    szip_state d = SZIP_INIT -> Z.land (options_mask d) SZ_H4_REV_2 <> 0 ->
    pixels d *i bytes_per_pixel d = size ->
    fst (HCIcszip_decode decompress d r.2 size) = inr data.
Proof.
  intros size Hst Hdata Hmax Hout Hc Hd r good pad.
  assert (Hsize : 0 <= size) by lia.
  assert (Hgood : length good = (length out + 5)%nat).
  { unfold good. simpl. rewrite ?length_app. simpl. lia. }
  assert (Hterm : exists clean, r = (inr 0, clean, good ++ pad) /\
                                szip_dirty clean = SZIP_CLEAN).
  { subst r. clear Hd.
    destruct s as [off buf pos sz bpp om px ppb pps st dirty].
    cbn [szip_state pixels] in *. subst st.
    unfold HCIcszip_encode.
    cbn [with_buffer szip_state szip_dirty buffer buffer_pos buffer_size offset pixels
         bits_per_pixel options_mask pixels_per_block pixels_per_scanline
         default from_option].
    unfold bytes_per_pixel in size |- *. cbn [bits_per_pixel] in size |- *. fold size.
    unfold id. rewrite memcpy_at_fresh by done.
    rewrite (add_small 0 size) by (apply in_range_nonneg; lia).
    unfold HCIcszip_term.
    cbn [with_buffer szip_state szip_dirty buffer buffer_pos buffer_size offset pixels
         bits_per_pixel options_mask pixels_per_block pixels_per_scanline
         default from_option].
    unfold id. rewrite take_ge by lia.
    unfold out_buffer_size, bytes_per_pixel in Hc |- *.
    cbn [with_buffer szip_state szip_dirty buffer buffer_pos buffer_size offset pixels
         bits_per_pixel options_mask pixels_per_block pixels_per_scanline] in Hc |- *.
    rewrite Hc. fold size.
    change (negb (SZ_OK =? SZ_OK)) with false. cbn iota.
    replace (Z.of_nat (length out) >? size) with false
      by (symmetry; rewrite Z.gtb_ltb; apply Z.ltb_ge; lia).
    rewrite (add_small (Z.of_nat (length out)) 5) by (apply in_range_nonneg; lia).
    fold good. unfold pad.
    destruct (_ && _) eqn:E.
    - apply andb_prop in E as [E1 E2]. apply Z.ltb_lt in E2.
      eexists. split.
      + f_equal. unfold Hwrite_at_start. rewrite Nat2Z.id.
        rewrite (drop_ge elt) by lia. rewrite app_nil_r.
        rewrite take_app. rewrite (take_ge good) by lia. done.
      + unfold free_if_empty. by destruct (_ =? 0).
    - eexists. split.
      + f_equal. unfold Hwrite_at_start. rewrite app_nil_r.
        rewrite take_ge by lia.
        rewrite drop_ge; [apply app_nil_r |].
        apply andb_false_iff in E as [E | E].
        * rewrite Z.gtb_ltb in E. apply Z.ltb_ge in E. lia.
        * apply Z.ltb_ge in E. lia.
      + unfold free_if_empty. by destruct (_ =? 0). }
  destruct Hterm as (clean & -> & Hclean). cbn [fst snd].
  split; [done |]. split; [done |]. split; [done |].
  intros d Hdst Hrev Hdsize. unfold HCIcszip_decode. rewrite Hdst.
  apply Z.eqb_neq in Hrev. rewrite Hrev.
  unfold good at 1. rewrite <- app_comm_cons.
  cbn [length]. replace (Z.of_nat (S _) =? 0) with false by (symmetry; apply Z.eqb_neq; lia).
  unfold good. rewrite <- !app_comm_cons, <- !app_assoc.
  cbn [head default from_option drop]. rewrite ?drop_0. unfold id.
  change (Z_of_byte Byte.x00 =? 1) with false. cbn iota.
  rewrite INT32DECODE_ENCODE by (apply in_range_nonneg; lia).
  assert (Hin : memcpy_from (Byte.x00 :: INT32ENCODE (Z.of_nat (length out)) ++ out ++ pad)
                  5 (Z.of_nat (length out)) = out).
  { unfold memcpy_from. change (Z.to_nat 5) with 5%nat. cbn [drop INT32ENCODE app].
    rewrite drop_0, Nat2Z.id. by rewrite take_app_length. }
  rewrite Hin, Hdsize, Hd.
  change (negb (SZ_OK =? SZ_OK)) with false. cbn iota.
  unfold decode_copy.
  cbn [with_buffer szip_state szip_dirty buffer buffer_pos buffer_size offset pixels
       bits_per_pixel options_mask pixels_per_block pixels_per_scanline
       default from_option].
  rewrite Z.gtb_ltb, Z.ltb_irrefl. cbn [fst]. f_equal.
  unfold memcpy_from. simpl. rewrite drop_0. apply take_ge. lia.
Qed.

(** A chunk of four pixels stored over an element of ten bytes, with a
    block from [malloc] that holds [0xff] bytes. *)
Lemma HCIcszip_compressed_roundtrip_witness :
  let s := mkszip 0 None 0 0 8 SZ_H4_REV_2 4 4 4 SZIP_INIT SZIP_CLEAN in
  let data := replicate 4 Byte.x0a in
  let compress := fun (raw : bytes) (_ : Z) => (SZ_OK, take 1 raw) in
  let decompress := fun (out : bytes) (n : Z) =>
                      (SZ_OK, replicate (Z.to_nat n) (default Byte.x00 (head out))) in
  let block := fun n : Z => replicate (Z.to_nat n) Byte.xff in
  let r := HCIcszip_term compress block (HCIcszip_encode s 4 data) (replicate 10 Byte.x00) in
  r.2 = [Byte.x00; Byte.x00; Byte.x00; Byte.x00; Byte.x01; Byte.x0a;
         Byte.xff; Byte.xff; Byte.xff; Byte.xff] /\
  fst (HCIcszip_decode decompress s r.2 4) = inr data.
Proof.
  intros s data compress decompress block r.
  destruct (HCIcszip_compressed_roundtrip compress decompress block s
              (replicate 10 Byte.x00) data [Byte.x0a])
    as (_ & _ & Hr & H);
    [by_evaluation | by_evaluation | by_evaluation | by_evaluation | by_evaluation
    | by_evaluation |].
  split; [exact Hr | apply (H s); by_evaluation].
Defined.

End SzipExtras.

(** ** The SZIP adapter as a stream: seeks and reads *)

Section SzipStream.

Import Szip SzipIO.

Variable compress decompress : bytes -> Z -> Z * bytes.
Variable uninitialised : Z -> bytes.

Lemma take_drop_prefix {A} (b : list A) (N p len : nat) :
  (p + len <= N)%nat -> take len (drop p (take N b)) = take len (drop p b).
Proof.
  intros H. rewrite !take_drop_commute, take_take. do 2 f_equal. lia.
Qed.

Lemma free_if_empty_fields s :
  szip_state (free_if_empty s) = szip_state s /\
  szip_dirty (free_if_empty s) = szip_dirty s /\
  Szip.offset (free_if_empty s) = Szip.offset s /\
  buffer_pos (free_if_empty s) = buffer_pos s /\
  buffer_size (free_if_empty s) = buffer_size s /\
  params (free_if_empty s) = params s /\
  (buffer_size s <> 0 -> buffer (free_if_empty s) = buffer s).
Proof.
  unfold free_if_empty. destruct (buffer_size s =? 0) eqn:E; [| done].
  apply Z.eqb_eq in E. by repeat split.
Qed.

(** A reader that holds [b], of which [data] is the decoded part, after it
    handed out [len] bytes from offset [p]. *)
Lemma reading_after s b data p len :
  take (length data) b = data ->
  0 <= p -> 0 <= len -> p + len <= Z.of_nat (length data) ->
  Z.of_nat (length data) <= Int32.max_signed ->
  let s' := free_if_empty
              (with_buffer SZIP_RUN SZIP_CLEAN (Some b) (p + len)
                 (Z.of_nat (length data) - p - len) (p + len) s) in
  reading s' data (p + len) /\ params s' = params s.
Proof.
  intros Hb Hp Hlen Hsum Hmax s'.
  destruct (free_if_empty_fields
              (with_buffer SZIP_RUN SZIP_CLEAN (Some b) (p + len)
                 (Z.of_nat (length data) - p - len) (p + len) s))
    as (H1 & H2 & H3 & H4 & H5 & H6 & H7).
  fold s' in H1, H2, H3, H4, H5, H6, H7. cbn in H1, H2, H3, H4, H5, H7.
  split; [| by rewrite H6].
  unfold reading. rewrite H1, H2, H3, H4, H5.
  repeat split; try done; try lia.
  intros Hlt. exists b. split; [apply H7; lia | done].
Qed.

(** One decode by a reader of the element. *)
Lemma HCIcszip_decode_ready s elt data p len :
  Z.land (options_mask s) SZ_H4_REV_2 <> 0 ->
  stores decompress (pixels s *i bytes_per_pixel s) elt data ->
  ready s data p ->
  0 <= len -> p + len <= Z.of_nat (length data) ->
  Z.of_nat (length data) <= Int32.max_signed ->
  exists s',
    HCIcszip_decode decompress s elt len = (inr (take (Z.to_nat len) (drop (Z.to_nat p) data)), s') /\
    reading s' data (p + len) /\ params s' = params s.
Proof.
  intros Hrev Hst Hready Hlen Hsum Hmax.
  destruct Hready as [[(Hinit & Hclean & Hoff) ->] | (Hrun & Hclean & Hp & Hoff & Hpos & Hsize & Hbuf)].
  - (* first decode: the element is loaded *)
    unfold HCIcszip_decode. rewrite Hinit.
    apply Z.eqb_neq in Hrev. rewrite Hrev.
    destruct Hst as [(rest & -> & Hfit) | (out & rest & -> & Hol & Hdec & Hout)].
    + cbn [length]. replace (Z.of_nat (S _) =? 0) with false by (symmetry; apply Z.eqb_neq; lia).
      cbn [head default from_option drop]. rewrite ?drop_0. unfold id.
      change (Z_of_byte Byte.x01 =? 1) with true. cbn iota.
      rewrite INT32DECODE_ENCODE by (apply in_range_nonneg; lia).
      assert (Hin : memcpy_from (Byte.x01 :: INT32ENCODE (Z.of_nat (length data)) ++ data ++ rest)
                      5 (Z.of_nat (length data)) = data).
      { unfold memcpy_from. change (Z.to_nat 5) with 5%nat. cbn [drop INT32ENCODE app].
        rewrite drop_0, Nat2Z.id. by rewrite take_app_length. }
      rewrite Hin.
      set (n := if Z.of_nat (length data) >? len then len else Z.of_nat (length data)).
      assert (Hn : n = len).
      { unfold n. destruct (_ >? _) eqn:E; [done |].
        rewrite Z.gtb_ltb in E. apply Z.ltb_ge in E. lia. }
      rewrite Hn. rewrite (sub_small (Z.of_nat (length data)) len)
        by (apply in_range_nonneg; lia).
      set (b := memcpy_at (zero_bytes (pixels s *i bytes_per_pixel s)) 0 data
                  (Z.of_nat (length data))).
      assert (Hb : take (length data) b = data).
      { unfold b, memcpy_at. simpl. rewrite Nat2Z.id, (take_ge data) by lia.
        by rewrite take_app_length. }
      eexists. split; [reflexivity |]. rewrite Hclean.
      pose proof (reading_after s b data 0 len Hb) as Hr.
      cbn zeta in Hr. rewrite !Z.add_0_l, Z.sub_0_r in Hr. apply Hr; lia.
    + cbn [length]. replace (Z.of_nat (S _) =? 0) with false by (symmetry; apply Z.eqb_neq; lia).
      cbn [head default from_option drop]. rewrite ?drop_0. unfold id.
      change (Z_of_byte Byte.x00 =? 1) with false. cbn iota.
      rewrite INT32DECODE_ENCODE by (apply in_range_nonneg; lia).
      assert (Hin : memcpy_from (Byte.x00 :: INT32ENCODE (Z.of_nat (length out)) ++ out ++ rest)
                      5 (Z.of_nat (length out)) = out).
      { unfold memcpy_from. change (Z.to_nat 5) with 5%nat. cbn [drop INT32ENCODE app].
        rewrite drop_0, Nat2Z.id. by rewrite take_app_length. }
      rewrite Hin, Hdec.
      change (negb (SZ_OK =? SZ_OK)) with false. cbn iota.
      unfold decode_copy.
      cbn [with_buffer szip_state szip_dirty buffer buffer_pos buffer_size Szip.offset pixels
           bits_per_pixel options_mask pixels_per_block pixels_per_scanline
           default from_option].
      unfold id. rewrite <- Hout.
      replace (len >? Z.of_nat (length data)) with false
        by (symmetry; rewrite Z.gtb_ltb; apply Z.ltb_ge; lia).
      rewrite (add_small 0 len) by (apply in_range_nonneg; lia).
      rewrite (sub_small (Z.of_nat (length data)) len) by (apply in_range_nonneg; lia).
      eexists. split; [reflexivity |]. rewrite Hclean.
      pose proof (reading_after s data data 0 len) as Hr.
      cbn zeta in Hr. rewrite !Z.add_0_l, Z.sub_0_r in Hr.
      apply Hr; try lia. by rewrite take_ge.
  - (* a later decode: from the buffer *)
    unfold HCIcszip_decode. rewrite Hrun. unfold decode_copy.
    rewrite Hsize, Hpos.
    replace (len >? Z.of_nat (length data) - p) with false
      by (symmetry; rewrite Z.gtb_ltb; apply Z.ltb_ge; lia).
    rewrite (add_small p len) by (apply in_range_nonneg; lia).
    rewrite (sub_small (Z.of_nat (length data) - p) len) by (apply in_range_nonneg; lia).
    destruct (Z_lt_le_dec p (Z.of_nat (length data))) as [Hlt | Hge].
    + destruct (Hbuf Hlt) as (b & Hb & Hdata). rewrite Hb.
      cbn [default from_option]. unfold id.
      assert (Hbytes : memcpy_from b p len
                       = take (Z.to_nat len) (drop (Z.to_nat p) data)).
      { unfold memcpy_from. rewrite <- Hdata at 1.
        symmetry. apply take_drop_prefix. lia. }
      rewrite Hbytes.
      eexists. split; [reflexivity |].
      * rewrite Hrun, Hclean.
        pose proof (reading_after s b data p len Hdata) as Hr.
        cbn zeta in Hr. apply Hr; lia.
    + assert (len = 0) as -> by lia. assert (p = Z.of_nat (length data)) as Hpe by lia.
      assert (Hbytes : memcpy_from (default [] (buffer s)) p 0
                       = take (Z.to_nat 0) (drop (Z.to_nat p) data)) by done.
      rewrite Hbytes.
      eexists. split; [reflexivity |].
      * rewrite Hrun, Hclean. unfold reading.
        destruct (free_if_empty_fields
                    (with_buffer SZIP_RUN SZIP_CLEAN (buffer s) (p + 0)
                       (Z.of_nat (length data) - p - 0) (p + 0) s))
          as (H1 & H2 & H3 & H4 & H5 & H6 & H7).
        cbn in H1, H2, H3, H4, H5, H7. rewrite H1, H2, H3, H4, H5, H6.
        repeat split; try done; try lia.
Qed.

Lemma ready_offset s data p : ready s data p -> Szip.offset s = p /\ 0 <= p.
Proof.
  intros [[(_ & _ & Ho) ->] | (_ & _ & Hp & Ho & _)]; split; try done; lia.
Qed.

Lemma params_fields s s' :
  params s' = params s ->
  options_mask s' = options_mask s /\
  pixels s' *i bytes_per_pixel s' = pixels s *i bytes_per_pixel s.
Proof.
  unfold params, bytes_per_pixel. intros H. injection H as Hb Ho Hp _ _.
  by rewrite Hb, Ho, Hp.
Qed.

(** The loop of [HCPcszip_seek] stops within [TMP_BUF_SIZE] bytes of the
    offset asked for. *)
Lemma HCPcszip_seek_loop_ready elt data o fuel : forall s p,
  Z.land (options_mask s) SZ_H4_REV_2 <> 0 ->
  stores decompress (pixels s *i bytes_per_pixel s) elt data ->
  ready s data p ->
  p <= o <= Z.of_nat (length data) ->
  Z.of_nat (length data) + TMP_BUF_SIZE <= Int32.max_signed ->
  (Z.to_nat ((o - p) / TMP_BUF_SIZE) <= fuel)%nat ->
  exists s' p',
    HCPcszip_seek_loop decompress fuel s elt o = Some (inr tt, s') /\
    ready s' data p' /\ p <= p' <= o /\ o - p' <= TMP_BUF_SIZE /\
    params s' = params s.
Proof.
  unfold TMP_BUF_SIZE.
  induction fuel as [|fuel IH]; intros s p Hrev Hst Hready Hpo Hmax Hfuel;
    cbn [HCPcszip_seek_loop]; destruct (ready_offset _ _ _ Hready) as [Hoff Hp0];
    rewrite Hoff; unfold TMP_BUF_SIZE;
    rewrite (add_small p 8192) by (apply in_range_nonneg; lia);
    destruct (p + 8192 <? o) eqn:E;
    try (apply Z.ltb_ge in E; exists s, p; repeat split; try done; lia).
  - apply Z.ltb_lt in E.
    assert (1 <= (o - p) / 8192) by (apply Z.div_le_lower_bound; lia). lia.
  - apply Z.ltb_lt in E.
    destruct (HCIcszip_decode_ready s elt data p 8192) as (s1 & H1 & Hr1 & Hp1);
      try done; try lia.
    rewrite H1.
    destruct (params_fields _ _ Hp1) as [Hom Hpx].
    destruct (IH s1 (p + 8192)) as (s' & p' & H2 & Hr2 & Hpp & Hnear & Hp2).
    + by rewrite Hom.
    + by rewrite Hpx.
    + by right.
    + lia.
    + done.
    + replace (o - (p + 8192)) with (o - p + (-1) * 8192) by lia.
      rewrite Z.div_add by lia.
      assert (1 <= (o - p) / 8192) by (apply Z.div_le_lower_bound; lia). lia.
    + exists s', p'. repeat split; try done; try lia. congruence.
Qed.

(** X14.  Random access to an SZIP element: whether the data is stored raw
    or compressed, and wherever the reader stands, [HCPcszip_seek] to an
    offset followed by [HCPcszip_read] of a length returns those bytes of
    the decoded data and leaves the reader behind them; a seek backwards
    starts again from the element, a seek forwards decodes and throws
    away, [TMP_BUF_SIZE] bytes at a time. *)
Theorem HCPcszip_seek_then_read s elt data p o n (fuel : nat) :
  Z.land (options_mask s) SZ_H4_REV_2 <> 0 ->
  stores decompress (pixels s *i bytes_per_pixel s) elt data ->
  ready s data p ->
  0 <= o -> 0 <= n -> o + n <= Z.of_nat (length data) ->
  Z.of_nat (length data) + TMP_BUF_SIZE <= Int32.max_signed ->
  (Z.to_nat (o / TMP_BUF_SIZE) <= fuel)%nat ->
  exists s1 s2,
    HCPcszip_seek compress decompress uninitialised fuel s elt o = Some (inr tt, s1, elt) /\
    ready s1 data o /\
    HCPcszip_read decompress s1 elt n
      = (inr (n, take (Z.to_nat n) (drop (Z.to_nat o) data)), s2) /\
    reading s2 data (o + n).
Proof.
  intros Hrev Hst Hready Ho Hn Hsum Hmax Hfuel. unfold TMP_BUF_SIZE in *.
  destruct (ready_offset _ _ _ Hready) as [Hoff Hp0].
  assert (Hstart : exists s0 p0,
            (if o <? Szip.offset s
             then let '(r, s1, elt1) :=
                    match szip_dirty s, szip_state s with
                    | SZIP_DIRTY, SZIP_INIT => (inr 0, s, elt)
                    | SZIP_DIRTY, _ => HCIcszip_term compress uninitialised s elt
                    | SZIP_CLEAN, _ => (inr 0, s, elt)
                    end in
                  match r with
                  | inl _ => (inl DFE_CTERM, s1, elt1)
                  | inr _ => (inr tt, HCIcszip_init s1, elt1)
                  end
             else (inr tt, s, elt)) = (inr tt, s0, elt) /\
            ready s0 data p0 /\ 0 <= p0 <= o /\ params s0 = params s).
  { rewrite Hoff. destruct (o <? p) eqn:E.
    - apply Z.ltb_lt in E.
      destruct Hready as [[_ ->] | (Hrun & Hclean & Hp & _ & Hpos & Hsize & Hbuf)]; [lia |].
      rewrite Hclean. exists (HCIcszip_init s), 0. split; [done |].
      split; [| split; [lia |]].
      + left. split; [| done]. unfold at_start, HCIcszip_init.
        by destruct (negb _).
      + unfold HCIcszip_init. by destruct (negb _).
    - apply Z.ltb_ge in E. exists s, p. repeat split; try done; lia. }
  destruct Hstart as (s0 & p0 & Hs0 & Hr0 & Hp0o & Hpar0).
  destruct (params_fields _ _ Hpar0) as [Hom0 Hpx0].
  destruct (HCPcszip_seek_loop_ready elt data o fuel s0 p0)
    as (s1 & p1 & Hloop & Hr1 & Hp1 & Hnear & Hpar1);
    try done; try lia; try (by rewrite ?Hom0, ?Hpx0).
  { unfold TMP_BUF_SIZE.
    assert ((o - p0) / 8192 <= o / 8192) by (apply Z.div_le_mono; lia). lia. }
  destruct (params_fields _ _ Hpar1) as [Hom1 Hpx1].
  destruct (ready_offset _ _ _ Hr1) as [Hoff1 _].
  assert (Hseek : exists s2,
            HCPcszip_seek compress decompress uninitialised fuel s elt o = Some (inr tt, s2, elt) /\
            ready s2 data o /\ params s2 = params s).
  { unfold HCPcszip_seek. cbv zeta. rewrite Hs0, Hloop, Hoff1.
    destruct (p1 <? o) eqn:E.
    - apply Z.ltb_lt in E. unfold TMP_BUF_SIZE in Hnear.
      rewrite sub_small by (apply in_range_nonneg; lia).
      destruct (HCIcszip_decode_ready s1 elt data p1 (o - p1)) as (s2 & H2 & Hr2 & Hpar2);
        try done; try lia; try (by rewrite ?Hom1, ?Hom0, ?Hpx1, ?Hpx0).
      rewrite H2. exists s2. split; [done |].
      replace (p1 + (o - p1)) with o in Hr2 by lia.
      split; [by right | congruence].
    - apply Z.ltb_ge in E. assert (p1 = o) as -> by lia.
      exists s1. split; [done |]. split; [done | congruence]. }
  destruct Hseek as (s2 & Hseek & Hr2 & Hpar2).
  destruct (params_fields _ _ Hpar2) as [Hom2 Hpx2].
  destruct (HCIcszip_decode_ready s2 elt data o n) as (s3 & H3 & Hr3 & _);
    try done; try lia; try (by rewrite ?Hom2, ?Hpx2).
  exists s2, s3. split; [done |]. split; [done |].
  unfold HCPcszip_read. rewrite H3. done.
Qed.

End SzipStream.

Section SzipStreamWitness.

Import Szip SzipIO.

Lemma HCPcszip_seek_then_read_witness :
  let s := mkszip 0 None 0 0 8 SZ_H4_REV_2 4 4 4 SZIP_INIT SZIP_CLEAN in
  let compress := fun (raw : bytes) (_ : Z) => (SZ_OK, raw) in
  let decompress := fun (out : bytes) (_ : Z) => (SZ_OK, out ++ out) in
  let data := [Byte.x0a; Byte.x0b; Byte.x0a; Byte.x0b] in
  let elt := [Byte.x00; Byte.x00; Byte.x00; Byte.x00; Byte.x02; Byte.x0a; Byte.x0b] in
  let block := fun n : Z => replicate (Z.to_nat n) Byte.xff in
  exists s1 s2,
    HCPcszip_seek compress decompress block 1 s elt 1 = Some (inr tt, s1, elt) /\
    ready s1 data 1 /\
    HCPcszip_read decompress s1 elt 2 = (inr (2, [Byte.x0b; Byte.x0a]), s2) /\
    reading s2 data 3.
Proof.
  intros s compress decompress data elt block.
  apply (HCPcszip_seek_then_read compress decompress block s elt data 0 1 2 1).
  - intros H. vm_compute in H. discriminate H.
  - right. exists [Byte.x0a; Byte.x0b], []. repeat split; by_evaluation.
  - left. by repeat split.
  - lia.
  - lia.
  - by_evaluation.
  - by_evaluation.
  - vm_compute. lia.
Defined.

End SzipStreamWitness.

(** ** Parameters of the SZIP coder *)

Section SzipParmsExtras.

Import Int32 MixedRadix SzipParms.

Variable SZ_MAX_BLOCKS_PER_SCANLINE SZ_MAX_PIXELS_PER_SCANLINE : Z.
Variable DFKNTsize_native : Z -> Z.

Lemma fold_seq_aget_from (g : Z -> Z -> Z) (l : list Z) : forall (pre : list Z) a,
  fold_left (fun n i => g n (aget (pre ++ l) i)) (seq (length pre) (length l)) a
  = fold_left g l a.
Proof.
  induction l as [|x l IH]; intros pre a; [done |].
  cbn [length seq fold_left].
  replace (aget (pre ++ x :: l) (length pre)) with x
    by (unfold aget; by rewrite list_lookup_total_middle).
  specialize (IH (pre ++ [x]) (g a x)).
  rewrite <- app_assoc, length_app in IH. simpl in IH.
  rewrite Nat.add_1_r in IH. exact IH.
Qed.

Lemma fold_seq_aget (g : Z -> Z -> Z) (l : list Z) a :
  fold_left (fun n i => g n (aget l i)) (seq 0 (length l)) a = fold_left g l a.
Proof. apply (fold_seq_aget_from g l []). Qed.

Lemma mul_list (l : list Z) :
  Forall (fun d => 1 <= d) l ->
  forall a, 0 <= a -> a * span l <= max_signed ->
  fold_left (fun n d => n *i d) l a = a * span l.
Proof.
  induction 1 as [|d l Hd Hl IH]; intros a Ha Hmax; simpl in *; [lia |].
  assert (Hsp : 0 < span l) by (apply span_pos; eapply Forall_impl; [exact Hl |]; simpl; lia).
  rewrite mul_small by (apply in_range_nonneg; nia).
  rewrite IH by nia. lia.
Qed.

Lemma span_last_le (l : list Z) (n : nat) :
  Forall (fun d => 1 <= d) l -> (n < length l)%nat -> 1 <= aget l n <= span l.
Proof.
  intros Hl Hn. destruct (lookup_lt_is_Some_2 l n Hn) as [x Hx].
  unfold aget. rewrite (list_lookup_total_correct _ _ _ Hx). clear Hn.
  revert n Hx. induction Hl as [|d l Hd Hl IH]; intros n Hx; [done |].
  assert (Hsp : 0 < span l) by (apply span_pos; eapply Forall_impl; [exact Hl |]; simpl; lia).
  destruct n as [|n]; simpl in *.
  - injection Hx as ->. nia.
  - specialize (IH n Hx). nia.
Qed.

(** X15.  [HCPsetup_szip_parms] fails for a compression unit smaller than
    a block of pixels, and for a number type of unknown size; otherwise
    the unit holds [ncomp] times the product of its dimensions in pixels,
    and the scanline it sets holds at least one block, at most
    [SZ_MAX_BLOCKS_PER_SCANLINE] blocks, and no more pixels than the unit,
    as the SZIP library wants it. *)
Theorem HCPsetup_szip_parms_scanline
    (c_info : szip_parms) (nt ncomp : Z) (n : nat) (dims : list Z)
    (cdims : option (list Z)) :
  let unit := default dims cdims in
  let ppb := pixels_per_block c_info in
  let r := HCPsetup_szip_parms SZ_MAX_BLOCKS_PER_SCANLINE SZ_MAX_PIXELS_PER_SCANLINE
             DFKNTsize_native c_info nt ncomp (Z.of_nat n) dims cdims in
  (1 <= n)%nat -> length unit = n -> Forall (fun d => 1 <= d) unit ->
  1 <= ncomp -> ncomp * span unit <= max_signed ->
  0 < ppb -> 1 <= SZ_MAX_BLOCKS_PER_SCANLINE ->
  ppb * SZ_MAX_BLOCKS_PER_SCANLINE <= SZ_MAX_PIXELS_PER_SCANLINE ->
  ppb * SZ_MAX_BLOCKS_PER_SCANLINE <= max_signed ->
  pixels r.2 = ncomp * span unit /\
  (r.1 = true <-> ppb <= ncomp * span unit /\ DFKNTsize_native nt <> -1) /\
  (r.1 = true ->
   ppb <= pixels_per_scanline r.2 <= ppb * SZ_MAX_BLOCKS_PER_SCANLINE /\
   pixels_per_scanline r.2 <= pixels r.2 /\
   bits_per_pixel r.2 = DFKNTsize_native nt *i 8 /\
   pixels_per_block r.2 = ppb /\ options_mask r.2 = options_mask c_info).
Proof.
  intros unit ppb r Hn Hlen Hdims Hncomp Hmax Hppb Hmaxb Hmaxp Hblocks.
  assert (Hsp : 0 < span unit) by (apply span_pos; eapply Forall_impl; [exact Hdims |]; simpl; lia).
  destruct (span_last_le unit (n - 1) Hdims ltac:(lia)) as [Hl1 Hl2].
  subst r. unfold HCPsetup_szip_parms. fold unit.
  replace (Z.of_nat n <=? 0) with false by (symmetry; apply Z.leb_gt; lia).
  rewrite Nat2Z.id, <- Hlen, (fold_seq_aget (fun a d => a *i d)), Hlen.
  rewrite mul_list by (try done; lia).
  replace (Z.to_nat (Z.of_nat n - 1)) with (n - 1)%nat by lia.
  cbn [pixels pixels_per_block options_mask bits_per_pixel pixels_per_scanline]. fold ppb.
  set (last := aget unit (n - 1)) in *.
  rewrite (mul_small last ncomp) by (apply in_range_nonneg; nia).
  rewrite (mul_small ppb) by (apply in_range_nonneg; nia).
  set (npoints := ncomp * span unit) in *.
  assert (Hscan : last * ncomp <= npoints) by (unfold npoints; nia).
  assert (Hmin : forall a b, MIN a b = Z.min a b).
  { intros a b. unfold MIN. destruct (a <? b) eqn:E;
      [apply Z.ltb_lt in E | apply Z.ltb_ge in E]; lia. }
  assert (Hfin : forall (ok : bool) (pps bpp : Z),
            (ok = true <-> ppb <= npoints /\ DFKNTsize_native nt <> -1) ->
            (ok = true -> ppb <= pps <= ppb * SZ_MAX_BLOCKS_PER_SCANLINE /\ pps <= npoints
                          /\ bpp = DFKNTsize_native nt *i 8) ->
            npoints = npoints /\
            (ok = true <-> ppb <= npoints /\ DFKNTsize_native nt <> -1) /\
            (ok = true ->
             ppb <= pps <= ppb * SZ_MAX_BLOCKS_PER_SCANLINE /\ pps <= npoints /\
             bpp = DFKNTsize_native nt *i 8 /\ ppb = ppb
             /\ options_mask c_info = options_mask c_info)).
  { intros ok pps bpp H1 H2. split; [done |]. split; [done |].
    intros Hok. destruct (H2 Hok) as (? & ? & ?). done. }
  destruct (last * ncomp <? ppb) eqn:E1;
    [apply Z.ltb_lt in E1 | apply Z.ltb_ge in E1].
  - destruct (npoints <? ppb) eqn:E2;
      [apply Z.ltb_lt in E2 | apply Z.ltb_ge in E2].
    + cbn [fst snd pixels pixels_per_block options_mask bits_per_pixel pixels_per_scanline].
      apply Hfin; [| done]. split; [done | lia].
    + destruct (DFKNTsize_native nt =? -1) eqn:E3;
        [apply Z.eqb_eq in E3 | apply Z.eqb_neq in E3];
        cbn [fst snd pixels pixels_per_block options_mask bits_per_pixel pixels_per_scanline];
        apply Hfin; try done.
      * split; [done | intros [_ ?]; done].
      * intros _. rewrite Hmin. repeat split; try done; nia.
  - destruct (last * ncomp <=? SZ_MAX_PIXELS_PER_SCANLINE) eqn:E2;
      [apply Z.leb_le in E2 | apply Z.leb_gt in E2];
      (destruct (DFKNTsize_native nt =? -1) eqn:E3;
        [apply Z.eqb_eq in E3 | apply Z.eqb_neq in E3]);
      cbn [fst snd pixels pixels_per_block options_mask bits_per_pixel pixels_per_scanline];
      apply Hfin; try done;
      try (split; [done | intros [_ ?]; done]);
      try (split; [intros _; split; [lia | done] | done]);
      intros _; rewrite ?Hmin; repeat split; try done; nia.
Qed.

End SzipParmsExtras.

Section SzipParmsWitness.

Import Int32 MixedRadix SzipParms.

Lemma HCPsetup_szip_parms_scanline_witness :
  let c := mkszip_parms 0 32 0 0 0 in
  let r := HCPsetup_szip_parms 128 4096 (fun _ => 2) c 22 1 2 [100; 100] (Some [10; 10]) in
  pixels r.2 = 1 * span [10; 10] /\
  (r.1 = true <-> 32 <= 1 * span [10; 10] /\ 2 <> -1) /\
  (r.1 = true ->
   32 <= pixels_per_scanline r.2 <= 32 * 128 /\
   pixels_per_scanline r.2 <= pixels r.2 /\
   bits_per_pixel r.2 = 2 *i 8 /\
   pixels_per_block r.2 = 32 /\ options_mask r.2 = 0) /\
  r = (true, mkszip_parms 0 32 100 16 100).
Proof.
  intros c r. split; [| split; [| split]]; [.. | reflexivity];
    apply (HCPsetup_szip_parms_scanline 128 4096 (fun _ => 2) c 22 1 2 [100; 100]
             (Some [10; 10])); evaluated.
Defined.

End SzipParmsWitness.

(** ** Plain elements and the file layer *)

Section FileLayer.

Import Hfile.

Lemma uint32_small z : 0 <= z <= Int32.max_signed -> uint32 z = z.
Proof.
  unfold uint32, Int32.max_signed. intros H. apply Z.mod_small. lia.
Qed.

Lemma fileop_eqb_eq a b : fileop_eqb a b = true <-> a = b.
Proof. destruct a, b; simpl; split; intros; congruence. Qed.

Lemma fileop_eqb_neq a b : fileop_eqb a b = false <-> a <> b.
Proof. destruct a, b; simpl; split; intros; congruence. Qed.

Lemma same_rest_trans r1 r2 r3 : same_rest r1 r2 -> same_rest r2 r3 -> same_rest r1 r3.
Proof. unfold same_rest. intros (? & ? & ? & ?) (? & ? & ? & ?). repeat split; congruence. Qed.

Lemma at_offset_synced r off :
  at_offset r off -> 0 <= off <= Int32.max_signed -> synced r.
Proof.
  intros (Hd & Hc & Hp & Hl & _) Ho. split; [done|]. split; [lia|]. right. split; [done|lia].
Qed.

Lemma HPseek_spec r off :
  synced r -> 0 <= off <= Int32.max_signed ->
  exists r', HPseek r off = (SUCCEED (), r') /\ at_offset r' off /\
    contents (file r') = contents (file r) /\ same_rest r r' /\
    (last_op r' = last_op r \/ last_op r' = H4_OP_SEEK).
Proof.
  intros (Hd & Hc & Hs) Ho. unfold HPseek. rewrite (uint32_small off) by done.
  destruct (negb (f_cur_off r =? off) || fileop_eqb (last_op r) H4_OP_UNKNOWN) eqn:E.
  - unfold HI_SEEK. destruct (off <? 0) eqn:E0; [lia|].
    eexists. split; [done|]. unfold at_offset, same_rest. simpl. by repeat split; auto.
  - apply orb_false_iff in E as [E1 E2].
    apply negb_false_iff, Z.eqb_eq in E1. apply fileop_eqb_neq in E2.
    destruct Hs as [Hs|[Hs1 Hs2]]; [done|].
    exists r. split; [done|]. unfold at_offset, same_rest. repeat split; auto; lia.
Qed.

Lemma HP_read_got r n :
  synced r -> 0 <= n -> f_cur_off r + n <= Int32.max_signed ->
  Z.of_nat (length (take (Z.to_nat n) (drop (Z.to_nat (f_cur_off r)) (contents (file r))))) = n ->
  exists r',
    HP_read r n
    = (SUCCEED (take (Z.to_nat n) (drop (Z.to_nat (f_cur_off r)) (contents (file r)))), r') /\
    at_offset r' (f_cur_off r + n) /\ last_op r' = H4_OP_READ /\
    contents (file r') = contents (file r) /\ same_rest r r'.
Proof.
  intros Hs Hn Hlen Hgot. pose proof Hs as (Hd & Hc & Hl).
  unfold HP_read.
  destruct (fileop_eqb (last_op r) H4_OP_WRITE || fileop_eqb (last_op r) H4_OP_UNKNOWN) eqn:E.
  - unfold HPseek. cbn [with_last_op last_op file f_cur_off]. rewrite orb_true_r.
    rewrite wrap_small by (apply in_range_nonneg; lia).
    unfold HI_SEEK. destruct (f_cur_off r <? 0) eqn:E0; [lia|].
    unfold HI_READ. cbn [with_cur file contents position last_io defined f_cur_off fileop_eqb].
    destruct (n <? 0) eqn:En; [lia|]. rewrite Hgot. rewrite Z.eqb_refl. cbn [negb andb].
    rewrite (uint32_small (f_cur_off r)) by lia. rewrite uint32_small by lia.
    eexists. split; [done|]. unfold at_offset, same_rest. simpl.
    rewrite Hd. repeat split; auto.
  - apply orb_false_iff in E as [E1 E2]. apply fileop_eqb_neq in E1, E2.
    destruct Hl as [Hl|[Hl1 Hl2]]; [done|].
    unfold HI_READ. rewrite Hl2. destruct (n <? 0) eqn:En; [lia|].
    rewrite Hgot. rewrite Z.eqb_refl. cbn [negb andb].
    rewrite uint32_small by lia.
    eexists. split; [done|]. unfold at_offset, same_rest. simpl.
    rewrite Hd. rewrite <- Hl1. apply fileop_eqb_neq in E1. rewrite E1.
    repeat split; auto.
Qed.

Lemma HP_read_spec r n :
  synced r -> 0 <= n ->
  f_cur_off r + n <= Z.of_nat (length (contents (file r))) <= Int32.max_signed ->
  exists r',
    HP_read r n
    = (SUCCEED (take (Z.to_nat n) (drop (Z.to_nat (f_cur_off r)) (contents (file r)))), r') /\
    at_offset r' (f_cur_off r + n) /\ last_op r' = H4_OP_READ /\
    contents (file r') = contents (file r) /\ same_rest r r'.
Proof.
  intros Hs Hn Hlen. pose proof Hs as (Hd & Hc & Hl).
  apply HP_read_got; try done; try lia. rewrite length_take, length_drop. lia.
Qed.

(** A read that does not find its bytes fails. *)
Lemma HP_read_short r n :
  synced r ->
  n < 0 \/
  Z.of_nat (length (take (Z.to_nat n) (drop (Z.to_nat (f_cur_off r)) (contents (file r))))) <> n ->
  exists r', HP_read r n = (FAIL DFE_READERROR, r').
Proof.
  intros Hs Hgot. pose proof Hs as (Hd & Hc & Hl).
  assert (Hf : forall f, position f = f_cur_off r -> contents f = contents (file r) ->
    (HI_READ f n).1.1 = false).
  { intros f Hp Hcf. unfold HI_READ. rewrite Hp, Hcf. cbn [fst].
    destruct (n <? 0) eqn:En; [done|]. cbn [negb andb]. apply Z.eqb_neq. lia. }
  unfold HP_read.
  destruct (fileop_eqb (last_op r) H4_OP_WRITE || fileop_eqb (last_op r) H4_OP_UNKNOWN) eqn:E.
  - unfold HPseek. cbn [with_last_op last_op file f_cur_off]. rewrite orb_true_r.
    rewrite wrap_small by (apply in_range_nonneg; lia).
    unfold HI_SEEK. destruct (f_cur_off r <? 0) eqn:E0; [lia|].
    cbn [with_cur file].
    match goal with |- context [HI_READ ?f n] =>
      specialize (Hf f eq_refl eq_refl); destruct (HI_READ f n) as [[ok got] f'] end.
    cbn [fst] in Hf. subst ok. by eexists.
  - apply orb_false_iff in E as [E1 E2]. apply fileop_eqb_neq in E1, E2.
    destruct Hl as [Hl|[Hl1 Hl2]]; [done|].
    specialize (Hf (file r) Hl2 eq_refl). destruct (HI_READ (file r) n) as [[ok got] f'].
    cbn [fst] in Hf. subst ok. by eexists.
Qed.

Lemma HP_write_got r buf n :
  synced r -> 0 <= n ->
  exists r',
    HP_write r buf n = (SUCCEED (), r') /\
    defined (file r') = true /\ f_cur_off r' = uint32 (f_cur_off r + n) /\
    position (file r') = f_cur_off r + n /\
    last_op r' = last_io (file r') /\ last_op r' = H4_OP_WRITE /\
    contents (file r')
    = fwrite_at (contents (file r)) (f_cur_off r) (take (Z.to_nat n) buf) /\
    same_rest r r'.
Proof.
  intros Hs Hn. pose proof Hs as (Hd & Hc & Hl).
  unfold HP_write.
  destruct (fileop_eqb (last_op r) H4_OP_READ || fileop_eqb (last_op r) H4_OP_UNKNOWN) eqn:E.
  - unfold HPseek. cbn [with_last_op last_op file f_cur_off]. rewrite orb_true_r.
    rewrite wrap_small by (apply in_range_nonneg; lia).
    unfold HI_SEEK. destruct (f_cur_off r <? 0) eqn:E0; [lia|].
    unfold HI_WRITE. cbn [with_cur file contents position last_io defined f_cur_off fileop_eqb].
    destruct (n <? 0) eqn:En; [lia|].
    rewrite (uint32_small (f_cur_off r)) by lia.
    eexists. split; [done|]. unfold same_rest. simpl.
    rewrite Hd. repeat split; auto.
  - apply orb_false_iff in E as [E1 E2]. apply fileop_eqb_neq in E1, E2.
    destruct Hl as [Hl|[Hl1 Hl2]]; [done|].
    unfold HI_WRITE. rewrite Hl2. destruct (n <? 0) eqn:En; [lia|].
    eexists. split; [done|]. unfold same_rest. simpl.
    rewrite Hd. rewrite <- Hl1. apply fileop_eqb_neq in E1. rewrite E1.
    repeat split; auto.
Qed.

Lemma HP_write_spec r buf n :
  synced r -> 0 <= n -> f_cur_off r + n <= Int32.max_signed ->
  exists r',
    HP_write r buf n = (SUCCEED (), r') /\
    at_offset r' (f_cur_off r + n) /\ last_op r' = H4_OP_WRITE /\
    contents (file r')
    = fwrite_at (contents (file r)) (f_cur_off r) (take (Z.to_nat n) buf) /\
    same_rest r r'.
Proof.
  intros Hs Hn Hlen. pose proof Hs as (Hd & Hc & Hl).
  destruct (HP_write_got r buf n Hs Hn) as (r' & H & H1 & H2 & H3 & H4 & H5 & H6 & H7).
  rewrite uint32_small in H2 by lia.
  exists r'. split; [done|]. unfold at_offset.
  repeat split; auto; try apply H7; congruence.
Qed.

Lemma length_fwrite_at c pos buf :
  0 <= pos ->
  Z.of_nat (length (fwrite_at c pos buf))
  = Z.max (Z.of_nat (length c)) (pos + Z.of_nat (length buf)).
Proof.
  intros Hp. unfold fwrite_at, zero_bytes.
  rewrite !length_app, length_take, length_replicate, length_drop. lia.
Qed.

Lemma HPseek_negative r off :
  synced r -> Int32.in_range off -> off < 0 ->
  exists r', HPseek r off = (FAIL DFE_SEEKERROR, r').
Proof.
  intros (Hd & Hc & Hl) Hr Ho. unfold HPseek.
  assert ((f_cur_off r =? uint32 off) = false) as ->.
  { apply Z.eqb_neq. unfold uint32. unfold Int32.in_range, Int32.min_signed, Int32.max_signed in *.
    replace (off mod 2 ^ 32) with (off + 2 ^ 32); [lia|].
    apply Z.mod_unique with (-1); lia. }
  cbn [negb orb]. unfold HI_SEEK. destruct (off <? 0) eqn:E; [|lia]. by eexists.
Qed.

Lemma hp_step_synced o r r' :
  synced r -> small r -> hp_int32 o -> hp_step o r = (true, r') ->
  (Z.of_nat (length (contents (file r))) <= Z.of_nat (length (contents (file r'))))%Z /\
  (small r' -> synced r').
Proof.
  intros Hs Hsm Ho H. pose proof Hs as (Hd & Hc & Hl).
  destruct o as [off|n|buf]; cbn [hp_step hp_int32] in *.
  - destruct (Z.lt_ge_cases off 0) as [Hneg|Hpos].
    + destruct (HPseek_negative r off Hs Ho Hneg) as (r1 & E). by rewrite E in H.
    + destruct (HPseek_spec r off Hs) as (r1 & E & Hat & Hcn & _).
      { unfold Int32.in_range in Ho. lia. }
      rewrite E in H. injection H as <-. rewrite Hcn. split; [lia|]. intros _.
      apply (at_offset_synced _ off); [done|]. unfold Int32.in_range in Ho. lia.
  - set (got := take (Z.to_nat n) (drop (Z.to_nat (f_cur_off r)) (contents (file r)))).
    destruct (decide (0 <= n /\ Z.of_nat (length got) = n)) as [[Hn Hg]|Hbad].
    + assert (f_cur_off r + n <= Int32.max_signed).
      { subst got. rewrite length_take, length_drop in Hg. unfold small in Hsm. lia. }
      destruct (HP_read_got r n Hs Hn ltac:(done) Hg) as (r1 & E & Hat & _ & Hcn & _).
      rewrite E in H. injection H as <-. rewrite Hcn. split; [lia|]. intros _.
      apply (at_offset_synced _ _ Hat). lia.
    + destruct (HP_read_short r n Hs) as (r1 & E).
      { fold got. lia. }
      by rewrite E in H.
  - destruct (HP_write_got r buf (Z.of_nat (length buf)) Hs ltac:(lia))
      as (r1 & E & H1 & H2 & H3 & H4 & H5 & H6 & _).
    rewrite E in H. injection H as <-.
    rewrite H6, length_fwrite_at by lia. split; [lia|].
    unfold small. rewrite H6, length_fwrite_at by lia. rewrite length_take. intros Hsm'.
    rewrite uint32_small in H2 by lia.
    split; [done|]. split; [lia|]. right. split; [done|lia].
Qed.

Lemma HPseek_contents r off : contents (file (HPseek r off).2) = contents (file r).
Proof.
  unfold HPseek, HI_SEEK.
  by destruct (negb (f_cur_off r =? uint32 off) || fileop_eqb (last_op r) H4_OP_UNKNOWN),
    (off <? 0).
Qed.

Lemma HP_read_contents r n : contents (file (HP_read r n).2) = contents (file r).
Proof.
  unfold HP_read.
  destruct (fileop_eqb (last_op r) H4_OP_WRITE || fileop_eqb (last_op r) H4_OP_UNKNOWN).
  - pose proof (HPseek_contents (with_last_op H4_OP_UNKNOWN r) (Int32.wrap (f_cur_off r))) as H.
    destruct (HPseek _ _) as [[u|e|] r1]; cbn [snd] in *; try done.
    unfold HI_READ. cbn [with_cur file]. by destruct (_ && _).
  - unfold HI_READ. by destruct (_ && _).
Qed.

Lemma fwrite_at_grows c pos buf :
  (length c <= length (fwrite_at c pos buf))%nat.
Proof.
  unfold fwrite_at, zero_bytes.
  rewrite !length_app, length_take, length_replicate, length_drop. lia.
Qed.

Lemma HP_write_grows r buf n :
  (length (contents (file r)) <= length (contents (file (HP_write r buf n).2)))%nat.
Proof.
  assert (Hw : forall f, (length (contents f) <= length (contents (HI_WRITE f buf n).2))%nat).
  { intros f. unfold HI_WRITE. destruct (n <? 0); cbn [snd contents]; [lia|].
    apply fwrite_at_grows. }
  unfold HP_write.
  destruct (fileop_eqb (last_op r) H4_OP_READ || fileop_eqb (last_op r) H4_OP_UNKNOWN).
  - pose proof (HPseek_contents (with_last_op H4_OP_UNKNOWN r) (Int32.wrap (f_cur_off r))) as H.
    destruct (HPseek _ _) as [[u|e|] r1]; cbn [snd with_last_op file] in *; try (rewrite H; lia).
    specialize (Hw (file r1)). rewrite H in Hw.
    by destruct (HI_WRITE (file r1) buf n) as [[|] f].
  - specialize (Hw (file r)). by destruct (HI_WRITE (file r) buf n) as [[|] f].
Qed.

Lemma hp_step_grows o r :
  (length (contents (file r)) <= length (contents (file (hp_step o r).2)))%nat.
Proof.
  destruct o as [off|n|buf]; cbn [hp_step].
  - pose proof (HPseek_contents r off) as H.
    destruct (HPseek r off) as [[u|e|] r1]; cbn [snd] in *; rewrite H; lia.
  - pose proof (HP_read_contents r n) as H.
    destruct (HP_read r n) as [[u|e|] r1]; cbn [snd] in *; rewrite H; lia.
  - pose proof (HP_write_grows r buf (Z.of_nat (length buf))) as H.
    by destruct (HP_write r buf _) as [[u|e|] r1].
Qed.

Lemma hp_run_grows os : forall r,
  (length (contents (file r)) <= length (contents (file (hp_run os r).2)))%nat.
Proof.
  induction os as [|o os IH]; intros r; cbn [hp_run snd]; [lia|].
  pose proof (hp_step_grows o r) as H.
  destruct (hp_step o r) as [[|] r1]; cbn [snd] in *; [|done].
  specialize (IH r1). lia.
Qed.

(** X16.  In a run of calls of [HPseek], [HP_read] and [HP_write] with
    [int32] arguments that all succeed, on a file that stays below 2 GiB:
    when the seek cache of the file record agrees with the stream before
    the run, it does after it.  So a seek that [HPseek] leaves out is one
    the stream does not need, and the stream never sees input directly
    after output, or output directly after input. *)
Theorem hp_run_keeps_seek_cache (os : list hp_op) (r r' : filerec_t) :
  synced r -> Forall hp_int32 os -> hp_run os r = (true, r') -> small r' ->
  synced r'.
Proof.
  revert r. induction os as [|o os IH]; intros r Hs Hos H Hsm; cbn [hp_run] in H.
  - by injection H as <-.
  - apply Forall_cons in Hos as [Ho Hos].
    destruct (hp_step o r) as [[|] r1] eqn:E; [|done].
    pose proof (hp_run_grows os r1) as Hg1. rewrite H in Hg1. cbn [snd] in Hg1.
    pose proof (hp_step_grows o r) as Hg. rewrite E in Hg. cbn [snd] in Hg.
    unfold small in *.
    destruct (hp_step_synced o r r1 Hs ltac:(unfold small; lia) Ho E) as [_ Hs1].
    apply (IH r1); auto. apply Hs1. unfold small. lia.
Qed.

(** ** Plain elements *)

Lemma element_window (c : bytes) (off len p n : nat) :
  (p + n <= len)%nat ->
  take n (drop p (take len (drop off c))) = take n (drop (off + p) c).
Proof.
  intros H. rewrite <- drop_drop. rewrite !take_drop_commute, take_take.
  by rewrite Nat.min_l by lia.
Qed.

Lemma Hread_spec length s :
  plain s -> 0 <= length -> length + posn s.1 <= Int32.max_signed ->
  let n :=
    if (length =? 0) || (dd_length (ddid s.1) - posn s.1 <? length)
    then dd_length (ddid s.1) - posn s.1 else length in
  exists s',
    Hread length s
    = (SUCCEED (n, take (Z.to_nat n) (drop (Z.to_nat (posn s.1)) (element s))), s') /\
    plain s' /\ posn s'.1 = posn s.1 + n /\
    ddid s'.1 = ddid s.1 /\ appendable s'.1 = appendable s.1 /\ access s'.1 = access s.1 /\
    contents (file s'.2) = contents (file s.2) /\ same_rest s.2 s'.2.
Proof.
  intros [Hsp Hold Hopen Hs Hsm Hoff Hposn Hin] Hlen Hsum n.
  destruct s as [a r]. cbn [fst snd] in *. unfold small in Hsm.
  assert (Hn : 0 <= n <= dd_length (ddid a) - posn a).
  { subst n. destruct (length =? 0) eqn:E0; cbn [orb]; [lia|].
    destruct (dd_length (ddid a) - posn a <? length) eqn:E1; lia. }
  unfold Hread. rewrite Hold, Hsp, Hopen. cbn [Z.eqb negb].
  destruct (length <? 0) eqn:E; [lia|].
  rewrite add_small by (apply in_range_nonneg; lia).
  destruct (HPseek_spec r (posn a + dd_offset (ddid a)) Hs ltac:(lia))
    as (r1 & -> & Hat & Hc1 & Hr1 & _).
  rewrite add_small by (apply in_range_nonneg; lia).
  rewrite sub_small by (apply in_range_nonneg; lia).
  replace (dd_length (ddid a) <? length + posn a)
    with (dd_length (ddid a) - posn a <? length) by lia.
  fold n.
  pose proof Hat as (_ & Hcur & _).
  destruct (HP_read_spec r1 n) as (r2 & E2 & Hat2 & _ & Hc2 & Hr2).
  { apply (at_offset_synced _ _ Hat). lia. }
  { lia. }
  { rewrite Hc1, Hcur. lia. }
  rewrite E2. rewrite add_small by (apply in_range_nonneg; lia).
  eexists. split.
  { f_equal. f_equal. f_equal. rewrite Hcur, Hc1. unfold element. cbn [fst snd].
    rewrite element_window by lia. f_equal. f_equal. lia. }
  assert (Hr : same_rest r r2) by (by eapply same_rest_trans).
  cbn [fst snd with_posn posn ddid appendable access].
  split; [|repeat split; try done; try apply Hr; congruence].
  split; cbn [fst snd with_posn posn ddid special new_elem]; auto; try lia.
  - unfold BADFREC in *. by destruct Hr as (-> & _).
  - apply (at_offset_synced _ _ Hat2). rewrite Hcur. lia.
  - unfold small. rewrite Hc2, Hc1. lia.
  - rewrite Hc2, Hc1. lia.
Qed.

Lemma Hseek_spec conv offset origin s :
  plain s ->
  (origin = DF_START \/ origin = DF_CURRENT \/ origin = DF_END) ->
  let o :=
    offset + (if origin =? DF_CURRENT then posn s.1 else 0)
    + (if origin =? DF_END then dd_length (ddid s.1) else 0) in
  0 <= o < dd_length (ddid s.1) ->
  Int32.in_range (dd_length (ddid s.1)) ->
  exists a', Hseek conv offset origin s = (SUCCEED (), (a', s.2)) /\
    plain (a', s.2) /\ posn a' = o /\ ddid a' = ddid s.1 /\
    appendable a' = appendable s.1 /\ access a' = access s.1.
Proof.
  intros Hp Hor o Ho Hlen. pose proof Hp as [Hsp Hold Hopen Hs Hsm Hoff Hposn Hin].
  destruct s as [a r]. cbn [fst snd] in *. unfold Hseek.
  assert (negb (origin =? DF_START) && negb (origin =? DF_CURRENT) && negb (origin =? DF_END)
          = false) as ->.
  { unfold DF_START, DF_CURRENT, DF_END in *. by destruct Hor as [->|[->| ->]]. }
  rewrite Hsp. cbn [Z.eqb negb].
  set (o1 := if origin =? DF_CURRENT then offset +i posn a else offset).
  set (o2 := if origin =? DF_END then o1 +i dd_length (ddid a) else o1).
  assert (o2 = o) as ->.
  { subst o1 o2. unfold Int32.in_range, Int32.min_signed in Hlen.
    destruct Hor as [->|[->| ->]]; subst o; cbv [DF_START DF_CURRENT DF_END Z.eqb Pos.eqb] in *;
      rewrite ?add_small by (unfold Int32.in_range, Int32.min_signed; lia); lia. }
  destruct (o =? posn a) eqn:E.
  - apply Z.eqb_eq in E. exists a. by rewrite E.
  - destruct (o <? 0) eqn:E0; [lia|]. cbn [orb].
    destruct (dd_length (ddid a) <? o) eqn:E1; [lia|]. rewrite andb_false_r.
    destruct (dd_length (ddid a) <=? o) eqn:E2; [lia|]. rewrite andb_false_r. cbn [andb].
    exists (with_posn o a). split; [done|]. split; [|by cbn].
    split; cbn [fst snd with_posn posn ddid special new_elem]; auto; lia.
Qed.

Lemma length_fwrite_inside (c : bytes) pos buf :
  0 <= pos -> pos + Z.of_nat (length buf) <= Z.of_nat (length c) ->
  length (fwrite_at c pos buf) = length c.
Proof.
  intros H1 H2. apply Nat2Z.inj. rewrite length_fwrite_at by done. lia.
Qed.

Lemma fwrite_inside (c : bytes) pos buf :
  0 <= pos -> pos + Z.of_nat (length buf) <= Z.of_nat (length c) ->
  fwrite_at c pos buf
  = take (Z.to_nat pos) c ++ buf ++ drop (Z.to_nat pos + length buf) c.
Proof.
  intros H1 H2. unfold fwrite_at, zero_bytes.
  by replace (Z.to_nat (pos - Z.of_nat (length c))) with 0%nat by lia.
Qed.

Lemma Hwrite_in_place temp conv length data s :
  plain s -> Z.land (access s.1) DFACC_WRITE <> 0 ->
  0 < length -> posn s.1 + length <= dd_length (ddid s.1) ->
  exists s',
    Hwrite temp conv length data s = (SUCCEED length, s') /\
    plain s' /\ posn s'.1 = posn s.1 + length /\
    ddid s'.1 = ddid s.1 /\ appendable s'.1 = appendable s.1 /\ access s'.1 = access s.1 /\
    contents (file s'.2)
    = fwrite_at (contents (file s.2)) (dd_offset (ddid s.1) + posn s.1)
        (take (Z.to_nat length) data).
Proof.
  intros [Hsp Hold Hopen Hs Hsm Hoff Hposn Hin] Hacc Hlen Hsum.
  destruct s as [a r]. cbn [fst snd] in *. unfold small in Hsm.
  unfold Hwrite. apply Z.eqb_neq in Hacc. rewrite Hacc, Hsp, Hopen, Hold. cbn [Z.eqb negb].
  destruct (length <=? 0) eqn:E; [lia|]. cbn [orb].
  rewrite add_small by (apply in_range_nonneg; lia).
  destruct (dd_length (ddid a) <? length + posn a) eqn:E1; [lia|].
  rewrite !andb_false_r. cbn [andb].
  rewrite add_small by (apply in_range_nonneg; lia).
  destruct (HPseek_spec r (posn a + dd_offset (ddid a)) Hs ltac:(lia))
    as (r1 & -> & Hat & Hc1 & Hr1 & _).
  pose proof Hat as (_ & Hcur & _).
  destruct (HP_write_spec r1 data length) as (r2 & E2 & Hat2 & _ & Hc2 & Hr2).
  { apply (at_offset_synced _ _ Hat). lia. }
  { lia. }
  { rewrite Hcur. lia. }
  rewrite E2. rewrite add_small by (apply in_range_nonneg; lia).
  assert (Hr : same_rest r r2) by (by eapply same_rest_trans).
  rewrite Hcur, Hc1 in Hc2.
  replace (posn a + dd_offset (ddid a)) with (dd_offset (ddid a) + posn a) in Hc2 by lia.
  assert (Hsz : Datatypes.length (contents (file r2)) = Datatypes.length (contents (file r))).
  { rewrite Hc2. apply length_fwrite_inside; [lia|]. rewrite length_take. lia. }
  pose proof Hat2 as (Hd2 & Hcur2 & Hp2 & Hl2 & Hn2).
  eexists. split; [done|].
  set (r3 := if f_end_off r2 <? f_cur_off r2 then _ else r2).
  assert (H3 : file r3 = file r2 /\ refcount r3 = refcount r2 /\ f_cur_off r3 = f_cur_off r2
               /\ last_op r3 = last_op r2).
  { subst r3. by destruct (f_end_off r2 <? f_cur_off r2). }
  destruct H3 as (Hf3 & Hrc3 & Hcur3 & Hl3).
  cbn [fst snd with_posn posn ddid appendable access].
  split; [|by rewrite Hf3].
  split; cbn [fst snd with_posn posn ddid special new_elem]; auto; try lia.
  - unfold BADFREC in *. rewrite Hrc3. by destruct Hr as (-> & _).
  - unfold synced. rewrite Hf3, Hcur3, Hl3. split; [done|]. split; [lia|]. right.
    split; [done|lia].
  - unfold small. rewrite Hf3, Hsz. lia.
  - rewrite Hf3, Hsz. lia.
Qed.

Lemma split_window (c : bytes) (off len p n : nat) :
  (off + len <= length c)%nat -> (p + n <= len)%nat ->
  exists A E1 E2 E3 B, c = A ++ E1 ++ E2 ++ E3 ++ B /\
    length A = off /\ length E1 = p /\ length E2 = n /\ length E3 = (len - p - n)%nat.
Proof.
  intros H1 H2.
  exists (take off c), (take p (drop off c)), (take n (drop (off + p) c)),
    (take (len - p - n) (drop (off + p + n) c)), (drop (off + len) c).
  rewrite !length_take, !length_drop. repeat split; try lia.
  rewrite <- (take_drop off c) at 1. f_equal.
  rewrite <- (take_drop p (drop off c)) at 1. f_equal. rewrite drop_drop.
  rewrite <- (take_drop n (drop (off + p) c)) at 1. f_equal. rewrite drop_drop.
  rewrite <- (take_drop (len - p - n) (drop (off + p + n) c)) at 1. f_equal.
  rewrite drop_drop. f_equal. lia.
Qed.

Lemma fwrite_window (A E1 E2 E3 B buf : bytes) :
  length buf = length E2 ->
  fwrite_at (A ++ E1 ++ E2 ++ E3 ++ B) (Z.of_nat (length A + length E1)) buf
  = A ++ E1 ++ buf ++ E3 ++ B.
Proof.
  intros H. rewrite fwrite_inside; [|lia|rewrite !length_app; lia].
  rewrite Nat2Z.id.
  assert (take (length A + length E1) (A ++ E1 ++ E2 ++ E3 ++ B) = A ++ E1) as ->.
  { rewrite (app_assoc A E1). apply take_app_length'. rewrite length_app. lia. }
  assert (drop (length A + length E1 + length buf) (A ++ E1 ++ E2 ++ E3 ++ B) = E3 ++ B) as ->.
  { rewrite (app_assoc A E1), (app_assoc (A ++ E1) E2). apply drop_app_length'.
    rewrite !length_app. lia. }
  by rewrite <- app_assoc.
Qed.

Lemma element_window_app (A E1 E2 E3 B : bytes) :
  take (length E1 + length E2 + length E3) (drop (length A) (A ++ E1 ++ E2 ++ E3 ++ B))
  = E1 ++ E2 ++ E3.
Proof.
  rewrite drop_app_length.
  rewrite (app_assoc E2), (app_assoc E1). rewrite take_app_length'; [|rewrite !length_app; lia].
  done.
Qed.

(** X17.  [Hread] on a plain element, for a length whose sum with the
    position is an [int32], returns bytes of the element only: from the
    position on, [length] of them, or all that are left when [length] is 0
    or more than what is left; the position moves on by as much, and
    neither the file nor the descriptor changes.  When length plus
    position exceeds [int32], the test [length + posn > data_len] wraps to
    a negative sum, nothing is clamped, and the read of [length] bytes
    from a file below 2 GiB comes up short: [Hread] fails with
    [DFE_READERROR], returns no count, and leaves the position, the
    descriptor and the contents of the file as they were. *)
Theorem Hread_stays_in_element (length : Z) (s : state) :
  plain s -> 0 <= length <= Int32.max_signed ->
  let left := dd_length (ddid s.1) - posn s.1 in
  let n := if (length =? 0) || (left <? length) then left else length in
  (length + posn s.1 <= Int32.max_signed ->
   exists s',
     Hread length s
     = (SUCCEED (n, take (Z.to_nat n) (drop (Z.to_nat (posn s.1)) (element s))), s') /\
     plain s' /\ posn s'.1 = posn s.1 + n /\ ddid s'.1 = ddid s.1 /\
     contents (file s'.2) = contents (file s.2)) /\
  (Int32.max_signed < length + posn s.1 ->
   exists s',
     Hread length s = (FAIL DFE_READERROR, s') /\
     posn s'.1 = posn s.1 /\ ddid s'.1 = ddid s.1 /\
     contents (file s'.2) = contents (file s.2)).
Proof.
  intros Hp Hlen left n. split.
  - intros Hsum.
    destruct (Hread_spec length s Hp ltac:(lia) Hsum)
      as (s' & H & Hp' & Hposn & Hdd & _ & _ & Hc & _).
    by exists s'.
  - intros Hbig. pose proof Hp as [Hsp Hold Hopen Hs Hsm Hoff Hposn Hin].
    destruct s as [a r]. cbn [fst snd] in *. unfold small in Hsm.
    unfold Hread. rewrite Hold, Hsp, Hopen. cbn [Z.eqb negb].
    replace (length <? 0) with false by (symmetry; apply Z.ltb_ge; lia).
    rewrite add_small by (apply in_range_nonneg; lia).
    destruct (HPseek_spec r (posn a + dd_offset (ddid a)) Hs ltac:(lia))
      as (r1 & -> & Hat & Hc1 & Hr1 & _).
    pose proof Hat as (_ & Hcur & _).
    assert (Hs1 : synced r1) by (apply (at_offset_synced _ _ Hat); lia).
    assert ((length =? 0) = false) as -> by (apply Z.eqb_neq; lia). cbn [orb].
    assert (Hwrap : length +i posn a = length + posn a - 2 ^ 32).
    { unfold Int32.add, Int32.wrap, Int32.max_signed in *.
      rewrite <- (Z.mod_unique (length + posn a + 2 ^ 31) (2 ^ 32) 1
                    (length + posn a - 2 ^ 31)); lia. }
    replace (dd_length (ddid a) <? length +i posn a) with false
      by (symmetry; apply Z.ltb_ge; rewrite Hwrap; unfold Int32.max_signed in *; lia).
    pose proof (HP_read_contents r1 length) as Hc2.
    destruct (HP_read_short r1 length Hs1) as (r2 & E2).
    { right. rewrite length_take, length_drop, Hc1, Hcur. lia. }
    rewrite E2 in Hc2 |- *. cbn [fst snd] in *.
    eexists. split; [done|]. cbn [fst snd]. split; [done|]. split; [done|]. congruence.
Qed.

(** X18.  An [Hwrite] that stays inside a plain element, an [Hseek] back
    by its length and an [Hread] of the same length: all three succeed and
    the read returns the bytes written.  The write changes these bytes of
    the element and no other byte of the file, and leaves the descriptor as
    it is. *)
Theorem Hwrite_Hseek_Hread
    (temp : Byte.byte) (conv : accrec_t -> filerec_t -> bool)
    (length : Z) (data : bytes) (s : state) :
  plain s -> Z.land (access s.1) DFACC_WRITE <> 0 ->
  0 < length <= Z.of_nat (Datatypes.length data) ->
  posn s.1 + length <= dd_length (ddid s.1) ->
  let off := Z.to_nat (dd_offset (ddid s.1)) in
  let len := Z.to_nat (dd_length (ddid s.1)) in
  let p := Z.to_nat (posn s.1) in
  let n := Z.to_nat length in
  exists s1 s2 s3,
    Hwrite temp conv length data s = (SUCCEED length, s1) /\
    Hseek conv (- length) DF_CURRENT s1 = (SUCCEED (), s2) /\
    Hread length s2 = (SUCCEED (length, take n data), s3) /\
    element s1 = take p (element s) ++ take n data ++ drop (p + n) (element s) /\
    take off (contents (file s1.2)) = take off (contents (file s.2)) /\
    drop (off + len) (contents (file s1.2)) = drop (off + len) (contents (file s.2)) /\
    ddid s1.1 = ddid s.1.
Proof.
  intros Hp Hacc Hlen Hsum off len p n.
  pose proof Hp as [Hsp Hold Hopen Hs Hsm Hoff Hposn Hin]. unfold small in Hsm.
  destruct (Hwrite_in_place temp conv length data s Hp Hacc ltac:(lia) Hsum)
    as (s1 & E1 & Hp1 & Hposn1 & Hdd1 & Happ1 & Hacc1 & Hc1).
  destruct (Hseek_spec conv (- length) DF_CURRENT s1 Hp1 ltac:(auto))
    as (a2 & E2 & Hp2 & Hposn2 & Hdd2 & _).
  { cbv [DF_CURRENT DF_END Z.eqb Pos.eqb]. rewrite Hposn1, Hdd1. lia. }
  { rewrite Hdd1. apply in_range_nonneg. lia. }
  cbv [DF_CURRENT DF_END Z.eqb Pos.eqb] in Hposn2.
  destruct (Hread_spec length (a2, s1.2) Hp2 ltac:(lia)) as (s3 & E3 & _).
  { cbn [fst]. rewrite Hposn2, Hposn1. lia. }
  cbn [fst snd] in E3. rewrite Hdd2, Hdd1, Hposn2, Hposn1 in E3.
  replace (- length + (posn s.1 + length) + 0) with (posn s.1) in E3 by lia.
  assert ((length =? 0) || (dd_length (ddid s.1) - posn s.1 <? length) = false) as Hn.
  { apply orb_false_iff. split; [apply Z.eqb_neq|apply Z.ltb_ge]; lia. }
  rewrite Hn in E3. fold n p in E3.
  destruct (split_window (contents (file s.2)) off len p n)
    as (A & B1 & B2 & B3 & B & Hc & HA & HB1 & HB2 & HB3); [lia..|].
  set (buf := take n data) in *.
  assert (Hbuf : Datatypes.length buf = n) by (subst buf; rewrite length_take; lia).
  assert (Hc1' : contents (file s1.2) = A ++ B1 ++ buf ++ B3 ++ B).
  { rewrite Hc1, Hc. fold n buf.
    replace (dd_offset (ddid s.1) + posn s.1)
      with (Z.of_nat (Datatypes.length A + Datatypes.length B1)) by lia.
    apply fwrite_window. lia. }
  assert (He : element s = B1 ++ B2 ++ B3).
  { unfold element. fold off len. rewrite Hc.
    replace len with (Datatypes.length B1 + Datatypes.length B2 + Datatypes.length B3)%nat
      by lia.
    rewrite <- HA. apply element_window_app. }
  assert (He1 : element s1 = B1 ++ buf ++ B3).
  { unfold element. rewrite Hdd1. fold off len. rewrite Hc1'.
    replace len with (Datatypes.length B1 + Datatypes.length buf + Datatypes.length B3)%nat
      by lia.
    rewrite <- HA. apply element_window_app. }
  exists s1, (a2, s1.2), s3. split; [done|]. split; [done|]. split.
  { rewrite E3. do 3 f_equal.
    replace (element (a2, s1.2)) with (element s1)
      by (unfold element; cbn [fst snd]; by rewrite Hdd2).
    rewrite He1. rewrite drop_app_length' by lia. by rewrite take_app_length' by lia. }
  split.
  { rewrite He1, He. rewrite take_app_length' by lia.
    rewrite (app_assoc B1 B2). rewrite drop_app_length'; [done|]. rewrite length_app. lia. }
  split.
  { rewrite Hc1', Hc. by rewrite !take_app_length' by lia. }
  split; [|done].
  rewrite Hc1', Hc.
  rewrite (app_assoc B1 buf), (app_assoc (B1 ++ buf) B3), (app_assoc A).
  rewrite (app_assoc B1 B2), (app_assoc (B1 ++ B2) B3), (app_assoc A (_ ++ B3)).
  rewrite !drop_app_length'; try done; rewrite !length_app; lia.
Qed.

(** ** New elements and appending *)

Lemma fwrite_at_end (c X buf : bytes) :
  (length X <= length buf)%nat ->
  fwrite_at (c ++ X) (Z.of_nat (length c)) buf = c ++ buf.
Proof.
  intros H. unfold fwrite_at, zero_bytes. rewrite Nat2Z.id.
  rewrite take_app_length. rewrite drop_ge by (rewrite length_app; lia).
  replace (Z.to_nat _) with 0%nat by (rewrite length_app; lia).
  by rewrite app_nil_r.
Qed.

Lemma HPgetdiskblock_spec temp r block_size :
  synced r -> 0 < block_size ->
  f_end_off r = Z.of_nat (length (contents (file r))) ->
  f_end_off r + block_size <= Int32.max_signed ->
  exists r' X,
    HPgetdiskblock temp r block_size false = (SUCCEED (f_end_off r), r') /\
    synced r' /\ refcount r' = refcount r /\
    contents (file r') = contents (file r) ++ X /\
    Z.of_nat (length X) <= block_size /\
    f_end_off r' = f_end_off r + block_size.
Proof.
  intros Hs Hb He Hfit. unfold HPgetdiskblock.
  destruct (block_size <? 0) eqn:E; [lia|]. destruct (0 <? block_size) eqn:E0; [|lia].
  rewrite wrap_small by (apply in_range_nonneg; lia).
  destruct (cache r) eqn:Ec.
  - cbn [f_end_off file refcount f_cur_off last_op cache dirty].
    rewrite (uint32_small (f_end_off r + block_size)) by lia.
    eexists _, []. split; [done|]. cbn. rewrite app_nil_r. repeat split; try done; try lia.
    all: apply Hs.
  - rewrite add_small by (apply in_range_nonneg; lia).
    rewrite sub_small by (apply in_range_nonneg; lia).
    destruct (HPseek_spec r (f_end_off r + block_size - 1) Hs ltac:(lia))
      as (r1 & -> & Hat & Hc1 & Hr1 & _).
    pose proof Hat as (_ & Hcur & _).
    destruct (HP_write_spec r1 [temp] 1) as (r2 & -> & Hat2 & _ & Hc2 & Hr2).
    { apply (at_offset_synced _ _ Hat). lia. }
    { lia. }
    { lia. }
    assert (Hr : same_rest r r2) by (by eapply same_rest_trans).
    destruct Hr as (Hrc & _ & _ & Hend).
    rewrite Hend. rewrite (uint32_small (f_end_off r + block_size)) by lia.
    exists (mkfilerec_t (file r2) (refcount r2) (f_cur_off r2) (last_op r2) (cache r2)
              (dirty r2) (f_end_off r + block_size)),
      (zero_bytes (block_size - 1) ++ [temp]).
    split; [done|]. cbn [file refcount f_end_off].
    split.
    { apply (at_offset_synced _ (f_cur_off r1 + 1)); [apply Hat2|lia]. }
    split; [done|]. split.
    { rewrite Hc2, Hc1, Hcur. unfold fwrite_at.
      change (take (Z.to_nat 1) [temp]) with [temp].
      rewrite (take_ge (contents (file r))) by lia.
      rewrite (drop_ge (contents (file r))) by (cbn [length]; lia). rewrite app_nil_r.
      do 3 f_equal. lia. }
    split; [|done].
    unfold zero_bytes. rewrite length_app, length_replicate. cbn. lia.
Qed.

Lemma Hwrite_first temp conv (d : bytes) s :
  new_elem s.1 = true -> special s.1 = 0 -> posn s.1 = 0 ->
  Z.land (access s.1) DFACC_WRITE <> 0 -> BADFREC s.2 = false -> synced s.2 ->
  f_end_off s.2 = Z.of_nat (length (contents (file s.2))) ->
  d <> [] ->
  Z.of_nat (length (contents (file s.2))) + Z.of_nat (length d) <= Int32.max_signed ->
  exists s',
    Hwrite temp conv (Z.of_nat (length d)) d s = (SUCCEED (Z.of_nat (length d)), s') /\
    appended (contents (file s.2)) d s'.
Proof.
  intros Hnew Hsp Hposn Hacc Hopen Hs Hend Hd Hfit.
  destruct s as [a r]. cbn [fst snd] in *.
  assert (Hl : 0 < Z.of_nat (length d)) by (destruct d; [done|cbn; lia]).
  pose proof Hacc as Hacc'. apply Z.eqb_neq in Hacc'.
  unfold Hwrite. rewrite Hacc', Hsp, Hopen, Hnew. cbn [Z.eqb negb].
  unfold Hsetlength. rewrite Hnew, Hopen. cbn [negb].
  destruct (HPgetdiskblock_spec temp r (Z.of_nat (length d)) Hs Hl Hend ltac:(lia))
    as (r1 & X & -> & Hs1 & Hrc1 & Hc1 & HX & Hend1).
  cbn [snd with_appendable appendable ddid posn HTPupdate dd_length dd_offset
       access special new_elem].
  destruct (Z.of_nat (length d) =? -2) eqn:E2; [lia|].
  destruct (f_end_off r =? -2) eqn:E3; [lia|].
  destruct (Z.of_nat (length d) <=? 0) eqn:E; [lia|]. cbn [orb negb andb].
  rewrite Hposn. rewrite !add_small by (apply in_range_nonneg; lia).
  rewrite Z.add_0_r, Z.ltb_irrefl.
  cbn [andb with_appendable posn ddid HTPupdate dd_offset dd_length appendable access special
       new_elem].
  rewrite !add_small by (apply in_range_nonneg; lia). rewrite !Z.add_0_l.
  destruct (HPseek_spec r1 (f_end_off r) Hs1 ltac:(lia)) as (r2 & -> & Hat & Hc2 & Hr2 & _).
  pose proof Hat as (_ & Hcur & _).
  destruct (HP_write_spec r2 d (Z.of_nat (length d))) as (r3 & -> & Hat3 & _ & Hc3 & Hr3).
  { apply (at_offset_synced _ _ Hat). lia. }
  { lia. }
  { lia. }
  assert (Hr : same_rest r1 r3) by (by eapply same_rest_trans).
  destruct Hr as (Hrc & _ & _ & Hend3).
  pose proof Hat3 as (_ & Hcur3 & _).
  rewrite Hend3, Hend1, Hcur3, Hcur, Z.ltb_irrefl.
  rewrite Nat2Z.id, firstn_all in Hc3. rewrite Hc2, Hc1, Hcur, Hend in Hc3.
  rewrite fwrite_at_end in Hc3 by lia.
  eexists. split; [done|].
  split; cbn [fst snd with_posn with_appendable posn ddid special new_elem appendable access
              dd_length dd_offset HTPupdate]; rewrite ?E2, ?E3, ?length_app; auto; try lia.
  - unfold BADFREC in *. congruence.
  - apply (at_offset_synced _ _ Hat3). lia.
Qed.

Lemma Hwrite_append temp conv (c0 E d : bytes) s :
  appended c0 E s -> d <> [] ->
  Z.of_nat (length (c0 ++ E)) + Z.of_nat (length d) <= Int32.max_signed ->
  exists s',
    Hwrite temp conv (Z.of_nat (length d)) d s = (SUCCEED (Z.of_nat (length d)), s') /\
    appended c0 (E ++ d) s'.
Proof.
  intros [Hsp Hold Hacc Happ Hopen Hs Hc Hoff Hlen Hposn Hend] Hd Hfit.
  destruct s as [a r]. cbn [fst snd] in *. rewrite length_app, Nat2Z.inj_add in Hfit, Hend.
  assert (Hl : 0 < Z.of_nat (length d)) by (destruct d; [done|cbn; lia]).
  pose proof Hacc as Hacc'. apply Z.eqb_neq in Hacc'.
  unfold Hwrite. rewrite Hacc', Hsp, Hopen, Hold, Happ. cbn [Z.eqb negb andb].
  destruct (Z.of_nat (length d) <=? 0) eqn:E0; [lia|]. cbn [orb].
  rewrite Hlen, Hposn, Hoff. rewrite !add_small by (apply in_range_nonneg; lia).
  destruct (Z.of_nat (length E) <? Z.of_nat (length d) + Z.of_nat (length E)) eqn:E1; [|lia].
  rewrite uint32_small by lia. rewrite Hend.
  assert (Heq : (Z.of_nat (length E) + Z.of_nat (length c0)
                 =? Z.of_nat (length c0) + Z.of_nat (length E)) = true)
    by (apply Z.eqb_eq; lia).
  rewrite Heq. cbn [negb].
  destruct (HPseek_spec r (Z.of_nat (length E) + Z.of_nat (length c0)) Hs ltac:(lia))
    as (r1 & E2 & Hat & Hc1 & Hr1 & _).
  cbn [posn andb]. rewrite !add_small by (apply in_range_nonneg; lia). rewrite E2. clear E2.
  pose proof Hat as (_ & Hcur & _).
  destruct (HP_write_spec r1 d (Z.of_nat (length d))) as (r2 & -> & Hat2 & _ & Hc2 & Hr2).
  { apply (at_offset_synced _ _ Hat). lia. }
  { lia. }
  { lia. }
  assert (Hr : same_rest r r2) by (by eapply same_rest_trans).
  destruct Hr as (Hrc & _ & _ & Hend2).
  pose proof Hat2 as (Hd2 & Hcur2 & Hp2 & Hl2 & Hn2).
  rewrite Hend2, Hend, Hcur2, Hcur.
  assert (Hlt : (Z.of_nat (length c0) + Z.of_nat (length E)
                 <? Z.of_nat (length E) + Z.of_nat (length c0) + Z.of_nat (length d)) = true)
    by (apply Z.ltb_lt; lia).
  rewrite Hlt.
  rewrite Nat2Z.id, firstn_all in Hc2. rewrite Hc1, Hc, Hcur in Hc2.
  replace (Z.of_nat (length E) + Z.of_nat (length c0))
    with (Z.of_nat (length (c0 ++ E))) in Hc2 by (rewrite length_app; lia).
  rewrite <- (app_nil_r (c0 ++ E)) in Hc2 at 1. rewrite fwrite_at_end in Hc2 by (cbn; lia).
  eexists. split; [done|].
  cbn [HTPupdate]. destruct (Z.of_nat (length E) + Z.of_nat (length d) =? -2) eqn:E4; [lia|].
  cbn [Z.eqb Pos.eqb].
  split; cbn [fst snd with_posn posn ddid special new_elem appendable access
              dd_length dd_offset file f_end_off refcount f_cur_off last_op]; auto;
    rewrite ?length_app; try lia.
  - unfold BADFREC in *. cbn [refcount]. congruence.
  - unfold synced. cbn [file f_cur_off last_op]. split; [done|]. split; [lia|]. right.
    split; [done|lia].
  - by rewrite Hc2, app_assoc.
  - unfold HTPupdate. cbn [dd_length]. rewrite E4. lia.
Qed.

Lemma Hwrite_run_appended temp conv (c0 : bytes) ds : forall E s,
  appended c0 E s -> Forall (fun d => d <> []) ds ->
  Z.of_nat (length (c0 ++ E ++ mjoin ds)) <= Int32.max_signed ->
  exists s', Hwrite_run temp conv ds s = (true, s') /\ appended c0 (E ++ mjoin ds) s'.
Proof.
  induction ds as [|d ds IH]; intros E s Ha Hds Hfit; cbn [Hwrite_run].
  - exists s. change (mjoin []) with (@nil Byte.byte). by rewrite app_nil_r.
  - apply Forall_cons in Hds as [Hd Hds].
    change (mjoin (d :: ds)) with (d ++ mjoin ds) in *.
    rewrite !length_app in Hfit.
    destruct (Hwrite_append temp conv c0 E d s Ha Hd) as (s1 & -> & Ha1).
    { rewrite length_app. lia. }
    destruct (IH (E ++ d) s1 Ha1 Hds) as (s' & H & Ha').
    { rewrite !length_app. lia. }
    exists s'. split; [done|]. by rewrite app_assoc.
Qed.

(** X19.  Writing a new element: the first [Hwrite] places it at the end of
    the file, and each following [Hwrite] appends to it in place.  All the
    writes succeed whatever [HLconvert] would answer, so the element is
    never turned into linked blocks; afterwards the element holds the
    buffers in the order they were written, directly after the bytes the
    file had. *)
Theorem Hwrite_new_element_appends
    (temp : Byte.byte) (conv : accrec_t -> filerec_t -> bool)
    (d : bytes) (ds : list bytes) (s : state) :
  new_elem s.1 = true -> special s.1 = 0 -> posn s.1 = 0 ->
  Z.land (access s.1) DFACC_WRITE <> 0 -> BADFREC s.2 = false -> synced s.2 ->
  f_end_off s.2 = Z.of_nat (length (contents (file s.2))) ->
  Forall (fun d => d <> []) (d :: ds) ->
  Z.of_nat (length (contents (file s.2) ++ mjoin (d :: ds))) <= Int32.max_signed ->
  exists s',
    Hwrite_run temp conv (d :: ds) s = (true, s') /\
    contents (file s'.2) = contents (file s.2) ++ mjoin (d :: ds) /\
    element s' = mjoin (d :: ds) /\
    dd_offset (ddid s'.1) = Z.of_nat (length (contents (file s.2))) /\
    posn s'.1 = dd_length (ddid s'.1) /\
    f_end_off s'.2 = Z.of_nat (length (contents (file s'.2))).
Proof.
  intros Hnew Hsp Hposn Hacc Hopen Hs Hend Hds Hfit.
  apply Forall_cons in Hds as [Hd Hds].
  change (mjoin (d :: ds)) with (d ++ mjoin ds) in *.
  rewrite !length_app in Hfit.
  destruct (Hwrite_first temp conv d s) as (s1 & H1 & Ha1); try done; [lia|].
  destruct (Hwrite_run_appended temp conv _ ds d s1 Ha1 Hds) as (s' & H & Ha).
  { rewrite !length_app. lia. }
  exists s'. cbn [Hwrite_run]. rewrite H1. split; [done|].
  destruct Ha as [_ _ _ _ _ _ Hc Hoff Hlen Hp He].
  split; [done|]. split.
  { unfold element. rewrite Hoff, Hlen, Hc, !Nat2Z.id.
    rewrite drop_app_length. apply firstn_all. }
  split; [done|]. split; [lia|]. by rewrite Hc.
Qed.

(** ** Elements that cannot grow *)

Lemma Hseek_inside conv offset origin s :
  plain s -> appendable s.1 = false ->
  let s' := (Hseek conv offset origin s).2 in
  0 <= posn s'.1 <= dd_length (ddid s'.1) /\ ddid s'.1 = ddid s.1 /\
  contents (file s'.2) = contents (file s.2).
Proof.
  intros [Hsp Hold Hopen Hs Hsm Hoff Hposn Hin] Happ.
  destruct s as [a r]. cbn [fst snd] in *. unfold Hseek. rewrite Hsp, Happ.
  cbn [Z.eqb negb andb].
  destruct (negb (origin =? DF_START) && negb (origin =? DF_CURRENT) && negb (origin =? DF_END));
    [done|].
  set (o := if origin =? DF_END then _ else _). clearbody o.
  destruct (o =? posn a); [done|].
  destruct (o <? 0) eqn:E0; [done|]. cbn [orb].
  destruct (dd_length (ddid a) <? o) eqn:E1; [done|].
  cbn [snd fst with_posn posn ddid]. repeat split; lia.
Qed.

Lemma Hread_inside length s :
  plain s ->
  let s' := (Hread length s).2 in
  0 <= posn s'.1 <= dd_length (ddid s'.1) /\ ddid s'.1 = ddid s.1 /\
  contents (file s'.2) = contents (file s.2).
Proof.
  intros Hp s'. pose proof Hp as [Hsp Hold Hopen Hs Hsm Hoff Hposn Hin].
  destruct (decide (0 <= length /\ length + posn s.1 <= Int32.max_signed)) as [[H1 H2]|Hbig].
  { destruct (Hread_spec length s Hp H1 H2) as (s1 & E & Hp1 & Hposn1 & Hdd1 & _ & _ & Hc1 & _).
    subst s'. rewrite E. cbn [snd]. split; [apply Hp1|]. by split. }
  subst s'. destruct s as [a r]. cbn [fst snd] in *. unfold small in Hsm.
  unfold Hread. rewrite Hold, Hsp, Hopen. cbn [Z.eqb negb].
  destruct (length <? 0) eqn:E; [done|].
  rewrite add_small by (apply in_range_nonneg; lia).
  destruct (HPseek_spec r (posn a + dd_offset (ddid a)) Hs ltac:(lia))
    as (r1 & -> & Hat & Hc1 & Hr1 & _).
  pose proof Hat as (_ & Hcur & _).
  assert (Hs1 : synced r1) by (apply (at_offset_synced _ _ Hat); lia).
  assert ((length =? 0) = false) as -> by (apply Z.eqb_neq; lia). cbn [orb].
  destruct (dd_length (ddid a) <? length +i posn a).
  - rewrite sub_small by (apply in_range_nonneg; lia).
    destruct (HP_read_spec r1 (dd_length (ddid a) - posn a) Hs1) as (r2 & -> & _ & _ & Hc2 & _).
    { lia. }
    { rewrite Hc1, Hcur. lia. }
    rewrite add_small by (apply in_range_nonneg; lia).
    cbn [fst snd with_posn posn ddid]. split; [lia|]. split; [done|congruence].
  - pose proof (HP_read_contents r1 length) as Hc2.
    destruct (HP_read_short r1 length Hs1) as (r2 & E2).
    { right. rewrite length_take, length_drop, Hc1, Hcur. lia. }
    rewrite E2 in Hc2 |- *. cbn [fst snd] in *. split; [lia|]. split; [done|congruence].
Qed.

Lemma Hwrite_inside temp conv length data s :
  plain s -> appendable s.1 = false -> length + posn s.1 <= Int32.max_signed ->
  let s' := (Hwrite temp conv length data s).2 in
  0 <= posn s'.1 <= dd_length (ddid s'.1) /\ ddid s'.1 = ddid s.1 /\
  Datatypes.length (contents (file s'.2)) = Datatypes.length (contents (file s.2)).
Proof.
  intros Hp Happ Hfit s'. pose proof Hp as [Hsp Hold Hopen Hs Hsm Hoff Hposn Hin].
  destruct (Z.land (access s.1) DFACC_WRITE =? 0) eqn:Hacc.
  { subst s'. destruct s as [a r]. cbn [fst snd] in *. unfold Hwrite. rewrite Hacc.
    cbn [snd fst]. repeat split; try done; lia. }
  apply Z.eqb_neq in Hacc.
  destruct (decide (0 < length /\ posn s.1 + length <= dd_length (ddid s.1))) as [[H1 H2]|Hout].
  { destruct (Hwrite_in_place temp conv length data s Hp Hacc H1 H2)
      as (s1 & E & Hp1 & Hposn1 & Hdd1 & _ & _ & Hc1).
    subst s'. rewrite E. cbn [snd]. split; [apply Hp1|]. split; [done|].
    rewrite Hc1. apply length_fwrite_inside; [lia|]. rewrite length_take.
    unfold small in Hsm. lia. }
  subst s'. destruct s as [a r]. cbn [fst snd] in *. apply Z.eqb_neq in Hacc.
  unfold Hwrite. rewrite Hacc, Hsp, Hopen, Hold, Happ. cbn [Z.eqb negb andb].
  destruct (length <=? 0) eqn:E; cbn [orb snd fst]; [repeat split; try done; lia|].
  rewrite add_small by (apply in_range_nonneg; lia).
  destruct (dd_length (ddid a) <? length + posn a) eqn:E1;
    cbn [orb snd fst]; [repeat split; try done; lia|]. lia.
Qed.

(** X20.  On a plain element that is not appendable, [Hseek], [Hread] and
    [Hwrite] keep the position inside the element whatever their arguments
    are and however they end, and leave the descriptor and the length of
    the file as they are; for [Hwrite], [length + posn] is taken to be an
    [int32]. *)
Theorem plain_element_keeps_position_inside
    (temp : Byte.byte) (conv : accrec_t -> filerec_t -> bool) (s : state) :
  plain s -> appendable s.1 = false ->
  let kept (s' : state) :=
    0 <= posn s'.1 <= dd_length (ddid s'.1) /\ ddid s'.1 = ddid s.1 /\
    Datatypes.length (contents (file s'.2)) = Datatypes.length (contents (file s.2)) in
  (forall offset origin, kept (Hseek conv offset origin s).2) /\
  (forall length, kept (Hread length s).2) /\
  (forall length data,
     length + posn s.1 <= Int32.max_signed -> kept (Hwrite temp conv length data s).2).
Proof.
  intros Hp Happ kept. subst kept. cbv beta. split; [|split].
  - intros offset origin. destruct (Hseek_inside conv offset origin s Hp Happ) as (H1 & H2 & H3).
    by rewrite H3.
  - intros length. destruct (Hread_inside length s Hp) as (H1 & H2 & H3). by rewrite H3.
  - intros length data Hfit. by apply Hwrite_inside.
Qed.

Lemma hp_run_keeps_seek_cache_witness :
  let r := mkfilerec_t
             (mkhdf_file_t [Byte.x01; Byte.x02; Byte.x03; Byte.x04] 0 H4_OP_UNKNOWN true)
             1 0 H4_OP_UNKNOWN false 0 4 in
  let os := [hp_seek 2; hp_write [Byte.x0a; Byte.x0b; Byte.x0c]; hp_seek 2; hp_read 3;
             hp_write [Byte.x0d]; hp_read 0] in
  (hp_run os r).1 = true /\ synced (hp_run os r).2 /\
  contents (file (hp_run os r).2)
  = [Byte.x01; Byte.x02; Byte.x0a; Byte.x0b; Byte.x0c; Byte.x0d].
Proof.
  intros r os. split; [by_evaluation|]. split; [|by_evaluation].
  apply (hp_run_keeps_seek_cache os r).
  - split; [done|]. split; [by_evaluation|]. by left.
  - repeat constructor; by_evaluation.
  - by_evaluation.
  - by_evaluation.
Defined.

Lemma Hread_stays_in_element_witness :
  let r := mkfilerec_t
             (mkhdf_file_t [Byte.x01; Byte.x02; Byte.x03; Byte.x04; Byte.x05; Byte.x06]
                0 H4_OP_UNKNOWN true)
             1 0 H4_OP_UNKNOWN false 0 6 in
  let s := (mkaccrec_t false DFACC_READ 0 false 1 (mkdd_t 702 1 4 1), r) in
  (exists s',
     Hread 10 s = (SUCCEED (3, [Byte.x03; Byte.x04; Byte.x05]), s') /\
     plain s' /\ posn s'.1 = 4 /\ ddid s'.1 = ddid s.1 /\
     contents (file s'.2) = contents (file s.2)) /\
  (exists s',
     Hread 2147483647 s = (FAIL DFE_READERROR, s') /\
     posn s'.1 = 1 /\ ddid s'.1 = ddid s.1 /\
     contents (file s'.2) = contents (file s.2)).
Proof.
  intros r s.
  assert (Hp : plain s).
  { split; [by_evaluation | by_evaluation | by_evaluation | | by_evaluation | by_evaluation
           | by_evaluation | by_evaluation].
    split; [done|]. split; [by_evaluation|]. by left. }
  split.
  - apply (Hread_stays_in_element 10 s Hp); by_evaluation.
  - apply (Hread_stays_in_element 2147483647 s Hp); by_evaluation.
Defined.

Lemma Hwrite_Hseek_Hread_witness :
  let r := mkfilerec_t
             (mkhdf_file_t [Byte.x01; Byte.x02; Byte.x03; Byte.x04; Byte.x05; Byte.x06]
                0 H4_OP_UNKNOWN true)
             1 0 H4_OP_UNKNOWN false 0 6 in
  let s := (mkaccrec_t false 3 0 false 1 (mkdd_t 702 1 4 1), r) in
  let conv := fun (_ : accrec_t) (_ : filerec_t) => false in
  exists s1 s2 s3,
    Hwrite Byte.x00 conv 2 [Byte.x0a; Byte.x0b; Byte.x0c] s = (SUCCEED 2, s1) /\
    Hseek conv (- 2) DF_CURRENT s1 = (SUCCEED (), s2) /\
    Hread 2 s2 = (SUCCEED (2, [Byte.x0a; Byte.x0b]), s3) /\
    element s1 = [Byte.x02; Byte.x0a; Byte.x0b; Byte.x05] /\
    take 1 (contents (file s1.2)) = [Byte.x01] /\
    drop 5 (contents (file s1.2)) = [Byte.x06] /\
    ddid s1.1 = ddid s.1.
Proof.
  intros r s conv.
  apply (Hwrite_Hseek_Hread Byte.x00 conv 2 [Byte.x0a; Byte.x0b; Byte.x0c] s).
  - split; [by_evaluation | by_evaluation | by_evaluation | | by_evaluation | by_evaluation
           | by_evaluation | by_evaluation].
    split; [done|]. split; [by_evaluation|]. by left.
  - by_evaluation.
  - by_evaluation.
  - by_evaluation.
Defined.

Lemma Hwrite_new_element_appends_witness :
  let r := mkfilerec_t
             (mkhdf_file_t [Byte.x01; Byte.x02; Byte.x03] 0 H4_OP_UNKNOWN true)
             1 0 H4_OP_UNKNOWN false 0 3 in
  let s := (mkaccrec_t false 3 0 true 0 (mkdd_t 702 1 4294967295 4294967295), r) in
  let conv := fun (_ : accrec_t) (_ : filerec_t) => false in
  let ds := [[Byte.x0a; Byte.x0b]; [Byte.x0c]; [Byte.x0d; Byte.x0e]] in
  exists s',
    Hwrite_run Byte.xff conv ds s = (true, s') /\
    contents (file s'.2)
    = [Byte.x01; Byte.x02; Byte.x03; Byte.x0a; Byte.x0b; Byte.x0c; Byte.x0d; Byte.x0e] /\
    element s' = [Byte.x0a; Byte.x0b; Byte.x0c; Byte.x0d; Byte.x0e] /\
    dd_offset (ddid s'.1) = 3 /\
    posn s'.1 = dd_length (ddid s'.1) /\
    f_end_off s'.2 = Z.of_nat (length (contents (file s'.2))).
Proof.
  intros r s conv ds.
  apply (Hwrite_new_element_appends Byte.xff conv [Byte.x0a; Byte.x0b]
           [[Byte.x0c]; [Byte.x0d; Byte.x0e]] s).
  - by_evaluation.
  - by_evaluation.
  - by_evaluation.
  - by_evaluation.
  - by_evaluation.
  - split; [done|]. split; [by_evaluation|]. by left.
  - by_evaluation.
  - repeat constructor; by_evaluation.
  - by_evaluation.
Defined.

Lemma plain_element_keeps_position_inside_witness :
  let r := mkfilerec_t
             (mkhdf_file_t [Byte.x01; Byte.x02; Byte.x03; Byte.x04; Byte.x05; Byte.x06]
                0 H4_OP_UNKNOWN true)
             1 0 H4_OP_UNKNOWN false 0 6 in
  let s := (mkaccrec_t false 3 0 false 1 (mkdd_t 702 1 4 1), r) in
  let conv := fun (_ : accrec_t) (_ : filerec_t) => false in
  posn (Hseek conv 5 DF_START s).2.1 = 1 /\
  posn (Hread 7 s).2.1 = 4 /\
  posn (Hwrite Byte.x00 conv 4 [Byte.x0a; Byte.x0b; Byte.x0c; Byte.x0d] s).2.1 = 1 /\
  (let s' := (Hwrite Byte.x00 conv 4 [Byte.x0a; Byte.x0b; Byte.x0c; Byte.x0d] s).2 in
   0 <= posn s'.1 <= dd_length (ddid s'.1) /\ ddid s'.1 = ddid s.1 /\
   length (contents (file s'.2)) = length (contents (file s.2))).
Proof.
  intros r s conv. split; [by_evaluation|]. split; [by_evaluation|]. split; [by_evaluation|].
  assert (Hp : plain s).
  { split; [by_evaluation | by_evaluation | by_evaluation | | by_evaluation | by_evaluation
           | by_evaluation | by_evaluation].
    split; [done|]. split; [by_evaluation|]. by left. }
  destruct (plain_element_keeps_position_inside Byte.x00 conv s Hp eq_refl) as (_ & _ & H).
  apply (H 4 [Byte.x0a; Byte.x0b; Byte.x0c; Byte.x0d]). by_evaluation.
Defined.

End FileLayer.

(** ** The header of a chunked element *)

Section HeaderExtras.

Import Szip Hfile ChunkHeader.

Lemma uint16_checked :
  holds_from (fun t => UINT16DECODE (UINT16ENCODE t) =? t) 0 (Z.to_nat 65536) = true.
Proof. vm_compute. reflexivity. Qed.

Lemma UINT16DECODE_ENCODE i rest :
  0 <= i < 65536 -> UINT16DECODE (UINT16ENCODE i ++ rest) = i.
Proof.
  intros Hi. change (UINT16DECODE (UINT16ENCODE i ++ rest)) with (UINT16DECODE (UINT16ENCODE i)).
  apply Z.eqb_eq. by apply (all_tags (fun t => UINT16DECODE (UINT16ENCODE t) =? t) uint16_checked).
Qed.

Lemma dim_flag_checked :
  holds_from
    (fun dt =>
       (Z.land 255 (Z.land 65535 (Z.lor (Z.shiftl 0 8) dt)) =? dt)
       && (Z.land 255 (Z.shiftr (Z.land 65535 (Z.lor (Z.shiftl 0 8) dt)) 8) =? 0)
       && (Z.land 255 (Z.land 65535 (Z.lor (Z.shiftl 1 8) dt)) =? dt)
       && (Z.land 255 (Z.shiftr (Z.land 65535 (Z.lor (Z.shiftl 1 8) dt)) 8) =? 1))
    0 256 = true.
Proof. vm_compute. reflexivity. Qed.

(** What [HMCIstaccess] derives from the three stored fields of a dimension
    is the record [HMCcreate] had. *)
Lemma HMCIstaccess_dim_HMCcreate_dim p :
  0 <= pdim_distrib_type p <= 255 ->
  let d := HMCcreate_dim p in
  HMCIstaccess_dim (dim_flag d) (dim_length d) (chunk_length d) = d.
Proof.
  intros Hdt d.
  pose proof (holds_from_spec _ _ _ dim_flag_checked (pdim_distrib_type p) ltac:(lia)) as H.
  cbv beta in H. apply andb_prop in H as [H H4]. apply andb_prop in H as [H H3].
  apply andb_prop in H as [H1 H2]. apply Z.eqb_eq in H1, H2, H3, H4.
  subst d. unfold HMCcreate_dim.
  destruct (pdim_dim_length p =? 0); cbv zeta;
    match goal with |- context [if ?c =? 0 then _ else _] => destruct (c =? 0) eqn:E end;
    unfold HMCIstaccess_dim; cbn [dim_flag dim_length chunk_length]; rewrite E;
    by rewrite ?H1, ?H2, ?H3, ?H4.
Qed.

Lemma dim_flag_range p :
  0 <= pdim_distrib_type p <= 255 -> 0 <= dim_flag (HMCcreate_dim p) <= 65535.
Proof.
  intros Hdt.
  assert (H : forall u, 0 <= Z.land 65535 (Z.lor (Z.shiftl u 8) (pdim_distrib_type p)) <= 65535).
  { intros u. split; [apply Z.land_nonneg; lia|].
    change 65535 with (Z.ones 16) at 1. rewrite Z.land_comm, Z.land_ones by lia.
    pose proof (Z.mod_pos_bound (Z.lor (Z.shiftl u 8) (pdim_distrib_type p)) (2 ^ 16)). lia. }
  unfold HMCcreate_dim.
  destruct (pdim_dim_length p =? 0); cbv zeta;
    match goal with |- context [if ?c =? 0 then _ else _] => destruct (c =? 0) end;
    cbn [dim_flag]; apply H.
Qed.

Lemma decode_dims_encode (ds : list DIM_REC) (rest : bytes) :
  Forall storable ds ->
  decode_dims (length ds) (mjoin (encode_dim <$> ds) ++ rest)
  = (Some ((fun d => HMCIstaccess_dim (dim_flag d) (dim_length d) (chunk_length d)) <$> ds),
     rest).
Proof.
  induction 1 as [|d ds (Hf & Hl & Hc & Hn) Hds IH]; [done|].
  rewrite fmap_cons. change (mjoin (encode_dim d :: (encode_dim <$> ds)))
    with (encode_dim d ++ mjoin (encode_dim <$> ds)).
  unfold encode_dim at 1. rewrite <- !app_assoc. cbn [length decode_dims].
  rewrite INT32DECODE_ENCODE by done.
  change (drop 4 (INT32ENCODE (dim_flag d) ++ ?x)) with x.
  rewrite INT32DECODE_ENCODE by done.
  change (drop 8 (INT32ENCODE (dim_flag d) ++ INT32ENCODE (dim_length d) ++ ?x)) with x.
  rewrite INT32DECODE_ENCODE by done.
  change (drop 12 (INT32ENCODE (dim_flag d) ++ INT32ENCODE (dim_length d)
                   ++ INT32ENCODE (chunk_length d) ++ ?x)) with x.
  apply Z.eqb_neq in Hn. rewrite Hn. by rewrite IH.
Qed.

Lemma fmap_dget_seq {A} (f : DIM_REC -> A) (ds : list DIM_REC) :
  (fun j => f (dget ds j)) <$> seq 0 (length ds) = f <$> ds.
Proof.
  apply list_eq_same_length with (length ds);
    [by rewrite length_fmap | by rewrite length_fmap, length_seq |].
  intros j y z Hj Hy Hz.
  rewrite list_lookup_fmap, lookup_seq_lt in Hy by done. simpl in Hy. injection Hy as <-.
  rewrite list_lookup_fmap in Hz. destruct (ds !! j) as [d|] eqn:E; [|done].
  injection Hz as <-. unfold dget. by rewrite (list_lookup_total_correct _ _ _ E).
Qed.

Lemma length_encode_dims (ds : list DIM_REC) :
  Z.of_nat (length (mjoin (encode_dim <$> ds))) = 12 * Z.of_nat (length ds).
Proof.
  induction ds as [|d ds IH]; [done|].
  rewrite fmap_cons. change (mjoin (encode_dim d :: (encode_dim <$> ds)))
    with (encode_dim d ++ mjoin (encode_dim <$> ds)).
  rewrite length_app. cbn [length]. unfold encode_dim at 1. unfold INT32ENCODE.
  cbn [length app]. lia.
Qed.

Lemma HMCcreate_data_len_in_range ds : Int32.in_range (HMCcreate_data_len ds).
Proof.
  unfold HMCcreate_data_len. induction ds as [|d ds IH] using rev_ind.
  - by_evaluation.
  - rewrite fold_left_app. apply wrap_in_range.
Qed.

Lemma drop_INT32ENCODE a (x : bytes) : drop 4 (INT32ENCODE a ++ x) = x.
Proof. done. Qed.

Lemma drop_UINT16ENCODE a (x : bytes) : drop 2 (UINT16ENCODE a ++ x) = x.
Proof. done. Qed.

Lemma header_length_sum (n F : Z) :
  0 <= n -> 0 <= F -> 39 + 12 * n + F <= Int32.max_signed ->
  6 +i 9 +i 12 +i 8 +i 12 *i n +i 4 +i F = 39 + 12 * n + F.
Proof.
  intros Hn HF Hfit.
  rewrite (mul_small 12 n) by (apply in_range_nonneg; lia).
  rewrite (add_small 6 9) by (apply in_range_nonneg; lia).
  rewrite (add_small (6 + 9) 12) by (apply in_range_nonneg; lia).
  rewrite (add_small (6 + 9 + 12) 8) by (apply in_range_nonneg; lia).
  rewrite (add_small (6 + 9 + 12 + 8) (12 * n)) by (apply in_range_nonneg; lia).
  rewrite (add_small _ 4) by (apply in_range_nonneg; lia).
  rewrite (add_small _ F) by (apply in_range_nonneg; lia).
  lia.
Qed.

Lemma appended_plain_reader (c0 E : bytes) s :
  appended c0 E s -> small s.2 -> plain (Hstartaccess_read (ddid s.1), s.2).
Proof.
  intros [Hsp Hold Hacc Happ Hopen Hs Hc Hoff Hlen Hposn Hend] Hsm.
  split; cbn [fst snd Hstartaccess_read special new_elem posn ddid]; auto.
  - rewrite Hoff. destruct (Z.of_nat (length c0) =? -1) eqn:E1; [lia|done].
  - lia.
  - lia.
  - rewrite Hc, Hoff, Hlen, length_app. lia.
Qed.

(** X21.  The header [HMCcreate] writes for an element that is not
    compressed is 39 + 12 * ndims + fill_val_len bytes long and is written
    by one [Hwrite] to a new element.  [HMCIstaccess] reads all its fields
    back as [HMCcreate] had them, the derived fields of every dimension
    included, when the stored length (the total less 6) is at most 256;
    a longer header, which [HMCcreate] writes as well, it refuses with
    [DFE_INTERNAL]. *)
Theorem chunk_header_roundtrip
    (temp : Byte.byte) (conv : accrec_t -> filerec_t -> bool) (local_ptbuf : bytes)
    (chunk_flag chunk_size nt_size : Z) (pdims : list DIM_DEF)
    (fill_val_len : Z) (fill_val : bytes) (chktbl_tag chktbl_ref : Z) (s : state) :
  Int32.in_range chunk_flag -> Int32.in_range chunk_size -> Int32.in_range nt_size ->
  Z.land chunk_flag 255 <> SPECIAL_COMP ->
  0 <= chktbl_tag < 65536 -> 0 <= chktbl_ref < 65536 ->
  Forall (fun p => 0 < pdim_chunk_length p <= Int32.max_signed /\
                   0 <= pdim_dim_length p <= Int32.max_signed /\
                   0 <= pdim_distrib_type p <= 255) pdims ->
  0 <= fill_val_len <= Z.of_nat (length fill_val) ->
  new_elem s.1 = true -> special s.1 = 0 -> posn s.1 = 0 ->
  Z.land (access s.1) DFACC_WRITE <> 0 -> BADFREC s.2 = false -> synced s.2 ->
  f_end_off s.2 = Z.of_nat (length (contents (file s.2))) ->
  let n := Z.of_nat (length pdims) in
  let total := 39 + 12 * n + fill_val_len in
  Z.of_nat (length (contents (file s.2))) + total <= Int32.max_signed ->
  let info :=
    HMCcreate_header_fields chunk_flag chunk_size nt_size pdims fill_val_len fill_val
      chktbl_tag chktbl_ref 0 in
  let c_sp_header := HMCcreate_c_sp_header info [] in
  HMCcreate_sp_tag_header_len chunk_flag n fill_val_len 0 = total /\
  exists s1,
    Hwrite temp conv total c_sp_header s = (SUCCEED total, s1) /\
    (HMCIstaccess_header conv local_ptbuf (ddid s1.1) s1.2).1
    = if total - 6 <=? 256 then Decoded info else Refused DFE_INTERNAL.
Proof.
  intros Hflag Hcs Hnt Hcomp Htag Href Hpd HF Hnew Hsp Hposn Hacc Hopen Hs Hend n total Hfit
    info c_sp_header.
  assert (Hn : 0 <= n) by lia.
  assert (Htot : HMCcreate_sp_tag_header_len chunk_flag n fill_val_len 0 = total).
  { unfold HMCcreate_sp_tag_header_len. apply Z.eqb_neq in Hcomp. rewrite Hcomp.
    apply header_length_sum; lia. }
  split; [done|].
  set (dd := HMCcreate_ddims pdims).
  assert (Hdd : length dd = length pdims) by (subst dd; apply length_fmap).
  assert (Hst : Forall storable dd).
  { subst dd. unfold HMCcreate_ddims. apply Forall_fmap.
    eapply Forall_impl; [exact Hpd|]. intros p (H1 & H2 & H3). cbn.
    destruct (HMCcreate_dim_fields p) as (E1 & E2 & _).
    pose proof (dim_flag_range p H3) as Hfl.
    unfold storable. rewrite E1, E2.
    repeat split; try (apply in_range_nonneg; unfold Int32.max_signed in *;
                       destruct (pdim_dim_length p =? 0); lia).
    lia. }
  assert (Hid : (fun d => HMCIstaccess_dim (dim_flag d) (dim_length d) (chunk_length d)) <$> dd
                = dd).
  { subst dd. unfold HMCcreate_ddims. rewrite <- list_fmap_compose.
    apply Forall_fmap_ext_1. eapply Forall_impl; [exact Hpd|].
    intros p (_ & _ & H3). cbn. by apply HMCIstaccess_dim_HMCcreate_dim. }
  set (stored := total - 6).
  set (fv := take (Z.to_nat fill_val_len) fill_val).
  assert (Hfv : length fv = Z.to_nat fill_val_len) by (subst fv; rewrite length_take; lia).
  set (body :=
    [byte_of_Z _HDF_CHK_HDR_VER] ++ INT32ENCODE chunk_flag
    ++ INT32ENCODE (HMCcreate_data_len dd) ++ INT32ENCODE chunk_size ++ INT32ENCODE nt_size
    ++ UINT16ENCODE chktbl_tag ++ UINT16ENCODE chktbl_ref ++ UINT16ENCODE DFTAG_NULL
    ++ UINT16ENCODE 0 ++ INT32ENCODE n ++ mjoin (encode_dim <$> dd)
    ++ INT32ENCODE fill_val_len ++ fv).
  assert (Hinfo : info = mkchunk_header stored _HDF_CHK_HDR_VER chunk_flag
                           (HMCcreate_data_len dd) chunk_size nt_size chktbl_tag chktbl_ref
                           DFTAG_NULL 0 n dd fill_val_len fv).
  { subst info. unfold HMCcreate_header_fields. fold n dd. rewrite Htot.
    pose proof Hcomp as Hc. apply Z.eqb_neq in Hc. rewrite Hc.
    rewrite sub_small by (apply in_range_nonneg; lia). done. }
  assert (Hhdr : c_sp_header = UINT16ENCODE SPECIAL_CHUNKED ++ INT32ENCODE stored ++ body).
  { subst c_sp_header. rewrite Hinfo. unfold HMCcreate_c_sp_header.
    cbn [ChunkHeader.sp_tag_header_len ChunkHeader.version ChunkHeader.flag
         ChunkHeader.info_length ChunkHeader.chunk_size ChunkHeader.nt_size
         ChunkHeader.chktbl_tag ChunkHeader.chktbl_ref ChunkHeader.sp_tag ChunkHeader.sp_ref
         ChunkHeader.ndims ChunkHeader.ddims ChunkHeader.fill_val_len ChunkHeader.fill_val].
    pose proof Hcomp as Hc. apply Z.eqb_neq in Hc. rewrite Hc.
    replace (Z.to_nat n) with (length dd) by lia. rewrite fmap_dget_seq.
    subst fv. rewrite take_take, Nat.min_id. subst body. by rewrite !app_nil_r. }
  assert (Hbody : Z.of_nat (length body) = stored).
  { subst body. rewrite !length_app. pose proof (length_encode_dims dd) as Hl.
    unfold INT32ENCODE, UINT16ENCODE. cbn [length]. lia. }
  assert (Hlen : Z.of_nat (length c_sp_header) = total).
  { rewrite Hhdr, !length_app. unfold INT32ENCODE, UINT16ENCODE. cbn [length]. lia. }
  assert (Hne : c_sp_header <> []).
  { intros Hnil. rewrite Hnil in Hlen. cbn in Hlen. lia. }
  destruct (Hwrite_first temp conv c_sp_header s Hnew Hsp Hposn Hacc Hopen Hs Hend Hne
              ltac:(lia)) as (s1 & H1 & Ha1).
  rewrite Hlen in H1. exists s1. split; [done|].
  assert (Hsm1 : small s1.2).
  { unfold small. destruct Ha1 as [_ _ _ _ _ _ Hc _ _ _ _]. rewrite Hc, length_app. lia. }
  pose proof (appended_plain_reader _ _ _ Ha1 Hsm1) as Hp2.
  pose proof Ha1 as [_ _ _ _ _ _ Hc1 Hoff1 Hlen1 _ _].
  unfold HMCIstaccess_header.
  set (s2 := (Hstartaccess_read (ddid s1.1), s1.2)) in *.
  assert (Hel : element s2 = c_sp_header).
  { unfold element. cbn [fst snd s2 Hstartaccess_read ddid]. rewrite Hoff1, Hlen1, Hc1.
    rewrite !Nat2Z.id, drop_app_length. apply firstn_all. }
  destruct (Hseek_spec conv 2 DF_START s2 Hp2 ltac:(auto)) as (a3 & E3 & Hp3 & Hposn3 & Hdd3 & _).
  { cbn [fst s2 Hstartaccess_read ddid posn]. rewrite Hlen1, Hlen.
    cbv [DF_START DF_CURRENT DF_END Z.eqb Pos.eqb]. lia. }
  { cbn [fst s2 Hstartaccess_read ddid]. rewrite Hlen1. apply in_range_nonneg. lia. }
  rewrite E3. cbn [snd s2] in *.
  cbv [DF_START DF_CURRENT DF_END Z.eqb Pos.eqb] in Hposn3.
  unfold s2 in Hdd3. cbn [fst Hstartaccess_read ddid posn] in Hdd3, Hposn3.
  assert (Hel3 : element (a3, s1.2) = c_sp_header).
  { rewrite <- Hel. unfold element. cbn [fst snd]. by rewrite Hdd3. }
  destruct (Hread_spec 4 (a3, s1.2) Hp3 ltac:(lia))
    as (s4 & E4 & Hp4 & Hposn4 & Hdd4 & _ & _ & Hc4 & _).
  { cbn [fst]. rewrite Hposn3. by_evaluation. }
  cbn [fst snd] in E4, Hposn4, Hdd4, Hc4. rewrite Hdd3, Hlen1, Hlen, Hposn3, Hel3 in E4.
  rewrite Hdd3, Hposn3, Hlen1, Hlen in Hposn4.
  assert ((4 =? 0) || (total - (2 + 0 + 0) <? 4) = false) as Hn4.
  { apply orb_false_iff. split; [done|]. apply Z.ltb_ge. lia. }
  rewrite Hn4 in E4, Hposn4. rewrite E4. clear E4.
  assert (take (Z.to_nat 4) (drop (Z.to_nat (2 + 0 + 0)) c_sp_header) = INT32ENCODE stored)
    as ->.
  { by rewrite Hhdr. }
  assert (INT32DECODE (memcpy_at local_ptbuf 0 (INT32ENCODE stored) 4) = stored) as ->.
  { unfold memcpy_at. change (take (Z.to_nat 4) (INT32ENCODE stored)) with (INT32ENCODE stored).
    change (take (Z.to_nat 0) local_ptbuf) with (@nil Byte.byte). rewrite app_nil_l.
    apply INT32DECODE_ENCODE. apply in_range_nonneg. lia. }
  destruct (stored <? 0) eqn:E0; [lia|]. cbn [orb].
  fold stored. destruct (stored <=? 256) eqn:Efit.
  2:{ destruct (256 <? stored) eqn:E256; [done|lia]. }
  destruct (256 <? stored) eqn:E256; [lia|].
  assert (Hel4 : element s4 = c_sp_header).
  { rewrite <- Hel3. unfold element. cbn [fst snd]. by rewrite Hdd4, Hc4. }
  destruct (Hread_spec stored s4 Hp4 ltac:(lia))
    as (s5 & E5 & _).
  { rewrite Hposn4. unfold stored. lia. }
  rewrite Hdd4, Hdd3 in E5. cbn [Hstartaccess_read ddid] in E5.
  rewrite Hlen1, Hlen, Hposn4, Hel4 in E5.
  assert ((stored =? 0) || (total - (2 + 0 + 0 + 4) <? stored) = false) as Hn5.
  { apply orb_false_iff. split; [apply Z.eqb_neq|apply Z.ltb_ge]; unfold stored; lia. }
  rewrite Hn5 in E5. rewrite E5. clear E5. rewrite E256.
  assert (take (Z.to_nat stored) (drop (Z.to_nat (2 + 0 + 0 + 4)) c_sp_header) = body) as ->.
  { rewrite Hhdr. change (drop _ (UINT16ENCODE SPECIAL_CHUNKED ++ INT32ENCODE stored ++ body))
      with body. apply take_ge. lia. }
  subst body. rewrite <- !app_assoc. cbn [app hd drop].
  rewrite Z_of_byte_of_Z. change (_HDF_CHK_HDR_VER mod 256 =? _HDF_CHK_HDR_VER) with true.
  cbn [negb]. rewrite !drop_0.
  rewrite !drop_INT32ENCODE, !drop_UINT16ENCODE, !drop_INT32ENCODE.
  rewrite (INT32DECODE_ENCODE chunk_flag), (INT32DECODE_ENCODE chunk_size),
    (INT32DECODE_ENCODE nt_size), (INT32DECODE_ENCODE n),
    (INT32DECODE_ENCODE (HMCcreate_data_len dd))
    by first [done | apply HMCcreate_data_len_in_range | apply in_range_nonneg; lia].
  rewrite !UINT16DECODE_ENCODE by (first [done | by_evaluation]).
  destruct (n <? 0) eqn:En; [lia|].
  destruct (256 <? 29 + 12 * n + 4) eqn:En2; [unfold stored in *; lia|].
  replace (Z.to_nat n) with (length dd) by lia.
  rewrite decode_dims_encode by done.
  rewrite drop_INT32ENCODE, (INT32DECODE_ENCODE fill_val_len) by (apply in_range_nonneg; lia).
  destruct (fill_val_len <? 0) eqn:EF; [lia|].
  destruct (256 <? 33 + 12 * n + fill_val_len) eqn:EF2; [unfold stored in *; lia|].
  pose proof Hcomp as Hc. apply Z.eqb_neq in Hc. rewrite Hc.
  rewrite take_app_length' by done. cbn [fst]. rewrite Hid. by rewrite Hinfo.
Qed.

Lemma chunk_header_roundtrip_witness :
  let r := mkfilerec_t (mkhdf_file_t [Byte.x0e; Byte.x03] 0 H4_OP_UNKNOWN true)
             1 0 H4_OP_UNKNOWN false 0 2 in
  let s := (mkaccrec_t false 7 0 true 0 (mkdd_t 16686 2 (-1) (-1)), r) in
  let conv := fun (_ : accrec_t) (_ : filerec_t) => false in
  let pdims := [mkDIM_DEF 0 10 4; mkDIM_DEF 0 10 4] in
  let info := HMCcreate_header_fields 0 16 1 pdims 1 [Byte.x2a] 1962 3 0 in
  let long := HMCcreate_header_fields 0 16 1 pdims 200 (replicate 200 Byte.x2a) 1962 3 0 in
  (HMCcreate_sp_tag_header_len 0 2 1 0 = 64 /\
   exists s1,
     Hwrite Byte.xff conv 64 (HMCcreate_c_sp_header info []) s = (SUCCEED 64, s1) /\
     (HMCIstaccess_header conv [] (ddid s1.1) s1.2).1 = Decoded info) /\
  (HMCcreate_sp_tag_header_len 0 2 200 0 = 263 /\
   exists s1,
     Hwrite Byte.xff conv 263 (HMCcreate_c_sp_header long []) s = (SUCCEED 263, s1) /\
     (HMCIstaccess_header conv [] (ddid s1.1) s1.2).1 = Refused DFE_INTERNAL).
Proof.
  intros r s conv pdims info long.
  assert (Hs : synced r) by (split; [done|]; split; [by_evaluation|]; by left).
  assert (Hpd : Forall (fun p => 0 < pdim_chunk_length p <= Int32.max_signed /\
                                 0 <= pdim_dim_length p <= Int32.max_signed /\
                                 0 <= pdim_distrib_type p <= 255) pdims)
    by (repeat constructor; by_evaluation).
  split.
  - apply (chunk_header_roundtrip Byte.xff conv [] 0 16 1 pdims 1 [Byte.x2a] 1962 3 s);
      first [exact Hs | exact Hpd | by_evaluation].
  - apply (chunk_header_roundtrip Byte.xff conv [] 0 16 1 pdims 200 (replicate 200 Byte.x2a)
             1962 3 s); first [exact Hs | exact Hpd | by_evaluation].
Defined.

End HeaderExtras.

(** ** The cache and the file as one store of chunks *)

Section Coherence.

Import Int32.

(** Successful runs of the monad. *)
Lemma bind_ret {A B} (m : M A) (k : A -> M B) w b w' :
  bind m k w = (Ret b, w') -> exists a w1, m w = (Ret a, w1) /\ k a w1 = (Ret b, w').
Proof.
  intros H. apply bind_inv in H as [(a & w1 & Hm & H) | [(e & _ & He) | [_ He]]];
    [eauto | discriminate | discriminate].
Qed.

Lemma on_fail_ret {A} e (m : M A) w a w' :
  on_fail e m w = (Ret a, w') -> m w = (Ret a, w').
Proof.
  intros H. apply on_fail_inv in H as [(a' & Hm & He) | [(e' & _ & He) | [_ He]]];
    [by injection He as -> | discriminate | discriminate].
Qed.

(** The flags of a page. *)
Lemma land_1 f : negb (Z.land f 1 =? 0) = Z.testbit f 0.
Proof.
  change 1 with (Z.ones 1). rewrite Z.land_ones by lia. change (2 ^ 1) with 2.
  rewrite <- Z.bit0_mod. by destruct (Z.testbit f 0).
Qed.

Lemma land_2 f : negb (Z.land f 2 =? 0) = Z.testbit f 1.
Proof.
  destruct (Z.testbit f 1) eqn:E.
  - apply negb_true_iff, Z.eqb_neq. intros H.
    assert (Z.testbit (Z.land f 2) 1 = true) by (rewrite Z.land_spec, E; done).
    rewrite H in *. done.
  - apply negb_false_iff, Z.eqb_eq. apply Z.bits_inj'. intros n Hn.
    rewrite Z.land_spec, Z.bits_0.
    destruct (decide (n = 1)) as [->|]; [by rewrite E|].
    replace (Z.testbit 2 n) with false; [by rewrite andb_false_r|].
    change 2 with (2 ^ 1). symmetry. rewrite Z.pow2_bits_eqb by lia. apply Z.eqb_neq. lia.
Qed.

Lemma is_dirty_bit b : is_dirty b = Z.testbit (bflags b) 0.
Proof. apply land_1. Qed.

Lemma is_pinned_bit b : is_pinned b = Z.testbit (bflags b) 1.
Proof. apply land_2. Qed.

Lemma flags_pin pg d f :
  is_pinned (mkBKT pg d (Z.lor f MCACHE_PINNED)) = true /\
  is_dirty (mkBKT pg d (Z.lor f MCACHE_PINNED)) = is_dirty (mkBKT pg d f).
Proof.
  rewrite is_pinned_bit, !is_dirty_bit. cbn [bflags]. rewrite !Z.lor_spec.
  change (Z.testbit MCACHE_PINNED 1) with true. change (Z.testbit MCACHE_PINNED 0) with false.
  by rewrite orb_true_r, orb_false_r.
Qed.

Lemma flags_put pg d f flags :
  let f' := Z.lor (Z.land f (Z.lnot MCACHE_PINNED)) (Z.land flags MCACHE_DIRTY) in
  is_pinned (mkBKT pg d f') = false /\
  is_dirty (mkBKT pg d f') = is_dirty (mkBKT pg d f) || Z.testbit flags 0.
Proof.
  intros f'. subst f'. rewrite is_pinned_bit, !is_dirty_bit. cbn [bflags].
  rewrite !Z.lor_spec, !Z.land_spec, !Z.lnot_spec by lia.
  change (Z.testbit MCACHE_PINNED 1) with true. change (Z.testbit MCACHE_PINNED 0) with false.
  change (Z.testbit MCACHE_DIRTY 1) with false. change (Z.testbit MCACHE_DIRTY 0) with true.
  cbn [negb]. by rewrite !andb_false_r, !andb_true_r.
Qed.

(** ** What is in the file *)

Lemma HMCPchunkread_read_of k buf w :
  let i := special_info (access_rec w) in
  access_rec (HMCPchunkread k buf w).2 = access_rec w /\
  file_rec (HMCPchunkread k buf w).2 = file_rec w /\
  match (HMCPchunkread k buf w).1 with
  | Ret r => read_of i (f_objects (file_rec w)) k buf = Some r.2
  | Err _ => read_of i (f_objects (file_rec w)) k buf = None
  | Stuck => False
  end.
Proof.
  intros i. unfold HMCPchunkread, read_of. unfold_M. cbn [fst snd]. fold i.
  destruct (chk_tree i !! k) as [r|]; [|done].
  destruct (negb (chk_tag r =? DFTAG_NULL) && (BASETAG (chk_tag r) =? DFTAG_CHUNK)).
  - unfold Hread_element. unfold_M. cbn [fst snd].
    by destruct (f_objects (file_rec w) !! (chk_tag r, chk_ref r)).
  - by destruct (chk_tag r =? DFTAG_NULL).
Qed.

Lemma chunk_in_file_read_of w k :
  chunk_in_file w k
  = read_of (special_info (access_rec w)) (f_objects (file_rec w)) k
      (zero_bytes (pagebytes w)).
Proof.
  unfold chunk_in_file.
  destruct (HMCPchunkread_read_of k (zero_bytes (pagebytes w)) w) as (_ & _ & H).
  by destruct (HMCPchunkread _ _ _).1.
Qed.

Lemma HMCPchunkread_ret k buf w n d w' :
  HMCPchunkread k buf w = (Ret (n, d), w') ->
  read_of (special_info (access_rec w)) (f_objects (file_rec w)) k buf = Some d /\
  access_rec w' = access_rec w /\ file_rec w' = file_rec w.
Proof.
  intros H. destruct (HMCPchunkread_read_of k buf w) as (Ha & Hf & Hr).
  rewrite H in Ha, Hf, Hr. by cbn in *.
Qed.

Lemma pagebytes_eq pin w :
  coherent pin w ->
  pagebytes w = chunk_size (special_info (access_rec w)) * nt_size (special_info (access_rec w))
  /\ 0 < pagebytes w <= max_signed.
Proof.
  intros [Hb _ _ _ _ _ _ _ _ _]. unfold pagebytes.
  rewrite mul_small by (apply in_range_nonneg; lia). lia.
Qed.

(** On a coherent element a page-in does not depend on what the buffer
    held, and fills the whole page. *)
Lemma read_of_buffer pin w k buf d :
  coherent pin w -> Z.of_nat (length buf) = pagebytes w ->
  read_of (special_info (access_rec w)) (f_objects (file_rec w)) k buf = Some d ->
  chunk_in_file w k = Some d /\ Z.of_nat (length d) = pagebytes w.
Proof.
  intros Hc Hbuf H. pose proof (pagebytes_eq _ _ Hc) as (Hpb & Hpos).
  pose proof Hc as [Hb Hps _ (Hfl & Hmod) _ _ _ _ Htree _].
  rewrite chunk_in_file_read_of. revert H. unfold read_of.
  set (i := special_info (access_rec w)) in *.
  assert (Hfill : forall b : bytes, Z.of_nat (length b) = pagebytes w ->
            fill_page i b = fill_page i (zero_bytes (pagebytes w)) /\
            Z.of_nat (length (fill_page i b)) = pagebytes w).
  { assert (Hgen : forall b : bytes, Z.of_nat (length b) = pagebytes w ->
              fill_page i b
              = mjoin (replicate (Z.to_nat (pagebytes w / fill_val_len i))
                         (take (Z.to_nat (fill_val_len i)) (fill_val i)))).
    { intros b Hlen. unfold fill_page, HDmemfill.
      change (chunk_size i *i nt_size i) with (pagebytes w).
      rewrite div_nonneg by lia.
      rewrite drop_ge; [by rewrite app_nil_r|].
      rewrite length_tiled, length_take.
      apply Z.mod_divide in Hmod; [|lia]. destruct Hmod as [q Hq].
      rewrite Hq, Z.div_mul by lia. assert (0 <= q) by nia. nia. }
    intros b Hlen. rewrite (Hgen b Hlen).
    rewrite (Hgen (zero_bytes (pagebytes w)))
      by (unfold zero_bytes; rewrite length_replicate; lia).
    split; [done|]. rewrite length_tiled, length_take.
    apply Z.mod_divide in Hmod; [|lia]. destruct Hmod as [q Hq].
    rewrite Hq, Z.div_mul by lia. assert (0 <= q) by nia. nia. }
  destruct (chk_tree i !! k) as [r|] eqn:Hr.
  - destruct (negb (chk_tag r =? DFTAG_NULL) && (BASETAG (chk_tag r) =? DFTAG_CHUNK)) eqn:E.
    + destruct (Htree k r Hr) as [Hnull|(Htag & Href & data & Hobj & Hlen)].
      { rewrite Hnull in E. done. }
      rewrite Htag, Hobj. cbn [fmap option_fmap option_map].
      change (chunk_size i *i nt_size i) with (pagebytes w).
      intros H. injection H as <-.
      assert (Hm : forall b : bytes, Z.of_nat (length b) = pagebytes w ->
                memcpy_at b 0 data (pagebytes w) = take (Z.to_nat (pagebytes w)) data).
      { intros b Hlen'. unfold memcpy_at. cbn [Z.to_nat take app].
        rewrite drop_ge; [by rewrite app_nil_r|]. rewrite length_take. lia. }
      rewrite !Hm by (try done; unfold zero_bytes; rewrite length_replicate; lia).
      split; [done|]. rewrite length_take. lia.
    + destruct (chk_tag r =? DFTAG_NULL); [|done].
      intros H. injection H as <-. destruct (Hfill buf Hbuf) as [-> Hl]. split; [done|].
      by destruct (Hfill buf Hbuf) as [<- ?].
  - intros H. injection H as <-. destruct (Hfill buf Hbuf) as [E Hl]. by rewrite <- E.
Qed.

Lemma static_sizes w w' :
  static w' = static w ->
  chunk_size (special_info (access_rec w')) = chunk_size (special_info (access_rec w)) /\
  nt_size (special_info (access_rec w')) = nt_size (special_info (access_rec w)) /\
  fill_val_len (special_info (access_rec w')) = fill_val_len (special_info (access_rec w)) /\
  fill_val (special_info (access_rec w')) = fill_val (special_info (access_rec w)) /\
  pagebytes w' = pagebytes w.
Proof.
  unfold static, pagebytes. intros H. injection H as _ _ _ _ _ _ -> -> _ _ -> ->. done.
Qed.

(** What is in the file for chunk [k] depends on the record of [k] and on
    the element that record names. *)
Lemma chunk_in_file_local w w' k :
  static w' = static w ->
  chk_tree (special_info (access_rec w')) !! k = chk_tree (special_info (access_rec w)) !! k ->
  (forall r, chk_tree (special_info (access_rec w)) !! k = Some r ->
             f_objects (file_rec w') !! (chk_tag r, chk_ref r)
             = f_objects (file_rec w) !! (chk_tag r, chk_ref r)) ->
  chunk_in_file w' k = chunk_in_file w k.
Proof.
  intros Hs Ht Ho. destruct (static_sizes _ _ Hs) as (Hcs & Hnt & Hfl & Hfv & Hpb).
  rewrite !chunk_in_file_read_of. unfold read_of. rewrite Ht, Hpb, Hcs, Hnt.
  assert (Hfill : forall b, fill_page (special_info (access_rec w')) b
                            = fill_page (special_info (access_rec w)) b).
  { intros b. unfold fill_page. by rewrite Hcs, Hnt, Hfl, Hfv. }
  destruct (chk_tree (special_info (access_rec w)) !! k) as [r|] eqn:Hr; [|by rewrite Hfill].
  rewrite (Ho r eq_refl), Hfill. done.
Qed.

Lemma same_chunks_refl w : same_chunks w w.
Proof. by repeat split. Qed.

Lemma same_chunks_trans w1 w2 w3 :
  same_chunks w1 w2 -> same_chunks w2 w3 -> same_chunks w1 w3.
Proof.
  intros (? & ? & ? & ? & ?) (? & ? & ? & ? & ?). repeat split; congruence.
Qed.

Lemma same_chunks_in_file w w' k : same_chunks w w' -> chunk_in_file w' k = chunk_in_file w k.
Proof.
  intros (Hs & Ht & _ & Ho & _). apply chunk_in_file_local; [done| by rewrite Ht |].
  intros r _. by rewrite Ho.
Qed.

Lemma same_chunks_content w w' k : same_chunks w w' -> chunk_content w' k = chunk_content w k.
Proof.
  intros H. pose proof H as (_ & _ & Hc & _). unfold chunk_content.
  by rewrite Hc, (same_chunks_in_file _ _ _ H).
Qed.

Lemma same_chunks_coherent pin w w' : same_chunks w w' -> coherent pin w -> coherent pin w'.
Proof.
  intros H [Hb Hps Hnp Hfill Hpages Hnd Hclean Hdirty Htree Hrefs].
  pose proof H as (Hs & Ht & Hc & Ho & Hn).
  destruct (static_sizes _ _ Hs) as (Hcs & Hnt & Hfl & Hfv & Hpb).
  split; rewrite ?Hc, ?Ht, ?Hpb, ?Hcs, ?Hnt, ?Hfl, ?Hfv, ?Ho, ?Hn; try done.
  intros b Hin Hd. rewrite (same_chunks_in_file _ _ _ H). by apply Hclean.
Qed.

(** ** Page-out *)

(** The state after the page of chunk [k] was stored under [ref]. *)
Lemma stored_coherent pin w w' k r ref data old :
  coherent pin w -> Z.of_nat (length data) = pagebytes w ->
  (forall b, b ∈ lqh (cache_of w) -> pgno b = k + 1 -> page b = data) ->
  chk_tree (special_info (access_rec w)) !! k = Some r ->
  static w' = static w -> cache_of w' = cache_of w ->
  chk_tree (special_info (access_rec w'))
  = <[k := stored_rec r ref]> (chk_tree (special_info (access_rec w))) ->
  f_objects (file_rec w') = <[(DFTAG_CHUNK, ref) := data ++ old]> (f_objects (file_rec w)) ->
  (chk_tag r = DFTAG_NULL /\ ref = f_next_ref (file_rec w) /\ 1 <= ref /\
   f_next_ref (file_rec w') = ref + 1) \/
  (chk_tag r = DFTAG_CHUNK /\ ref = chk_ref r /\
   f_next_ref (file_rec w') = f_next_ref (file_rec w)) ->
  coherent pin w' /\
  chunk_in_file w' k = Some data /\
  (forall j, j <> k -> chunk_in_file w' j = chunk_in_file w j).
Proof.
  intros Hc Hlen Hown Hr Hs Hca Ht Ho Hcase.
  pose proof (pagebytes_eq _ _ Hc) as (Hpb & Hpos).
  pose proof Hc as [Hb Hps Hnp Hfill Hpages Hnd Hclean Hdirty Htree Hrefs].
  destruct (static_sizes _ _ Hs) as (Hcs & Hnt & Hfl & Hfv & Hpb').
  assert (Hother : forall j rj, j <> k ->
            chk_tree (special_info (access_rec w)) !! j = Some rj ->
            (chk_tag rj, chk_ref rj) <> (DFTAG_CHUNK, ref)).
  { intros j rj Hj Hrj E. injection E as Etag Eref.
    destruct (Htree j rj Hrj) as [Hn|(_ & Hrange & _)]; [by rewrite Hn in Etag|].
    destruct Hcase as [(_ & -> & _ & _)|(Htag & -> & _)]; [lia|].
    apply Hj. by apply (Hrefs j k rj r). }
  assert (Hk : chunk_in_file w' k = Some data).
  { rewrite chunk_in_file_read_of. unfold read_of. rewrite Ht, lookup_insert_eq.
    cbn [stored_rec chk_tag chk_ref]. change (negb (DFTAG_CHUNK =? DFTAG_NULL)
      && (BASETAG DFTAG_CHUNK =? DFTAG_CHUNK)) with true. cbn match.
    rewrite Ho, lookup_insert_eq. cbn [fmap option_fmap option_map]. f_equal.
    rewrite Hcs, Hnt. fold (pagebytes w). rewrite Hpb'.
    unfold memcpy_at. cbn [Z.to_nat take app].
    rewrite take_app_length' by lia. rewrite drop_ge; [by rewrite app_nil_r|].
    unfold zero_bytes. rewrite length_replicate. lia. }
  assert (Hj : forall j, j <> k -> chunk_in_file w' j = chunk_in_file w j).
  { intros j Hj. apply chunk_in_file_local; [done| by rewrite Ht, lookup_insert_ne |].
    intros rj Hrj. rewrite Ho, lookup_insert_ne; [done|].
    intros E. by apply (Hother j rj Hj Hrj). }
  split; [|done].
  split; rewrite ?Hca, ?Hpb', ?Hcs, ?Hnt, ?Hfl, ?Hfv; try done.
  - intros b Hin Hd. destruct (decide (pgno b - 1 = k)) as [E|E].
    + rewrite E, Hk. f_equal. symmetry. apply Hown; [done|lia].
    + rewrite (Hj _ E). by apply Hclean.
  - intros b Hin Hd. rewrite Ht. destruct (decide (pgno b - 1 = k)) as [->|E].
    + by rewrite lookup_insert_eq.
    + rewrite lookup_insert_ne by done. by apply Hdirty.
  - intros j rj. rewrite Ht. destruct (decide (j = k)) as [->|E].
    + rewrite lookup_insert_eq. intros [= <-]. right. cbn [stored_rec chk_tag chk_ref].
      split; [done|]. split.
      * destruct Hcase as [(_ & -> & H1 & ->)|(Htag & -> & ->)]; [lia|].
        destruct (Htree k r Hr) as [Hn|(_ & Hrange & _)]; [|done].
        rewrite Hn in Htag. done.
      * exists (data ++ old). rewrite Ho, lookup_insert_eq. split; [done|].
        rewrite length_app. lia.
    + rewrite lookup_insert_ne by done. intros Hrj.
      destruct (Htree j rj Hrj) as [Hn|(Htag & Hrange & d & Hd & Hdl)]; [by left|].
      right. split; [done|]. split.
      * destruct Hcase as [(_ & -> & _ & ->)|(_ & _ & ->)]; lia.
      * exists d. rewrite Ho, lookup_insert_ne; [done|].
        intros E'. injection E' as E'. apply (Hother j rj E Hrj). by rewrite Htag, E'.
  - intros k1 k2 r1 r2. rewrite !Ht.
    assert (Hne : forall j rj, j <> k ->
              chk_tree (special_info (access_rec w)) !! j = Some rj ->
              chk_tag rj = DFTAG_CHUNK -> chk_ref rj <> ref).
    { intros j rj Hj' Hrj Htag E. apply (Hother j rj Hj' Hrj). by rewrite Htag, E. }
    destruct (decide (k1 = k)) as [->|E1], (decide (k2 = k)) as [->|E2]; [done|..].
    + rewrite lookup_insert_eq, lookup_insert_ne by done. intros [= <-] H2 _ Ht2 E.
      cbn [stored_rec chk_ref] in E. by destruct (Hne k2 r2 E2 H2 Ht2).
    + rewrite lookup_insert_eq, lookup_insert_ne by done. intros H1 [= <-] Ht1 _ E.
      cbn [stored_rec chk_ref] in E. by destruct (Hne k1 r1 E1 H1 Ht1).
    + rewrite !lookup_insert_ne by done. apply Hrefs.
Qed.

Lemma HMCPchunkwrite_content pin w k data n w' :
  coherent pin w -> Z.of_nat (length data) = pagebytes w ->
  (forall b, b ∈ lqh (cache_of w) -> pgno b = k + 1 -> page b = data) ->
  HMCPchunkwrite k data w = (Ret n, w') ->
  coherent pin w' /\ cache_of w' = cache_of w /\ static w' = static w /\
  chunk_in_file w' k = Some data /\
  (forall j, j <> k -> chunk_in_file w' j = chunk_in_file w j) /\
  (forall j, is_Some (chk_tree (special_info (access_rec w)) !! j) ->
             is_Some (chk_tree (special_info (access_rec w')) !! j)).
Proof.
  intros Hc Hlen Hown H. pose proof (pagebytes_eq _ _ Hc) as (Hpb & Hpos).
  pose proof Hc as [Hb Hps Hnp Hfill Hpages Hnd Hclean Hdirty Htree Hrefs].
  unfold HMCPchunkwrite in H. unfold_M. cbn [fst snd] in H.
  destruct (chk_tree (special_info (access_rec w)) !! k) as [r|] eqn:Hr; [|done].
  fold (pagebytes w) in H.
  assert (Hdata : take (Z.to_nat (pagebytes w)) data = data) by (apply take_ge; lia).
  destruct (chk_tag r =? DFTAG_NULL) eqn:Etag.
  - apply Z.eqb_eq in Etag.
    unfold Htagnewref, VSwrite, Hwrite_element in H. unfold_M. cbn [fst snd] in H.
    destruct ((1 <=? f_next_ref (file_rec w)) && (f_next_ref (file_rec w) <=? 65535)) eqn:En;
      cbn in H; [|done].
    apply andb_prop in En as [En1 En2]. apply Z.leb_le in En1, En2.
    destruct (f_next_ref (file_rec w) =? 0) eqn:E0; [lia|]. cbn in H.
    destruct (Z.land (f_access (file_rec w)) DFACC_WRITE =? 0); cbn in H; [done|].
    injection H as <- <-. rewrite Hdata.
    match goal with |- coherent _ ?w1 /\ _ =>
      destruct (stored_coherent pin w w1 k r (f_next_ref (file_rec w)) data
                  (drop (Z.to_nat (pagebytes w))
                     (default [] (f_objects (file_rec w)
                                    !! (DFTAG_CHUNK, f_next_ref (file_rec w)))))
                  Hc Hlen Hown Hr) as (H1 & H2 & H3);
        [done | done | done | done | left; by repeat split | ] end.
    split; [exact H1|]. split; [done|]. split; [done|]. split; [exact H2|].
    split; [exact H3|]. intros j Hj. cbn.
    destruct (decide (j = k)) as [->|Hne];
      [by rewrite lookup_insert_eq | by rewrite lookup_insert_ne].
  - apply Z.eqb_neq in Etag.
    destruct (Htree k r Hr) as [Hn|(Htag & Hrange & d & Hd & Hdl)]; [done|].
    unfold Hwrite_element in H. unfold_M. cbn [fst snd] in H.
    destruct (Z.land (f_access (file_rec w)) DFACC_WRITE =? 0); cbn in H; [done|].
    injection H as <- <-. rewrite Hdata, Htag.
    match goal with |- coherent _ ?w1 /\ _ =>
      destruct (stored_coherent pin w w1 k r (chk_ref r) data
                  (drop (Z.to_nat (pagebytes w))
                     (default [] (f_objects (file_rec w) !! (DFTAG_CHUNK, chk_ref r))))
                  Hc Hlen Hown Hr) as (H1 & H2 & H3);
        [done | done | | done | right; by repeat split | ] end.
    + cbn. symmetry. apply insert_id. rewrite Hr. f_equal. destruct r. cbn in *. by subst.
    + done.
Qed.

(** ** The pages in the cache *)

Lemma find_page_elem pg l b : find_page pg l = Some b -> b ∈ l /\ pgno b = pg.
Proof.
  unfold find_page. intros H. apply find_some in H as [Hin H].
  split; [by apply list_elem_of_In | by apply Z.eqb_eq].
Qed.

Lemma find_page_none pg l b : find_page pg l = None -> b ∈ l -> pgno b <> pg.
Proof.
  unfold find_page. intros H Hin. apply list_elem_of_In in Hin.
  pose proof (find_none _ _ H b Hin) as Hb. by apply Z.eqb_neq.
Qed.

Lemma find_page_nodup l b :
  NoDup (pgno <$> l) -> b ∈ l -> find_page (pgno b) l = Some b.
Proof.
  unfold find_page. induction l as [|c l IH]; intros Hnd Hin; [by apply elem_of_nil in Hin|].
  rewrite fmap_cons in Hnd. apply NoDup_cons in Hnd as [Hc Hnd]. cbn [find].
  apply elem_of_cons in Hin as [->|Hin]; [by rewrite Z.eqb_refl|].
  destruct (pgno c =? pgno b) eqn:E; [|by apply IH].
  apply Z.eqb_eq in E. destruct Hc. rewrite E. by apply list_elem_of_fmap_2.
Qed.

Lemma elem_of_remove_page b pg l : b ∈ remove_page pg l <-> b ∈ l /\ pgno b <> pg.
Proof.
  unfold remove_page. rewrite !list_elem_of_In, filter_In.
  split; intros [H1 H2]; (split; [done|]).
  - by apply Z.eqb_neq, negb_true_iff.
  - by apply negb_true_iff, Z.eqb_neq.
Qed.

Lemma find_page_remove_other pg q l :
  pg <> q -> find_page pg (remove_page q l) = find_page pg l.
Proof.
  unfold find_page, remove_page. intros Hne. induction l as [|b l IH]; [done|].
  simpl. destruct (pgno b =? q) eqn:Eq; simpl.
  - apply Z.eqb_eq in Eq. destruct (pgno b =? pg) eqn:Ep; [apply Z.eqb_eq in Ep; lia|apply IH].
  - destruct (pgno b =? pg); [done|apply IH].
Qed.

Lemma NoDup_remove_page q l : NoDup (pgno <$> l) -> NoDup (pgno <$> remove_page q l).
Proof.
  unfold remove_page. induction l as [|b l IH]; [done|].
  rewrite fmap_cons. intros Hnd. apply NoDup_cons in Hnd as [Hb Hnd]. simpl.
  destruct (negb (pgno b =? q)); [|by apply IH].
  rewrite fmap_cons. apply NoDup_cons. split; [|by apply IH].
  intros Hin. apply Hb. apply list_elem_of_fmap in Hin as (c & Hc & Hin).
  apply list_elem_of_fmap. exists c. split; [done|].
  apply list_elem_of_In. apply list_elem_of_In, filter_In in Hin. apply Hin.
Qed.

Lemma find_page_snoc pg l b :
  find_page pg (l ++ [b])
  = match find_page pg l with
    | Some x => Some x
    | None => if pgno b =? pg then Some b else None
    end.
Proof.
  unfold find_page. induction l as [|c l IH]; cbn [app find]; [done|].
  by destruct (pgno c =? pg).
Qed.

Lemma NoDup_snoc_page l b :
  NoDup (pgno <$> l) -> find_page (pgno b) l = None -> NoDup (pgno <$> (l ++ [b])).
Proof.
  intros Hnd Hb. rewrite fmap_app. apply NoDup_app. split; [done|]. split.
  - intros x Hx Hx'. apply list_elem_of_singleton in Hx'. subst x.
    apply list_elem_of_fmap in Hx as (c & Hc & Hin). by apply (find_page_none _ _ c Hb).
  - apply NoDup_singleton.
Qed.

Lemma find_page_fmap_eq (f : BKT -> BKT) pg l :
  (forall b, pgno (f b) = pgno b) ->
  find_page pg (f <$> l) = f <$> find_page pg l.
Proof.
  intros Hf. unfold find_page. induction l as [|b l IH]; [done|].
  rewrite fmap_cons. simpl. rewrite Hf. by destruct (pgno b =? pg).
Qed.

Lemma set_cache_world c w r w' :
  set_cache c w = (r, w') ->
  r = Ret tt /\ cache_of w' = c /\ file_rec w' = file_rec w /\ static w' = static w /\
  chk_tree (special_info (access_rec w')) = chk_tree (special_info (access_rec w)).
Proof. unfold set_cache. unfold_M. simpl. intros H. by injection H as <- <-. Qed.

(** A change of the cache alone. *)
Lemma coherent_pages pin pin' w w' :
  coherent pin w ->
  static w' = static w ->
  chk_tree (special_info (access_rec w')) = chk_tree (special_info (access_rec w)) ->
  file_rec w' = file_rec w ->
  pagesize (cache_of w') = pagesize (cache_of w) ->
  npages (cache_of w') = npages (cache_of w) ->
  Forall (fun b => Z.of_nat (length (page b)) = pagebytes w /\
                   1 <= pgno b <= npages (cache_of w) /\
                   (is_pinned b = true <-> pin' = Some (pgno b)))
         (lqh (cache_of w')) ->
  NoDup (pgno <$> lqh (cache_of w')) ->
  (forall b, b ∈ lqh (cache_of w') -> is_dirty b = false ->
             chunk_in_file w (pgno b - 1) = Some (page b)) ->
  (forall b, b ∈ lqh (cache_of w') -> is_dirty b = true ->
             is_Some (chk_tree (special_info (access_rec w)) !! (pgno b - 1))) ->
  coherent pin' w' /\ (forall k, chunk_in_file w' k = chunk_in_file w k).
Proof.
  intros [Hb Hps Hnp Hfill Hpages Hnd Hclean Hdirty Htree Hrefs] Hs Ht Hf Hpsz Hnpg
    Hpages' Hnd' Hclean' Hdirty'.
  destruct (static_sizes _ _ Hs) as (Hcs & Hnt & Hfl & Hfv & Hpb).
  assert (Hin : forall k, chunk_in_file w' k = chunk_in_file w k).
  { intros k. apply chunk_in_file_local; [done | by rewrite Ht | intros; by rewrite Hf]. }
  split; [|done].
  split; rewrite ?Hpsz, ?Hnpg, ?Ht, ?Hpb, ?Hcs, ?Hnt, ?Hfl, ?Hfv, ?Hf; try done.
  intros b Hinb Hd. rewrite Hin. by apply Hclean'.
Qed.

Lemma same_page l b c :
  NoDup (pgno <$> l) -> b ∈ l -> c ∈ l -> pgno c = pgno b -> c = b.
Proof.
  intros Hnd Hb Hc E. pose proof (find_page_nodup l b Hnd Hb) as H1.
  pose proof (find_page_nodup l c Hnd Hc) as H2. rewrite E in H2. congruence.
Qed.

Lemma same_content_refl w : same_content w w.
Proof. split; [apply kept_refl|]. by split. Qed.

Lemma same_content_trans w1 w2 w3 :
  same_content w1 w2 -> same_content w2 w3 -> same_content w1 w3.
Proof.
  intros (Hk & Hc & Ht) (Hk' & Hc' & Ht'). split; [by eapply kept_trans|]. split.
  - intros j. by rewrite Hc', Hc.
  - intros j Hj. by apply Ht', Ht.
Qed.

Lemma same_chunks_same_content w w' :
  same_chunks w w' -> kept w w' -> same_content w w'.
Proof.
  intros H Hk. split; [done|]. split.
  - intros j. by apply same_chunks_content.
  - intros j. destruct H as (_ & -> & _). done.
Qed.

(** ** The buffer for a missing page *)

(** Eviction is not seen in what the chunks hold: the page of the victim
    is in the file afterwards. *)
Lemma mcache_bkt_content w buf w' :
  coherent None w ->
  mcache_bkt HMCPchunkwrite w = (Ret buf, w') ->
  Z.of_nat (length buf) = pagebytes w /\ coherent None w' /\ same_content w w'.
Proof.
  intros Hc H. pose proof (mcache_bkt_kept _ _ _ H) as (Hk & _).
  pose proof (pagebytes_eq _ _ Hc) as (Hpb & Hpos).
  pose proof Hc as [Hb Hps Hnp Hfill Hpages Hnd Hclean Hdirty Htree Hrefs].
  assert (Hzero : Z.of_nat (length (zero_bytes (pagesize (cache_of w)))) = pagebytes w).
  { unfold zero_bytes. rewrite length_replicate, Hps. lia. }
  unfold mcache_bkt in H.
  apply bind_ret in H as (mp & w0 & Hg & H). rewrite get_cache_eq in Hg.
  injection Hg as <- <-. fold (cache_of w) in H.
  destruct (_ <? _).
  { injection H as <- <-. split; [done|]. split; [done|]. apply same_content_refl. }
  destruct (List.find _ _) as [b|] eqn:Hfind; cycle 1.
  { injection H as <- <-. split; [done|]. split; [done|]. apply same_content_refl. }
  apply find_some in Hfind as [Hin _]. apply list_elem_of_In in Hin.
  pose proof (proj1 (Forall_forall _ _) Hpages b Hin) as (Hlen & Hrange & _).
  apply bind_ret in H as (x & w1 & Hout & H).
  apply bind_ret in H as (mp1 & w1' & Hg & H). rewrite get_cache_eq in Hg.
  injection Hg as <- <-. fold (cache_of w1) in H.
  apply bind_ret in H as (u & w2 & Hset & H). injection H as <- <-.
  apply set_cache_world in Hset as (_ & Hc2 & Hf2 & Hs2 & Ht2).
  assert (S1 : coherent None w1 /\ cache_of w1 = cache_of w /\ static w1 = static w /\
            chunk_in_file w1 (pgno b - 1) = Some (page b) /\
            (forall j, j <> pgno b - 1 -> chunk_in_file w1 j = chunk_in_file w j) /\
            (forall j, is_Some (chk_tree (special_info (access_rec w)) !! j) ->
                       is_Some (chk_tree (special_info (access_rec w1)) !! j))).
  { destruct (is_dirty b) eqn:Hd.
    - rewrite sub_small in Hout by (apply in_range_nonneg; lia).
      apply (HMCPchunkwrite_content None) in Hout; [done | done | done | ].
      intros c Hinc Hpg. f_equal. apply (same_page _ _ _ Hnd Hin Hinc). lia.
    - injection Hout as <- <-. split; [done|]. split; [done|]. split; [done|].
      split; [by apply Hclean | done]. }
  destruct S1 as (Hc1 & Hca1 & Hs1 & Hvic & Hoth & Hkeys).
  destruct (static_sizes _ _ Hs1) as (_ & _ & _ & _ & Hpb1).
  pose proof Hc1 as [_ Hps1 _ _ Hpages1 Hnd1 Hclean1 Hdirty1 _ _].
  destruct (coherent_pages None None w1 w2 Hc1) as (Hc2' & Hin2); try done.
  - by rewrite Hc2.
  - by rewrite Hc2.
  - rewrite Hc2. cbn [lqh]. apply Forall_forall. intros c Hcin.
    apply elem_of_remove_page in Hcin as [Hcin _].
    by apply (proj1 (Forall_forall _ _) Hpages1).
  - rewrite Hc2. cbn [lqh]. by apply NoDup_remove_page.
  - rewrite Hc2. cbn [lqh]. intros c Hcin. apply elem_of_remove_page in Hcin as [Hcin _].
    by apply Hclean1.
  - rewrite Hc2. cbn [lqh]. intros c Hcin. apply elem_of_remove_page in Hcin as [Hcin _].
    by apply Hdirty1.
  - split; [by rewrite Hlen|]. split; [done|]. split; [done|]. split.
    + intros j. unfold chunk_content. rewrite Hc2. cbn [lqh]. rewrite Hca1.
      destruct (decide (j + 1 = pgno b)) as [E|E].
      * rewrite E, find_page_remove_same, (find_page_nodup _ _ Hnd Hin), Hin2.
        replace j with (pgno b - 1) by lia. done.
      * rewrite find_page_remove_other by done.
        destruct (find_page (j + 1) (lqh (cache_of w))); [done|].
        rewrite Hin2. apply Hoth. lia.
    + intros j Hj. rewrite Ht2. by apply Hkeys.
Qed.

(** ** Getting a page *)

Lemma same_chunks_of_recs w w' :
  access_rec w' = access_rec w -> file_rec w' = file_rec w -> same_chunks w w'.
Proof. intros Ha Hf. unfold same_chunks, static, cache_of. by rewrite Ha, Hf. Qed.

Lemma cache_hit_state w w' pg b :
  coherent None w -> find_page pg (lqh (cache_of w)) = Some b ->
  static w' = static w ->
  chk_tree (special_info (access_rec w')) = chk_tree (special_info (access_rec w)) ->
  file_rec w' = file_rec w ->
  cache_of w'
  = mkMCACHE (remove_page pg (lqh (cache_of w))
                ++ [mkBKT pg (page b) (Z.lor (bflags b) MCACHE_PINNED)])
      (maxcache (cache_of w)) (npages (cache_of w)) (pagesize (cache_of w)) ->
  coherent (Some pg) w' /\ (forall j, chunk_content w' j = chunk_content w j).
Proof.
  intros Hc Hfind Hs Ht Hf Hca.
  pose proof Hc as [Hb Hps Hnp Hfill Hpages Hnd Hclean Hdirty Htree Hrefs].
  apply find_page_elem in Hfind as Hbin. destruct Hbin as [Hbin Hbpg].
  pose proof (proj1 (Forall_forall _ _) Hpages b Hbin) as (Hlen & Hrange & _).
  destruct (flags_pin pg (page b) (bflags b)) as [Hpin Hdirt'].
  assert (Hdirt : is_dirty (mkBKT pg (page b) (Z.lor (bflags b) MCACHE_PINNED)) = is_dirty b).
  { rewrite Hdirt'. by destruct b. }
  destruct (coherent_pages None (Some pg) w w' Hc) as (Hc' & Hin'); try done.
  - by rewrite Hca.
  - by rewrite Hca.
  - rewrite Hca. cbn [lqh]. apply Forall_app. split.
    + apply Forall_forall. intros c Hcin. apply elem_of_remove_page in Hcin as [Hcin Hne].
      pose proof (proj1 (Forall_forall _ _) Hpages c Hcin) as (Hl & Hr & Hp).
      split; [done|]. split; [done|]. split.
      * intros Hp'. by apply Hp in Hp'.
      * intros [= E]. by destruct Hne.
    + apply Forall_singleton. cbn [page pgno]. split; [done|]. split; [lia|]. by rewrite Hpin.
  - rewrite Hca. cbn [lqh]. apply NoDup_snoc_page; [by apply NoDup_remove_page|].
    apply find_page_remove_same.
  - rewrite Hca. cbn [lqh]. intros c Hcin. apply elem_of_app in Hcin as [Hcin|Hcin].
    + apply elem_of_remove_page in Hcin as [Hcin _]. by apply Hclean.
    + apply list_elem_of_singleton in Hcin. subst c. rewrite Hdirt. cbn [page pgno].
      rewrite <- Hbpg. by apply Hclean.
  - rewrite Hca. cbn [lqh]. intros c Hcin. apply elem_of_app in Hcin as [Hcin|Hcin].
    + apply elem_of_remove_page in Hcin as [Hcin _]. by apply Hdirty.
    + apply list_elem_of_singleton in Hcin. subst c. rewrite Hdirt. cbn [page pgno].
      rewrite <- Hbpg. by apply Hdirty.
  - split; [done|]. intros j. unfold chunk_content. rewrite Hca. cbn [lqh].
    rewrite find_page_snoc. cbn [pgno]. destruct (decide (j + 1 = pg)) as [E|E].
    + rewrite E, find_page_remove_same, Z.eqb_refl, Hfind. done.
    + rewrite find_page_remove_other by done.
      destruct (find_page (j + 1) (lqh (cache_of w))); [done|].
      replace (pg =? j + 1) with false by (symmetry; apply Z.eqb_neq; lia). apply Hin'.
Qed.

Lemma cache_miss_state w w' pg d :
  coherent None w -> find_page pg (lqh (cache_of w)) = None ->
  1 <= pg <= npages (cache_of w) ->
  chunk_in_file w (pg - 1) = Some d -> Z.of_nat (length d) = pagebytes w ->
  static w' = static w ->
  chk_tree (special_info (access_rec w')) = chk_tree (special_info (access_rec w)) ->
  file_rec w' = file_rec w ->
  cache_of w'
  = mkMCACHE (lqh (cache_of w) ++ [mkBKT pg d MCACHE_PINNED])
      (maxcache (cache_of w)) (npages (cache_of w)) (pagesize (cache_of w)) ->
  coherent (Some pg) w' /\ (forall j, chunk_content w' j = chunk_content w j).
Proof.
  intros Hc Hfind Hpg Hd Hlen Hs Ht Hf Hca.
  pose proof Hc as [Hb Hps Hnp Hfill Hpages Hnd Hclean Hdirty Htree Hrefs].
  destruct (coherent_pages None (Some pg) w w' Hc) as (Hc' & Hin'); try done.
  - by rewrite Hca.
  - by rewrite Hca.
  - rewrite Hca. cbn [lqh]. apply Forall_app. split.
    + apply Forall_forall. intros c Hcin.
      pose proof (proj1 (Forall_forall _ _) Hpages c Hcin) as (Hl & Hr & Hp).
      split; [done|]. split; [done|]. split.
      * intros Hp'. by apply Hp in Hp'.
      * intros [= E]. by destruct (find_page_none _ _ c Hfind Hcin).
    + apply Forall_singleton. cbn [page pgno]. by split.
  - rewrite Hca. cbn [lqh]. by apply NoDup_snoc_page.
  - rewrite Hca. cbn [lqh]. intros c Hcin. apply elem_of_app in Hcin as [Hcin|Hcin].
    + by apply Hclean.
    + apply list_elem_of_singleton in Hcin. by subst c.
  - rewrite Hca. cbn [lqh]. intros c Hcin. apply elem_of_app in Hcin as [Hcin|Hcin].
    + by apply Hdirty.
    + apply list_elem_of_singleton in Hcin. by subst c.
  - split; [done|]. intros j. unfold chunk_content. rewrite Hca. cbn [lqh].
    rewrite find_page_snoc. cbn [pgno page].
    destruct (find_page (j + 1) (lqh (cache_of w))) eqn:Ej; [done|].
    destruct (pg =? j + 1) eqn:E; [|apply Hin'].
    apply Z.eqb_eq in E. cbn [page]. rewrite <- Hd. f_equal. lia.
Qed.

Lemma log_world e w r w' :
  log e w = (r, w') -> r = Ret tt /\ access_rec w' = access_rec w /\ file_rec w' = file_rec w.
Proof. unfold log. intros H. by injection H as <- <-. Qed.

(** The page [mcache_get] hands out is what the chunk holds, whether it
    was in the cache or is read from the file, and whatever had to leave
    the cache for it. *)
Lemma mcache_get_content w pg d w' :
  coherent None w ->
  mcache_get HMCPchunkread HMCPchunkwrite pg w = (Ret d, w') ->
  coherent (Some pg) w' /\ same_content w w' /\
  chunk_content w (pg - 1) = Some d /\ 1 <= pg <= npages (cache_of w).
Proof.
  intros Hc H. pose proof (mcache_get_resident _ _ _ _ H) as (_ & Hk & Hpg).
  unfold mcache_get in H.
  apply bind_ret in H as (u0 & w0 & Hlog & H). apply log_world in Hlog as (_ & Ha0 & Hf0).
  pose proof (same_chunks_of_recs _ _ Ha0 Hf0) as Hsc0.
  pose proof (same_chunks_coherent _ _ _ Hsc0 Hc) as Hc0.
  assert (Hcont0 : forall j, chunk_content w0 j = chunk_content w j)
    by (intros j; by apply same_chunks_content).
  assert (Hca0 : cache_of w0 = cache_of w) by (unfold cache_of; by rewrite Ha0).
  apply bind_ret in H as (mp & w0' & Hg & H). rewrite get_cache_eq in Hg.
  injection Hg as <- <-. fold (cache_of w0) in H.
  destruct (_ || _); [done|].
  destruct (find_page pg (lqh (cache_of w0))) as [b|] eqn:Hfind.
  - apply bind_ret in H as (u & w1 & Hset & H). injection H as <- <-.
    apply set_cache_world in Hset as (_ & Hc1 & Hf1 & Hs1 & Ht1).
    destruct (cache_hit_state w0 w1 pg b Hc0 Hfind Hs1 Ht1 Hf1 Hc1) as (Hc' & Hcont).
    split; [done|]. split; [|split; [|done]].
    + split; [done|]. split; [intros j; by rewrite Hcont|].
      intros j. rewrite Ht1, Ha0. done.
    + rewrite <- Hcont0. unfold chunk_content.
      replace (pg - 1 + 1) with pg by lia. by rewrite Hfind.
  - apply bind_ret in H as (buf & w1 & Hbkt & H).
    pose proof (mcache_bkt_kept _ _ _ Hbkt) as (_ & Hnone). specialize (Hnone pg Hfind).
    apply mcache_bkt_content in Hbkt as (Hlen & Hc1 & Hk1 & Hcont1 & Hkeys1); [|done].
    destruct Hk1 as (Hs1 & _ & _ & Hnp1).
    destruct (static_sizes _ _ Hs1) as (_ & _ & _ & _ & Hpb1).
    apply bind_ret in H as ([n d'] & w2 & Hin & H).
    apply HMCPchunkread_ret in Hin as (Hread & Ha2 & Hf2).
    apply bind_ret in H as (mp & w2' & Hg & H). rewrite get_cache_eq in Hg.
    injection Hg as <- <-. fold (cache_of w2) in H.
    apply bind_ret in H as (u & w3 & Hset & H). injection H as <- <-. cbn [snd] in *.
    apply set_cache_world in Hset as (_ & Hc3 & Hf3 & Hs3 & Ht3).
    rewrite sub_small in Hread by (apply in_range_nonneg; rewrite <- Hca0, <- Hnp1 in Hpg;
      destruct Hc1 as [_ _ ? _ _ _ _ _ _ _]; lia).
    apply (read_of_buffer None) in Hread as (Hfile & Hlen'); [|done|by rewrite Hpb1].
    pose proof (same_chunks_of_recs _ _ Ha2 Hf2) as Hsc2.
    pose proof (same_chunks_coherent _ _ _ Hsc2 Hc1) as Hc2.
    assert (Hca2 : cache_of w2 = cache_of w1) by (unfold cache_of; by rewrite Ha2).
    destruct (static_sizes _ _ (proj1 Hsc2)) as (_ & _ & _ & _ & Hpb2).
    destruct (cache_miss_state w2 w3 pg d' Hc2) as (Hc' & Hcont); try done.
    + by rewrite Hca2.
    + rewrite Hca2, Hnp1, Hca0. done.
    + by rewrite (same_chunks_in_file _ _ _ Hsc2).
    + by rewrite Hpb2.
    + split; [done|]. split; [|split; [|done]].
      * split; [done|]. split.
        -- intros j. by rewrite Hcont, (same_chunks_content _ _ _ Hsc2), Hcont1.
        -- intros j Hj. rewrite Ht3, Ha2. apply Hkeys1. by rewrite Ha0.
      * rewrite <- Hcont0, <- Hcont1. unfold chunk_content.
        replace (pg - 1 + 1) with pg by lia. by rewrite Hnone.
Qed.

(** ** Returning a page *)

Lemma cache_return_state w w' pg flags (upd : bytes -> bytes) :
  coherent (Some pg) w ->
  static w' = static w ->
  chk_tree (special_info (access_rec w')) = chk_tree (special_info (access_rec w)) ->
  file_rec w' = file_rec w ->
  cache_of w'
  = mkMCACHE ((fun b => if pgno b =? pg
                        then mkBKT pg (upd (page b))
                               (Z.lor (Z.land (bflags b) (Z.lnot MCACHE_PINNED))
                                      (Z.land flags MCACHE_DIRTY))
                        else b) <$> lqh (cache_of w))
      (maxcache (cache_of w)) (npages (cache_of w)) (pagesize (cache_of w)) ->
  (forall p : bytes, Z.of_nat (length p) = pagebytes w ->
                     Z.of_nat (length (upd p)) = pagebytes w) ->
  (Z.testbit flags 0 = true -> is_Some (chk_tree (special_info (access_rec w)) !! (pg - 1))) ->
  (Z.testbit flags 0 = false -> forall p, upd p = p) ->
  coherent None w' /\
  (forall j, j + 1 <> pg -> chunk_content w' j = chunk_content w j) /\
  (forall b, find_page pg (lqh (cache_of w)) = Some b ->
             chunk_content w' (pg - 1) = Some (upd (page b))).
Proof.
  intros Hc Hs Ht Hf Hca Hupd Hflag Hid.
  pose proof Hc as [Hb Hps Hnp Hfill Hpages Hnd Hclean Hdirty Htree Hrefs].
  set (g := fun b => if pgno b =? pg
                     then mkBKT pg (upd (page b))
                            (Z.lor (Z.land (bflags b) (Z.lnot MCACHE_PINNED))
                                   (Z.land flags MCACHE_DIRTY))
                     else b) in *.
  assert (Hg : forall b, pgno (g b) = pgno b).
  { intros b. unfold g. destruct (pgno b =? pg) eqn:E; [|done]. apply Z.eqb_eq in E. done. }
  assert (Hgd : forall b, pgno b = pg ->
            is_pinned (g b) = false /\ is_dirty (g b) = is_dirty b || Z.testbit flags 0 /\
            page (g b) = upd (page b)).
  { intros b E. unfold g. rewrite E, Z.eqb_refl.
    destruct (flags_put pg (upd (page b)) (bflags b) flags) as [H1 H2].
    split; [done|]. split; [|done]. rewrite H2. by destruct b. }
  assert (Hgo : forall b, pgno b <> pg -> g b = b).
  { intros b E. unfold g. by replace (pgno b =? pg) with false by (symmetry; by apply Z.eqb_neq). }
  destruct (coherent_pages (Some pg) None w w' Hc) as (Hc' & Hin'); try done.
  - by rewrite Hca.
  - by rewrite Hca.
  - rewrite Hca. cbn [lqh]. apply Forall_fmap, Forall_forall. intros c Hcin. cbn [compose].
    pose proof (proj1 (Forall_forall _ _) Hpages c Hcin) as (Hl & Hr & Hp).
    destruct (decide (pgno c = pg)) as [E|E].
    + destruct (Hgd c E) as (H1 & H2 & H3). rewrite Hg, H3, H1.
      split; [by apply Hupd|]. split; [done|]. by split.
    + rewrite (Hgo c E). split; [done|]. split; [done|]. split; [|done].
      intros Hp'. apply Hp in Hp'. injection Hp' as Hp'. by destruct E.
  - rewrite Hca. cbn [lqh]. rewrite <- list_fmap_compose.
    replace ((pgno ∘ g) <$> lqh (cache_of w)) with (pgno <$> lqh (cache_of w)); [done|].
    apply list_fmap_ext. intros i c _. symmetry. apply Hg.
  - rewrite Hca. cbn [lqh]. intros c' Hcin. apply list_elem_of_fmap in Hcin as (c & -> & Hcin).
    destruct (decide (pgno c = pg)) as [E|E].
    + destruct (Hgd c E) as (H1 & H2 & H3). rewrite Hg, H3, H2. intros Hd.
      apply orb_false_iff in Hd as [Hd Hfl]. rewrite (Hid Hfl). by apply Hclean.
    + rewrite (Hgo c E). by apply Hclean.
  - rewrite Hca. cbn [lqh]. intros c' Hcin. apply list_elem_of_fmap in Hcin as (c & -> & Hcin).
    destruct (decide (pgno c = pg)) as [E|E].
    + destruct (Hgd c E) as (H1 & H2 & H3). rewrite Hg, H2. intros Hd.
      apply orb_true_iff in Hd as [Hd|Hfl]; [by apply Hdirty|]. rewrite E. by apply Hflag.
    + rewrite (Hgo c E). by apply Hdirty.
  - split; [done|]. split.
    + intros j Hj. unfold chunk_content. rewrite Hca. cbn [lqh].
      rewrite find_page_fmap_eq by done.
      destruct (find_page (j + 1) (lqh (cache_of w))) as [c|] eqn:Ej; [|apply Hin'].
      cbn [fmap option_fmap option_map]. apply find_page_elem in Ej as [_ Ej].
      rewrite Hgo; [done|lia].
    + intros b Hfind. unfold chunk_content. rewrite Hca. cbn [lqh].
      replace (pg - 1 + 1) with pg by lia.
      rewrite find_page_fmap_eq, Hfind by done. cbn [fmap option_fmap option_map].
      apply find_page_elem in Hfind as [_ E]. by destruct (Hgd b E) as (_ & _ & ->).
Qed.

(** A page returned to the cache stays what the chunk holds. *)
Lemma mcache_put_content w pg flags n w' :
  coherent (Some pg) w ->
  (Z.testbit flags 0 = true -> is_Some (chk_tree (special_info (access_rec w)) !! (pg - 1))) ->
  mcache_put pg flags w = (Ret n, w') ->
  coherent None w' /\ same_content w w'.
Proof.
  intros Hc Hflag H. unfold mcache_put in H.
  apply bind_ret in H as (u0 & w0 & Hlog & H). apply log_world in Hlog as (_ & Ha0 & Hf0).
  pose proof (same_chunks_of_recs _ _ Ha0 Hf0) as Hsc0.
  pose proof (same_chunks_coherent _ _ _ Hsc0 Hc) as Hc0.
  assert (Hca0 : cache_of w0 = cache_of w) by (unfold cache_of; by rewrite Ha0).
  apply bind_ret in H as (mp & w0' & Hg & H). rewrite get_cache_eq in Hg.
  injection Hg as <- <-. fold (cache_of w0) in H.
  destruct (find_page pg (lqh (cache_of w0))) as [b|] eqn:Hfind; [|done].
  apply bind_ret in H as (u & w1 & Hset & H). injection H as <- <-.
  apply set_cache_world in Hset as (_ & Hc1 & Hf1 & Hs1 & Ht1).
  destruct (cache_return_state w0 w1 pg flags (fun p => p) Hc0 Hs1 Ht1 Hf1 Hc1)
    as (Hc' & Hoth & Hpg); try done.
  { by rewrite Ha0. }
  split; [done|]. split; [|split].
  - pose proof Hsc0 as (Hs0 & _). unfold kept.
    rewrite Hs1, Hs0, Hf1, Hf0, Hc1. cbn [npages]. by rewrite Hca0.
  - intros j. rewrite <- (same_chunks_content _ _ _ Hsc0).
    destruct (decide (j + 1 = pg)) as [E|E]; [|by apply Hoth].
    replace j with (pg - 1) by lia. rewrite (Hpg b Hfind). unfold chunk_content.
    replace (pg - 1 + 1) with pg by lia. by rewrite Hfind.
  - intros j. by rewrite Ht1, Ha0.
Qed.

(** The caller's copy into the page it holds, returned dirty. *)
Lemma write_page_content w pg off src n w1 r w2 :
  coherent (Some pg) w ->
  is_Some (chk_tree (special_info (access_rec w)) !! (pg - 1)) ->
  (forall p : bytes, Z.of_nat (length p) = pagebytes w ->
                     Z.of_nat (length (memcpy_at p off src n)) = pagebytes w) ->
  page_memcpy pg off src n w = (Ret tt, w1) ->
  mcache_put pg MCACHE_DIRTY w1 = (Ret r, w2) ->
  coherent None w2 /\ kept w w2 /\
  (forall j, is_Some (chk_tree (special_info (access_rec w)) !! j) ->
             is_Some (chk_tree (special_info (access_rec w2)) !! j)) /\
  (forall j, j + 1 <> pg -> chunk_content w2 j = chunk_content w j) /\
  (forall d, chunk_content w (pg - 1) = Some d ->
             chunk_content w2 (pg - 1) = Some (memcpy_at d off src n)).
Proof.
  intros Hc Hrec Hupd H1 H2. unfold page_memcpy in H1.
  apply bind_ret in H1 as (mp & w0' & Hg & H1). rewrite get_cache_eq in Hg.
  injection Hg as <- <-. fold (cache_of w) in H1.
  apply set_cache_world in H1 as (_ & Hc1 & Hf1 & Hs1 & Ht1).
  unfold mcache_put in H2.
  apply bind_ret in H2 as (u0 & w1' & Hlog & H2). apply log_world in Hlog as (_ & Ha0 & Hf0).
  assert (Hca0 : cache_of w1' = cache_of w1) by (unfold cache_of; by rewrite Ha0).
  assert (Hs0 : static w1' = static w1) by (unfold static; by rewrite Ha0).
  apply bind_ret in H2 as (mp & w0' & Hg & H2). rewrite get_cache_eq in Hg.
  injection Hg as <- <-. fold (cache_of w1') in H2.
  destruct (find_page pg (lqh (cache_of w1'))) as [b'|] eqn:Hfind'; [|done].
  apply bind_ret in H2 as (u & w3 & Hset & H2). injection H2 as <- <-.
  apply set_cache_world in Hset as (_ & Hc2 & Hf2 & Hs2 & Ht2).
  set (f1 := fun b => if pgno b =? pg
                      then mkBKT pg (memcpy_at (page b) off src n) (bflags b) else b) in *.
  assert (Hf1p : forall b, pgno (f1 b) = pgno b).
  { intros b. unfold f1. destruct (pgno b =? pg) eqn:E; [|done]. apply Z.eqb_eq in E. done. }
  rewrite Hca0, Hc1 in Hfind'. cbn [lqh] in Hfind'.
  rewrite find_page_fmap_eq in Hfind' by done.
  destruct (find_page pg (lqh (cache_of w))) as [b|] eqn:Hfind; [|done].
  destruct (cache_return_state w w3 pg MCACHE_DIRTY (fun p => memcpy_at p off src n) Hc)
    as (Hc' & Hoth & Hpg); try done.
  - by rewrite Hs2, Hs0.
  - by rewrite Ht2, Ha0.
  - by rewrite Hf2, Hf0.
  - rewrite Hc2, Hca0, Hc1. cbn [lqh maxcache npages pagesize]. f_equal.
    rewrite <- list_fmap_compose. apply list_fmap_ext. intros i c _. cbn [compose].
    unfold f1. destruct (pgno c =? pg) eqn:E; [|by rewrite E].
    cbn [pgno page bflags]. by rewrite Z.eqb_refl.
  - split; [done|]. split; [|split; [|split; [done|]]].
    + unfold kept. rewrite Hs2, Hs0, Hs1, Hf2, Hf0, Hf1, Hc2, Hca0, Hc1. done.
    + intros j. by rewrite Ht2, Ha0, Ht1.
    + intros d Hd. rewrite (Hpg b Hfind). unfold chunk_content in Hd.
      replace (pg - 1 + 1) with pg in Hd by lia. rewrite Hfind in Hd. by injection Hd as <-.
Qed.

(** ** Records for chunks that have none *)

(** A placeholder record reads as fill values, as a missing record does. *)
Lemma insert_chunk_rec_content pin cn org w r w' :
  coherent pin w ->
  chk_tree (special_info (access_rec w)) !! cn = None ->
  insert_chunk_rec cn org w = (r, w') ->
  r = Ret tt /\ coherent pin w' /\ same_content w w' /\
  is_Some (chk_tree (special_info (access_rec w')) !! cn).
Proof.
  intros Hc Hnone H.
  pose proof Hc as [Hb Hps Hnp Hfill Hpages Hnd Hclean Hdirty Htree Hrefs].
  unfold insert_chunk_rec in H. unfold_M. cbn [fst snd] in H. injection H as <- <-.
  split; [done|].
  match goal with |- coherent _ ?w1 /\ _ => set (w' := w1) end.
  assert (Hs : static w' = static w) by done.
  assert (Hca : cache_of w' = cache_of w) by done.
  assert (Hf : file_rec w' = file_rec w) by done.
  assert (Ht : chk_tree (special_info (access_rec w'))
               = <[cn := mkCHUNK_REC cn (num_recs (special_info (access_rec w))) org
                           DFTAG_NULL 0]> (chk_tree (special_info (access_rec w)))) by done.
  clearbody w'.
  destruct (static_sizes _ _ Hs) as (Hcs & Hnt & Hfl & Hfv & Hpb).
  assert (Hin : forall k, chunk_in_file w' k = chunk_in_file w k).
  { intros k. rewrite !chunk_in_file_read_of. unfold read_of.
    rewrite Ht, Hpb, Hcs, Hnt, Hf.
    assert (Hfp : forall b, fill_page (special_info (access_rec w')) b
                            = fill_page (special_info (access_rec w)) b).
    { intros b. unfold fill_page. by rewrite Hcs, Hnt, Hfl, Hfv. }
    destruct (decide (k = cn)) as [->|E].
    - rewrite lookup_insert_eq, Hnone. cbn [chk_tag]. by rewrite Hfp.
    - rewrite lookup_insert_ne by done. by rewrite Hfp. }
  split; [|split; [split; [|split]|]].
  - split; rewrite ?Hca, ?Hpb, ?Hcs, ?Hnt, ?Hfl, ?Hfv, ?Hf; try done.
    + intros b Hbin Hd. rewrite Hin. by apply Hclean.
    + intros b Hbin Hd. rewrite Ht. destruct (decide (pgno b - 1 = cn)) as [->|E].
      * by rewrite lookup_insert_eq.
      * rewrite lookup_insert_ne by done. by apply Hdirty.
    + intros k rk. rewrite Ht. destruct (decide (k = cn)) as [->|E].
      * rewrite lookup_insert_eq. intros [= <-]. by left.
      * rewrite lookup_insert_ne by done. apply Htree.
    + intros k1 k2 r1 r2. rewrite !Ht.
      destruct (decide (k1 = cn)) as [->|E1].
      { rewrite lookup_insert_eq. intros [= <-]. done. }
      destruct (decide (k2 = cn)) as [->|E2].
      { rewrite lookup_insert_eq. intros _ [= <-]. done. }
      rewrite !lookup_insert_ne by done. apply Hrefs.
  - unfold kept. by rewrite Hs, Hf, Hca.
  - intros j. unfold chunk_content. by rewrite Hca, Hin.
  - intros j Hj. rewrite Ht. destruct (decide (j = cn)) as [->|E].
    + by rewrite lookup_insert_eq.
    + by rewrite lookup_insert_ne.
  - by rewrite Ht, lookup_insert_eq.
Qed.

(** ** The operations on an open element *)

Lemma seek_to_chunks x w r w' :
  seek_to x w = (r, w') -> r = Ret tt /\ same_chunks w w' /\ kept w w'.
Proof.
  unfold seek_to, set_seek. unfold_M. simpl. intros H. injection H as <- <-. by repeat split.
Qed.

Lemma set_posn_chunks p w r w' :
  set_posn p w = (r, w') -> r = Ret tt /\ same_chunks w w' /\ kept w w'.
Proof. unfold set_posn. intros H. injection H as <- <-. by repeat split. Qed.

Lemma seek_to_origin_chunks org w r w' :
  seek_to_origin org w = (r, w') -> r = Ret tt /\ same_chunks w w' /\ kept w w'.
Proof.
  unfold seek_to_origin, set_seek. unfold_M. simpl. intros H. injection H as <- <-.
  by repeat split.
Qed.

Lemma seek_after_chunk_chunks n w r w' :
  seek_after_chunk n w = (r, w') -> r = Ret tt /\ same_chunks w w' /\ kept w w'.
Proof.
  unfold seek_after_chunk. unfold_M. simpl. intros H. injection H as <- <-. by repeat split.
Qed.

Lemma quiet_content pin w w' :
  same_chunks w w' -> kept w w' -> coherent pin w ->
  coherent pin w' /\ same_content w w'.
Proof.
  intros Hsc Hk Hc. split; [by eapply same_chunks_coherent|].
  by apply same_chunks_same_content.
Qed.

(** What a chunk holds has the size of a chunk. *)
Lemma chunk_content_length pin w k d :
  coherent pin w -> chunk_content w k = Some d -> Z.of_nat (length d) = pagebytes w.
Proof.
  intros Hc. pose proof Hc as [Hb Hps Hnp Hfill Hpages Hnd Hclean Hdirty Htree Hrefs].
  unfold chunk_content. destruct (find_page _ _) as [b|] eqn:E.
  - intros [= <-]. apply find_page_elem in E as [Hin _].
    by destruct (proj1 (Forall_forall _ _) Hpages b Hin) as (? & _).
  - rewrite chunk_in_file_read_of. intros H.
    apply (read_of_buffer pin) in H as [_ H]; [done|done|].
    unfold zero_bytes. rewrite length_replicate.
    destruct (pagebytes_eq _ _ Hc) as (_ & ?). lia.
Qed.

(** [HMCreadChunk] returns what the chunk holds, and changes no chunk. *)
Lemma HMCreadChunk_content org w n d w' :
  coherent None w ->
  HMCreadChunk org w = (Ret (n, d), w') ->
  coherent None w' /\ same_content w w' /\ n = pagebytes w /\
  chunk_content w
    (calculate_chunk_num (ndims (special_info (access_rec w))) org
       (ddims (special_info (access_rec w))) +i 1 - 1) = Some d.
Proof.
  intros Hc H. unfold HMCreadChunk in H.
  apply bind_ret in H as (a & w0' & Hg & H). injection Hg as <- <-.
  apply bind_ret in H as (f & w0' & Hg & H). injection Hg as <- <-.
  destruct (BADFREC _); [done|]. destruct (_ =? 0); [done|].
  destruct (_ =? SPECIAL_CHUNKED); [|done].
  apply bind_ret in H as (i & w0' & Hg & H). injection Hg as <- <-.
  fold (pagebytes w) in H.
  set (pg := calculate_chunk_num _ _ _ +i 1) in *.
  apply bind_ret in H as (u & w0 & H0 & H).
  apply seek_to_origin_chunks in H0 as (_ & Hsc0 & Hk0).
  destruct (quiet_content _ _ _ Hsc0 Hk0 Hc) as (Hc0 & Hsame0).
  apply bind_ret in H as (d' & w1 & H1 & H). apply on_fail_ret in H1.
  apply mcache_get_content in H1 as (Hc1 & Hsame1 & Hd' & Hpg); [|done].
  apply bind_ret in H as (x & w2 & H2 & H). apply on_fail_ret in H2.
  apply mcache_put_content in H2 as (Hc2 & Hsame2); [|done|done].
  apply bind_ret in H as (u3 & w3 & H3 & H).
  apply seek_after_chunk_chunks in H3 as (_ & Hsc3 & Hk3).
  destruct (quiet_content _ _ _ Hsc3 Hk3 Hc2) as (Hc3 & Hsame3).
  injection H as <- <- <-. split; [done|]. split; [|split; [done|]].
  - eapply same_content_trans; [exact Hsame0|].
    eapply same_content_trans; [exact Hsame1|].
    eapply same_content_trans; [exact Hsame2|exact Hsame3].
  - destruct Hsame0 as (_ & Hcont0 & _). rewrite Hcont0 in Hd'. rewrite Hd'. f_equal.
    pose proof (chunk_content_length _ _ _ _ Hc Hd') as Hlen.
    unfold memcpy_from. change (Z.to_nat 0) with 0%nat. rewrite drop_0.
    rewrite take_ge; [done|lia].
Qed.

Lemma static_dims w w' :
  static w' = static w ->
  ndims (special_info (access_rec w')) = ndims (special_info (access_rec w)) /\
  ddims (special_info (access_rec w')) = ddims (special_info (access_rec w)).
Proof. unfold static. intros H. by injection H as _ _ _ _ _ _ _ _ -> -> _ _. Qed.

(** [HMCwriteChunk] changes the chunk at the origin and no other. *)
Lemma HMCwriteChunk_content org data w n w' :
  coherent None w -> Forall in_range org ->
  HMCwriteChunk org data w = (Ret n, w') ->
  let k := calculate_chunk_num (ndims (special_info (access_rec w))) org
             (ddims (special_info (access_rec w))) in
  coherent None w' /\ kept w w' /\
  (forall j, j <> k -> chunk_content w' j = chunk_content w j) /\
  (exists d, chunk_content w k = Some d /\
             chunk_content w' k = Some (memcpy_at d 0 data (pagebytes w))) /\
  n = pagebytes w /\ 1 <= k + 1 <= npages (cache_of w) /\
  BADFREC (file_rec w) = false /\ Z.land (f_access (file_rec w)) DFACC_WRITE <> 0 /\
  special (access_rec w) = SPECIAL_CHUNKED.
Proof.
  intros Hc Horg H k. unfold HMCwriteChunk in H.
  apply bind_ret in H as (a & w0' & Hg & H). injection Hg as <- <-.
  apply bind_ret in H as (f & w0' & Hg & H). injection Hg as <- <-.
  destruct (BADFREC _) eqn:Hbad; [done|]. destruct (_ =? 0) eqn:Hacc; [done|].
  destruct (_ =? SPECIAL_CHUNKED) eqn:Hsp; [|done].
  apply Z.eqb_neq in Hacc. apply Z.eqb_eq in Hsp.
  apply bind_ret in H as (i & w0' & Hg & H). injection Hg as <- <-.
  fold (pagebytes w) in H. fold k in H.
  assert (Hk : in_range k) by (by apply calculate_chunk_num_in_range).
  apply bind_ret in H as (u & w0 & H0 & H).
  apply seek_to_origin_chunks in H0 as (_ & Hsc0 & Hk0).
  destruct (quiet_content _ _ _ Hsc0 Hk0 Hc) as (Hc0 & Hsame0).
  pose proof Hsc0 as (_ & Ht0 & _).
  apply bind_ret in H as (u1 & w1 & H1 & H).
  assert (S1 : coherent None w1 /\ same_content w0 w1 /\
               is_Some (chk_tree (special_info (access_rec w1)) !! k)).
  { destruct (chk_tree (special_info (access_rec w)) !! k) as [rk|] eqn:Hrk.
    - injection H1 as <- <-. split; [done|]. split; [apply same_content_refl|].
      by rewrite Ht0, Hrk.
    - apply (insert_chunk_rec_content None) in H1 as (_ & ? & ? & ?); [done|done|].
      by rewrite Ht0. }
  destruct S1 as (Hc1 & Hsame1 & Hrec1).
  apply bind_ret in H as (d' & w2 & H2 & H). apply on_fail_ret in H2.
  apply mcache_get_content in H2 as (Hc2 & Hsame2 & Hd' & Hpg); [|done].
  assert (Epg : k +i 1 - 1 = k).
  { apply page_of_chunk; [done|apply Hpg]. }
  rewrite Epg in Hd'.
  pose proof (same_content_trans _ _ _ Hsame0 Hsame1) as Hsame01.
  pose proof (same_content_trans _ _ _ Hsame01 Hsame2) as Hsame02.
  destruct Hsame02 as (Hk02 & Hcont02 & Hkeys02).
  destruct Hsame2 as (Hk2 & Hcont2 & Hkeys2).
  destruct (static_sizes _ _ (proj1 Hk02)) as (_ & _ & _ & _ & Hpb2).
  apply bind_ret in H as ([] & w3 & H3 & H).
  apply bind_ret in H as (x & w4 & H4 & H). apply on_fail_ret in H4.
  destruct (write_page_content w2 (k +i 1) 0 data (pagebytes w) w3 x w4 Hc2)
    as (Hc4 & Hk4 & _ & Hoth4 & Hpg4); try done.
  { rewrite Epg. by apply Hkeys2. }
  { intros p Hp. unfold memcpy_at. cbv zeta. change (Z.to_nat 0) with 0%nat.
    rewrite take_0, app_nil_l, Nat.add_0_l, length_app, length_drop, length_take. lia. }
  apply bind_ret in H as (u5 & w5 & H5 & H).
  apply seek_after_chunk_chunks in H5 as (_ & Hsc5 & Hk5).
  destruct (quiet_content _ _ _ Hsc5 Hk5 Hc4) as (Hc5 & Hsame5).
  destruct Hsame5 as (_ & Hcont5 & _).
  injection H as <- <-. split; [done|]. split; [|split; [|split; [|split; [done|split]]]].
  - eapply kept_trans; [exact Hk02|]. eapply kept_trans; [exact Hk4|exact Hk5].
  - intros j Hj. rewrite Hcont5, Hoth4, Hcont02; [done|]. rewrite <- Epg in Hj. lia.
  - exists d'. destruct Hsame01 as (_ & Hcont01 & _). split; [by rewrite <- Hcont01|].
    rewrite Hcont5. rewrite Epg in Hpg4. apply Hpg4. by rewrite Hcont2.
  - destruct Hsame01 as ((_ & _ & _ & Hnp01) & _). rewrite Hnp01 in Hpg. lia.
  - done.
Qed.

Lemma HMCPread_loop_content fuel : forall read_len br rel bptr w r w',
  coherent None w ->
  HMCPread_loop fuel read_len br rel bptr w = (Ret r, w') ->
  coherent None w' /\ same_content w w'.
Proof.
  induction fuel as [|fuel IH]; intros read_len br rel bptr w r w' Hc H;
    cbn [HMCPread_loop] in H.
  - destruct (br <? read_len); [done|]. injection H as <- <-.
    split; [done|apply same_content_refl].
  - destruct (br <? read_len); cycle 1.
    { injection H as <- <-. split; [done|apply same_content_refl]. }
    apply bind_ret in H as (i & w0' & Hg & H). injection Hg as <- <-.
    apply bind_ret in H as (d & w1 & H1 & H). apply on_fail_ret in H1.
    apply mcache_get_content in H1 as (Hc1 & Hsame1 & _ & _); [|done].
    apply bind_ret in H as (x & w2 & H2 & H). apply on_fail_ret in H2.
    apply mcache_put_content in H2 as (Hc2 & Hsame2); [|done|done].
    apply bind_ret in H as (u & w3 & H3 & H).
    apply seek_to_chunks in H3 as (_ & Hsc3 & Hk3).
    destruct (quiet_content _ _ _ Hsc3 Hk3 Hc2) as (Hc3 & Hsame3).
    apply IH in H as (Hc4 & Hsame4); [|done].
    split; [done|]. eauto using same_content_trans.
Qed.

Lemma HMCPread_content len w r w' :
  coherent None w -> HMCPread len w = (Ret r, w') ->
  coherent None w' /\ same_content w w'.
Proof.
  intros Hc H. unfold HMCPread in H.
  apply bind_ret in H as (a & w0' & Hg & H). injection Hg as <- <-.
  apply bind_ret in H as (i & w0' & Hg & H). injection Hg as <- <-.
  destruct (len <? 0); [done|]. cbv zeta in H.
  apply bind_ret in H as (u & w0 & H0 & H).
  apply seek_to_chunks in H0 as (_ & Hsc0 & Hk0).
  destruct (quiet_content _ _ _ Hsc0 Hk0 Hc) as (Hc0 & Hsame0).
  apply bind_ret in H as (x & w1 & H1 & H).
  apply HMCPread_loop_content in H1 as (Hc1 & Hsame1); [|done].
  apply bind_ret in H as (u2 & w2 & H2 & H).
  apply set_posn_chunks in H2 as (_ & Hsc2 & Hk2).
  destruct (quiet_content _ _ _ Hsc2 Hk2 Hc1) as (Hc2 & Hsame2).
  injection H as <- <-. split; [done|]. eauto using same_content_trans.
Qed.

Lemma HMCPseek_content offset origin w r w' :
  coherent None w -> HMCPseek offset origin w = (Ret r, w') ->
  coherent None w' /\ same_content w w'.
Proof.
  intros Hc H. unfold HMCPseek in H.
  apply bind_ret in H as (a & w0' & Hg & H). injection Hg as <- <-.
  destruct (negb _); [done|].
  apply bind_ret in H as (i & w0' & Hg & H). injection Hg as <- <-. cbv zeta in H.
  destruct (_ <? 0); [done|].
  apply bind_ret in H as (u & w0 & H0 & H).
  apply seek_to_chunks in H0 as (_ & Hsc0 & Hk0).
  destruct (quiet_content _ _ _ Hsc0 Hk0 Hc) as (Hc0 & Hsame0).
  apply bind_ret in H as (u2 & w2 & H2 & H).
  apply set_posn_chunks in H2 as (_ & Hsc2 & Hk2).
  destruct (quiet_content _ _ _ Hsc2 Hk2 Hc0) as (Hc2 & Hsame2).
  injection H as <- <-. split; [done|]. eauto using same_content_trans.
Qed.

Lemma HMCsetMaxcache_content maxcache flags w r w' :
  coherent None w -> HMCsetMaxcache maxcache flags w = (Ret r, w') ->
  coherent None w' /\ same_content w w'.
Proof.
  intros Hc H. unfold HMCsetMaxcache in H.
  apply bind_ret in H as (a & w0' & Hg & H). injection Hg as <- <-.
  destruct (_ <? 1); [done|]. destruct (_ =? SPECIAL_CHUNKED); [|done].
  unfold mcache_set_maxcache in H.
  apply bind_ret in H as (mp & w0' & Hg & H). rewrite get_cache_eq in Hg.
  injection Hg as <- <-. fold (cache_of w) in H. cbv zeta in H.
  match type of H with (if ?g then _ else _) _ = _ => destruct g end; cycle 1.
  { injection H as <- <-. split; [done|apply same_content_refl]. }
  apply bind_ret in H as (u & w1 & H1 & H). injection H as <- <-.
  apply set_cache_world in H1 as (_ & Hc1 & Hf1 & Hs1 & Ht1).
  pose proof Hc as [Hb Hps Hnp Hfill Hpages Hnd Hclean Hdirty Htree Hrefs].
  destruct (coherent_pages None None w w1 Hc) as (Hc' & Hin'); try done;
    try (by rewrite Hc1).
  split; [done|]. split; [|split].
  - unfold kept. by rewrite Hs1, Hf1, Hc1.
  - intros j. unfold chunk_content. rewrite Hc1. cbn [lqh]. by rewrite Hin'.
  - intros j. by rewrite Ht1.
Qed.

(** An operation that spares chunk [k] leaves in it what it holds. *)
Lemma run_op_content o w w' k :
  coherent None w -> op_typed o -> spares w k o ->
  run_op o w = (true, w') ->
  coherent None w' /\ kept w w' /\ chunk_content w' k = chunk_content w k.
Proof.
  intros Hc Hty Hsp H.
  assert (Hsame : forall w1, coherent None w1 /\ same_content w w1 ->
            coherent None w1 /\ kept w w1 /\ chunk_content w1 k = chunk_content w k).
  { intros w1 (? & ? & Hcont & _). by rewrite Hcont. }
  destruct o as [offset origin|len|len datap|org|org datap|maxcache flags|];
    unfold run_op in H; cbn [fst snd] in H.
  - destruct (HMCPseek offset origin w) as [[r|e|] w1] eqn:E; cbn in H; try done.
    injection H as <-. by apply Hsame, (HMCPseek_content offset origin w r).
  - destruct (HMCPread len w) as [[r|e|] w1] eqn:E; cbn in H; try done.
    injection H as <-. by apply Hsame, (HMCPread_content len w r).
  - done.
  - destruct (HMCreadChunk org w) as [[[n d]|e|] w1] eqn:E; cbn in H; try done.
    injection H as <-. apply Hsame.
    by destruct (HMCreadChunk_content org w n d w1 Hc E) as (? & ? & _).
  - destruct (HMCwriteChunk org datap w) as [[r|e|] w1] eqn:E; cbn in H; try done.
    injection H as <-.
    destruct (HMCwriteChunk_content org datap w r w1 Hc Hty E) as (? & ? & Hoth & _).
    split; [done|]. split; [done|]. apply Hoth. intros ->. by apply Hsp.
  - destruct (HMCsetMaxcache maxcache flags w) as [[r|e|] w1] eqn:E; cbn in H; try done.
    injection H as <-. by apply Hsame, (HMCsetMaxcache_content maxcache flags w r).
  - unfold HMCPgetnumrecs in H. cbn in H. injection H as <-.
    apply Hsame. split; [done|apply same_content_refl].
Qed.

Lemma spares_static w w' k o : static w' = static w -> spares w k o -> spares w' k o.
Proof.
  intros Hs. destruct (static_dims _ _ Hs) as (Hn & Hd).
  destruct o; cbn [spares]; try done. by rewrite Hn, Hd.
Qed.

Lemma run_ops_content os : forall w w' k,
  coherent None w -> Forall op_typed os -> Forall (spares w k) os ->
  run_ops os w = (true, w') ->
  coherent None w' /\ kept w w' /\ chunk_content w' k = chunk_content w k.
Proof.
  induction os as [|o os IH]; intros w w' k Hc Hty Hsp H.
  - injection H as <-. split; [done|]. split; [apply kept_refl|done].
  - cbn [run_ops] in H. destruct (run_op o w) as [b w1] eqn:E1.
    destruct (run_ops os w1) as [bs w2] eqn:E2. injection H as Hb <-.
    apply andb_prop in Hb as [-> ->].
    apply Forall_cons in Hty as [Hty1 Hty]. apply Forall_cons in Hsp as [Hsp1 Hsp].
    destruct (run_op_content o w w1 k Hc Hty1 Hsp1 E1) as (Hc1 & Hk1 & Hcont1).
    destruct (IH w1 w2 k Hc1 Hty) as (Hc2 & Hk2 & Hcont2); [|done|].
    + eapply Forall_impl; [exact Hsp|]. intros o'. apply spares_static. apply Hk1.
    + split; [done|]. split; [by eapply kept_trans|]. by rewrite Hcont2.
Qed.

(** ** When the cache and the file cannot fail *)

Lemma HMCPchunkread_succeeds pin w k buf :
  coherent pin w -> exists n d w', HMCPchunkread k buf w = (Ret (n, d), w').
Proof.
  intros Hc. destruct (HMCPchunkread_read_of k buf w) as (_ & _ & H).
  destruct (HMCPchunkread k buf w) as [[[n d]|e|] w'] eqn:E; cbn [fst] in H; [eauto| |done].
  exfalso. revert H. unfold read_of.
  destruct (chk_tree (special_info (access_rec w)) !! k) as [r|] eqn:Hr; [|done].
  destruct (coh_tree _ _ Hc k r Hr) as [Hn|(Htag & _ & d & Hd & _)].
  - by rewrite Hn.
  - by rewrite Htag, Hd.
Qed.

Lemma HMCPchunkwrite_succeeds pin w k data :
  coherent pin w -> is_Some (chk_tree (special_info (access_rec w)) !! k) ->
  Z.land (f_access (file_rec w)) DFACC_WRITE <> 0 ->
  1 <= f_next_ref (file_rec w) <= 65535 ->
  exists n w', HMCPchunkwrite k data w = (Ret n, w').
Proof.
  intros Hc [r Hr] Hacc Href. apply Z.eqb_neq in Hacc.
  unfold HMCPchunkwrite. unfold_M. cbn [fst snd]. rewrite Hr.
  destruct (chk_tag r =? DFTAG_NULL) eqn:Etag.
  - unfold Htagnewref, VSwrite, Hwrite_element. unfold_M. cbn [fst snd].
    replace (1 <=? f_next_ref (file_rec w)) with true by (symmetry; apply Z.leb_le; lia).
    replace (f_next_ref (file_rec w) <=? 65535) with true by (symmetry; apply Z.leb_le; lia).
    cbn. replace (f_next_ref (file_rec w) =? 0) with false by (symmetry; apply Z.eqb_neq; lia).
    cbn. rewrite Hacc. cbn. by eexists _, _.
  - unfold Hwrite_element. unfold_M. cbn [fst snd]. rewrite Hacc. cbn. by eexists _, _.
Qed.

Lemma mcache_bkt_succeeds w :
  coherent None w ->
  Z.land (f_access (file_rec w)) DFACC_WRITE <> 0 ->
  1 <= f_next_ref (file_rec w) <= 65535 ->
  exists buf w', mcache_bkt HMCPchunkwrite w = (Ret buf, w').
Proof.
  intros Hc Hacc Href. unfold mcache_bkt.
  rewrite (bind_ok _ _ _ _ _ (get_cache_eq w)). fold (cache_of w).
  destruct (_ <? _); [by eexists _, _|].
  destruct (List.find _ _) as [b|] eqn:Hfind; [|by eexists _, _].
  apply find_some in Hfind as [Hin _]. apply list_elem_of_In in Hin.
  pose proof Hc as [_ _ Hnp _ Hpages _ _ Hdirty _ _].
  pose proof (proj1 (Forall_forall _ _) Hpages b Hin) as (_ & Hrange & _).
  assert (Hout : exists x w1,
            (if is_dirty b then HMCPchunkwrite (pgno b -i 1) (page b) else ret 0) w
            = (Ret x, w1)).
  { destruct (is_dirty b) eqn:Hd; [|by eexists _, _].
    apply (HMCPchunkwrite_succeeds None); try done.
    rewrite sub_small by (apply in_range_nonneg; lia). by apply Hdirty. }
  destruct Hout as (x & w1 & Hout). rewrite (bind_ok _ _ _ _ _ Hout). by eexists _, _.
Qed.

Lemma mcache_get_succeeds w pg :
  coherent None w ->
  Z.land (f_access (file_rec w)) DFACC_WRITE <> 0 ->
  1 <= f_next_ref (file_rec w) <= 65535 ->
  1 <= pg <= npages (cache_of w) ->
  exists d w', mcache_get HMCPchunkread HMCPchunkwrite pg w = (Ret d, w').
Proof.
  intros Hc Hacc Href Hpg. unfold mcache_get.
  destruct (log (EvCacheGet pg) w) as [r0 w0] eqn:Hlog.
  pose proof (log_world _ _ _ _ Hlog) as (-> & Ha0 & Hf0).
  rewrite (bind_ok _ _ _ _ _ Hlog).
  rewrite (bind_ok _ _ _ _ _ (get_cache_eq w0)). fold (cache_of w0).
  assert (Hca0 : cache_of w0 = cache_of w) by (unfold cache_of; by rewrite Ha0).
  pose proof (same_chunks_coherent _ _ _ (same_chunks_of_recs _ _ Ha0 Hf0) Hc) as Hc0.
  rewrite Hca0.
  replace (pg <? 1) with false by (symmetry; apply Z.ltb_ge; lia).
  replace (npages (cache_of w) <? pg) with false by (symmetry; apply Z.ltb_ge; lia).
  cbn [orb]. destruct (find_page pg _) as [b|] eqn:Hfind; [by eexists _, _|].
  destruct (mcache_bkt_succeeds w0 Hc0) as (buf & w1 & Hbkt); [by rewrite Hf0..|].
  rewrite (bind_ok _ _ _ _ _ Hbkt).
  apply mcache_bkt_content in Hbkt as (_ & Hc1 & _); [|done].
  destruct (HMCPchunkread_succeeds None w1 (pg -i 1) buf Hc1) as (n & d & w2 & Hin).
  rewrite (bind_ok _ _ _ _ _ Hin). by eexists _, _.
Qed.

Lemma static_special w w' :
  static w' = static w -> special (access_rec w') = special (access_rec w).
Proof. unfold static. intros H. by injection H as _ -> _ _ _ _ _ _ _ _ _ _. Qed.

(** On a file open for reading and writing that has a ref left,
    [HMCreadChunk] of a chunk inside the grid succeeds. *)
Lemma HMCreadChunk_succeeds org w :
  coherent None w ->
  BADFREC (file_rec w) = false ->
  Z.land (f_access (file_rec w)) DFACC_READ <> 0 ->
  Z.land (f_access (file_rec w)) DFACC_WRITE <> 0 ->
  special (access_rec w) = SPECIAL_CHUNKED ->
  1 <= f_next_ref (file_rec w) <= 65535 ->
  1 <= calculate_chunk_num (ndims (special_info (access_rec w))) org
         (ddims (special_info (access_rec w))) +i 1 <= npages (cache_of w) ->
  exists r w', HMCreadChunk org w = (Ret r, w').
Proof.
  intros Hc Hbad Hrd Hwr Hsp Href Hpg. apply Z.eqb_neq in Hrd.
  unfold HMCreadChunk.
  rewrite (bind_ok get_access _ w (access_rec w) w eq_refl).
  rewrite (bind_ok get_file _ w (file_rec w) w eq_refl).
  rewrite Hbad, Hrd, Hsp, Z.eqb_refl.
  rewrite (bind_ok get_info _ w (special_info (access_rec w)) w eq_refl).
  destruct (seek_to_origin org w) as [r0 w0] eqn:H0.
  pose proof (seek_to_origin_chunks _ _ _ _ H0) as (-> & Hsc0 & Hk0).
  rewrite (bind_ok _ _ _ _ _ H0).
  pose proof (same_chunks_coherent _ _ _ Hsc0 Hc) as Hc0.
  pose proof Hsc0 as (_ & _ & Hca0 & _ & Hnr0). destruct Hk0 as (_ & Hfa0 & _ & _).
  set (pg := calculate_chunk_num _ _ _ +i 1) in *.
  destruct (mcache_get_succeeds w0 pg Hc0) as (d & w1 & H1);
    [by rewrite Hfa0 | by rewrite Hnr0 | by rewrite Hca0 |].
  rewrite (bind_ok _ _ _ _ _ (on_fail_ok _ _ _ _ _ H1)).
  apply mcache_get_resident in H1 as (Hres & _ & _).
  destruct (mcache_put_resident _ 0 _ _ Hres) as (w2 & H2 & _).
  rewrite (bind_ok _ _ _ _ _ (on_fail_ok _ _ _ _ _ H2)).
  destruct (seek_after_chunk_store
              (chunk_size (special_info (access_rec w)) *i nt_size (special_info (access_rec w)))
              w2) as (w3 & H3 & _).
  rewrite (bind_ok _ _ _ _ _ H3). by eexists _, _.
Qed.

Lemma HMCreadChunk_not_stuck org w w' : HMCreadChunk org w <> (Stuck, w').
Proof.
  intros H. unfold HMCreadChunk in H.
  inv_bind H; try done. injection Hm as <- <-.
  inv_bind H; try done. injection Hm as <- <-.
  destruct (BADFREC _); [done|]. destruct (_ =? 0); [done|].
  destruct (_ =? SPECIAL_CHUNKED); [|done].
  inv_bind H; try done. injection Hm as <- <-.
  inv_bind H; try done; try (by apply seek_to_origin_chunks in Hm as (? & _)).
  clear Hm. inv_bind H; try done;
    try (by inv_on_fail Hm; try done; apply mcache_get_spec in Hm as (_ & _ & ? & _)).
  clear Hm. inv_bind H; try done;
    try (by inv_on_fail Hm; try done; apply mcache_put_spec in Hm as (_ & _ & ?)).
Qed.

(** An element that was just created: nothing in the cache, no record. *)
Lemma coherent_fresh w :
  lqh (cache_of w) = [] -> chk_tree (special_info (access_rec w)) = ∅ ->
  0 < chunk_size (special_info (access_rec w)) * nt_size (special_info (access_rec w))
    <= max_signed ->
  pagesize (cache_of w) = pagebytes w ->
  npages (cache_of w) <= max_signed ->
  0 < fill_val_len (special_info (access_rec w))
    <= Z.of_nat (length (fill_val (special_info (access_rec w)))) ->
  pagebytes w mod fill_val_len (special_info (access_rec w)) = 0 ->
  coherent None w.
Proof.
  intros Hl Ht Hb Hps Hnp Hfl Hmod. split; rewrite ?Hl, ?Ht; try done.
  - apply NoDup_nil_2.
  - intros b Hin. by apply elem_of_nil in Hin.
  - intros b Hin. by apply elem_of_nil in Hin.
Qed.

(** X22.  A chunk written by [HMCwriteChunk] outlives the cache: after
    any run of operations that succeed and spare the chunk (seeks, reads,
    whole-chunk reads and writes of other chunks, changes of the cache
    size), whatever was evicted, paged out and paged in meanwhile,
    [HMCreadChunk] of the same origin returns the bytes written, in the
    length of a chunk.  It can only fail, with an error, when the file is
    not open for reading or has no ref left for a page-out. *)
Theorem written_chunk_outlives_cache org data w n w1 os w2 r w3 :
  coherent None w ->
  Forall in_range org ->
  pagebytes w <= Z.of_nat (length data) ->
  HMCwriteChunk org data w = (Ret n, w1) ->
  Forall op_typed os ->
  Forall (spares w (calculate_chunk_num (ndims (special_info (access_rec w))) org
                      (ddims (special_info (access_rec w))))) os ->
  run_ops os w1 = (true, w2) ->
  HMCreadChunk org w2 = (r, w3) ->
  r = Ret (pagebytes w, take (Z.to_nat (pagebytes w)) data) \/
  ((exists e, r = Err e) /\
   (Z.land (f_access (file_rec w)) DFACC_READ = 0 \/
    ~ 1 <= f_next_ref (file_rec w2) <= 65535)).
Proof.
  intros Hc Horg Hlen Hw Hty Hsp Hrun Hr.
  set (k := calculate_chunk_num _ _ _) in *.
  destruct (HMCwriteChunk_content org data w n w1 Hc Horg Hw)
    as (Hc1 & Hk1 & _ & (d0 & Hd0 & Hd1) & _ & Hrange & Hbad & Hwr & Hspec).
  fold k in Hd0, Hd1, Hrange.
  assert (Hsp1 : Forall (spares w1 k) os).
  { eapply Forall_impl; [exact Hsp|]. intros o. apply spares_static. apply Hk1. }
  destruct (run_ops_content os w1 w2 k Hc1 Hty Hsp1 Hrun) as (Hc2 & Hk2 & Hcont2).
  pose proof (kept_trans _ _ _ Hk1 Hk2) as (Hs & Hfa & Hfr & Hnp).
  destruct (static_sizes _ _ Hs) as (_ & _ & _ & _ & Hpb).
  destruct (static_dims _ _ Hs) as (Hnd & Hdd).
  pose proof (pagebytes_eq _ _ Hc) as (_ & Hpos).
  pose proof Hc as [_ _ Hnpg _ _ _ _ _ _ _].
  assert (Epg : k +i 1 = k + 1) by (apply add_small, in_range_nonneg; lia).
  assert (Hchunk : chunk_content w2 k = Some (take (Z.to_nat (pagebytes w)) data)).
  { rewrite Hcont2, Hd1. f_equal.
    pose proof (chunk_content_length _ _ _ _ Hc Hd0) as Hl0.
    unfold memcpy_at. cbv zeta. change (Z.to_nat 0) with 0%nat.
    rewrite take_0, app_nil_l, Nat.add_0_l.
    rewrite drop_ge; [by rewrite app_nil_r|]. rewrite length_take. lia. }
  assert (Hret : forall n' d, r = Ret (n', d) ->
            r = Ret (pagebytes w, take (Z.to_nat (pagebytes w)) data)).
  { intros n' d ->.
    destruct (HMCreadChunk_content org w2 n' d w3 Hc2 Hr) as (_ & _ & -> & Hd).
    rewrite Hnd, Hdd in Hd. fold k in Hd. rewrite Epg in Hd.
    replace (k + 1 - 1) with k in Hd by lia. rewrite Hchunk in Hd.
    injection Hd as <-. by rewrite Hpb. }
  destruct r as [[n' d]|e|].
  - left. by apply (Hret n' d).
  - right. split; [by exists e|].
    destruct (decide (Z.land (f_access (file_rec w)) DFACC_READ = 0)) as [|Hrd]; [by left|].
    right. intros Href.
    destruct (HMCreadChunk_succeeds org w2 Hc2) as (r' & w' & E); try done.
    + unfold BADFREC in *. by rewrite Hfr.
    + by rewrite Hfa.
    + by rewrite Hfa.
    + by rewrite (static_special _ _ Hs).
    + rewrite Hnd, Hdd, Hnp. fold k. lia.
    + rewrite Hr in E. done.
  - by destruct (HMCreadChunk_not_stuck org w2 w3).
Qed.

Lemma written_chunk_outlives_cache_witness :
  let w := HMCcreate_world 0 16 1 [mkDIM_DEF 0 10 4; mkDIM_DEF 0 10 4] 1
             [Byte.x2a] (mkfilerec_t 3 1 ∅ 2 []) in
  let data := replicate 16 Byte.x07 in
  let w1 := (HMCwriteChunk [2; 2] data w).2 in
  let os := [OpWriteChunk [0; 0] (replicate 16 Byte.x01);
             OpWriteChunk [0; 1] (replicate 16 Byte.x02);
             OpReadChunk [1; 1]; OpSeek 3 0; OpRead 9; OpSetMaxcache 2 0;
             OpWriteChunk [2; 1] (replicate 16 Byte.x03)] in
  let w2 := (run_ops os w1).2 in
  let res := HMCreadChunk [2; 2] w2 in
  res.1 = Ret (pagebytes w, take (Z.to_nat (pagebytes w)) data) \/
  ((exists e, res.1 = Err e) /\
   (Z.land (f_access (file_rec w)) DFACC_READ = 0 \/
    ~ 1 <= f_next_ref (file_rec w2) <= 65535)).
Proof.
  intros w data w1 os w2 res.
  apply (written_chunk_outlives_cache [2; 2] data w 16 w1 os w2 res.1 res.2).
  - apply coherent_fresh; by_evaluation.
  - repeat constructor; by_evaluation.
  - by_evaluation.
  - by_evaluation.
  - repeat constructor; by_evaluation.
  - repeat constructor; by_evaluation.
  - by_evaluation.
  - apply surjective_pairing.
Defined.

(** The fill of a whole page: the fill value, tiled. *)
Lemma fill_page_tiled pin w (b : bytes) :
  coherent pin w -> Z.of_nat (length b) = pagebytes w ->
  fill_page (special_info (access_rec w)) b
  = mjoin (replicate (Z.to_nat (pagebytes w / fill_val_len (special_info (access_rec w))))
             (take (Z.to_nat (fill_val_len (special_info (access_rec w))))
                (fill_val (special_info (access_rec w))))).
Proof.
  intros Hc Hlen. pose proof (pagebytes_eq _ _ Hc) as (Hpb & Hpos).
  pose proof Hc as [Hb Hps _ (Hfl & Hmod) _ _ _ _ Htree _].
  unfold fill_page, HDmemfill.
  change (chunk_size (special_info (access_rec w)) *i nt_size (special_info (access_rec w)))
    with (pagebytes w).
  rewrite div_nonneg by lia.
  rewrite drop_ge; [by rewrite app_nil_r|].
  rewrite length_tiled, length_take.
  apply Z.mod_divide in Hmod; [|lia]. destruct Hmod as [q Hq].
  rewrite Hq, Z.div_mul by lia. assert (0 <= q) by nia. nia.
Qed.

(** X23.  A chunk that was never written reads as fill values: when the
    chunk at [org] has neither a record nor a page, then after any run of
    operations that succeed and spare the chunk, [HMCreadChunk] of it
    returns the fill value tiled over the length of a chunk, whatever was
    written to other chunks and evicted meanwhile.  It can only fail,
    with an error, when the file is not open for reading and writing, has
    no ref left for a page-out, or the chunk is outside the grid. *)
Theorem unwritten_chunk_reads_fill org w os w2 r w3 :
  let info := special_info (access_rec w) in
  let k := calculate_chunk_num (ndims info) org (ddims info) in
  coherent None w ->
  Forall in_range org ->
  chk_tree info !! k = None ->
  find_page (k + 1) (lqh (cache_of w)) = None ->
  Forall op_typed os ->
  Forall (spares w k) os ->
  run_ops os w = (true, w2) ->
  HMCreadChunk org w2 = (r, w3) ->
  r = Ret (pagebytes w,
           mjoin (replicate (Z.to_nat (pagebytes w / fill_val_len info))
                    (take (Z.to_nat (fill_val_len info)) (fill_val info)))) \/
  ((exists e, r = Err e) /\
   ~ (BADFREC (file_rec w) = false /\
      Z.land (f_access (file_rec w)) DFACC_READ <> 0 /\
      Z.land (f_access (file_rec w)) DFACC_WRITE <> 0 /\
      special (access_rec w) = SPECIAL_CHUNKED /\
      1 <= k + 1 <= npages (cache_of w) /\
      1 <= f_next_ref (file_rec w2) <= 65535)).
Proof.
  intros info k Hc Horg Hrec Hpage Hty Hsp Hrun Hr.
  destruct (run_ops_content os w w2 k Hc Hty Hsp Hrun) as (Hc2 & (Hs & Hfa & Hfr & Hnp) & Hcont2).
  destruct (static_sizes _ _ Hs) as (_ & _ & _ & _ & Hpb).
  destruct (static_dims _ _ Hs) as (Hnd & Hdd).
  pose proof (pagebytes_eq _ _ Hc) as (_ & Hpos).
  pose proof Hc as [_ _ Hnpg _ _ _ _ _ _ _].
  assert (Hk : in_range k) by (by apply calculate_chunk_num_in_range).
  assert (Hchunk : chunk_content w2 k
                   = Some (fill_page info (zero_bytes (pagebytes w)))).
  { rewrite Hcont2. unfold chunk_content. rewrite Hpage, chunk_in_file_read_of.
    unfold read_of. fold info. by rewrite Hrec. }
  rewrite (fill_page_tiled None w) in Hchunk;
    [|done|unfold zero_bytes; rewrite length_replicate; lia].
  destruct r as [[n' d]|e|].
  - left. destruct (HMCreadChunk_content org w2 n' d w3 Hc2 Hr) as (_ & (_ & Hcont & _) & -> & Hd).
    rewrite Hnd, Hdd in Hd. fold info k in Hd.
    assert (Epg : k +i 1 - 1 = k).
    { unfold HMCreadChunk in Hr.
      apply bind_ret in Hr as (a & w0' & Hg & Hr). injection Hg as <- <-.
      apply bind_ret in Hr as (f & w0' & Hg & Hr). injection Hg as <- <-.
      destruct (BADFREC _); [done|]. destruct (_ =? 0); [done|].
      destruct (_ =? SPECIAL_CHUNKED); [|done].
      apply bind_ret in Hr as (i & w0' & Hg & Hr). injection Hg as <- <-.
      apply bind_ret in Hr as (u & w0 & H0 & Hr).
      apply seek_to_origin_chunks in H0 as (_ & (_ & _ & Hca0 & _) & _).
      apply bind_ret in Hr as (d' & w1' & H1 & Hr). apply on_fail_ret in H1.
      apply mcache_get_spec in H1 as (_ & _ & _ & Hpg). specialize (Hpg I).
      fold (cache_of w0) in Hpg. rewrite Hca0, Hnp, Hnd, Hdd in Hpg. fold info k in Hpg.
      apply page_of_chunk; [done|apply Hpg]. }
    rewrite Epg, Hchunk in Hd. injection Hd as <-. by rewrite Hpb.
  - right. split; [by exists e|]. intros (Hbad & Hrd & Hwr & Hspec & Hrange & Href).
    destruct (HMCreadChunk_succeeds org w2 Hc2) as (r' & w' & E); try done.
    + unfold BADFREC in *. by rewrite Hfr.
    + by rewrite Hfa.
    + by rewrite Hfa.
    + by rewrite (static_special _ _ Hs).
    + rewrite Hnd, Hdd, Hnp. fold info k.
      rewrite add_small by (apply in_range_nonneg; lia). lia.
    + rewrite Hr in E. done.
  - by destruct (HMCreadChunk_not_stuck org w2 w3).
Qed.

Lemma unwritten_chunk_reads_fill_witness :
  let w := HMCcreate_world 0 16 1 [mkDIM_DEF 0 10 4; mkDIM_DEF 0 10 4] 1
             [Byte.x2a] (mkfilerec_t 3 1 ∅ 2 []) in
  let info := special_info (access_rec w) in
  let os := [OpWriteChunk [0; 0] (replicate 16 Byte.x01);
             OpReadChunk [1; 2];
             OpWriteChunk [0; 1] (replicate 16 Byte.x02);
             OpWriteChunk [2; 2] (replicate 16 Byte.x03);
             OpSeek 40 0; OpRead 20;
             OpWriteChunk [1; 1] (replicate 16 Byte.x04)] in
  let w2 := (run_ops os w).2 in
  let res := HMCreadChunk [1; 2] w2 in
  res.1 = Ret (pagebytes w,
               mjoin (replicate (Z.to_nat (pagebytes w / fill_val_len info))
                        (take (Z.to_nat (fill_val_len info)) (fill_val info)))) \/
  ((exists e, res.1 = Err e) /\
   ~ (BADFREC (file_rec w) = false /\
      Z.land (f_access (file_rec w)) DFACC_READ <> 0 /\
      Z.land (f_access (file_rec w)) DFACC_WRITE <> 0 /\
      special (access_rec w) = SPECIAL_CHUNKED /\
      1 <= calculate_chunk_num (ndims info) [1; 2] (ddims info) + 1 <= npages (cache_of w) /\
      1 <= f_next_ref (file_rec w2) <= 65535)).
Proof.
  intros w info os w2 res.
  apply (unwritten_chunk_reads_fill [1; 2] w os w2 res.1 res.2).
  - apply coherent_fresh; by_evaluation.
  - repeat constructor; by_evaluation.
  - by_evaluation.
  - by_evaluation.
  - repeat constructor; by_evaluation.
  - repeat constructor; by_evaluation.
  - by_evaluation.
  - apply surjective_pairing.
Defined.

End Coherence.

(** ** The bytes of the element, through the chunks *)

Section Bytes.

Import Int32 MixedRadix.

Lemma val_snoc xs x ds d :
  val (reverse (xs ++ [x])) (reverse (ds ++ [d])) = x + d * val (reverse xs) (reverse ds).
Proof. by rewrite !reverse_app. Qed.

Lemma zip_with_snoc (f : Z -> DIM_REC -> Z) cs a ds d :
  length cs = length ds ->
  zip_with f (cs ++ [a]) (ds ++ [d]) = zip_with f cs ds ++ [f a d].
Proof. intros H. by rewrite zip_with_app. Qed.

(** A step along the last axis that stays inside the chunk, and inside the
    data of the last chunk of the axis. *)
Lemma row_step ds d e s :
  dim_ok d -> 0 <= e -> 0 <= s ->
  let a := e mod dim_length d in
  a mod chunk_length d + s < chunk_length d ->
  (a / chunk_length d = num_chunks d - 1 ->
   a mod chunk_length d + s < last_chunk_length d) ->
  coords (ds ++ [d]) (e + s) = coords ds (e / dim_length d) ++ [a + s] /\
  (a + s) / chunk_length d = a / chunk_length d /\
  (a + s) mod chunk_length d = a mod chunk_length d + s.
Proof.
  intros Hd He Hs a Hin Hlast.
  destruct (dim_ok_facts _ Hd) as (HC & HD & HN & HL & HDL).
  pose proof (Z.mod_pos_bound e (dim_length d) ltac:(lia)) as Ha. fold a in Ha.
  pose proof (Z.div_mod e (dim_length d) ltac:(lia)) as He'. fold a in He'.
  pose proof (Z.mod_pos_bound a (chunk_length d) ltac:(lia)) as Hr.
  pose proof (Z.div_mod a (chunk_length d) ltac:(lia)) as Ha'.
  pose proof (Z.div_pos a (chunk_length d) ltac:(lia) ltac:(lia)) as Hq.
  assert (Hqle : a / chunk_length d <= num_chunks d - 1).
  { apply Z.lt_succ_r. apply Z.div_lt_upper_bound; lia. }
  assert (Has : a + s < dim_length d).
  { destruct (decide (a / chunk_length d = num_chunks d - 1)) as [E|E].
    - specialize (Hlast E). rewrite E in Ha'. lia.
    - pose proof (Z.mul_le_mono_nonneg_l (a / chunk_length d + 1) (num_chunks d - 1)
                    (chunk_length d) ltac:(lia) ltac:(lia)).
      lia. }
  assert (E1 : (e + s) / dim_length d = e / dim_length d).
  { symmetry. apply (Z.div_unique _ _ _ (a + s)); lia. }
  assert (E2 : (e + s) mod dim_length d = a + s).
  { symmetry. apply (Z.mod_unique _ _ (e / dim_length d)); lia. }
  split; [by rewrite coords_snoc, E1, E2|]. split.
  - symmetry. apply (Z.div_unique _ _ _ (a mod chunk_length d + s)); lia.
  - symmetry. apply (Z.mod_unique _ _ (a / chunk_length d)); lia.
Qed.

Lemma row_digits ds d e s :
  dim_ok d -> 0 <= e -> 0 <= s ->
  let a := e mod dim_length d in
  let dd := ds ++ [d] in
  a mod chunk_length d + s < chunk_length d ->
  (a / chunk_length d = num_chunks d - 1 ->
   a mod chunk_length d + s < last_chunk_length d) ->
  zip_with (fun a d => a / chunk_length d) (coords dd (e + s)) dd
  = zip_with (fun a d => a / chunk_length d) (coords dd e) dd /\
  val (reverse (zip_with (fun a d => a mod chunk_length d) (coords dd (e + s)) dd))
      (reverse (chunk_length <$> dd))
  = val (reverse (zip_with (fun a d => a mod chunk_length d) (coords dd e) dd))
        (reverse (chunk_length <$> dd)) + s.
Proof.
  intros Hd He Hs a dd Hin Hlast.
  destruct (row_step ds d e s Hd He Hs Hin Hlast) as (E1 & E2 & E3). fold a in E1, E2, E3.
  unfold dd. rewrite E1, coords_snoc. fold a.
  rewrite !zip_with_snoc by (by rewrite length_coords).
  rewrite E2, E3. split; [done|].
  rewrite fmap_app. cbn [fmap list_fmap]. rewrite !val_snoc. lia.
Qed.

Lemma aget_coords_last ds d e :
  aget (coords (ds ++ [d]) e) (length ds) = e mod dim_length d.
Proof.
  rewrite coords_snoc. unfold aget. apply list_lookup_total_correct.
  rewrite lookup_app_r by (rewrite length_coords; lia).
  by rewrite length_coords, Nat.sub_diag.
Qed.

Lemma snoc_of_length {A} (l : list A) `{!Inhabited A} :
  (1 <= length l)%nat -> l = take (length l - 1) l ++ [l !!! (length l - 1)%nat].
Proof.
  intros H. destruct (lookup_lt_is_Some_2 l (length l - 1)%nat ltac:(lia)) as [y Hy].
  rewrite (list_lookup_total_correct _ _ _ Hy).
  rewrite <- (take_drop (length l - 1) l) at 1. f_equal.
  rewrite (drop_S _ _ _ Hy). rewrite drop_ge by lia. done.
Qed.

(** What the layout gives. *)
Lemma laid_out_facts pin w :
  laid_out w -> coherent pin w ->
  let i := special_info (access_rec w) in
  exists n : nat,
    (1 <= n)%nat /\ ndims i = Z.of_nat n /\ length (ddims i) = n /\
    Forall dim_ok (ddims i) /\ 0 < nt_size i /\
    span (chunk_length <$> ddims i) * nt_size i = pagebytes w /\
    0 < pagebytes w <= max_signed /\
    0 < span (chunk_length <$> ddims i) <= max_signed /\
    span (num_chunks <$> ddims i) <= max_signed /\
    logical_size w = span (dim_length <$> ddims i) * nt_size i /\
    0 <= logical_size w <= max_signed.
Proof.
  intros [[H1 H2 H3 H4 H5 H6 H7 H8 H9] Hck Hlen Hpg] Hc i. fold i in H1, H2, H5, H6, H8, Hck, Hlen, Hpg.
  destruct (pagebytes_eq _ _ Hc) as (Hpb & Hpos). fold i in Hpb.
  pose proof Hc as [_ _ Hnp _ _ _ _ _ _ _].
  exists (length (ddims i)). split; [lia|]. split; [lia|]. split; [done|]. split; [done|].
  split; [done|]. rewrite Hck in Hpb. split; [done|]. split; [done|].
  assert (Hsp : 0 < span (chunk_length <$> ddims i)).
  { apply span_pos, Forall_fmap. eapply Forall_impl; [exact H5|]. intros d Hd. cbn.
    destruct (dim_ok_facts _ Hd) as (? & _). lia. }
  split.
  { pose proof (Z.mul_le_mono_nonneg_l 1 (nt_size i) _ (Z.lt_le_incl _ _ Hsp)
                  ltac:(lia)).
    lia. }
  split; [by rewrite <- Hpg|].
  unfold logical_size. fold i. rewrite mul_small by (apply in_range_nonneg; lia).
  rewrite <- Hlen. split; [done|lia].
Qed.

Lemma chunk_of_val pin w x :
  laid_out w -> coherent pin w -> 0 <= x ->
  let i := special_info (access_rec w) in
  let cs := coords (ddims i) (x / nt_size i) in
  chunk_of w x
  = val (reverse (zip_with (fun a d => a / chunk_length d) cs (ddims i)))
        (reverse (num_chunks <$> ddims i)) /\
  0 <= chunk_of w x < span (num_chunks <$> ddims i).
Proof.
  intros Hl Hc Hx i cs.
  destruct (laid_out_facts pin w Hl Hc) as (n & Hn & Hnd & Hld & Hok & Hnt & Hpb & Hpos & Hcl & Hnc & _).
  fold i in Hnd, Hld, Hok, Hnt, Hpb, Hcl, Hnc.
  destruct (split_in_grid (ddims i) cs Hok (coords_in_radix _ _ Hok)) as [Hg _].
  assert (E : chunk_of w x
              = val (reverse (zip_with (fun a d => a / chunk_length d) cs (ddims i)))
                    (reverse (num_chunks <$> ddims i))).
  { unfold chunk_of, calculate_chunk_num. fold i cs. rewrite Hnd.
    apply row_major_spec; try done.
    rewrite length_zip_with. unfold cs. rewrite length_coords. lia. }
  split; [done|]. rewrite E. rewrite <- (span_reverse (num_chunks <$> ddims i)).
  apply val_bound. by apply Forall2_reverse.
Qed.

Lemma offset_of_val pin w x :
  laid_out w -> coherent pin w -> 0 <= x ->
  let i := special_info (access_rec w) in
  let cs := coords (ddims i) (x / nt_size i) in
  let v := val (reverse (zip_with (fun a d => a mod chunk_length d) cs (ddims i)))
               (reverse (chunk_length <$> ddims i)) in
  offset_of w x = v * nt_size i + x mod nt_size i /\
  0 <= v < span (chunk_length <$> ddims i).
Proof.
  intros Hl Hc Hx i cs v.
  destruct (laid_out_facts pin w Hl Hc) as (n & Hn & Hnd & Hld & Hok & Hnt & Hpb & Hpos & Hcl & Hnc & _).
  fold i in Hnd, Hld, Hok, Hnt, Hpb, Hcl, Hnc.
  destruct (split_in_grid (ddims i) cs Hok (coords_in_radix _ _ Hok)) as [_ Hg].
  assert (Hv : 0 <= v < span (chunk_length <$> ddims i)).
  { unfold v. rewrite <- (span_reverse (chunk_length <$> ddims i)).
    apply val_bound. by apply Forall2_reverse. }
  split; [|done]. unfold offset_of, calculate_seek_in_chunk. fold i cs. rewrite Hnd.
  rewrite row_major_spec; try done; try lia.
  - fold v. rewrite mul_small; [done|]. apply in_range_nonneg.
    pose proof (Z.mul_nonneg_nonneg v (nt_size i) ltac:(lia) ltac:(lia)).
    pose proof (Z.mul_le_mono_nonneg_r v _ (nt_size i)
                  ltac:(lia) (Z.lt_le_incl _ _ (proj2 Hv))).
    lia.
  - rewrite length_zip_with. unfold cs. rewrite length_coords. lia.
Qed.

(** Along the last axis, inside the chunk, the bytes of the element lie
    in one chunk, one after the other. *)
Lemma byte_row pin w x t :
  laid_out w -> coherent pin w -> 0 <= x -> 0 <= t ->
  let i := special_info (access_rec w) in
  let n1 := (length (ddims i) - 1)%nat in
  let a := aget (coords (ddims i) (x / nt_size i)) n1 in
  let d := dget (ddims i) n1 in
  x mod nt_size i = 0 ->
  (a mod chunk_length d) * nt_size i + t < chunk_length d * nt_size i ->
  (a / chunk_length d = num_chunks d - 1 ->
   (a mod chunk_length d) * nt_size i + t < last_chunk_length d * nt_size i) ->
  chunk_of w (x + t) = chunk_of w x /\ offset_of w (x + t) = offset_of w x + t.
Proof.
  intros Hl Hc Hx Ht i n1 a d Hal Hin Hlast.
  destruct (laid_out_facts pin w Hl Hc) as (n & Hn & Hnd & Hld & Hok & Hnt & Hpb & Hpos & Hcl & Hnc & _).
  fold i in Hnd, Hld, Hok, Hnt, Hpb, Hcl, Hnc.
  destruct (chunk_of_val pin w x Hl Hc Hx) as [Ec _].
  destruct (chunk_of_val pin w (x + t) Hl Hc ltac:(lia)) as [Ec' _].
  destruct (offset_of_val pin w x Hl Hc Hx) as [Eo _].
  destruct (offset_of_val pin w (x + t) Hl Hc ltac:(lia)) as [Eo' _].
  fold i in Ec, Ec', Eo, Eo'. cbv zeta in Ec, Ec', Eo, Eo'.
  rewrite Ec, Ec', Eo, Eo'. clear Ec Ec' Eo Eo'.
  pose proof (snoc_of_length (ddims i) ltac:(lia)) as Hdd.
  fold n1 in Hdd. change (ddims i !!! n1) with d in Hdd.
  set (ds := take n1 (ddims i)) in *.
  assert (Hn1 : n1 = length ds) by (unfold ds; rewrite length_take; lia).
  assert (Hd : dim_ok d).
  { pose proof (Forall_lookup_total_1 _ (ddims i) n1 Hok) as H. apply H. lia. }
  destruct (dim_ok_facts _ Hd) as (HC & HD & HN & HL & HDL).
  set (e := x / nt_size i) in *. set (s := t / nt_size i).
  assert (Hxe : x = nt_size i * e).
  { pose proof (Z.div_mod x (nt_size i) ltac:(lia)). fold e in H. lia. }
  pose proof (Z.div_mod t (nt_size i) ltac:(lia)) as Hts. fold s in Hts.
  pose proof (Z.mod_pos_bound t (nt_size i) ltac:(lia)) as Htm.
  assert (He : 0 <= e) by (apply Z.div_pos; lia).
  assert (Hs : 0 <= s) by (apply Z.div_pos; lia).
  assert (E1 : (x + t) / nt_size i = e + s).
  { symmetry. apply (Z.div_unique _ _ _ (t mod nt_size i)); lia. }
  assert (E2 : (x + t) mod nt_size i = t mod nt_size i).
  { symmetry. apply (Z.mod_unique _ _ (e + s)); lia. }
  rewrite E1, E2, Hal.
  assert (Ha : a = e mod dim_length d).
  { unfold a. rewrite Hdd, Hn1. apply aget_coords_last. }
  rewrite Ha in Hin, Hlast.
  pose proof (Z.mod_pos_bound (e mod dim_length d) (chunk_length d) ltac:(lia)) as Hr.
  destruct (row_digits ds d e s Hd He Hs) as (R1 & R2).
  { destruct (Z_lt_ge_dec ((e mod dim_length d) mod chunk_length d + s) (chunk_length d))
      as [Hlt|Hge]; [done|].
    pose proof (Z.mul_le_mono_nonneg_l _ _ (nt_size i) ltac:(lia) (Z.ge_le _ _ Hge)). lia. }
  { intros E. specialize (Hlast E).
    destruct (Z_lt_ge_dec ((e mod dim_length d) mod chunk_length d + s)
                (last_chunk_length d)) as [Hlt|Hge]; [done|].
    pose proof (Z.mul_le_mono_nonneg_l _ _ (nt_size i) ltac:(lia) (Z.ge_le _ _ Hge)). lia. }
  rewrite <- Hdd in R1, R2. rewrite R1, R2. split; [done|]. lia.
Qed.

Lemma zip_div_mod_inj (cs cs' : list Z) dd :
  Forall (fun d => 0 < chunk_length d) dd ->
  length cs = length dd -> length cs' = length dd ->
  zip_with (fun a d => a / chunk_length d) cs dd
  = zip_with (fun a d => a / chunk_length d) cs' dd ->
  zip_with (fun a d => a mod chunk_length d) cs dd
  = zip_with (fun a d => a mod chunk_length d) cs' dd ->
  cs = cs'.
Proof.
  intros Hpos. revert cs cs'. induction Hpos as [|d dd Hd _ IH]; intros cs cs' H1 H2 Hq Hr.
  - destruct cs, cs'; try done.
  - destruct cs as [|a cs], cs' as [|a' cs']; try done. cbn in *.
    injection Hq as Hq Hqs. injection Hr as Hr Hrs. f_equal.
    + pose proof (Z.div_mod a (chunk_length d) ltac:(lia)).
      pose proof (Z.div_mod a' (chunk_length d) ltac:(lia)). congruence.
    + apply IH; [lia | lia | done | done].
Qed.

(** Different bytes of the element lie at different places. *)
Lemma byte_address_inj pin w x y :
  laid_out w -> coherent pin w ->
  0 <= x < logical_size w -> 0 <= y < logical_size w ->
  chunk_of w x = chunk_of w y -> offset_of w x = offset_of w y -> x = y.
Proof.
  intros Hl Hc Hx Hy Ec Eo.
  destruct (laid_out_facts pin w Hl Hc)
    as (n & Hn & Hnd & Hld & Hok & Hnt & Hpb & Hpos & Hcl & Hnc & HL & _).
  set (i := special_info (access_rec w)) in *.
  destruct (chunk_of_val pin w x Hl Hc ltac:(lia)) as [Ecx _].
  destruct (chunk_of_val pin w y Hl Hc ltac:(lia)) as [Ecy _].
  destruct (offset_of_val pin w x Hl Hc ltac:(lia)) as [Eox Hvx].
  destruct (offset_of_val pin w y Hl Hc ltac:(lia)) as [Eoy Hvy].
  fold i in Ecx, Ecy, Eox, Eoy, Hvx, Hvy. cbv zeta in Ecx, Ecy, Eox, Eoy, Hvx, Hvy.
  set (ex := x / nt_size i) in *. set (ey := y / nt_size i) in *.
  pose proof (Z.mod_pos_bound x (nt_size i) ltac:(lia)) as Hmx.
  pose proof (Z.mod_pos_bound y (nt_size i) ltac:(lia)) as Hmy.
  pose proof (Z.div_mod x (nt_size i) ltac:(lia)) as Hdx. fold ex in Hdx.
  pose proof (Z.div_mod y (nt_size i) ltac:(lia)) as Hdy. fold ey in Hdy.
  destruct (split_in_grid (ddims i) (coords (ddims i) ex) Hok (coords_in_radix _ _ Hok))
    as [Hgx Hrx].
  destruct (split_in_grid (ddims i) (coords (ddims i) ey) Hok (coords_in_radix _ _ Hok))
    as [Hgy Hry].
  rewrite Ecx, Ecy in Ec. rewrite Eox, Eoy in Eo.
  set (vx := val (reverse (zip_with (fun a d => a mod chunk_length d)
                             (coords (ddims i) ex) (ddims i))) _) in *.
  set (vy := val (reverse (zip_with (fun a d => a mod chunk_length d)
                             (coords (ddims i) ey) (ddims i))) _) in *.
  assert (Ev : vx = vy).
  { rewrite (Z.div_unique (vx * nt_size i + x mod nt_size i) (nt_size i) vx (x mod nt_size i))
      by lia.
    rewrite Eo. symmetry. apply Z.div_unique with (y mod nt_size i); lia. }
  assert (Em : x mod nt_size i = y mod nt_size i) by (rewrite Ev in Eo; lia).
  apply val_inj in Ec; [|by apply Forall2_reverse..].
  unfold vx, vy in Ev. apply val_inj in Ev; [|by apply Forall2_reverse..].
  apply (f_equal reverse) in Ec, Ev. rewrite !reverse_involutive in Ec, Ev.
  assert (Ecs : coords (ddims i) ex = coords (ddims i) ey).
  { apply (zip_div_mod_inj _ _ (ddims i)); try done; try apply length_coords.
    eapply Forall_impl; [exact Hok|]. intros d Hd. cbn.
    destruct (dim_ok_facts _ Hd) as (? & _). lia. }
  unfold coords in Ecs. apply (f_equal reverse) in Ecs. rewrite !reverse_involutive in Ecs.
  assert (Hdpos : Forall (fun d => 0 < d) (reverse (dim_length <$> ddims i))).
  { apply Forall_reverse, Forall_fmap. eapply Forall_impl; [exact Hok|]. intros d Hd. cbn.
    destruct (dim_ok_facts _ Hd) as (_ & ? & _). lia. }
  assert (Hex : 0 <= ex < span (reverse (dim_length <$> ddims i))).
  { rewrite span_reverse. split; [apply Z.div_pos; lia|].
    apply Z.div_lt_upper_bound; lia. }
  assert (Hey : 0 <= ey < span (reverse (dim_length <$> ddims i))).
  { rewrite span_reverse. split; [apply Z.div_pos; lia|].
    apply Z.div_lt_upper_bound; lia. }
  assert (Ee : ex = ey).
  { rewrite <- (val_digits_small _ ex Hdpos Hex), <- (val_digits_small _ ey Hdpos Hey).
    by rewrite Ecs. }
  lia.
Qed.

Lemma offset_of_bound pin w x :
  laid_out w -> coherent pin w -> 0 <= x -> 0 <= offset_of w x < pagebytes w.
Proof.
  intros Hl Hc Hx.
  destruct (laid_out_facts pin w Hl Hc) as (n & Hn & Hnd & Hld & Hok & Hnt & Hpb & _).
  destruct (offset_of_val pin w x Hl Hc Hx) as [-> Hv].
  pose proof (Z.mod_pos_bound x (nt_size (special_info (access_rec w))) ltac:(lia)).
  match goal with
  | |- 0 <= ?v * ?nt + _ < _ =>
      pose proof (Z.mul_nonneg_nonneg v nt ltac:(lia) ltac:(lia));
      pose proof (Z.mul_le_mono_nonneg_r (v + 1) _ nt ltac:(lia) (proj1 (Z.lt_succ_r _ _)
                    (proj1 (Z.succ_lt_mono _ _) (proj2 Hv))))
  end.
  lia.
Qed.

(** One pass of the transfer loops at the seek position [x]: the chunk,
    the offset in the chunk and the length of the run. *)
Lemma pass_geometry pin w x len fin :
  let i := special_info (access_rec w) in
  let c := calculate_chunk_num (ndims i) (seek_chunk_indices i) (ddims i) in
  let off := calculate_seek_in_chunk (ndims i) (nt_size i) (seek_pos_chunk i) (ddims i) in
  let r := calculate_chunk_for_chunk (ndims i) (nt_size i) len fin
             (seek_chunk_indices i) (seek_pos_chunk i) (ddims i) in
  laid_out w -> coherent pin w -> seek_at w x ->
  0 <= x -> x mod nt_size i = 0 -> 0 <= fin < len -> len <= max_signed ->
  x + (len - fin) <= logical_size w ->
  c = chunk_of w x /\ in_range c /\ off = offset_of w x /\ 0 <= off /\
  1 <= r <= len - fin /\ off + r <= pagebytes w /\
  (r < len - fin -> (x + r) mod nt_size i = 0) /\
  (forall t, 0 <= t < r -> chunk_of w (x + t) = c /\ offset_of w (x + t) = off + t) /\
  (forall y, 0 <= y < logical_size w -> chunk_of w y = c ->
             off <= offset_of w y < off + r -> x <= y < x + r).
Proof.
  intros i c off r Hl Hc [Hsbi Hspb] Hx Hal Hfin Hlen HL.
  destruct (laid_out_facts pin w Hl Hc)
    as (n & Hn & Hnd & Hld & Hok & Hnt & Hpb & Hpos & Hcl & Hnc & HLs & HLr).
  fold i in Hsbi, Hspb, Hnd, Hld, Hok, Hnt, Hpb, Hcl, Hnc, HLs. cbv zeta in Hsbi, Hspb.
  pose proof Hl as [[_ _ _ _ _ _ Hcb _ _] _ _ _]. fold i in Hcb.
  set (cs := coords (ddims i) (x / nt_size i)) in *.
  assert (Ec : c = chunk_of w x) by (unfold c, chunk_of; fold i cs; by rewrite Hsbi).
  assert (Eo : off = offset_of w x).
  { unfold off, offset_of. fold i cs. rewrite Hspb, Hal. lia. }
  destruct (chunk_of_val pin w x Hl Hc Hx) as [_ Hcr]. fold i in Hcr.
  pose proof (offset_of_bound pin w x Hl Hc Hx) as Hob.
  (* the run *)
  set (n1 := (length (ddims i) - 1)%nat).
  set (d := dget (ddims i) n1).
  set (a := aget cs n1).
  assert (Hdok : dim_ok d).
  { pose proof (Forall_lookup_total_1 _ (ddims i) n1 Hok) as H. apply H. lia. }
  assert (Hdcb : chunk_length d * nt_size i <= max_signed).
  { pose proof (Forall_lookup_total_1 _ (ddims i) n1 Hcb) as H. apply H. lia. }
  destruct (dim_ok_facts _ Hdok) as (HC & HD & HN & HLl & HDL).
  assert (Ha : 0 <= a < dim_length d).
  { pose proof (coords_in_radix (ddims i) (x / nt_size i) Hok) as Hr. fold cs in Hr.
    assert (Hlcs : length cs = length (ddims i)) by apply length_coords.
    destruct (lookup_lt_is_Some_2 cs n1 ltac:(lia)) as [a' Ha'].
    destruct (lookup_lt_is_Some_2 (ddims i) n1 ltac:(lia)) as [d' Hd'].
    unfold a, aget. rewrite (list_lookup_total_correct _ _ _ Ha').
    assert (d = d') by (by apply list_lookup_total_correct). subst d'.
    eapply Forall2_lookup_lr in Hr; [exact Hr | exact Ha' |].
    by rewrite list_lookup_fmap, Hd'. }
  pose proof (Z.mod_pos_bound a (chunk_length d) ltac:(lia)) as Hm.
  pose proof (Z.div_mod a (chunk_length d) ltac:(lia)) as Hdm.
  pose proof (Z.div_pos a (chunk_length d) ltac:(lia) ltac:(lia)) as Hq.
  assert (Hr : exists lim,
            r = Z.min (len - fin) ((lim - a mod chunk_length d) * nt_size i) /\
            1 <= lim - a mod chunk_length d /\ lim <= chunk_length d /\
            (a / chunk_length d = num_chunks d - 1 -> lim = last_chunk_length d)).
  { unfold r, calculate_chunk_for_chunk. rewrite Hnd, Nat2Z.id. rewrite <- Hld. fold n1.
    rewrite Hsbi, Hspb.
    rewrite !aget_zip_with by (unfold cs; rewrite ?length_coords; lia). fold d a.
    rewrite (sub_small len fin) by (unfold in_range, min_signed, max_signed in *; lia).
    rewrite (sub_small (num_chunks d) 1)
      by (unfold in_range, min_signed, max_signed in *; lia).
    destruct (a / chunk_length d =? num_chunks d - 1) eqn:Hlast.
    - apply Z.eqb_eq in Hlast. exists (last_chunk_length d).
      assert (Hrest : 1 <= last_chunk_length d - a mod chunk_length d <= chunk_length d).
      { pose proof Hdm as Hdm'. rewrite Hlast in Hdm'. lia. }
      rewrite (sub_small (last_chunk_length d))
        by (unfold in_range, min_signed, max_signed in *; lia).
      pose proof (Z.mul_nonneg_nonneg (last_chunk_length d - a mod chunk_length d)
                    (nt_size i) ltac:(lia) ltac:(lia)) as Hp0.
      pose proof (Z.mul_le_mono_nonneg_r (last_chunk_length d - a mod chunk_length d)
                    (chunk_length d) (nt_size i) ltac:(lia) ltac:(lia)) as Hp1.
      rewrite mul_small by (apply in_range_nonneg; lia).
      split; [|lia]. destruct (_ >? _) eqn:Hgt; rewrite Z.gtb_ltb in Hgt.
      + apply Z.ltb_lt in Hgt. lia.
      + apply Z.ltb_ge in Hgt. lia.
    - apply Z.eqb_neq in Hlast. exists (chunk_length d).
      rewrite (sub_small (chunk_length d))
        by (unfold in_range, min_signed, max_signed in *; lia).
      pose proof (Z.mul_nonneg_nonneg (chunk_length d - a mod chunk_length d)
                    (nt_size i) ltac:(lia) ltac:(lia)) as Hp0.
      pose proof (Z.mul_le_mono_nonneg_r (chunk_length d - a mod chunk_length d)
                    (chunk_length d) (nt_size i) ltac:(lia) ltac:(lia)) as Hp1.
      rewrite mul_small by (apply in_range_nonneg; lia).
      split; [|lia]. destruct (_ >? _) eqn:Hgt; rewrite Z.gtb_ltb in Hgt.
      + apply Z.ltb_lt in Hgt. lia.
      + apply Z.ltb_ge in Hgt. lia. }
  destruct Hr as (lim & Er & Hlim1 & Hlim2 & Hlim3). clearbody r.
  assert (Hr1 : 1 <= r <= len - fin).
  { pose proof (Z.mul_le_mono_nonneg 1 (lim - a mod chunk_length d) 1 (nt_size i)
                  ltac:(lia) ltac:(lia) ltac:(lia) ltac:(lia)).
    lia. }
  assert (Hrow : forall t, 0 <= t < r ->
            chunk_of w (x + t) = c /\ offset_of w (x + t) = off + t).
  { intros t Ht. rewrite Ec, Eo. apply (byte_row pin); try done; try lia.
    - fold i cs n1 a d.
      pose proof (Z.mul_le_mono_nonneg_r lim (chunk_length d) (nt_size i)
                    ltac:(lia) ltac:(lia)).
      lia.
    - fold i cs n1 a d. intros E. rewrite (Hlim3 E) in *. lia. }
  split; [done|]. split; [apply in_range_nonneg; lia|]. split; [done|].
  split; [lia|]. split; [done|]. split; [|split; [|split; [done|]]].
  - destruct (Hrow (r - 1) ltac:(lia)) as [_ Hlast].
    pose proof (offset_of_bound pin w (x + (r - 1)) Hl Hc ltac:(lia)). lia.
  - intros Hlt. assert (r = (lim - a mod chunk_length d) * nt_size i) as -> by lia.
    rewrite Z.mod_add by lia. done.
  - intros y Hy Hcy Hoy.
    destruct (Hrow (offset_of w y - off) ltac:(lia)) as [R1 R2].
    assert (y = x + (offset_of w y - off)); [|lia].
    apply (byte_address_inj pin w); try done; try lia.
Qed.


(** [memcpy] into a buffer and out of one, byte by byte. *)
Lemma lookup_memcpy_at (d src : bytes) off r (j : nat) :
  0 <= off -> 0 <= r -> r <= Z.of_nat (length src) -> off + r <= Z.of_nat (length d) ->
  memcpy_at d off src r !! j
  = if decide (off <= Z.of_nat j < off + r)
    then src !! (j - Z.to_nat off)%nat else d !! j.
Proof.
  intros Hoff Hr Hsrc Hd. unfold memcpy_at. cbv zeta.
  assert (Hl : length (take (Z.to_nat r) src) = Z.to_nat r) by (rewrite length_take; lia).
  rewrite Hl.
  destruct (decide _) as [Hin|Hout].
  - rewrite lookup_app_r by (rewrite length_take; lia).
    rewrite length_take. replace (Z.to_nat off `min` length d)%nat with (Z.to_nat off) by lia.
    rewrite lookup_app_l by lia. apply lookup_take_lt. lia.
  - destruct (decide (Z.of_nat j < off)) as [Hlt|Hge].
    + rewrite lookup_app_l by (rewrite length_take; lia). apply lookup_take_lt. lia.
    + rewrite lookup_app_r by (rewrite length_take; lia).
      rewrite length_take. replace (Z.to_nat off `min` length d)%nat with (Z.to_nat off) by lia.
      rewrite lookup_app_r by lia. rewrite Hl, lookup_drop. f_equal. lia.
Qed.

Lemma length_memcpy_at (d src : bytes) off r :
  0 <= off -> off + r <= Z.of_nat (length d) ->
  length (memcpy_at d off src r) = length d.
Proof.
  intros Hoff Hd. unfold memcpy_at. cbv zeta.
  rewrite !length_app, length_drop, !length_take. lia.
Qed.

Lemma lookup_memcpy_from (d : bytes) off r (t : nat) :
  0 <= off -> Z.of_nat t < r ->
  memcpy_from d off r !! t = d !! (Z.to_nat off + t)%nat.
Proof.
  intros Hoff Ht. unfold memcpy_from. rewrite lookup_take_lt by lia. apply lookup_drop.
Qed.

Lemma length_memcpy_from (d : bytes) off r :
  0 <= off -> 0 <= r -> off + r <= Z.of_nat (length d) ->
  Z.of_nat (length (memcpy_from d off r)) = r.
Proof.
  intros Hoff Hr Hd. unfold memcpy_from. rewrite length_take, length_drop. lia.
Qed.

(** The address of a byte depends on the static fields only. *)
Lemma address_static w w' x :
  static w' = static w ->
  chunk_of w' x = chunk_of w x /\ offset_of w' x = offset_of w x.
Proof.
  intros Hs. destruct (static_fields _ _ Hs) as (_ & _ & Hnt & Hnd & Hdd).
  unfold chunk_of, offset_of. cbv zeta. by rewrite Hnt, Hnd, Hdd.
Qed.

Lemma logical_size_static w w' : static w' = static w -> logical_size w' = logical_size w.
Proof.
  unfold static, logical_size. intros H. cbv zeta.
  by injection H as _ _ _ _ _ -> _ -> _ _ _ _.
Qed.

Lemma byte_at_same w w' x : same_content w w' -> byte_at w' x = byte_at w x.
Proof.
  intros ((Hs & _) & Hcont & _). unfold byte_at.
  destruct (address_static w w' x Hs) as [-> ->]. by rewrite Hcont.
Qed.

Lemma laid_out_kept w w' : kept w w' -> wf_elem w' -> laid_out w -> laid_out w'.
Proof.
  intros (Hs & _ & _ & Hnp) Hwf [_ Hch Hlen Hpg].
  destruct (static_fields _ _ Hs) as (_ & Hcs & _ & _ & Hdd).
  split; [done| | |].
  - by rewrite Hcs, Hdd.
  - rewrite Hdd, <- Hlen. unfold static in Hs. by injection Hs as _ _ _ _ _ -> _ _ _ _ _ _.
  - by rewrite Hnp, Hdd.
Qed.


(** A pass of the write loop puts the record of the chunk in the tree
    before it asks for the page. *)
Lemma insert_if_absent_content cn org w a w1 :
  coherent None w ->
  (match chk_tree (special_info (access_rec w)) !! cn with
   | None => insert_chunk_rec cn org
   | Some _ => ret tt
   end) w = (Ret a, w1) ->
  coherent None w1 /\ same_content w w1 /\
  is_Some (chk_tree (special_info (access_rec w1)) !! cn) /\
  seek_state w1 = seek_state w /\ posn (access_rec w1) = posn (access_rec w).
Proof.
  intros Hc H. destruct (chk_tree _ !! cn) as [rec|] eqn:E.
  - injection H as <- <-. split; [done|]. split; [apply same_content_refl|].
    split; [by rewrite E|done].
  - pose proof (insert_chunk_rec_spec _ _ _ _ _ E H) as (_ & _ & Hsk & Hpo).
    apply (insert_chunk_rec_content None) in H as (_ & Hc1 & Hs1 & Hin); done.
Qed.

(** The loop of [HMCPwrite], byte by byte: the bytes of the range it
    writes are those of the buffer, every other byte of the element is as
    it was. *)
Lemma HMCPwrite_loop_bytes fuel : forall write_len bw rel bptr w n w',
  coherent None w -> laid_out w -> seek_at w rel ->
  0 <= bw <= write_len -> write_len <= max_signed -> 0 <= rel ->
  (bw < write_len -> rel mod nt_size (special_info (access_rec w)) = 0) ->
  rel + (write_len - bw) <= logical_size w ->
  write_len - bw <= Z.of_nat (length bptr) ->
  HMCPwrite_loop fuel write_len bw rel bptr w = (Ret n, w') ->
  coherent None w' /\ laid_out w' /\ kept w w' /\
  posn (access_rec w') = posn (access_rec w) /\
  forall x, 0 <= x < logical_size w ->
    byte_at w' x = if decide (rel <= x < rel + (write_len - bw))
                   then bptr !! Z.to_nat (x - rel) else byte_at w x.
Proof.
  induction fuel as [|fuel IH]; intros write_len bw rel bptr w n w'
    Hc Hl Hat Hbw Hlen Hrel Hal Hend Hsrc H;
    cbn [HMCPwrite_loop] in H; destruct (bw <? write_len) eqn:Hlt;
    try discriminate;
    try (apply Z.ltb_ge in Hlt; injection H as <- <-;
         split; [done|]; split; [done|]; split; [apply kept_refl|]; split; [done|];
         intros x Hx; rewrite decide_False by lia; done).
  apply Z.ltb_lt in Hlt.
  inv_bind H; unfold get_info in Hm; try discriminate. injection Hm as <- <-.
  cbv zeta in H.
  destruct (pass_geometry None w rel write_len bw Hl Hc Hat Hrel (Hal Hlt)
              ltac:(lia) Hlen Hend)
    as (Hcn & Hcr & Hoff & Hoff0 & Hr & Hfit & Hal' & Hrow & Hinj).
  destruct (laid_out_facts None w Hl Hc)
    as (nd & _ & _ & _ & _ & _ & _ & Hpb & _ & _ & _ & Hsz).
  set (i := special_info (access_rec w)) in *.
  set (c := calculate_chunk_num (ndims i) (seek_chunk_indices i) (ddims i)) in *.
  set (off := calculate_seek_in_chunk (ndims i) (nt_size i) (seek_pos_chunk i) (ddims i)) in *.
  set (r := calculate_chunk_for_chunk (ndims i) (nt_size i) write_len bw
              (seek_chunk_indices i) (seek_pos_chunk i) (ddims i)) in *.
  inv_bind H; try discriminate.
  apply insert_if_absent_content in Hm as (Hc1 & Hs1 & Hin1 & Hsk1 & Hpo1); [|done].
  inv_bind H; try discriminate. inv_on_fail Hm; try discriminate. injection He as <-.
  pose proof (mcache_get_spec _ _ _ _ Hm) as ([Hst2 Hsk2 Hpo2 _ _] & _).
  apply mcache_get_content in Hm as (Hc2 & Hs2 & Hd & Hpg); [|done].
  assert (Epg : c +i 1 - 1 = c) by (apply page_of_chunk; [done|lia]).
  rewrite Epg in Hd.
  inv_bind H; try discriminate.
  pose proof (page_memcpy_spec _ _ _ _ _ _ _ Hm) as (_ & [Hst3 Hsk3 Hpo3 _ _] & _).
  destruct a1.
  inv_bind H; try discriminate. inv_on_fail Hm0; try discriminate.
  pose proof (mcache_put_spec _ _ _ _ _ Hm0) as ([Hst4 Hsk4 Hpo4 _ _] & _).
  destruct Hs1 as (Hk1 & Hcont1 & Htree1). destruct Hs2 as (Hk2 & Hcont2 & Htree2).
  pose proof Hk1 as (Hst1 & _). pose proof Hk2 as (Hst2' & _).
  destruct (static_sizes _ _ Hst1) as (_ & _ & _ & _ & Hpb1).
  destruct (static_sizes _ _ Hst2) as (_ & _ & _ & _ & Hpb2).
  pose proof (chunk_content_length _ _ _ _ Hc1 Hd) as Hdl.
  assert (Hupd : forall p0 : bytes, Z.of_nat (length p0) = pagebytes w1 ->
            Z.of_nat (length (memcpy_at p0 off bptr r)) = pagebytes w1).
  { intros p0 Hp0. rewrite length_memcpy_at; lia. }
  destruct (write_page_content _ _ _ _ _ _ _ _ Hc2 ltac:(rewrite Epg; by apply Htree2)
              Hupd Hm Hm0)
    as (Hc3 & Hk3 & _ & Hoth & Hnew).
  rewrite Epg in Hnew. specialize (Hnew a0). rewrite Hcont2 in Hnew. specialize (Hnew Hd).
  rewrite Hcont1 in Hd.
  rewrite (add_small bw r), (add_small rel r) in H
    by (unfold in_range, min_signed, max_signed in *; lia).
  assert (Hwf3 : wf_elem w3).
  { apply (wf_elem_moved w); [congruence|congruence|congruence|apply Hl]. }
  inv_bind H; try discriminate.
  pose proof (seek_to_chunks _ _ _ _ Hm1) as (_ & Hsc4 & Hk4).
  apply seek_to_wf in Hm1 as (_ & Hwf4 & Hat4 & Hpo5 & Hst5); [|done|lia].
  pose proof (same_chunks_coherent _ _ _ Hsc4 Hc3) as Hc4.
  pose proof (same_chunks_same_content _ _ Hsc4 Hk4) as Hs4.
  assert (Hk : kept w w4).
  { eapply kept_trans; [exact Hk1|]. eapply kept_trans; [exact Hk2|].
    eapply kept_trans; [exact Hk3|exact Hk4]. }
  pose proof (laid_out_kept _ _ Hk Hwf4 Hl) as Hl4.
  pose proof Hk as (Hst & _).
  destruct (static_fields _ _ Hst) as (_ & _ & Hnt & _ & _).
  pose proof (logical_size_static _ _ Hst) as Hls.
  apply IH in H as (Hc' & Hl' & Hk' & Hpo' & Hbytes); try done; try lia.
  2:{ rewrite Hnt. intros Hmore. apply Hal'. lia. }
  2:{ rewrite length_drop. lia. }
  split; [done|]. split; [done|]. split; [by eapply kept_trans|].
  split; [congruence|].
  intros x Hx. rewrite Hbytes by lia.
  assert (Hpass : byte_at w4 x
                  = if decide (rel <= x < rel + r)
                    then bptr !! Z.to_nat (x - rel) else byte_at w x).
  { rewrite (byte_at_same w3 w4) by done. unfold byte_at.
    destruct (address_static w w3 x) as [-> ->]; [congruence|].
    pose proof (offset_of_bound None w x Hl Hc ltac:(lia)) as Hob.
    destruct (decide (chunk_of w x = c)) as [Ec|Ec].
    - rewrite Ec, Hnew, Hd. cbn [mbind option_bind].
      rewrite lookup_memcpy_at by lia. rewrite Z2Nat.id by lia.
      destruct (decide (off <= offset_of w x < off + r)) as [Hio|Hio].
      + destruct (Hinj x Hx Ec Hio) as [Hx1 Hx2]. rewrite decide_True by lia.
        destruct (Hrow (x - rel) ltac:(lia)) as [_ Ho].
        replace (rel + (x - rel)) with x in Ho by lia.
        f_equal. lia.
      + destruct (decide (rel <= x < rel + r)) as [Hxr|Hxr]; [|done].
        destruct (Hrow (x - rel) ltac:(lia)) as [_ Ho].
        replace (rel + (x - rel)) with x in Ho by lia. lia.
    - rewrite Hoth by lia. rewrite Hcont2, Hcont1.
      destruct (decide (rel <= x < rel + r)) as [Hxr|Hxr]; [|done].
      destruct (Hrow (x - rel) ltac:(lia)) as [Hch _].
      replace (rel + (x - rel)) with x in Hch by lia. done. }
  rewrite Hpass.
  destruct (decide (rel + r <= x < rel + r + (write_len - (bw + r)))) as [H1|H1].
  - rewrite decide_True by lia. rewrite lookup_drop. f_equal. lia.
  - destruct (decide (rel <= x < rel + r)) as [H2|H2].
    + by rewrite decide_True by lia.
    + by rewrite decide_False by lia.
Qed.


(** The loop of [HMCPread], byte by byte: what it appends to the buffer
    are the bytes of the range it reads. *)
Lemma HMCPread_loop_bytes fuel : forall read_len br rel bptr w n d w',
  coherent None w -> laid_out w -> seek_at w rel ->
  0 <= br <= read_len -> read_len <= max_signed -> 0 <= rel ->
  (br < read_len -> rel mod nt_size (special_info (access_rec w)) = 0) ->
  rel + (read_len - br) <= logical_size w ->
  HMCPread_loop fuel read_len br rel bptr w = (Ret (n, d), w') ->
  exists tail,
    d = bptr ++ tail /\ Z.of_nat (length tail) = read_len - br /\
    forall t : nat, Z.of_nat t < read_len - br ->
                    tail !! t = byte_at w (rel + Z.of_nat t).
Proof.
  induction fuel as [|fuel IH]; intros read_len br rel bptr w n d w'
    Hc Hl Hat Hbr Hlen Hrel Hal Hend H;
    cbn [HMCPread_loop] in H; destruct (br <? read_len) eqn:Hlt;
    try discriminate;
    try (apply Z.ltb_ge in Hlt; injection H as <- <- <-; exists [];
         split; [by rewrite app_nil_r|]; split; [simpl; lia|]; intros t Ht; lia).
  apply Z.ltb_lt in Hlt.
  inv_bind H; unfold get_info in Hm; try discriminate. injection Hm as <- <-.
  cbv zeta in H.
  destruct (pass_geometry None w rel read_len br Hl Hc Hat Hrel (Hal Hlt)
              ltac:(lia) Hlen Hend)
    as (Hcn & Hcr & Hoff & Hoff0 & Hr & Hfit & Hal' & Hrow & Hinj).
  destruct (laid_out_facts None w Hl Hc)
    as (nd & _ & _ & _ & _ & _ & _ & Hpb & _ & _ & _ & Hsz).
  set (i := special_info (access_rec w)) in *.
  set (c := calculate_chunk_num (ndims i) (seek_chunk_indices i) (ddims i)) in *.
  set (off := calculate_seek_in_chunk (ndims i) (nt_size i) (seek_pos_chunk i) (ddims i)) in *.
  set (r := calculate_chunk_for_chunk (ndims i) (nt_size i) read_len br
              (seek_chunk_indices i) (seek_pos_chunk i) (ddims i)) in *.
  inv_bind H; try discriminate. inv_on_fail Hm; try discriminate. injection He as <-.
  pose proof (mcache_get_spec _ _ _ _ Hm) as ([Hst1 Hsk1 Hpo1 _ _] & _).
  apply mcache_get_content in Hm as (Hc1 & Hs1 & Hd & Hpg); [|done].
  assert (Epg : c +i 1 - 1 = c) by (apply page_of_chunk; [done|lia]).
  rewrite Epg in Hd.
  pose proof (chunk_content_length _ _ _ _ Hc Hd) as Hdl.
  inv_bind H; try discriminate. inv_on_fail Hm; try discriminate.
  pose proof (mcache_put_spec _ _ _ _ _ Hm) as ([Hst2 Hsk2 Hpo2 _ _] & _).
  apply mcache_put_content in Hm as (Hc2 & Hs2); [|done|by intros ?].
  rewrite (add_small br r), (add_small rel r) in H
    by (unfold in_range, min_signed, max_signed in *; lia).
  assert (Hwf2 : wf_elem w1).
  { apply (wf_elem_moved w); [congruence|congruence|congruence|apply Hl]. }
  inv_bind H; try discriminate.
  pose proof (seek_to_chunks _ _ _ _ Hm) as (_ & Hsc3 & Hk3).
  apply seek_to_wf in Hm as (_ & Hwf3 & Hat3 & Hpo3 & Hst3); [|done|lia].
  pose proof (same_chunks_coherent _ _ _ Hsc3 Hc2) as Hc3.
  pose proof (same_chunks_same_content _ _ Hsc3 Hk3) as Hs3.
  assert (Hs : same_content w w2).
  { eapply same_content_trans; [exact Hs1|].
    eapply same_content_trans; [exact Hs2|exact Hs3]. }
  pose proof Hs as (Hk & _). pose proof Hk as (Hst & _).
  pose proof (laid_out_kept _ _ Hk Hwf3 Hl) as Hl3.
  destruct (static_fields _ _ Hst) as (_ & _ & Hnt & _ & _).
  pose proof (logical_size_static _ _ Hst) as Hls.
  apply IH in H as (tail & -> & Htl & Hbytes); try done; try lia.
  2:{ rewrite Hnt. intros Hmore. apply Hal'. lia. }
  pose proof (length_memcpy_from a off r Hoff0 ltac:(lia) ltac:(lia)) as Hpl.
  exists (memcpy_from a off r ++ tail).
  split; [by rewrite app_assoc|]. split; [rewrite length_app; lia|].
  intros t Ht. destruct (decide (Z.of_nat t < r)) as [Hin|Hout].
  - rewrite lookup_app_l by lia. rewrite lookup_memcpy_from by lia.
    destruct (Hrow (Z.of_nat t) ltac:(lia)) as [Hch Ho].
    unfold byte_at. rewrite Hch, Ho, Hd. cbn [mbind option_bind]. f_equal. lia.
  - rewrite lookup_app_r by lia. rewrite Hbytes by lia.
    rewrite (byte_at_same w w2) by done. f_equal. lia.
Qed.

Lemma wf_elem_at w w' :
  static w' = static w -> seek_state w' = seek_state w ->
  0 <= posn (access_rec w') <= max_signed -> wf_elem w -> wf_elem w'.
Proof.
  intros Hst Hsk Hpo [H1 H2 H3 H4 H5 H6 H7 H8 H9].
  unfold static, seek_state in *.
  injection Hst as _ _ _ _ _ Hil _ Hnt Hnd Hdd _ _. injection Hsk as Hsbi Hspb _.
  constructor; rewrite ?Hsbi, ?Hspb, ?Hil, ?Hnt, ?Hnd, ?Hdd; done.
Qed.


(** [HMCPwrite] inside the element, byte by byte. *)
Lemma HMCPwrite_bytes len data w n w' :
  coherent None w -> laid_out w ->
  let p := posn (access_rec w) in
  p mod nt_size (special_info (access_rec w)) = 0 ->
  0 < len -> p + len <= logical_size w -> len <= Z.of_nat (length data) ->
  HMCPwrite len data w = (Ret n, w') ->
  n = len /\ coherent None w' /\ laid_out w' /\ kept w w' /\
  posn (access_rec w') = p + len /\
  forall x, 0 <= x < logical_size w ->
    byte_at w' x = if decide (p <= x < p + len)
                   then data !! Z.to_nat (x - p) else byte_at w x.
Proof.
  intros Hc Hl p Hal Hlen Hend Hsrc H.
  destruct (laid_out_facts None w Hl Hc)
    as (nd & _ & _ & _ & _ & _ & _ & _ & _ & _ & _ & Hsz).
  pose proof (lay_wf _ Hl) as Hwf. pose proof (wf_posn _ Hwf) as Hp. fold p in Hp.
  unfold HMCPwrite in H.
  inv_bind H; unfold get_access in Hm; try discriminate. injection Hm as <- <-.
  inv_bind H; unfold get_file in Hm; try discriminate. injection Hm as <- <-.
  replace (len <=? 0) with false in H by (symmetry; apply Z.leb_gt; lia).
  destruct (BADFREC (file_rec w)); [discriminate|]. fold p in H.
  inv_bind H; try discriminate.
  pose proof (seek_to_chunks _ _ _ _ Hm) as (_ & Hsc1 & Hk1).
  apply seek_to_wf in Hm as (_ & Hwf1 & Hat1 & Hpo1 & Hst1); [|done|lia].
  pose proof (same_chunks_coherent _ _ _ Hsc1 Hc) as Hc1.
  pose proof (same_chunks_same_content _ _ Hsc1 Hk1) as Hs1.
  pose proof (laid_out_kept _ _ Hk1 Hwf1 Hl) as Hl1.
  destruct (static_fields _ _ Hst1) as (_ & _ & Hnt1 & _ & _).
  pose proof (logical_size_static _ _ Hst1) as Hls1.
  inv_bind H; try discriminate.
  pose proof Hm as Hn.
  apply HMCPwrite_loop_progress in Hn as (_ & Hres); try done; try lia.
  destruct Hres as [(e & He)|He]; [discriminate|]. injection He as ->.
  apply HMCPwrite_loop_bytes in Hm as (Hc2 & Hl2 & Hk2 & Hpo2 & Hbytes);
    try done; try lia.
  2:{ by rewrite Hnt1. }
  inv_bind H; try discriminate.
  pose proof (set_posn_chunks _ _ _ _ Hm) as (_ & Hsc3 & Hk3).
  apply set_posn_spec in Hm as (_ & _ & _ & Hsk3 & Hpo3).
  injection H as <- <-.
  rewrite add_small in Hpo3 by (unfold in_range, min_signed, max_signed in *; lia).
  pose proof (same_chunks_coherent _ _ _ Hsc3 Hc2) as Hc3.
  pose proof (same_chunks_same_content _ _ Hsc3 Hk3) as Hs3.
  assert (Hwf3 : wf_elem w2).
  { apply (wf_elem_at w1); [apply Hk3|done|lia|apply Hl2]. }
  split; [done|]. split; [done|].
  split; [by apply (laid_out_kept w1)|].
  split; [eapply kept_trans; [exact Hk1|]; by eapply kept_trans|].
  split; [done|].
  intros x Hx. rewrite (byte_at_same w1 w2) by done. rewrite Hbytes by lia.
  rewrite Z.sub_0_r. destruct (decide _); [done|]. by apply byte_at_same.
Qed.

(** [HMCPread] inside the element, byte by byte. *)
Lemma HMCPread_bytes len w n d w' :
  coherent None w -> laid_out w ->
  let p := posn (access_rec w) in
  p mod nt_size (special_info (access_rec w)) = 0 ->
  0 < len -> p + len <= logical_size w ->
  HMCPread len w = (Ret (n, d), w') ->
  n = len /\ Z.of_nat (length d) = len /\
  forall t : nat, Z.of_nat t < len -> d !! t = byte_at w (p + Z.of_nat t).
Proof.
  intros Hc Hl p Hal Hlen Hend H.
  destruct (laid_out_facts None w Hl Hc)
    as (nd & _ & _ & _ & _ & _ & _ & _ & _ & _ & _ & Hsz).
  pose proof (lay_wf _ Hl) as Hwf. pose proof (wf_posn _ Hwf) as Hp. fold p in Hp.
  unfold HMCPread in H.
  inv_bind H; unfold get_access in Hm; try discriminate. injection Hm as <- <-.
  inv_bind H; unfold get_info in Hm; try discriminate. injection Hm as <- <-.
  replace (len <? 0) with false in H by (symmetry; apply Z.ltb_ge; lia).
  replace (len =? 0) with false in H by (symmetry; apply Z.eqb_neq; lia).
  cbv zeta in H. fold p in H.
  change (info_length (special_info (access_rec w)) *i nt_size (special_info (access_rec w)))
    with (logical_size w) in H.
  rewrite add_small in H by (unfold in_range, min_signed, max_signed in *; lia).
  replace (p + len >? logical_size w) with false in H
    by (symmetry; rewrite Z.gtb_ltb; apply Z.ltb_ge; lia).
  inv_bind H; try discriminate.
  pose proof (seek_to_chunks _ _ _ _ Hm) as (_ & Hsc1 & Hk1).
  apply seek_to_wf in Hm as (_ & Hwf1 & Hat1 & Hpo1 & Hst1); [|done|lia].
  pose proof (same_chunks_coherent _ _ _ Hsc1 Hc) as Hc1.
  pose proof (same_chunks_same_content _ _ Hsc1 Hk1) as Hs1.
  pose proof (laid_out_kept _ _ Hk1 Hwf1 Hl) as Hl1.
  destruct (static_fields _ _ Hst1) as (_ & _ & Hnt1 & _ & _).
  pose proof (logical_size_static _ _ Hst1) as Hls1.
  inv_bind H; try discriminate. destruct a0 as [n0 d0].
  pose proof Hm as Hn.
  apply HMCPread_loop_progress in Hn as (_ & Hres); try done; try lia.
  destruct Hres as [He|(d1 & He & _)]; [discriminate|]. injection He as -> <-.
  apply HMCPread_loop_bytes in Hm as (tail & -> & Htl & Hbytes);
    try done; try lia.
  2:{ by rewrite Hnt1. }
  inv_bind H; try discriminate. injection H as <- <- <-.
  split; [done|]. split; [simpl; lia|].
  intros t Ht. simpl. rewrite Hbytes by lia. by apply byte_at_same.
Qed.

(** [HMCPseek] from the start of the element leaves the bytes alone. *)
Lemma HMCPseek_bytes p w r w' :
  coherent None w -> laid_out w ->
  special (access_rec w) = SPECIAL_CHUNKED -> 0 <= p <= max_signed ->
  HMCPseek p DF_START w = (r, w') ->
  r = Ret 0 /\ coherent None w' /\ laid_out w' /\ same_content w w' /\
  posn (access_rec w') = p.
Proof.
  intros Hc Hl Hsp Hp H. pose proof (lay_wf _ Hl) as Hwf.
  assert (Hr : r = Ret 0).
  { rewrite HMCPseek_unfold in H by done. cbv zeta in H.
    change (DF_START =? DF_CURRENT) with false in H.
    change (DF_START =? DF_END) with false in H. cbv iota in H.
    replace (p <? 0) with false in H by (symmetry; apply Z.ltb_ge; lia).
    by injection H as <- _. }
  subst r.
  destruct (HMCPseek_content _ _ _ _ _ Hc H) as (Hc1 & Hs1).
  split; [done|]. split; [done|].
  unfold HMCPseek in H. unfold bind at 1, get_access in H.
  rewrite Hsp, Z.eqb_refl in H. cbn [negb] in H. unfold bind at 1, get_info in H.
  cbv zeta in H.
  change (DF_START =? DF_CURRENT) with false in H.
  change (DF_START =? DF_END) with false in H. cbv iota in H.
  replace (p <? 0) with false in H by (symmetry; apply Z.ltb_ge; lia).
  inv_bind H; try discriminate.
  apply seek_to_wf in Hm as (_ & Hwf2 & _ & _ & Hst2); [|done|lia].
  inv_bind H; try discriminate.
  apply set_posn_spec in Hm as (_ & [Hst3 _ _] & _ & Hsk3 & Hpo3).
  injection H as <-.
  assert (Hwf3 : wf_elem w1) by (apply (wf_elem_at w0); [done|done|lia|done]).
  split; [by apply (laid_out_kept w); [apply Hs1| |]|]. done.
Qed.


(** Two lists of bytes of the same length that agree byte by byte. *)
Lemma bytes_eq (d d' : bytes) (m : Z) :
  Z.of_nat (length d) = m -> Z.of_nat (length d') = m ->
  (forall t : nat, Z.of_nat t < m -> d !! t = d' !! t) -> d = d'.
Proof.
  intros Hd Hd' H. apply list_eq. intros t.
  destruct (decide (Z.of_nat t < m)) as [Ht|Ht]; [by apply H|].
  rewrite !lookup_ge_None_2 by lia. done.
Qed.

(** X24.  What [HMCPwrite] writes inside the element is what [HMCPread]
    reads back.  On an open chunked element laid out as [HMCcreate] lays
    it out, whose cache and chunk records agree with the file, with the
    position on an element boundary: a write of [length]
    bytes that ends inside the element and succeeds returns [length] and
    leaves the position behind the bytes written; the seek back to where
    it began succeeds; and the read of [length] bytes from there comes
    back, and unless the cache fails it returns [length] and the first
    [length] bytes of the buffer written, across however many chunks the
    range spans, and leaves the position behind them. *)
Theorem HMCPwrite_then_HMCPread (len : Z) (data : bytes) (w : world) n w1 r0 w2 :
  coherent None w -> laid_out w -> special (access_rec w) = SPECIAL_CHUNKED ->
  let p := posn (access_rec w) in
  p mod nt_size (special_info (access_rec w)) = 0 ->
  0 < len -> p + len <= logical_size w -> len <= Z.of_nat (length data) ->
  HMCPwrite len data w = (Ret n, w1) ->
  HMCPseek p DF_START w1 = (r0, w2) ->
  n = len /\ posn (access_rec w1) = p + len /\ r0 = Ret 0 /\
  exists r w3,
    HMCPread len w2 = (r, w3) /\
    (r = Err DFE_REPORT \/
     (r = Ret (len, take (Z.to_nat len) data) /\ posn (access_rec w3) = p + len)).
Proof.
  intros Hc Hl Hsp p Hal Hlen Hend Hsrc Hw Hs.
  destruct (laid_out_facts None w Hl Hc)
    as (nd & _ & _ & _ & _ & _ & _ & _ & _ & _ & _ & Hsz).
  pose proof (wf_posn _ (lay_wf _ Hl)) as Hp. fold p in Hp.
  destruct (HMCPwrite_bytes len data w n w1 Hc Hl Hal Hlen Hend Hsrc Hw)
    as (-> & Hc1 & Hl1 & Hk1 & Hpo1 & Hb1).
  fold p in Hpo1, Hb1. pose proof Hk1 as (Hst1 & _).
  destruct (static_fields _ _ Hst1) as (Hsp1 & _ & Hnt1 & _ & _).
  destruct (HMCPseek_bytes p w1 r0 w2 Hc1 Hl1 ltac:(congruence) Hp Hs)
    as (-> & Hc2 & Hl2 & Hs2 & Hpo2).
  pose proof Hs2 as ((Hst2 & _) & _).
  destruct (static_fields _ _ Hst2) as (_ & _ & Hnt2 & _ & _).
  pose proof (logical_size_static _ _ Hst1) as Hls1.
  pose proof (logical_size_static _ _ Hst2) as Hls2.
  split; [done|]. split; [done|]. split; [done|].
  destruct (HMCPread_length len w2 (lay_wf _ Hl2)) as (_ & Hrd).
  destruct Hrd as (r & w3 & Hr & Hres); [lia|rewrite Hpo2; lia|].
  exists r, w3. split; [done|].
  destruct Hres as [->|(d & -> & _ & Hpo3)]; [by left|]. right.
  match type of Hr with _ = (Ret (?e, _), _) => set (n' := e) in * end.
  destruct (HMCPread_bytes len w2 n' d w3 Hc2 Hl2) as (En & Hdl & Hd);
    [by rewrite Hpo2, Hnt2, Hnt1|lia|rewrite Hpo2; lia|exact Hr|].
  rewrite En in *. rewrite Hpo2 in Hpo3, Hd. split; [|done].
  f_equal. f_equal. apply (bytes_eq _ _ len); [done|rewrite length_take; lia|].
  intros t Ht. rewrite Hd by done. rewrite (byte_at_same w1 w2) by done.
  rewrite Hb1 by lia. rewrite decide_True by lia.
  rewrite lookup_take_lt by lia. f_equal. lia.
Qed.

(** X25.  [HMCPwrite] changes no byte outside the range it writes: a
    range of the element that does not meet the range written reads,
    after the write, as it read before it.  On an element laid out as
    [HMCcreate] lays it out, whose cache and chunk records agree with the
    file, with both ranges inside the element and starting on element
    boundaries: when the seek to [q] and the read of
    [m] bytes return [d] before the write, then after a successful write
    the seek to [q] succeeds and the read of [m] bytes comes back, and
    unless the cache fails it returns the same bytes [d]. *)
Theorem HMCPwrite_leaves_other_bytes
    (len : Z) (data : bytes) (q m : Z) (w : world) ra wa k d wb n w1 r0 w2 :
  coherent None w -> laid_out w -> special (access_rec w) = SPECIAL_CHUNKED ->
  let p := posn (access_rec w) in
  let nt := nt_size (special_info (access_rec w)) in
  p mod nt = 0 -> 0 < len -> p + len <= logical_size w -> len <= Z.of_nat (length data) ->
  0 <= q -> q mod nt = 0 -> 0 < m -> q + m <= logical_size w ->
  q + m <= p \/ p + len <= q ->
  HMCPseek q DF_START w = (ra, wa) -> HMCPread m wa = (Ret (k, d), wb) ->
  HMCPwrite len data w = (Ret n, w1) ->
  HMCPseek q DF_START w1 = (r0, w2) ->
  k = m /\ r0 = Ret 0 /\
  exists r w3,
    HMCPread m w2 = (r, w3) /\ (r = Err DFE_REPORT \/ r = Ret (m, d)).
Proof.
  intros Hc Hl Hsp p nt Hal Hlen Hend Hsrc Hq Hqal Hm Hqend Hdisj Hsa Hra Hw Hs.
  destruct (laid_out_facts None w Hl Hc)
    as (nd & _ & _ & _ & _ & _ & _ & _ & _ & _ & _ & Hsz).
  pose proof (wf_posn _ (lay_wf _ Hl)) as Hp. fold p in Hp.
  destruct (HMCPseek_bytes q w ra wa Hc Hl Hsp ltac:(lia) Hsa)
    as (-> & Hca & Hla & Hsa' & Hpoa).
  pose proof Hsa' as ((Hsta & _) & _).
  destruct (static_fields _ _ Hsta) as (_ & _ & Hnta & _ & _).
  pose proof (logical_size_static _ _ Hsta) as Hlsa.
  destruct (HMCPread_bytes m wa k d wb Hca Hla) as (-> & Hdl & Hd);
    [by rewrite Hpoa, Hnta|lia|rewrite Hpoa; lia|exact Hra|].
  rewrite Hpoa in Hd.
  destruct (HMCPwrite_bytes len data w n w1 Hc Hl Hal Hlen Hend Hsrc Hw)
    as (-> & Hc1 & Hl1 & Hk1 & Hpo1 & Hb1).
  fold p in Hpo1, Hb1. pose proof Hk1 as (Hst1 & _).
  destruct (static_fields _ _ Hst1) as (Hsp1 & _ & Hnt1 & _ & _).
  destruct (HMCPseek_bytes q w1 r0 w2 Hc1 Hl1 ltac:(congruence) ltac:(lia) Hs)
    as (-> & Hc2 & Hl2 & Hs2 & Hpo2).
  pose proof Hs2 as ((Hst2 & _) & _).
  destruct (static_fields _ _ Hst2) as (_ & _ & Hnt2 & _ & _).
  pose proof (logical_size_static _ _ Hst1) as Hls1.
  pose proof (logical_size_static _ _ Hst2) as Hls2.
  split; [done|]. split; [done|].
  destruct (HMCPread_length m w2 (lay_wf _ Hl2)) as (_ & Hrd).
  destruct Hrd as (r & w3 & Hr & Hres); [lia|rewrite Hpo2; lia|].
  exists r, w3. split; [done|].
  destruct Hres as [->|(d' & -> & _ & _)]; [by left|]. right.
  match type of Hr with _ = (Ret (?e, _), _) => set (n' := e) in * end.
  destruct (HMCPread_bytes m w2 n' d' w3 Hc2 Hl2) as (En & Hdl' & Hd');
    [by rewrite Hpo2, Hnt2, Hnt1|lia|rewrite Hpo2; lia|exact Hr|].
  rewrite En in *. rewrite Hpo2 in Hd'.
  f_equal. f_equal. apply (bytes_eq _ _ m); [done|done|].
  intros t Ht. rewrite Hd, Hd' by done.
  rewrite (byte_at_same w1 w2) by done. rewrite Hb1 by lia.
  rewrite decide_False by lia. symmetry. by apply byte_at_same.
Qed.


(** The element of the examples: 10 x 10 bytes in chunks of 4 x 4, just
    created. *)
Lemma example_fresh :
  let w := HMCcreate_world 0 16 1 [mkDIM_DEF 0 10 4; mkDIM_DEF 0 10 4] 1
             [Byte.x2a] (mkfilerec_t 3 1 ∅ 2 []) in
  coherent None w /\ laid_out w.
Proof.
  intros w. split.
  - apply coherent_fresh; by_evaluation.
  - constructor; [|by_evaluation|by_evaluation|by_evaluation].
    constructor;
      [by_evaluation | by_evaluation | by_evaluation | by_evaluation
      | repeat constructor; by_evaluation | by_evaluation
      | repeat constructor; by_evaluation | by_evaluation | by_evaluation].
Qed.

(** 30 bytes written at offset 37 span four rows and four chunks. *)
Lemma HMCPwrite_then_HMCPread_witness :
  let w := (HMCPseek 37 DF_START
              (HMCcreate_world 0 16 1 [mkDIM_DEF 0 10 4; mkDIM_DEF 0 10 4] 1
                 [Byte.x2a] (mkfilerec_t 3 1 ∅ 2 []))).2 in
  let data := (fun k => Szip.byte_of_Z (Z.of_nat k)) <$> seq 1 30 in
  let w1 := (HMCPwrite 30 data w).2 in
  let w2 := (HMCPseek 37 DF_START w1).2 in
  (30 = 30 /\ posn (access_rec w1) = 37 + 30 /\
   (HMCPseek 37 DF_START w1).1 = Ret 0 /\
   exists r w3,
     HMCPread 30 w2 = (r, w3) /\
     (r = Err DFE_REPORT \/
      (r = Ret (30, take (Z.to_nat 30) data) /\ posn (access_rec w3) = 37 + 30))) /\
  (HMCPread 30 w2).1 = Ret (30, data).
Proof.
  intros w data w1 w2.
  destruct example_fresh as (Hc0 & Hl0).
  destruct (HMCPseek_bytes 37 _ (Ret 0) w Hc0 Hl0) as (_ & Hc & Hl & _ & _);
    [by_evaluation | by_evaluation | by_evaluation |].
  split; [|by_evaluation].
  apply (HMCPwrite_then_HMCPread 30 data w 30 w1 (HMCPseek 37 DF_START w1).1 w2 Hc Hl);
    [by_evaluation | by_evaluation | lia | by_evaluation | by_evaluation
    | by_evaluation | apply surjective_pairing].
Defined.

(** The element holds the bytes 0 .. 99; after 30 bytes were written at
    offset 37, the 33 bytes from offset 67 on read as before. *)
Lemma HMCPwrite_leaves_other_bytes_witness :
  let w0 := HMCcreate_world 0 16 1 [mkDIM_DEF 0 10 4; mkDIM_DEF 0 10 4] 1
              [Byte.x2a] (mkfilerec_t 3 1 ∅ 2 []) in
  let all := (fun k => Szip.byte_of_Z (Z.of_nat k)) <$> seq 0 100 in
  let w := (HMCPseek 37 DF_START (HMCPwrite 100 all w0).2).2 in
  let wa := (HMCPseek 67 DF_START w).2 in
  let d := (fun k => Szip.byte_of_Z (Z.of_nat k)) <$> seq 67 33 in
  let w1 := (HMCPwrite 30 (replicate 30 Byte.xff) w).2 in
  let w2 := (HMCPseek 67 DF_START w1).2 in
  (HMCPread 33 wa).1 = Ret (33, d) /\
  (33 = 33 /\ (HMCPseek 67 DF_START w1).1 = Ret 0 /\
   exists r w3, HMCPread 33 w2 = (r, w3) /\ (r = Err DFE_REPORT \/ r = Ret (33, d))) /\
  (HMCPread 33 w2).1 = Ret (33, d) /\
  (HMCPread 30 (HMCPseek 37 DF_START w1).2).1 = Ret (30, replicate 30 Byte.xff).
Proof.
  intros w0 all w wa d w1 w2.
  destruct example_fresh as (Hc0 & Hl0). fold w0 in Hc0, Hl0.
  destruct (HMCPwrite_bytes 100 all w0 100 (HMCPwrite 100 all w0).2 Hc0 Hl0)
    as (_ & Hc0' & Hl0' & _);
    [by_evaluation | lia | by_evaluation | by_evaluation | by_evaluation |].
  destruct (HMCPseek_bytes 37 _ (Ret 0) w Hc0' Hl0') as (_ & Hc & Hl & _ & _);
    [by_evaluation | by_evaluation | by_evaluation |].
  split; [by_evaluation|]. split; [|split; by_evaluation].
  apply (HMCPwrite_leaves_other_bytes 30 (replicate 30 Byte.xff) 67 33 w
           (Ret 0) wa 33 d (HMCPread 33 wa).2 30 w1 (HMCPseek 67 DF_START w1).1 w2 Hc Hl);
    [by_evaluation | by_evaluation | lia | by_evaluation | by_evaluation | lia
    | by_evaluation | lia | by_evaluation | right; by_evaluation | by_evaluation
    | by_evaluation | by_evaluation | apply surjective_pairing].
Defined.

End Bytes.
